(** * Nonogram solver: a shallow embedding of [nonogram/solver.py],
      [nonogram/model.py] and the clue check of [nonogram/gui.py], and the
      properties of its specification.

    Python integers are [Z]; tuples and lists are [list]; a grid is a list of
    references to row objects living in a heap, because the engine mutates
    rows in place and copies them row by row. *)

From stdpp Require Import base tactics option list numbers strings.
From Stdlib Require Import ZArith Lia.

Local Open Scope Z_scope.

(** ** Outcomes of a computation *)

(** [IndexError] and [Cancelled] are the two Python exceptions the engine
    raises by its own code.  The limits of the interpreter are not modelled:
    [RecursionError], which [place] reaches with a clue of about a thousand
    blocks and [dfs] with as many nested branches, and [MemoryError].
    [OutOfFuel] marks a loop cut short by the model's step bound and
    [BadRef] a reference to a row that is not in the heap; neither
    corresponds to a Python behaviour. *)
Inductive abort := IndexError | Cancelled | OutOfFuel | BadRef.

Inductive outcome (A : Type) :=
  | Ret (a : A)
  | Abort (e : abort).
Arguments Ret {A} a.
Arguments Abort {A} e.

Global Instance abort_eq_dec : EqDecision abort.
Proof. solve_decision. Defined.

Definition obind {A B} (m : outcome A) (k : A → outcome B) : outcome B :=
  match m with
  | Ret a => k a
  | Abort e => Abort e
  end.

Notation "'let?' x := m 'in' k" := (obind m (λ x, k))
  (at level 10, x pattern, m at level 100, k at level 200,
   format "'[' 'let?'  x  :=  m  'in' ']' '/' k").

(** ** Cell values *)

Definition UNKNOWN : Z := -1.
Definition EMPTY : Z := 0.
Definition FILLED : Z := 1.

(** ** Python sequences *)

(** [len(l)] *)
Definition len {A} (l : list A) : Z := Z.of_nat (length l).

(** [range(a, b)] *)
Definition range (a b : Z) : list Z := seqZ a (b - a).

(** The position a Python index denotes in a sequence of [n] items:
    negative indices count from the end, anything else is out of range. *)
Definition py_index (n : nat) (i : Z) : option nat :=
  if decide (0 ≤ i < Z.of_nat n) then Some (Z.to_nat i)
  else if decide (- Z.of_nat n ≤ i < 0) then Some (Z.to_nat (Z.of_nat n + i))
  else None.

(** [l[i]] *)
Definition getitem {A} (l : list A) (i : Z) : outcome A :=
  match py_index (length l) i ≫= (l !!.) with
  | Some x => Ret x
  | None => Abort IndexError
  end.

(** [l[i] = v] *)
Definition setitem {A} (l : list A) (i : Z) (v : A) : outcome (list A) :=
  match py_index (length l) i with
  | Some k => Ret (<[k:=v]> l)
  | None => Abort IndexError
  end.

(** [sum(l)] *)
Definition sum (l : list Z) : Z := foldr Z.add 0 l.

(** [for i in idxs: if xs[i] == v: <leave with False>] and [True] otherwise.
    The scan stops at the first hit, so later indices are not read. *)
Fixpoint scan_ne (xs : list Z) (v : Z) (idxs : list Z) : outcome bool :=
  match idxs with
  | [] => Ret true
  | i :: idxs' =>
      let? x := getitem xs i in
      if decide (x = v) then Ret false else scan_ne xs v idxs'
  end.

(** [for i in idxs: line[i] = v] *)
Fixpoint fill (line : list Z) (v : Z) (idxs : list Z) : outcome (list Z) :=
  match idxs with
  | [] => Ret line
  | i :: idxs' => let? line' := setitem line i v in fill line' v idxs'
  end.

(** A [for] loop over [xs] threading a state through a fallible body. *)
Fixpoint for_each {X S} (body : X → S → outcome S) (xs : list X) (s : S)
    : outcome S :=
  match xs with
  | [] => Ret s
  | x :: xs' => let? s' := body x s in for_each body xs' s'
  end.

(** ** The line candidate generator: [_line_candidates] *)

(** The two mutable locals of [_line_candidates]: the scratch [line] and the
    [candidates] collected so far. *)
Record gen_state := GenState { line : list Z; candidates : list (list Z) }.

(** One iteration of [for start in range(pos, max_start + 1)] inside
    [place(idx, pos)], where [block = blocks[idx]], [remaining =
    blocks[idx + 1:]] and [rec] is [place(idx + 1, _)]. *)
Definition place_start (length : Z) (line_state : list Z)
    (block : Z) (remaining : list Z) (rec : Z → gen_state → outcome gen_state)
    (pos start : Z) (st : gen_state) : outcome gen_state :=
  let? ok := scan_ne line_state FILLED (range pos start) in
  if negb ok then Ret st else
  let? ok := scan_ne line_state EMPTY (range start (start + block)) in
  if negb ok then Ret st else
  let? l1 := fill (line st) FILLED (range start (start + block)) in
  let next_pos := start + block in
  let? st2 :=
    match remaining with
    | _ :: _ =>
        (* idx < len(blocks) - 1 *)
        if decide (next_pos >= length) then Ret None
        else
          let? x := getitem line_state next_pos in
          let? st' :=
            if decide (x = FILLED) then Ret (GenState l1 (candidates st))
            else
              let? l2 := setitem l1 next_pos EMPTY in
              rec (next_pos + 1) (GenState l2 (candidates st)) in
          let? l3 := setitem (line st') next_pos EMPTY in
          Ret (Some (GenState l3 (candidates st')))
    | [] =>
        let? st' := rec next_pos (GenState l1 (candidates st)) in
        Ret (Some st')
    end in
  match st2 with
  | None =>
      (* the [continue] after resetting the block *)
      let? l4 := fill l1 EMPTY (range start (start + block)) in
      Ret (GenState l4 (candidates st))
  | Some st' =>
      let? l4 := fill (line st') EMPTY (range start (start + block)) in
      Ret (GenState l4 (candidates st'))
  end.

(** [place(idx, pos)], with [blocks[idx:]] passed in place of [idx]:
    [idx == len(blocks)] is the empty suffix, [idx < len(blocks) - 1] a
    suffix with at least two blocks. *)
Fixpoint place (length : Z) (line_state : list Z) (blocks : list Z)
    (pos : Z) (st : gen_state) : outcome gen_state :=
  match blocks with
  | [] =>
      let? ok := scan_ne line_state FILLED (range pos length) in
      if ok then Ret (GenState (line st) (candidates st ++ [line st]))
      else Ret st
  | block :: remaining =>
      let min_rem_len := sum remaining + Z.max 0 (len remaining) in
      let max_start := length - (block + min_rem_len) in
      for_each
        (place_start length line_state block remaining
           (place length line_state remaining) pos)
        (range pos (max_start + 1)) st
  end.

Definition _line_candidates (length : Z) (blocks line_state : list Z)
    : outcome (list (list Z)) :=
  match blocks with
  | [] =>
      if bool_decide (FILLED ∈ line_state) then Ret []
      else Ret [replicate (Z.to_nat length) EMPTY]
  | _ :: _ =>
      let? st := place length line_state blocks 0
                   (GenState (replicate (Z.to_nat length) EMPTY) []) in
      Ret (candidates st)
  end.

(** ** The line reducer: [_intersect_candidates] *)

(** [for cand in rest: if cand[i] != v: same = False; break] *)
Fixpoint all_same (rest : list (list Z)) (i v : Z) : outcome bool :=
  match rest with
  | [] => Ret true
  | cand :: rest' =>
      let? x := getitem cand i in
      if decide (x = v) then all_same rest' i v else Ret false
  end.

(** [for x in xs: result.append(f(x))] for a fallible [f]. *)
Fixpoint map_each {X Y} (f : X → outcome Y) (xs : list X) : outcome (list Y) :=
  match xs with
  | [] => Ret []
  | x :: xs' => let? y := f x in let? ys := map_each f xs' in Ret (y :: ys)
  end.

Definition _intersect_candidates (cands : list (list Z)) : outcome (list Z) :=
  match cands with
  | [] => Ret []
  | c0 :: rest =>
      map_each
        (λ i, let? v := getitem c0 i in
              let? same := all_same rest i v in
              Ret (if same then v else UNKNOWN))
        (range 0 (len c0))
  end.

(** ** The heap of row objects *)

(** A row of a grid is a mutable Python list; a grid is a list of references
    to rows.  The heap maps a reference (its position) to the row's current
    contents, and a fresh row is allocated at the end. *)
Abbreviation heap := (list (list Z)).
Abbreviation grid := (list nat).

(** Computations over a state [S] that may abort; the state reached is kept
    in either case, as Python keeps the objects mutated before an exception. *)
Definition ST (S A : Type) : Type := S → outcome A * S.

Definition hret {S A} (a : A) : ST S A := λ s, (Ret a, s).

Definition hbind {S A B} (m : ST S A) (k : A → ST S B) : ST S B :=
  λ s, match m s with
       | (Ret a, s') => k a s'
       | (Abort e, s') => (Abort e, s')
       end.

Notation "'let!' x := m 'in' k" := (hbind m (λ x, k))
  (at level 10, x pattern, m at level 100, k at level 200,
   format "'[' 'let!'  x  :=  m  'in' ']' '/' k").

Definition lift {S A} (o : outcome A) : ST S A := λ s, (o, s).

(** Run a computation on one component of a larger state. *)
Definition zoom {S T A} (get : T → S) (set : S → T → T) (m : ST S A)
    : ST T A :=
  λ t, let (o, s') := m (get t) in (o, set s' t).

(** Computations that read and write rows. *)
Abbreviation H := (ST heap).

(** The contents of the row behind a reference. *)
Definition deref (l : nat) : H (list Z) :=
  λ h, match h !! l with
       | Some row => (Ret row, h)
       | None => (Abort BadRef, h)
       end.

Definition store (l : nat) (row : list Z) : H unit :=
  λ h, (Ret (), <[l:=row]> h).

Definition alloc (row : list Z) : H nat :=
  λ h, (Ret (length h), h ++ [row]).

(** [grid[r][c]] *)
Definition get_cell (g : grid) (r c : Z) : H Z :=
  let! l := lift (getitem g r) in
  let! row := deref l in
  lift (getitem row c).

(** [grid[r][c] = v] *)
Definition set_cell (g : grid) (r c v : Z) : H unit :=
  let! l := lift (getitem g r) in
  let! row := deref l in
  let! row' := lift (setitem row c v) in
  store l row'.

(** [for x in xs: acc = body(x, acc)] *)
Fixpoint hfor {X S} (body : X → S → H S) (xs : list X) (s : S) : H S :=
  match xs with
  | [] => hret s
  | x :: xs' => let! s' := body x s in hfor body xs' s'
  end.

(** A [for] loop whose body may leave the enclosing function with
    [return False, ...]: the body answers [(false, acc)] to leave. *)
Fixpoint hfor_break {X S} (body : X → S → H (bool * S)) (xs : list X) (s : S)
    : H (bool * S) :=
  match xs with
  | [] => hret (true, s)
  | x :: xs' =>
      let! (ok, s') := body x s in
      if ok then hfor_break body xs' s' else hret (false, s')
  end.

(** [[f(x) for x in xs]] *)
Fixpoint hmap {X Y} (f : X → H Y) (xs : list X) : H (list Y) :=
  match xs with
  | [] => hret []
  | x :: xs' => let! y := f x in let! ys := hmap f xs' in hret (y :: ys)
  end.

(** [[grid[r][c] for r in range(height)]] *)
Definition column (g : grid) (height c : Z) : H (list Z) :=
  hmap (λ r, get_cell g r c) (range 0 height).

(** [[row[:] for row in grid]] *)
Definition copy_grid (g : grid) : H grid :=
  hmap (λ l, let! row := deref l in alloc row) g.

(** [_is_solved] *)
Definition _is_solved (g : grid) : H bool :=
  let! rows := hmap deref g in
  hret (bool_decide (Forall (λ row, UNKNOWN ∉ row) rows)).

(** [_count_fixed] *)
Definition _count_fixed (g : grid) : H Z :=
  let! rows := hmap deref g in
  hret (len (filter (λ v, v ≠ UNKNOWN) (concat rows))).

(** ** The propagation engine *)

(** The cell update shared by all four reduction loops:
    [if intersection[k] != UNKNOWN and grid[r][c] != intersection[k]:
       grid[r][c] = intersection[k]; <note the change>]. *)
Definition apply_cell {S} (note : S → S) (g : grid) (inter : list Z)
    (k r c : Z) (acc : S) : H S :=
  let! x := lift (getitem inter k) in
  if decide (x ≠ UNKNOWN) then
    let! y := get_cell g r c in
    if decide (y ≠ x) then
      let! _ := set_cell g r c x in hret (note acc)
    else hret acc
  else hret acc.

(** The body of [for r in range(height)] in [propagate] and
    [propagate_once]; [note] is [changed = True] or [changed_count += 1]. *)
Definition reduce_row {S} (note : S → S) (g : grid)
    (row_clues : list (list Z)) (width : Z) (r : Z) (acc : S) : H (bool * S) :=
  let! l := lift (getitem g r) in
  let! line_state := deref l in
  let! blocks := lift (getitem row_clues r) in
  let! cands := lift (_line_candidates width blocks line_state) in
  match cands with
  | [] => hret (false, acc)
  | _ :: _ =>
      let! inter := lift (_intersect_candidates cands) in
      let! acc' := hfor (λ c, apply_cell note g inter c r c) (range 0 width) acc in
      hret (true, acc')
  end.

(** The body of [for c in range(width)]. *)
Definition reduce_col {S} (note : S → S) (g : grid)
    (col_clues : list (list Z)) (height : Z) (c : Z) (acc : S) : H (bool * S) :=
  let! line_state := column g height c in
  let! blocks := lift (getitem col_clues c) in
  let! cands := lift (_line_candidates height blocks line_state) in
  match cands with
  | [] => hret (false, acc)
  | _ :: _ =>
      let! inter := lift (_intersect_candidates cands) in
      let! acc' := hfor (λ r, apply_cell note g inter r r c) (range 0 height) acc in
      hret (true, acc')
  end.

(** One sweep over all rows, then all columns.  The answer is [(false, _)]
    when a line had no candidate. *)
Definition sweep {S} (note : S → S) (g : grid) (row_clues col_clues : list (list Z))
    (height width : Z) (acc : S) : H (bool * S) :=
  let! (ok, acc1) := hfor_break (reduce_row note g row_clues width)
                        (range 0 height) acc in
  if ok then hfor_break (reduce_col note g col_clues height) (range 0 width) acc1
  else hret (false, acc1).

(** [propagate_once] *)
Definition propagate_once (g : grid) (row_clues col_clues : list (list Z))
    : H (bool * Z) :=
  let height := len g in
  let! l0 := lift (getitem g 0) in
  let! row0 := deref l0 in
  let width := len row0 in
  sweep Z.succ g row_clues col_clues height width 0.

(** [SolveStats] *)
Record SolveStats := Stats {
  iterations : Z;
  nodes : Z;
  max_depth : Z;
  fixed_cells : Z
}.

(** What a propagation or a solve can touch besides its own locals: the
    heap of rows, the cancellation flag and the progress callback.  The flag
    is set from another thread, so [is_set()] is an oracle of the number of
    polls made so far; the callback only receives its payloads, which are
    recorded in order. *)
Record world := World {
  w_heap : heap;
  w_polls : nat;
  w_progress : list (string * SolveStats)
}.

Definition on_heap {A} (m : H A) : ST world A :=
  zoom w_heap (λ h w, World h (w_polls w) (w_progress w)) m.

(** [_check_cancel]: [stop_event] is [None] or an event object. *)
Definition _check_cancel (stop_event : option (nat → bool)) : ST world unit :=
  λ w, match stop_event with
       | None => (Ret (), w)
       | Some is_set =>
           let w' := World (w_heap w) (S (w_polls w)) (w_progress w) in
           if is_set (w_polls w) then (Abort Cancelled, w') else (Ret (), w')
       end.

(** [if progress_cb: progress_cb(stage, stats)] *)
Definition report (progress_cb : bool) (stage : string) (st : SolveStats)
    : ST world unit :=
  λ w, if progress_cb
       then (Ret (), World (w_heap w) (w_polls w) (w_progress w ++ [(stage, st)]))
       else (Ret (), w).

(** How one turn of [while changed] in [propagate] ends. *)
Inductive pass_result :=
  | Contradiction (st : SolveStats)            (* [return False, stats] *)
  | Swept (changed : bool) (st : SolveStats).  (* end of the loop body *)

(** The body of [while changed] in [propagate]. *)
Definition propagate_pass (g : grid) (row_clues col_clues : list (list Z))
    (stop_event : option (nat → bool)) (progress_cb : bool)
    (height width : Z) (st : SolveStats) : ST world pass_result :=
  let! _ := _check_cancel stop_event in
  let st1 := Stats (iterations st + 1) (nodes st) (max_depth st) (fixed_cells st) in
  let! (ok, changed) :=
    on_heap (sweep (λ _, true) g row_clues col_clues height width false) in
  if ok then
    let! n := on_heap (_count_fixed g) in
    let st2 := Stats (iterations st1) (nodes st1) (max_depth st1) n in
    let! _ := report progress_cb "propagate" st2 in
    hret (Swept changed st2)
  else hret (Contradiction st1).

(** [while changed: ...], cut after [fuel] turns. *)
Fixpoint propagate_loop (fuel : nat) (g : grid)
    (row_clues col_clues : list (list Z))
    (stop_event : option (nat → bool)) (progress_cb : bool)
    (height width : Z) (st : SolveStats) : ST world (bool * SolveStats) :=
  match fuel with
  | O => lift (Abort OutOfFuel)
  | S fuel' =>
      let! res := propagate_pass g row_clues col_clues stop_event progress_cb
                    height width st in
      match res with
      | Contradiction st' => hret (false, st')
      | Swept changed st' =>
          if changed
          then propagate_loop fuel' g row_clues col_clues stop_event
                 progress_cb height width st'
          else hret (true, st')
      end
  end.

(** [len(grid[0])] *)
Definition grid_width (g : grid) : H Z :=
  let! l0 := lift (getitem g 0) in
  let! row0 := deref l0 in
  hret (len row0).

(** [propagate] *)
Definition propagate (fuel : nat) (g : grid)
    (row_clues col_clues : list (list Z))
    (stop_event : option (nat → bool)) (progress_cb : bool)
    : ST world (bool * SolveStats) :=
  let height := len g in
  let! width := on_heap (grid_width g) in
  propagate_loop fuel g row_clues col_clues stop_event progress_cb
    height width (Stats 0 0 0 0).

(** ** The branch selector: [_best_branch_line] *)

Record best := Best {
  best_type : string;
  best_index : Z;
  best_candidates : list (list Z);
  best_count : Z
}.

(** [if count > 1 and count < best_count: <take this line>] *)
Definition consider (line_type : string) (index : Z)
    (cands : list (list Z)) (b : best) : best :=
  let count := len cands in
  if decide (count > 1 ∧ count < best_count b)
  then Best line_type index cands count
  else b.

Definition branch_row (g : grid) (row_clues : list (list Z)) (width : Z)
    (r : Z) (b : best) : H best :=
  let! l := lift (getitem g r) in
  let! row := deref l in
  if decide (UNKNOWN ∉ row) then hret b
  else
    let! blocks := lift (getitem row_clues r) in
    let! cands := lift (_line_candidates width blocks row) in
    hret (consider "row" r cands b).

Definition branch_col (g : grid) (col_clues : list (list Z)) (height : Z)
    (c : Z) (b : best) : H best :=
  let! line_state := column g height c in
  if decide (UNKNOWN ∉ line_state) then hret b
  else
    let! blocks := lift (getitem col_clues c) in
    let! cands := lift (_line_candidates height blocks line_state) in
    hret (consider "col" c cands b).

Definition _best_branch_line (g : grid) (row_clues col_clues : list (list Z))
    : H (string * Z * list (list Z)) :=
  let height := len g in
  let! width := grid_width g in
  let! b1 := hfor (branch_row g row_clues width) (range 0 height)
               (Best EmptyString (-1) [] (10 ^ 9)) in
  let! b2 := hfor (branch_col g col_clues height) (range 0 width) b1 in
  hret (best_type b2, best_index b2, best_candidates b2).

(** ** The search engine: [solve_nonogram] *)

(** The closure variables of [dfs]. *)
Record search := Search { solutions : list grid; stats : SolveStats }.

Definition on_world {A} (m : ST world A) : ST (search * world) A :=
  zoom snd (λ w s, (s.1, w)) m.

Definition on_search (f : search → search) : ST (search * world) unit :=
  λ s, (Ret (), (f s.1, s.2)).

Definition get_search : ST (search * world) search := λ s, (Ret s.1, s).

(** [for c in range(width): new_grid[index][c] = cand[c]] *)
Definition apply_row (width : Z) (g : grid) (index : Z) (cand : list Z)
    : H unit :=
  hfor (λ c _, let! x := lift (getitem cand c) in set_cell g index c x)
    (range 0 width) ().

(** [for r in range(len(new_grid)): new_grid[r][index] = cand[r]] *)
Definition apply_col (g : grid) (index : Z) (cand : list Z) : H unit :=
  hfor (λ r _, let! x := lift (getitem cand r) in set_cell g r index x)
    (range 0 (len g)) ().

(** The grid a branch explores: [new_grid = [row[:] for row in cur_grid]]
    with [cand] written over the chosen line. *)
Definition branch_grid (width : Z) (cur_grid : grid)
    (line_type : string) (index : Z) (cand : list Z) : H grid :=
  let! new_grid := copy_grid cur_grid in
  let! _ := (if decide (line_type = "row")
             then apply_row width new_grid index cand
             else apply_col new_grid index cand) in
  hret new_grid.

(** [for cand in candidates: ...] in [dfs]; [rec] is [dfs(_, depth + 1)]. *)
Fixpoint dfs_branches (rec : grid → ST (search * world) unit)
    (max_solutions width : Z) (cur_grid : grid)
    (line_type : string) (index : Z) (cands : list (list Z))
    : ST (search * world) unit :=
  match cands with
  | [] => hret ()
  | cand :: rest =>
      let! ss := get_search in
      if decide (len (solutions ss) >= max_solutions) then hret ()
      else
        let! new_grid := on_world (on_heap
                           (branch_grid width cur_grid line_type index cand)) in
        let! _ := rec new_grid in
        dfs_branches rec max_solutions width cur_grid line_type index rest
  end.

(** [dfs], cut at recursion depth [fuel]; the same bound cuts the
    propagation loop of each node. *)
Fixpoint dfs (fuel : nat) (row_clues col_clues : list (list Z))
    (stop_event : option (nat → bool)) (progress_cb : bool)
    (max_solutions width : Z) (cur_grid : grid) (depth : Z)
    : ST (search * world) unit :=
  match fuel with
  | O => lift (Abort OutOfFuel)
  | S fuel' =>
      let! _ := on_world (_check_cancel stop_event) in
      let! _ := on_search (λ ss,
        let st := stats ss in
        Search (solutions ss)
          (Stats (iterations st) (nodes st + 1) (Z.max (max_depth st) depth)
             (fixed_cells st))) in
      let! (ok, pstats) := on_world
        (propagate fuel cur_grid row_clues col_clues stop_event progress_cb) in
      let! n := on_world (on_heap (_count_fixed cur_grid)) in
      let! _ := on_search (λ ss,
        let st := stats ss in
        Search (solutions ss)
          (Stats (iterations st + iterations pstats) (nodes st) (max_depth st) n)) in
      if negb ok then hret ()
      else
        let! solved := on_world (on_heap (_is_solved cur_grid)) in
        if solved then
          let! copy := on_world (on_heap (copy_grid cur_grid)) in
          on_search (λ ss, Search (solutions ss ++ [copy]) (stats ss))
        else
          let! (line_type, index, cands) :=
            on_world (on_heap (_best_branch_line cur_grid row_clues col_clues)) in
          match cands with
          | [] => hret ()
          | _ :: _ =>
              dfs_branches
                (λ new_grid, dfs fuel' row_clues col_clues stop_event
                               progress_cb max_solutions width new_grid
                               (depth + 1))
                max_solutions width cur_grid line_type index cands
          end
  end.

(** [SolveResult] *)
Record SolveResult := Result {
  status : string;
  result_solutions : list grid;
  result_stats : SolveStats;
  message : string
}.

(** The body of the [try] block of [solve_nonogram], run from the initial
    values of the closure variables. *)
Definition search_run (fuel : nat) (g : grid)
    (row_clues col_clues : list (list Z))
    (stop_event : option (nat → bool)) (progress_cb : bool)
    (max_solutions width : Z) (w : world)
    : outcome unit * (search * world) :=
  (let! start_grid := on_world (on_heap (copy_grid g)) in
   dfs fuel row_clues col_clues stop_event progress_cb max_solutions
     width start_grid 0)
    (Search [] (Stats 0 0 0 0), w).

(** [solve_nonogram] *)
Definition solve_nonogram (fuel : nat) (g : grid)
    (row_clues col_clues : list (list Z))
    (stop_event : option (nat → bool)) (progress_cb : bool)
    (max_solutions : Z) : ST world SolveResult :=
  let! width := on_heap (grid_width g) in
  λ w,
    match search_run fuel g row_clues col_clues stop_event progress_cb
            max_solutions width w with
    | (Abort Cancelled, (ss, w')) =>
        (Ret (Result "cancelled" [] (stats ss) "Solve cancelled"), w')
    | (Abort e, (ss, w')) => (Abort e, w')
    | (Ret _, (ss, w')) =>
        match solutions ss with
        | [] => (Ret (Result "unsolved" [] (stats ss) "No solution"), w')
        | _ =>
            if decide (len (solutions ss) >= 2)
            then (Ret (Result "multiple" (take 2 (solutions ss)) (stats ss)
                         "Multiple solutions found"), w')
            else (Ret (Result "solved" (solutions ss) (stats ss)
                         "Unique solution"), w')
        end
    end.

(** The contents of a grid: what its rows hold in heap [h]. *)
Definition view (h : heap) (g : grid) : list (option (list Z)) :=
  (λ l, h !! l) <$> g.

(** A heap and grid for a literal list of rows, each row its own object. *)
Definition load (rows : list (list Z)) : heap * grid :=
  (rows, seq 0 (length rows)).

(** ** The puzzle record: [nonogram/model.py] *)

Module Model.

Record Puzzle := MkPuzzle {
  width : Z;
  height : Z;
  row_clues : list (list Z);
  col_clues : list (list Z);
  grid : list (list Z)
}.

(** A constructor or loader either returns or raises [ValueError]; on
    well-typed fields and data no other exception is raised. *)
Inductive checked (A : Type) :=
  | Valid (a : A)
  | ValueError (msg : string).
Arguments Valid {A} a.
Arguments ValueError {A} msg.

(** [Puzzle._validate] *)
Definition _validate (p : Puzzle) : checked unit :=
  if decide (len (row_clues p) ≠ height p) then
    ValueError "row_clues length mismatch"
  else if decide (len (col_clues p) ≠ width p) then
    ValueError "col_clues length mismatch"
  else if decide (len (grid p) ≠ height p) then
    ValueError "grid height mismatch"
  else
    (fix rows (g : list (list Z)) : checked unit :=
       match g with
       | [] => Valid ()
       | row :: g' =>
           if decide (len row ≠ width p) then ValueError "grid width mismatch"
           else if bool_decide
                     (Forall (λ v, v = UNKNOWN ∨ v = EMPTY ∨ v = FILLED) row)
           then rows g'
           else ValueError "grid contains invalid value"
       end) (grid p).

(** [Puzzle.__post_init__]: what the dataclass constructor runs. *)
Definition __post_init__ (p : Puzzle) : checked Puzzle :=
  if decide (width p ≤ 0 ∨ height p ≤ 0) then
    ValueError "width and height must be positive"
  else
    let rc := match row_clues p with
              | [] => replicate (Z.to_nat (height p)) []
              | _ => row_clues p
              end in
    let cc := match col_clues p with
              | [] => replicate (Z.to_nat (width p)) []
              | _ => col_clues p
              end in
    let gr := match grid p with
              | [] => replicate (Z.to_nat (height p))
                        (replicate (Z.to_nat (width p)) UNKNOWN)
              | _ => grid p
              end in
    let p' := MkPuzzle (width p) (height p) rc cc gr in
    match _validate p' with
    | Valid _ => Valid p'
    | ValueError msg => ValueError msg
    end.

(** [Puzzle._normalize_clues]; every clue value is an integer here, so only
    the sign is tested. *)
Fixpoint _normalize_clues (clues : list (list Z)) : checked (list (list Z)) :=
  match clues with
  | [] => Valid []
  | ln :: clues' =>
      if bool_decide (Forall (λ n, ¬ n ≤ 0) ln) then
        match _normalize_clues clues' with
        | Valid result => Valid (ln :: result)
        | ValueError msg => ValueError msg
        end
      else ValueError "clue values must be positive integers"
  end.

(** The decoded JSON object [load_json] reads, for data in which every key
    present holds a value of the type [to_dict] writes: an integer for the
    sizes, a list of lists of integers for the clues and for the grid.  A
    missing key is [None].  Data with other values (a null, a string, a
    number with a fraction, a list of the wrong depth) has no counterpart
    here: on it the Python code can raise [TypeError] from [int] or from
    the loops of [_normalize_clues]. *)
Record json_data := Json {
  j_width : option Z;
  j_height : option Z;
  j_row_clues : option (list (list Z));
  j_col_clues : option (list (list Z));
  j_grid : option (list (list Z))
}.

(** [Puzzle.load_json], from the decoded file contents, on the data
    [json_data] describes: [int] is the identity on the integer sizes, and
    [isinstance(grid, list)] holds of a grid that is present. *)
Definition load_json (data : json_data) : checked Puzzle :=
  let w := default 0 (j_width data) in
  let h := default 0 (j_height data) in
  match _normalize_clues (default [] (j_row_clues data)) with
  | ValueError msg => ValueError msg
  | Valid rc =>
      match _normalize_clues (default [] (j_col_clues data)) with
      | ValueError msg => ValueError msg
      | Valid cc =>
          let gr := match default [] (j_grid data) with
                    | [] => replicate (Z.to_nat h) (replicate (Z.to_nat w) UNKNOWN)
                    | gr => gr
                    end in
          __post_init__ (MkPuzzle w h rc cc gr)
      end
  end.

(** [Puzzle.to_dict]: the object [save_json] writes as JSON text, and which
    [load_json] gets back when it decodes that text. *)
Definition to_dict (p : Puzzle) : json_data :=
  Json (Some (width p)) (Some (height p)) (Some (row_clues p))
    (Some (col_clues p)) (Some (grid p)).

End Model.

(** ** The clue check of the application: [nonogram/gui.py] *)

Module Gui.

(** [NonogramApp._parse_clues], on the two clue lists of the application:
    [True] when no clue value makes the loops raise; the error box shown
    otherwise is left out. *)
Definition _parse_clues (row_clues col_clues : list (list Z)) : bool :=
  bool_decide (Forall (Forall (λ n, ¬ n ≤ 0)) row_clues) &&
  bool_decide (Forall (Forall (λ n, ¬ n ≤ 0)) col_clues).

End Gui.

(** ** Notions used to state the properties *)

(** The lengths of the maximal runs of [FILLED] cells of a line, in order;
    [cur] is the length of the run being read. *)
Fixpoint runs_from (cur : Z) (l : list Z) : list Z :=
  match l with
  | [] => if decide (0 < cur) then [cur] else []
  | x :: l' =>
      if decide (x = FILLED) then runs_from (cur + 1) l'
      else if decide (0 < cur) then cur :: runs_from 0 l'
      else runs_from 0 l'
  end.

Definition runs (l : list Z) : list Z := runs_from 0 l.

(** A candidate never contradicts a fixed cell of the line. *)
Definition consistent (line_state cand : list Z) : Prop :=
  ∀ i : nat,
    (line_state !! i = Some FILLED → cand !! i = Some FILLED) ∧
    (line_state !! i = Some EMPTY → cand !! i = Some EMPTY).

(** No cell of [ls] at a position in [a, b) holds [v]. *)
Definition clear (v : Z) (ls : list Z) (a b : Z) : bool :=
  bool_decide (Forall (λ i, ls !! Z.to_nat i ≠ Some v) (range a b)).

(** The candidates of [place] at [pos], as the cells from [pos] on: a direct
    recursive description of the enumeration, against which [place] is
    proved.  [fills_at] gives those whose first block begins at [start]. *)
Definition fills_at (length : Z) (ls : list Z) (b : Z) (rest : list Z)
    (rec : Z → list (list Z)) (pos start : Z) : list (list Z) :=
  if clear FILLED ls pos start && clear EMPTY ls start (start + b) then
    match rest with
    | [] =>
        (λ s, replicate (Z.to_nat (start - pos)) EMPTY
              ++ replicate (Z.to_nat b) FILLED ++ s)
          <$> rec (start + b)
    | _ :: _ =>
        if clear FILLED ls (start + b) (start + b + 1) then
          (λ s, replicate (Z.to_nat (start - pos)) EMPTY
                ++ replicate (Z.to_nat b) FILLED ++ EMPTY :: s)
            <$> rec (start + b + 1)
        else []
    end
  else [].

Fixpoint fills (length : Z) (ls : list Z) (blocks : list Z) (pos : Z)
    : list (list Z) :=
  match blocks with
  | [] =>
      if clear FILLED ls pos length
      then [replicate (Z.to_nat (length - pos)) EMPTY] else []
  | b :: rest =>
      let max_start := length - (b + (sum rest + len rest)) in
      mjoin (fills_at length ls b rest (fills length ls rest) pos
               <$> range pos (max_start + 1))
  end.

(** Every cell of [s], laid over [ls] from position [off] on, is [EMPTY] or
    [FILLED] and does not contradict the cell of [ls] under it. *)
Definition fits (ls : list Z) (off : nat) (s : list Z) : Prop :=
  ∀ (i : nat) x, s !! i = Some x →
    (x = EMPTY ∧ ls !! (off + i)%nat ≠ Some FILLED) ∨
    (x = FILLED ∧ ls !! (off + i)%nat ≠ Some EMPTY).

(** Cell values. *)
Definition cell_ok (v : Z) : Prop := v = UNKNOWN ∨ v = EMPTY ∨ v = FILLED.

(** Clues for [n] lines: one clue per line, every block positive. *)
Definition clues_ok (n : nat) (clues : list (list Z)) : Prop :=
  length clues = n ∧ Forall (Forall (λ b, 0 < b)) clues.

(** The contents of grid [g] in heap [h], row by row. *)
Definition rows (h : heap) (g : grid) : list (list Z) :=
  (λ l, default [] (h !! l)) <$> g.

(** The value of cell [(r, c)] of a grid given by its rows, and of grid [g]
    in heap [h]. *)
Definition cell_of (G : list (list Z)) (r c : nat) : option Z :=
  row ← G !! r; row !! c.

Definition cell (h : heap) (g : grid) (r c : nat) : option Z :=
  cell_of (rows h g) r c.

(** The number of [UNKNOWN] cells of a row and of a grid. *)
Definition unk_row (row : list Z) : nat :=
  length (filter (λ v, v = UNKNOWN) row).

Definition unknowns (G : list (list Z)) : nat := sum_list_with unk_row G.

(** [G'] has the shape of [G] and keeps every determined cell of [G]. *)
Definition refines (G G' : list (list Z)) : Prop :=
  Forall2 (Forall2 (λ x y, x ≠ UNKNOWN → y = x)) G G'.

(** ** Specifications of stateful computations *)

(** From a state satisfying [P], [m] returns some [a] in a state satisfying
    [Q a], or aborts with some [e] in a state satisfying [E e]. *)
Definition spec {S A} (P : S → Prop) (m : ST S A)
    (Q : A → S → Prop) (E : abort → S → Prop) : Prop :=
  ∀ s, P s →
    match m s with
    | (Ret a, s') => Q a s'
    | (Abort e, s') => E e s'
    end.

(** No abort at all. *)
Definition never {S} : abort → S → Prop := λ _ _, False.

(** A grid of [height] rows of [width] cells, each row an object of its
    own, every cell one of the three cell values. *)
Record grid_ok (h : heap) (g : grid) (height width : nat) : Prop := GridOk {
  ok_height : length g = height;
  ok_pos : (0 < height)%nat;
  ok_nodup : NoDup g;
  ok_rows : ∀ l, l ∈ g →
    ∃ row, h !! l = Some row ∧ length row = width ∧ Forall cell_ok row
}.

(** What a reduction step may do to a well-formed grid [g]: the grid stays
    well formed, determined cells keep their value, and no other row of the
    heap is touched. *)
Record advance (g : grid) (H W : nat) (h h' : heap) : Prop := Advance {
  adv_ok : grid_ok h' g H W;
  adv_refines : refines (rows h g) (rows h' g);
  adv_frame : ∀ l, l ∉ g → h' !! l = h !! l;
  adv_length : length h' = length h
}.

(** [advance], with every noted change paid for by one cell less to
    determine; [wt] weighs the accumulator of the loop. *)
Definition moved {S} (wt : S → nat) (g : grid) (H W : nat)
    (acc : S) (h : heap) (acc' : S) (h' : heap) : Prop :=
  advance g H W h h' ∧
  (unknowns (rows h' g) + wt acc' ≤ unknowns (rows h g) + wt acc)%nat.

(** [m] keeps the invariant [J] of the heap, however it ends. *)
Definition stable {A} (J : heap → Prop) (m : H A) : Prop :=
  spec J m (λ _, J) (λ _, J).

(** Two heaps whose rows have the same lengths. *)
Definition same_shape (h0 h : heap) : Prop := length <$> h = length <$> h0.


(** Whether the poll made in world [w] finds the cancellation flag set. *)
Definition flagged (stop_event : option (nat → bool)) (w : world) : bool :=
  match stop_event with
  | Some is_set => is_set (w_polls w)
  | None => false
  end.

(** ** Notions used to state what the branch selector returns *)

(** The candidate set of a line. *)
Definition line_cands (L : Z) (blocks state : list Z) : list (list Z) :=
  match _line_candidates L blocks state with
  | Ret cands => cands
  | Abort _ => []
  end.

(** Column [c] of a grid given by its rows. *)
Definition col_of (G : list (list Z)) (c : nat) : list Z :=
  (λ row, default UNKNOWN (row !! c)) <$> G.

(** A line the selector considers, with its candidate set: nothing when the
    line has no [UNKNOWN] cell. *)
Definition branch_line (line_type : string) (index : nat) (L : nat)
    (clues : list (list Z)) (state : list Z)
    : list (string * Z * list (list Z)) :=
  if decide (UNKNOWN ∈ state)
  then [(line_type, Z.of_nat index,
         line_cands (Z.of_nat L) (default [] (clues !! index)) state)]
  else [].

(** The lines still containing an [UNKNOWN] cell, in the order of the scan:
    the rows by ascending index, then the columns by ascending index. *)
Definition branch_lines (G : list (list Z)) (H W : nat)
    (row_clues col_clues : list (list Z))
    : list (string * Z * list (list Z)) :=
  (r ← seq 0 H; branch_line "row" r W row_clues (default [] (G !! r))) ++
  (c ← seq 0 W; branch_line "col" c H col_clues (col_of G c)).

(** The scan itself, as a fold of [consider] over the lines. *)
Definition choose (lines : list (string * Z * list (list Z))) (b : best) : best :=
  foldl (λ b '(line_type, index, cands), consider line_type index cands b) b lines.

(** The number of fillings of a line of [length] cells, all [UNKNOWN], from
    each position on: entry [pos] of the table is the number of ways to lay
    [blocks] out in the cells from [pos] on. *)
Fixpoint count_table (length : Z) (blocks : list Z) : list Z :=
  match blocks with
  | [] => replicate (Z.to_nat (length + 1)) 1
  | b :: rest =>
      let table := count_table length rest in
      let max_start := length - (b + (sum rest + len rest)) in
      let gap := match rest with [] => 0 | _ :: _ => 1 end in
      (λ pos, sum ((λ start, default 0 (table !! Z.to_nat (start + b + gap)))
                     <$> range pos (max_start + 1)))
        <$> range 0 (length + 1)
  end.

(** ** Notions used to state what the search touches *)

(** From heap [h] to heap [h'] nothing was written below the end of [h]
    except into rows of [g]: rows were only added, or rows of [g] changed. *)
Definition touches_only (g : grid) (h h' : heap) : Prop :=
  (length h ≤ length h')%nat ∧
  ∀ l, (l < length h)%nat → l ∉ g → h' !! l = h !! l.

(** A property of the heap and of the closure variables of [dfs], as a
    property of the state of the search. *)
Definition on_state (Φ : heap → search → Prop) : search * world → Prop :=
  λ s, Φ (w_heap s.2) s.1.

(** ** Notions used in the proofs about the loops *)

(** As long as [K] holds of the accumulator of a loop, the heap and the
    accumulator are still the initial ones. *)
Definition quiet_inv {S} (K : S → Prop) (acc0 : S) (h0 : heap)
    (t : S) (h : heap) : Prop :=
  K t → h = h0 ∧ t = acc0.

(** Any abort, in any state. *)
Definition anything {S} : abort → S → Prop := λ _ _, True.

(** The weight of the [changed] flag of [propagate]. *)
Definition change_weight (b : bool) : nat := if b then 1%nat else 0%nat.

(** A grid all of whose rows are in [X] or were allocated after [h0]. *)
Definition allowed (X : grid) (h0 : heap) (g : grid) : Prop :=
  Forall (λ l, l ∈ X ∨ (length h0 ≤ l)%nat) g.

(** The state of the search only ever touched rows of [X] and rows
    allocated after [h0]. *)
Definition kept (X : grid) (h0 : heap) : search * world → Prop :=
  on_state (λ h _, touches_only X h0 h).

(** The grid being searched is well formed with at most [u] unknown cells,
    and the depth recorded so far is at most [D]. *)
Definition Good (H W : nat) (D : Z) (cur : grid) (u : nat)
    : search * world → Prop :=
  on_state (λ h ss, grid_ok h cur H W ∧ (unknowns (rows h cur) ≤ u)%nat ∧
                    max_depth (stats ss) ≤ D).

(** The depth recorded is at most [D]. *)
Definition Done (D : Z) : search * world → Prop :=
  on_state (λ _ ss, max_depth (stats ss) ≤ D).

(** The search was cancelled, with a recorded depth of at most [D]. *)
Definition Stopped (D : Z) : abort → search * world → Prop :=
  λ e s, e = Cancelled ∧ Done D s.

(** In the loop over the candidates of a branch line: the grid branched
    from is well formed and still has the rows [G1]. *)
Definition Here (H W : nat) (D : Z) (cur : grid) (G1 : list (list Z))
    : search * world → Prop :=
  on_state (λ h ss, grid_ok h cur H W ∧ rows h cur = G1 ∧
                    max_depth (stats ss) ≤ D).

Global Instance cell_ok_dec v : Decision (cell_ok v).
Proof. unfold cell_ok. apply _. Defined.

(** ** Solutions of a puzzle *)

(** [S] solves the puzzle with row clues [rc] and column clues [cc]: it has
    one row per row clue and one cell per column clue in each row, every
    cell is [EMPTY] or [FILLED], and the runs of every row and of every
    column are its clue. *)
Definition solves (rc cc : list (list Z)) (S : list (list Z)) : Prop :=
  Forall2 (λ row clue, runs row = clue) S rc ∧
  (∀ (c : nat) clue, cc !! c = Some clue → runs (col_of S c) = clue) ∧
  Forall (λ row, length row = length cc ∧
                 Forall (λ v, v = EMPTY ∨ v = FILLED) row) S.

(** Every solution that contains grid [G] also contains [G']. *)
Definition keeps_solutions (rc cc : list (list Z)) (G G' : list (list Z))
    : Prop :=
  ∀ S, solves rc cc S → refines G S → refines G' S.

(** What a reduction does to a well-formed grid between two heaps, beyond
    [advance]: no solution is lost, and the accumulator has moved by [d]
    for each cell determined, [wz] weighing the accumulator. *)
Definition reduced {S} (wz : S → Z) (d : Z) (rc cc : list (list Z))
    (g : grid) (H W : nat) (acc : S) (h : heap) (acc' : S) (h' : heap)
    : Prop :=
  advance g H W h h' ∧
  keeps_solutions rc cc (rows h g) (rows h' g) ∧
  d * Z.of_nat (unknowns (rows h' g)) + wz acc'
  = d * Z.of_nat (unknowns (rows h g)) + wz acc.

(** A line of [L] cells with state [ls] needs no reduction under the clue
    [blocks]: it has a candidate, and every cell on which all its
    candidates agree holds that value already. *)
Definition line_settled (L : nat) (blocks ls : list Z) : Prop :=
  line_cands (Z.of_nat L) blocks ls ≠ [] ∧
  ∀ (k : nat) x,
    (∀ c, c ∈ line_cands (Z.of_nat L) blocks ls → c !! k = Some x) →
    ls !! k = Some x.

(** Every row and every column of [G] is settled. *)
Definition settled (rc cc : list (list Z)) (H W : nat) (G : list (list Z))
    : Prop :=
  (∀ (r : nat) row blocks, G !! r = Some row → rc !! r = Some blocks →
     line_settled W blocks row) ∧
  (∀ (c : nat) blocks, (c < W)%nat → cc !! c = Some blocks →
     line_settled H blocks (col_of G c)).

(** Two runs end alike: in the same heap, and with related results or with
    the same abort. *)
Definition same_run {A B} (R : A → B → Prop)
    (r1 : outcome A * heap) (r2 : outcome B * heap) : Prop :=
  r1.2 = r2.2 ∧
  match r1.1, r2.1 with
  | Ret a, Ret b => R a b
  | Abort e1, Abort e2 => e1 = e2
  | _, _ => False
  end.

(** Two steps of a loop that may leave it end alike: both go on or both
    leave, with related accumulators. *)
Definition same_step {S1 S2} (R : S1 → S2 → Prop)
    : bool * S1 → bool * S2 → Prop :=
  λ r1 r2, r1.1 = r2.1 ∧ R r1.2 r2.2.

(** ** Notions used to state what the search finds *)

(** The solutions recorded so far, as grids. *)
Definition found (h : heap) (ss : search) : list (list (list Z)) :=
  rows h <$> solutions ss.

(** Every row of every recorded solution is in the heap, and is no row of
    grid [cur]. *)
Definition apart (cur : grid) (h : heap) (ss : search) : Prop :=
  Forall (Forall (λ l, (l < length h)%nat ∧ l ∉ cur)) (solutions ss).

(** The line of grid [S] a branch is made on. *)
Definition line_at (line_type : string) (index : Z) (S : list (list Z))
    : list Z :=
  if decide (line_type = "row") then default [] (S !! Z.to_nat index)
  else col_of S (Z.to_nat index).

(** No line of a grid of [H] rows of [W] cells ever has as many candidates
    as the bound the branch selector starts from. *)
Definition small_lines (rc cc : list (list Z)) (H W : nat) : Prop :=
  ∀ G e, length G = H → Forall (λ row, length row = W) G →
    e ∈ branch_lines G H W rc cc → len e.2 < 10 ^ 9.

(** What a search of the grids containing [G] has added to the solutions
    [old] when [all] are recorded: solutions containing [G], each once;
    and, where no line is too long for the selector, all of them unless
    the search stopped at [max_solutions]. *)
Definition explored (rc cc : list (list Z)) (H W : nat) (max_solutions : Z)
    (G : list (list Z)) (old all : list (list (list Z))) : Prop :=
  ∃ new, all = old ++ new ∧
    Forall (λ S, solves rc cc S ∧ refines G S) new ∧ NoDup new ∧
    len all ≤ Z.max (len old + 1) max_solutions ∧
    (small_lines rc cc H W →
     len all >= max_solutions ∨
     ∀ S, solves rc cc S → refines G S → S ∈ new).

(** ** Notions used in the proofs about what the search finds *)

(** Before [dfs] on grid [cur]: the grid is well formed with rows [G], the
    solutions recorded are [old], and none of them shares a row with
    [cur]. *)
Definition searching (H W : nat) (cur : grid) (G : list (list Z))
    (old : list (list (list Z))) : search * world → Prop :=
  on_state (λ h ss, grid_ok h cur H W ∧ rows h cur = G ∧
                    found h ss = old ∧ apart cur h ss).

(** After the propagation of [dfs] on grid [cur], which answered [ok]. *)
Definition propagated (rc cc : list (list Z)) (H W : nat) (ok : bool)
    (cur : grid) (G : list (list Z)) (old : list (list (list Z)))
    : search * world → Prop :=
  on_state (λ h ss,
    grid_ok h cur H W ∧ found h ss = old ∧ apart cur h ss ∧
    refines G (rows h cur) ∧ keeps_solutions rc cc G (rows h cur) ∧
    (ok = false → ∀ T, solves rc cc T → ¬ refines G T) ∧
    (ok = true → settled rc cc H W (rows h cur))).

(** After [dfs] on a grid with rows [G], entered with the solutions
    [old]. *)
Definition searched (rc cc : list (list Z)) (H W : nat) (max_solutions : Z)
    (G : list (list Z)) (old : list (list (list Z)))
    : search * world → Prop :=
  on_state (λ h ss, explored rc cc H W max_solutions G old (found h ss) ∧
                    apart [] h ss).

(** In the loop of [dfs] over the candidates of the branch line
    [(line_type, index)] of grid [cur], the candidates [tried] being dealt
    with. *)
Definition branching (rc cc : list (list Z)) (H W : nat) (max_solutions : Z)
    (cur : grid) (G : list (list Z)) (old : list (list (list Z)))
    (line_type : string) (index : Z) (tried : list (list Z))
    : search * world → Prop :=
  on_state (λ h ss,
    grid_ok h cur H W ∧ rows h cur = G ∧ apart [] h ss ∧
    ∃ new, found h ss = old ++ new ∧
      Forall (λ S, solves rc cc S ∧ refines G S ∧
                   line_at line_type index S ∈ tried) new ∧
      NoDup new ∧
      len (found h ss) ≤ Z.max (len old + 1) max_solutions ∧
      (small_lines rc cc H W →
       len (found h ss) >= max_solutions ∨
       ∀ S, solves rc cc S → refines G S →
            line_at line_type index S ∈ tried → S ∈ new)).

(** ** Grids for the examples *)

(** The grid of [n] rows of [n] cells, all [UNKNOWN]. *)
Definition blank_grid (n : nat) : list (list Z) :=
  replicate n (replicate n UNKNOWN).

(** The grid of [n] rows of [n] cells in which cell [(r, c)] is [FILLED]
    when [r + c] leaves the remainder [k] modulo 3 and [EMPTY] otherwise:
    in every row and column the filled cells are two cells apart. *)
Definition diagonals (n k : nat) : list (list Z) :=
  (λ r, (λ c, if decide ((r + c) mod 3 = k)%nat then FILLED else EMPTY)
          <$> seq 0 n) <$> seq 0 n.

(** * Examples *)

Example scenario_A :
  _line_candidates 3 [3] [UNKNOWN; UNKNOWN; UNKNOWN] = Ret [[1; 1; 1]].
Proof. reflexivity. Qed.

Example scenario_B :
  _line_candidates 5 [1; 1] (replicate 5 UNKNOWN)
  = Ret [[1;0;1;0;0]; [1;0;0;1;0]; [1;0;0;0;1]; [0;1;0;1;0]; [0;1;0;0;1];
         [0;0;1;0;1]].
Proof. reflexivity. Qed.

Example solve_2x2 :
  let '(h, g) := load [[-1; -1]; [-1; -1]] in
  let '(o, w) := solve_nonogram 10 g [[1]; [1]] [[1]; [1]] None false 2
                   (World h 0 []) in
  (match o with Ret r => (status r, view (w_heap w) <$> result_solutions r) | _ => (EmptyString, []) end)
  = ("multiple"%string, [[Some [1;0]; Some [0;1]]; [Some [0;1]; Some [1;0]]]).
Proof. vm_compute. reflexivity. Qed.

(** * Python sequences *)

Section sequences.
Context {A : Type}.
Implicit Types (l pre post : list A) (i : Z) (x v : A).

Lemma range_nil a b : b ≤ a → range a b = [].
  Proof. intros. unfold range. apply seqZ_nil. lia. Qed.

Lemma range_cons a b : a < b → range a b = a :: range (a + 1) b.
  Proof.
    intros. unfold range. rewrite seqZ_cons by lia.
    do 2 f_equal; lia.
  Qed.

Lemma range_app a m b : a ≤ m ≤ b → range a b = range a m ++ range m b.
  Proof.
    intros. unfold range.
    replace (b - a) with ((m - a) + (b - m)) by lia.
    rewrite seqZ_app by lia. do 2 f_equal. lia.
  Qed.

Lemma elem_of_range a b k : k ∈ range a b ↔ a ≤ k < b.
  Proof. unfold range. rewrite elem_of_seqZ. lia. Qed.

Lemma length_range a b : length (range a b) = Z.to_nat (b - a).
  Proof. apply length_seqZ. Qed.

Lemma py_index_nat (n k : nat) : (k < n)%nat → py_index n (Z.of_nat k) = Some k.
  Proof.
    intros. unfold py_index. rewrite decide_True by lia. by rewrite Nat2Z.id.
  Qed.

Lemma py_index_None (n : nat) i : Z.of_nat n ≤ i → py_index n i = None.
  Proof.
    intros. unfold py_index. rewrite !decide_False by lia. done.
  Qed.

Lemma getitem_Ret l (k : nat) x : l !! k = Some x → getitem l (Z.of_nat k) = Ret x.
  Proof.
    intros Hk. unfold getitem.
    rewrite py_index_nat by (by eapply lookup_lt_Some). simpl. by rewrite Hk.
  Qed.

Lemma getitem_Z l i x : 0 ≤ i → l !! Z.to_nat i = Some x → getitem l i = Ret x.
  Proof.
    intros Hi Hk. rewrite <- (Z2Nat.id i) by done. by apply getitem_Ret.
  Qed.

Lemma getitem_inv l i x :
    0 ≤ i → getitem l i = Ret x → l !! Z.to_nat i = Some x.
  Proof.
    intros Hi. unfold getitem, py_index.
    destruct (decide (0 ≤ i < _)); [|rewrite decide_False by lia; done].
    simpl. by destruct (l !! Z.to_nat i); intros [= ->].
  Qed.

Lemma getitem_overflow l i : len l ≤ i → getitem l i = Abort IndexError.
  Proof.
    intros. unfold getitem. rewrite py_index_None; [done|]. by unfold len in *.
  Qed.

Lemma setitem_Ret l (k : nat) v :
    (k < length l)%nat → setitem l (Z.of_nat k) v = Ret (<[k:=v]> l).
  Proof. intros. unfold setitem. by rewrite py_index_nat. Qed.

Lemma setitem_Z l i v :
    0 ≤ i < len l → setitem l i v = Ret (<[Z.to_nat i:=v]> l).
  Proof.
    intros. rewrite <- (Z2Nat.id i) at 1 by lia. apply setitem_Ret.
    unfold len in *. lia.
  Qed.

Lemma setitem_same l i v :
    0 ≤ i → l !! Z.to_nat i = Some v → setitem l i v = Ret l.
  Proof.
    intros Hi Hl. rewrite setitem_Z.
    - by rewrite list_insert_id.
    - apply lookup_lt_Some in Hl. unfold len. lia.
  Qed.

Lemma len_app l1 l2 : len (l1 ++ l2) = len l1 + len l2.
  Proof. unfold len. rewrite length_app. lia. Qed.

Lemma len_replicate n x : len (replicate n x) = Z.of_nat n.
  Proof. unfold len. by rewrite length_replicate. Qed.

Lemma len_nonneg l : 0 ≤ len l.
  Proof. unfold len. lia. Qed.
End sequences.

Lemma sum_nonneg bs : Forall (λ b, 0 < b) bs → 0 ≤ sum bs.
Proof. induction 1; simpl; lia. Qed.

Lemma clear_nil v ls a b : b ≤ a → clear v ls a b = true.
Proof. intros. unfold clear. rewrite range_nil by done. by apply bool_decide_eq_true. Qed.

Lemma clear_cons v ls a b :
  a < b →
  clear v ls a b = bool_decide (ls !! Z.to_nat a ≠ Some v) && clear v ls (a + 1) b.
Proof.
  intros. unfold clear. rewrite (range_cons a b) by done.
  rewrite <- bool_decide_and. apply bool_decide_ext. by rewrite Forall_cons.
Qed.

Lemma scan_ne_clear ls v a b :
  0 ≤ a → b ≤ len ls → scan_ne ls v (range a b) = Ret (clear v ls a b).
Proof.
  intros Ha Hb. remember (Z.to_nat (b - a)) as n eqn:Hn.
  revert a Ha Hn. induction n as [|n IH]; intros a Ha Hn.
  - rewrite range_nil, clear_nil by lia. done.
  - rewrite range_cons, clear_cons by lia. simpl.
    destruct (lookup_lt_is_Some_2 ls (Z.to_nat a)) as [x Hx].
    { unfold len in Hb. lia. }
    rewrite (getitem_Z _ _ x) by done. simpl. rewrite Hx.
    destruct (decide (x = v)) as [->|Hne].
    + by rewrite bool_decide_eq_false_2 by (intros ?; done).
    + rewrite bool_decide_eq_true_2 by congruence. simpl.
      apply IH; lia.
Qed.

Lemma clear_spec v ls a b :
  clear v ls a b = true ↔ ∀ i, a ≤ i < b → ls !! Z.to_nat i ≠ Some v.
Proof.
  unfold clear. rewrite bool_decide_eq_true, Forall_forall.
  by setoid_rewrite elem_of_range.
Qed.

Lemma setitem_middle {A} (pre : list A) x post v :
  setitem (pre ++ x :: post) (len pre) v = Ret (pre ++ v :: post).
Proof.
  unfold len. rewrite setitem_Ret by (rewrite length_app; simpl; lia).
  rewrite insert_app_r_alt by done. by rewrite Nat.sub_diag.
Qed.

Lemma fill_middle mid pre post v a :
  len pre = a →
  fill (pre ++ mid ++ post) v (range a (a + len mid))
  = Ret (pre ++ replicate (length mid) v ++ post).
Proof.
  revert pre a. induction mid as [|x mid IH]; intros pre a Hpre.
  - rewrite range_nil by (unfold len; simpl; lia). done.
  - rewrite range_cons by (unfold len; simpl; lia). simpl.
    rewrite <- Hpre at 1. rewrite setitem_middle. simpl.
    rewrite (cons_middle v pre), app_assoc.
    replace (a + len (x :: mid)) with ((a + 1) + len mid)
      by (unfold len; simpl; lia).
    rewrite IH by (rewrite len_app; unfold len in *; simpl; lia).
    by rewrite <- app_assoc.
Qed.

Lemma fill_replicate pre (n : nat) w post v a b :
  len pre = a → b = a + Z.of_nat n →
  fill (pre ++ replicate n w ++ post) v (range a b)
  = Ret (pre ++ replicate n v ++ post).
Proof.
  intros Ha ->. rewrite <- (len_replicate n w).
  rewrite fill_middle by done. by rewrite length_replicate.
Qed.

(** * The generator computes [fills] *)

Section generator.
Variables (L : Z) (ls : list Z).
Hypothesis HL : len ls = L.

Lemma clear_one v i :
    0 ≤ i → clear v ls i (i + 1) = bool_decide (ls !! Z.to_nat i ≠ Some v).
  Proof.
    intros. rewrite clear_cons by lia. rewrite clear_nil by lia.
    by rewrite andb_true_r.
  Qed.

Lemma place_nil_spec pos pre cands :
    0 ≤ pos ≤ L →
    let ln := pre ++ replicate (Z.to_nat (L - pos)) EMPTY in
    place L ls [] pos (GenState ln cands)
    = Ret (GenState ln (cands ++ ((pre ++.) <$> fills L ls [] pos))).
  Proof.
    intros Hpos ln. simpl. rewrite scan_ne_clear by lia.
    destruct (clear FILLED ls pos L); simpl; [done|].
    by rewrite app_nil_r.
  Qed.

Lemma place_start_spec b rest pos start pre cands :
    0 < b → Forall (λ b, 0 < b) rest →
    0 ≤ pos → len pre = pos →
    pos ≤ start ≤ L - (b + (sum rest + len rest)) →
    (∀ pos' pre' cands', 0 ≤ pos' ≤ L → len pre' = pos' →
       place L ls rest pos'
         (GenState (pre' ++ replicate (Z.to_nat (L - pos')) EMPTY) cands')
       = Ret (GenState (pre' ++ replicate (Z.to_nat (L - pos')) EMPTY)
                (cands' ++ ((pre' ++.) <$> fills L ls rest pos')))) →
    let ln := pre ++ replicate (Z.to_nat (L - pos)) EMPTY in
    place_start L ls b rest (place L ls rest) pos start (GenState ln cands)
    = Ret (GenState ln
             (cands ++ ((pre ++.) <$>
                fills_at L ls b rest (fills L ls rest) pos start))).
  Proof.
    intros Hb Hrest Hpos Hpre Hstart IH ln.
    pose proof (sum_nonneg _ Hrest) as Hsum.
    pose proof (len_nonneg rest) as Hlen.
    unfold place_start, fills_at. cbn [line candidates].
    rewrite scan_ne_clear by lia.
    destruct (clear FILLED ls pos start); cbn [obind negb andb];
      [|by rewrite app_nil_r].
    rewrite scan_ne_clear by lia.
    destruct (clear EMPTY ls start (start + b)); cbn [obind negb andb];
      [|by rewrite app_nil_r].
    set (g := Z.to_nat (start - pos)). set (nb := Z.to_nat b).
    set (t := Z.to_nat (L - (start + b))).
    assert (Hsplit : Z.to_nat (L - pos) = (g + (nb + t))%nat) by lia.
    subst ln. rewrite Hsplit, !replicate_add.
    rewrite (app_assoc pre).
    assert (Hpre' : len (pre ++ replicate g EMPTY) = start).
    { rewrite len_app, len_replicate. lia. }
    rewrite (fill_replicate _ nb EMPTY _ FILLED start (start + b)) by lia.
    cbn [obind].
    set (P0 := pre ++ replicate g EMPTY) in *.
    assert (Hback : ∀ tl cs,
      (let? l4 := fill (P0 ++ replicate nb FILLED ++ tl) EMPTY (range start (start + b)) in
       Ret (GenState l4 cs))
      = Ret (GenState (P0 ++ replicate nb EMPTY ++ tl) cs)).
    { intros tl cs.
      by rewrite (fill_replicate _ nb FILLED _ EMPTY start (start + b)) by lia. }
    destruct rest as [|r rest'].
    - (* last block *)
      specialize (IH (start + b) (P0 ++ replicate nb FILLED) cands).
      change (Z.to_nat (L - (start + b))) with t in IH.
      rewrite <- (app_assoc P0) in IH. rewrite IH.
      2: lia. 2: { rewrite len_app, len_replicate. lia. }
      cbn [obind line candidates]. rewrite Hback. do 3 f_equal.
      rewrite <- list_fmap_compose. apply list_fmap_ext. intros _ s _. simpl.
      subst P0. by rewrite <- !app_assoc.
    - (* a separator and more blocks follow *)
      assert (0 < r) by (by inversion Hrest).
      assert (0 ≤ sum rest') by (apply sum_nonneg; by inversion Hrest).
      assert (Hlen' : len (r :: rest') = 1 + len rest') by (unfold len; simpl; lia).
      pose proof (len_nonneg rest') as Hlen''.
      simpl in Hstart, Hsum.
      rewrite decide_False by lia.
      set (t' := Z.to_nat (L - (start + b + 1))).
      assert (Ht : t = S t') by lia.
      destruct (lookup_lt_is_Some_2 ls (Z.to_nat (start + b))) as [x Hx].
      { unfold len in HL. lia. }
      rewrite (getitem_Z _ _ x) by (done || lia). cbn [obind].
      rewrite clear_one by lia. rewrite Hx.
      assert (Hsep : setitem (P0 ++ replicate nb FILLED ++ replicate t EMPTY)
                       (start + b) EMPTY
                     = Ret (P0 ++ replicate nb FILLED ++ replicate t EMPTY)).
      { rewrite Ht. rewrite replicate_S.
        rewrite (app_assoc P0). 
        replace (start + b) with (len (P0 ++ replicate nb FILLED))
          by (rewrite len_app, len_replicate; lia).
        apply setitem_middle. }
      destruct (decide (x = FILLED)) as [->|Hx'].
      + rewrite bool_decide_eq_false_2 by (intros ?; done).
        cbn [obind line candidates]. rewrite Hsep.
        cbn [obind line candidates]. rewrite Hback.
        by rewrite app_nil_r.
      + rewrite bool_decide_eq_true_2 by congruence.
        rewrite Hsep. cbn [obind].
        specialize (IH (start + b + 1)
          (P0 ++ replicate nb FILLED ++ [EMPTY]) cands).
        change (Z.to_nat (L - (start + b + 1))) with t' in IH.
        rewrite <- !(app_assoc) in IH. cbn [app] in IH.
        rewrite <- replicate_S, <- Ht in IH. subst P0.
        rewrite <- !(app_assoc) in *. rewrite IH.
        2: lia.
        2: { rewrite !len_app, !len_replicate in *.
             change (len [EMPTY]) with 1. lia. }
        cbn [obind line candidates].
        rewrite (app_assoc pre) in Hsep. rewrite (app_assoc pre). rewrite Hsep.
        cbn [obind line candidates]. 
        specialize (Hback (replicate t EMPTY) ). rewrite <- !app_assoc in Hback.
        rewrite <- !app_assoc. rewrite Hback.
        do 3 f_equal.
        rewrite <- list_fmap_compose. apply list_fmap_ext. intros _ s _. simpl.
        rewrite <- !app_assoc. done.
  Qed.
End generator.

Lemma for_each_collect (f : Z → list (list Z))
    (body : Z → gen_state → outcome gen_state) starts ln pre cands :
  (∀ start cs, start ∈ starts →
     body start (GenState ln cs)
     = Ret (GenState ln (cs ++ ((pre ++.) <$> f start)))) →
  for_each body starts (GenState ln cands)
  = Ret (GenState ln (cands ++ ((pre ++.) <$> mjoin (f <$> starts)))).
Proof.
  revert cands. induction starts as [|start starts IH]; intros cands Hbody.
  - simpl. by rewrite app_nil_r.
  - simpl. rewrite Hbody by left. cbn [obind].
    rewrite IH by (intros; apply Hbody; by right).
    by rewrite fmap_app, app_assoc.
Qed.

Section generator_spec.
Variables (L : Z) (ls : list Z).
Hypothesis HL : len ls = L.

Lemma place_spec bs :
    Forall (λ b, 0 < b) bs →
    ∀ pos pre cands, 0 ≤ pos ≤ L → len pre = pos →
      place L ls bs pos
        (GenState (pre ++ replicate (Z.to_nat (L - pos)) EMPTY) cands)
      = Ret (GenState (pre ++ replicate (Z.to_nat (L - pos)) EMPTY)
               (cands ++ ((pre ++.) <$> fills L ls bs pos))).
  Proof.
    induction 1 as [|b rest Hb Hrest IH]; intros pos pre cands Hpos Hpre.
    - by apply place_nil_spec.
    - cbn [place fills].
      rewrite Z.max_r by apply len_nonneg.
      apply for_each_collect. intros start cs Hin.
      apply elem_of_range in Hin.
      apply place_start_spec; auto; lia.
  Qed.

Lemma clear_all_ne v : clear v ls 0 L = negb (bool_decide (v ∈ ls)).
  Proof.
    destruct (bool_decide (v ∈ ls)) eqn:Hin; simpl.
    - apply bool_decide_eq_true in Hin. apply list_elem_of_lookup in Hin as [i Hi].
      apply not_true_is_false. rewrite clear_spec. intros Hc.
      apply (Hc (Z.of_nat i)).
      + apply lookup_lt_Some in Hi. unfold len in HL. lia.
      + by rewrite Nat2Z.id.
    - apply bool_decide_eq_false in Hin. apply clear_spec. intros i Hi Hv.
      apply Hin. by eapply list_elem_of_lookup_2.
  Qed.

  (** With positive blocks and a line state of the right length, the
      generator returns exactly [fills]. *)
Lemma line_candidates_fills blocks :
    Forall (λ b, 0 < b) blocks →
    _line_candidates L blocks ls = Ret (fills L ls blocks 0).
  Proof.
    intros Hbs. destruct blocks as [|b rest].
    - simpl. rewrite clear_all_ne, Z.sub_0_r.
      by destruct (bool_decide (FILLED ∈ ls)).
    - unfold _line_candidates.
      pose proof (place_spec (b :: rest) Hbs 0 [] []) as Hp.
      rewrite Z.sub_0_r in Hp. cbn [app] in Hp. rewrite Hp.
      + cbn [obind candidates]. f_equal.
        rewrite <- (list_fmap_id (fills _ _ _ _)) at 2.
        by apply list_fmap_ext.
      + unfold len in HL. lia.
      + done.
  Qed.
End generator_spec.

(** * What the enumerated fillings look like *)

Lemma runs_from_empties n l : runs_from 0 (replicate n EMPTY ++ l) = runs_from 0 l.
Proof.
  induction n as [|n IH]; [done|]. cbn [replicate app runs_from].
  destruct (decide (EMPTY = FILLED)); [done|].
  by destruct (decide (0 < 0)); [lia|].
Qed.

Lemma runs_from_filled n c l :
  runs_from c (replicate n FILLED ++ l) = runs_from (c + Z.of_nat n) l.
Proof.
  revert c. induction n as [|n IH]; intros c.
  - simpl. by rewrite Z.add_0_r.
  - cbn [replicate app runs_from]. rewrite decide_True by done.
    rewrite IH. f_equal. lia.
Qed.

Lemma runs_from_separator c l :
  0 < c → runs_from c (EMPTY :: l) = c :: runs_from 0 l.
Proof.
  intros. cbn [runs_from]. destruct (decide (EMPTY = FILLED)); [done|].
  by rewrite decide_True by done.
Qed.

Lemma runs_from_tail c n : 0 < c → runs_from c (replicate n EMPTY) = [c].
Proof.
  intros. destruct n as [|n].
  - simpl. by rewrite decide_True.
  - rewrite replicate_S, runs_from_separator by done.
    rewrite <- (app_nil_r (replicate n EMPTY)), runs_from_empties.
    cbn [runs_from]. by destruct (decide (0 < 0)); [lia|].
Qed.

Lemma fits_app ls off s1 s2 :
  fits ls off s1 → fits ls (off + length s1) s2 → fits ls off (s1 ++ s2).
Proof.
  intros H1 H2 i x Hi. apply lookup_app_Some in Hi as [Hi|[Hlen Hi]].
  - by apply H1.
  - apply H2 in Hi. by replace (off + i)%nat with (off + length s1 + (i - length s1))%nat by lia.
Qed.

Lemma fits_empties ls a b :
  0 ≤ a → clear FILLED ls a b = true →
  fits ls (Z.to_nat a) (replicate (Z.to_nat (b - a)) EMPTY).
Proof.
  intros Ha Hc i x Hi. apply lookup_replicate in Hi as [-> Hi]. left. split; [done|].
  rewrite clear_spec in Hc. specialize (Hc (a + Z.of_nat i)).
  replace (Z.to_nat (a + Z.of_nat i)) with (Z.to_nat a + i)%nat in Hc by lia.
  apply Hc. lia.
Qed.

Lemma fits_filled ls a b :
  0 ≤ a → clear EMPTY ls a b = true →
  fits ls (Z.to_nat a) (replicate (Z.to_nat (b - a)) FILLED).
Proof.
  intros Ha Hc i x Hi. apply lookup_replicate in Hi as [-> Hi]. right. split; [done|].
  rewrite clear_spec in Hc. specialize (Hc (a + Z.of_nat i)).
  replace (Z.to_nat (a + Z.of_nat i)) with (Z.to_nat a + i)%nat in Hc by lia.
  apply Hc. lia.
Qed.

Lemma fits_cons ls off x s :
  fits ls off [x] → fits ls (S off) s → fits ls off (x :: s).
Proof.
  intros H1 H2. apply (fits_app ls off [x] s); [done|].
  simpl. by replace (off + 1)%nat with (S off) by lia.
Qed.

Section fills_sound.
Variables (L : Z) (ls : list Z).

Lemma fills_sound bs :
    Forall (λ b, 0 < b) bs →
    ∀ pos s, 0 ≤ pos ≤ L → s ∈ fills L ls bs pos →
      length s = Z.to_nat (L - pos) ∧ runs s = bs ∧ fits ls (Z.to_nat pos) s.
  Proof.
    induction 1 as [|b rest Hb Hrest IH]; intros pos s Hpos Hs.
    - simpl in Hs. destruct (clear FILLED ls pos L) eqn:Hc; [|by apply elem_of_nil in Hs].
      apply list_elem_of_singleton in Hs as ->. split_and!.
      + by rewrite length_replicate.
      + unfold runs. rewrite <- (app_nil_r (replicate _ _)), runs_from_empties. done.
      + apply fits_empties; [lia|done].
    - cbn [fills] in Hs. apply list_elem_of_join in Hs as (ss & Hs & Hss).
      apply list_elem_of_fmap in Hss as (start & -> & Hstart).
      apply elem_of_range in Hstart.
      pose proof (sum_nonneg _ Hrest) as Hsum.
      pose proof (len_nonneg rest) as Hlen.
      unfold fills_at in Hs.
      destruct (clear FILLED ls pos start) eqn:Hc1; [|by apply elem_of_nil in Hs].
      destruct (clear EMPTY ls start (start + b)) eqn:Hc2; [|by apply elem_of_nil in Hs].
      cbn [andb] in Hs.
      assert (Hgap : fits ls (Z.to_nat pos) (replicate (Z.to_nat (start - pos)) EMPTY)).
      { apply fits_empties; [lia|done]. }
      assert (Hblk : fits ls (Z.to_nat pos + Z.to_nat (start - pos))
                       (replicate (Z.to_nat b) FILLED)).
      { replace (Z.to_nat pos + Z.to_nat (start - pos))%nat with (Z.to_nat start) by lia.
        replace b with ((start + b) - start) at 1 by lia.
        apply fits_filled; [lia|done]. }
      destruct rest as [|r rest'].
      + apply list_elem_of_fmap in Hs as (s' & -> & Hs').
        assert (Hs'' : s' = replicate (Z.to_nat (L - (start + b))) EMPTY).
        { cbn [fills] in Hs'.
          destruct (clear FILLED ls (start + b) L); [|by apply elem_of_nil in Hs'].
          by apply list_elem_of_singleton in Hs'. }
        apply IH in Hs' as (Hlen' & _ & Hfit'); [|lia].
        split_and!.
        * rewrite !length_app, !length_replicate, Hlen'. lia.
        * unfold runs. rewrite runs_from_empties, runs_from_filled.
          rewrite Hs'', runs_from_tail by lia. f_equal. lia.
        * apply fits_app; [done|]. rewrite length_replicate.
          apply fits_app; [done|]. rewrite length_replicate.
          by replace (Z.to_nat pos + Z.to_nat (start - pos) + Z.to_nat b)%nat
            with (Z.to_nat (start + b)) by lia.
      + assert (0 < r) by (by inversion Hrest).
        assert (0 ≤ sum rest') by (apply sum_nonneg; by inversion Hrest).
        assert (Hlenr : len (r :: rest') = 1 + len rest') by (unfold len; simpl; lia).
        pose proof (len_nonneg rest').
        simpl in Hstart.
        destruct (clear FILLED ls (start + b) (start + b + 1)) eqn:Hc3;
          [|by apply elem_of_nil in Hs].
        apply list_elem_of_fmap in Hs as (s' & -> & Hs').
        apply IH in Hs' as (Hlen' & Hruns' & Hfit'); [|lia].
        split_and!.
        * rewrite !length_app, !length_replicate. simpl. rewrite Hlen'. lia.
        * unfold runs in *. rewrite runs_from_empties, runs_from_filled.
          rewrite runs_from_separator by lia. rewrite Hruns'. f_equal. lia.
        * apply fits_app; [done|]. rewrite length_replicate.
          apply fits_app; [done|]. rewrite length_replicate.
          apply fits_cons.
          -- replace (Z.to_nat pos + Z.to_nat (start - pos) + Z.to_nat b)%nat
               with (Z.to_nat (start + b)) by lia.
             replace [EMPTY] with (replicate (Z.to_nat ((start + b + 1) - (start + b))) EMPTY).
             ++ apply fits_empties; [lia|done].
             ++ by replace (start + b + 1 - (start + b)) with 1 by lia.
          -- by replace (S (Z.to_nat pos + Z.to_nat (start - pos) + Z.to_nat b))%nat
               with (Z.to_nat (start + b + 1)) by lia.
  Qed.
End fills_sound.

(** What the generator returns for a well-formed line. *)
Lemma line_candidates_sound (L : Z) blocks ls :
  len ls = L → Forall (λ b, 0 < b) blocks →
  ∃ cands, _line_candidates L blocks ls = Ret cands ∧
    ∀ c, c ∈ cands → length c = length ls ∧ runs c = blocks ∧ fits ls 0 c.
Proof.
  intros HL Hbs. exists (fills L ls blocks 0). split.
  - by apply line_candidates_fills.
  - intros c Hc. apply fills_sound in Hc as (Hlen & Hruns & Hfits); [|done|].
    + split_and!; [|done|done]. rewrite Hlen. unfold len in HL. lia.
    + unfold len in HL. lia.
Qed.

Lemma fits_consistent ls c : length c = length ls → fits ls 0 c → consistent ls c.
Proof.
  intros Hlen Hfits i.
  split; intros Hi.
  - destruct (lookup_lt_is_Some_2 c i) as [x Hx].
    { rewrite Hlen. by eapply lookup_lt_Some. }
    pose proof (Hfits i x Hx) as Hf. simpl in Hf.
    destruct Hf as [[-> Hne]|[-> _]]; [|done]. by rewrite Hi in Hne.
  - destruct (lookup_lt_is_Some_2 c i) as [x Hx].
    { rewrite Hlen. by eapply lookup_lt_Some. }
    pose proof (Hfits i x Hx) as Hf. simpl in Hf.
    destruct Hf as [[-> _]|[-> Hne]]; [done|]. by rewrite Hi in Hne.
Qed.

Lemma fits_cells ls off c : fits ls off c → Forall (λ v, v = EMPTY ∨ v = FILLED) c.
Proof.
  intros Hfits. apply Forall_lookup. intros i x Hx.
  destruct (Hfits i x Hx) as [[-> _]|[-> _]]; auto.
Qed.

(** * The reducer *)

Lemma map_each_spec {X Y} (f : X → outcome Y) (P : X → Y → Prop) xs :
  (∀ x, x ∈ xs → ∃ y, f x = Ret y ∧ P x y) →
  ∃ ys, map_each f xs = Ret ys ∧ Forall2 P xs ys.
Proof.
  induction xs as [|x xs IH]; intros Hf.
  - by exists [].
  - destruct (Hf x) as (y & Hy & HP); [left|].
    destruct IH as (ys & Hys & HPs); [intros; apply Hf; by right|].
    exists (y :: ys). simpl. rewrite Hy. simpl. rewrite Hys. simpl.
    split; [done|]. by constructor.
Qed.

Lemma Forall2_range {Y} (P : Z → Y → Prop) (n : nat) ys :
  Forall2 P (range 0 (Z.of_nat n)) ys →
  length ys = n ∧ ∀ (i : nat) y, ys !! i = Some y → P (Z.of_nat i) y.
Proof.
  intros HP. pose proof (Forall2_length _ _ _ HP) as Hlen.
  rewrite length_range in Hlen. split; [lia|].
  intros i y Hy. 
  eapply (Forall2_lookup_lr _ _ _ i (Z.of_nat i)) in HP; [done| |done].
  unfold range. rewrite lookup_seqZ_lt; [done|].
  apply lookup_lt_Some in Hy. lia.
Qed.

Lemma all_same_spec rest (i : nat) v :
  Forall (λ c, (i < length c)%nat) rest →
  all_same rest (Z.of_nat i) v
  = Ret (bool_decide (Forall (λ c, c !! i = Some v) rest)).
Proof.
  induction 1 as [|c rest Hc Hrest IH]; [done|].
  simpl. destruct (lookup_lt_is_Some_2 c i Hc) as [x Hx].
  rewrite (getitem_Ret _ _ x) by done. simpl.
  destruct (decide (x = v)) as [->|Hne].
  - rewrite IH. f_equal. apply bool_decide_ext. rewrite Forall_cons. naive_solver.
  - f_equal. symmetry. apply bool_decide_eq_false. rewrite Forall_cons.
    intros [? _]. congruence.
Qed.

(** The reducer emits a value other than [UNKNOWN] only where every
    candidate holds that value. *)
Lemma intersect_spec (n : nat) cands :
  cands ≠ [] → Forall (λ c, length c = n) cands →
  ∃ inter, _intersect_candidates cands = Ret inter ∧ length inter = n ∧
    ∀ (i : nat) x, inter !! i = Some x →
      x = UNKNOWN ∨ ∀ c, c ∈ cands → c !! i = Some x.
Proof.
  intros Hne Hlen. destruct cands as [|c0 rest]; [done|].
  apply Forall_cons in Hlen as [Hc0 Hrest]. unfold _intersect_candidates.
  edestruct (map_each_spec
    (λ i, let? v := getitem c0 i in
          let? same := all_same rest i v in
          Ret (if same then v else UNKNOWN))
    (λ i x, x = UNKNOWN ∨ ∀ c, c ∈ c0 :: rest → c !! Z.to_nat i = Some x)
    (range 0 (len c0))) as (inter & Hinter & HP).
  { intros i Hi. apply elem_of_range in Hi.
    destruct (Z_of_nat_complete i) as [k ->]; [lia|].
    destruct (lookup_lt_is_Some_2 c0 k) as [v Hv].
    { unfold len in Hi. lia. }
    rewrite (getitem_Ret _ _ v) by done. cbn [obind].
    rewrite all_same_spec.
    - cbn [obind]. eexists; split; [done|]. rewrite Nat2Z.id.
      case_bool_decide as Hall; [|by left].
      right. intros c [->|Hc]%elem_of_cons; [done|].
      rewrite Forall_forall in Hall. by apply Hall.
    - eapply Forall_impl; [done|]. intros c Hc. simpl in Hc.
      unfold len in Hi. lia. }
  exists inter. split; [done|]. unfold len in HP.
  apply Forall2_range in HP as [Hl HP]. split; [lia|].
  intros i x Hx. specialize (HP i x Hx). by rewrite Nat2Z.id in HP.
Qed.

(** * Claims about the generator *)

(** C1. For a line state of length [L] and a sequence of positive block
    lengths, the generator returns, and every filling it returns splits
    into maximal runs of [FILLED] cells whose lengths are exactly the
    blocks, in order. *)
Theorem candidates_runs_are_blocks (L : Z) (blocks line_state : list Z) :
  len line_state = L → Forall (λ b, 0 < b) blocks →
  ∃ cands, _line_candidates L blocks line_state = Ret cands ∧
    ∀ c, c ∈ cands → runs c = blocks.
Proof.
  intros HL Hpos.
  destruct (line_candidates_sound L blocks line_state HL Hpos) as (cands & Heq & Hs).
  exists cands. split; [done|]. intros c Hc. by destruct (Hs c Hc) as (_ & ? & _).
Qed.

Lemma candidates_runs_are_blocks_witness :
  ∃ cands, _line_candidates 5 [2; 1] [-1; 1; -1; -1; 0] = Ret cands ∧
    ∀ c, c ∈ cands → runs c = [2; 1].
Proof.
  refine (candidates_runs_are_blocks 5 [2; 1] [-1; 1; -1; -1; 0] _ _).
  - reflexivity.
  - repeat constructor.
Defined.

(** C2. Under the same conditions every returned filling agrees with the
    line state wherever that is [FILLED] or [EMPTY]; and with no block at
    all the result is the single all-[EMPTY] line when no cell of the line
    state is [FILLED], and nothing otherwise. *)
Theorem candidates_respect_line_state (L : Z) (blocks line_state : list Z) :
  len line_state = L → Forall (λ b, 0 < b) blocks →
  ∃ cands, _line_candidates L blocks line_state = Ret cands ∧
    (∀ c, c ∈ cands → consistent line_state c) ∧
    (blocks = [] →
       cands = if bool_decide (FILLED ∈ line_state) then []
               else [replicate (Z.to_nat L) EMPTY]).
Proof.
  intros HL Hpos.
  destruct (line_candidates_sound L blocks line_state HL Hpos) as (cands & Heq & Hs).
  exists cands. split_and!; [done| |].
  - intros c Hc. destruct (Hs c Hc) as (Hlen & _ & Hfits). by apply fits_consistent.
  - intros ->. simpl in Heq. by destruct (bool_decide _); injection Heq as <-.
Qed.

Lemma candidates_respect_line_state_witness :
  ∃ cands, _line_candidates 5 [2; 1] [-1; 1; -1; -1; 0] = Ret cands ∧
    (∀ c, c ∈ cands → consistent [-1; 1; -1; -1; 0] c) ∧
    ([2; 1] = [] →
       cands = if bool_decide (FILLED ∈ [-1; 1; -1; -1; 0]) then []
               else [replicate (Z.to_nat 5) EMPTY]).
Proof.
  refine (candidates_respect_line_state 5 [2; 1] [-1; 1; -1; -1; 0] _ _).
  - reflexivity.
  - repeat constructor.
Defined.

(** * Rules for specifications *)

Section rules.
Context {S : Type}.
Implicit Types (P : S → Prop) (E : abort → S → Prop).

Lemma spec_ret {A} P (a : A) (Q : A → S → Prop) E :
    (∀ s, P s → Q a s) → spec P (hret a) Q E.
  Proof. intros HQ s Hs. by apply HQ. Qed.

Lemma spec_lift {A} P (o : outcome A) (Q : A → S → Prop) E :
    (∀ s, P s → match o with Ret a => Q a s | Abort e => E e s end) →
    spec P (lift o) Q E.
  Proof. intros HQ s Hs. specialize (HQ s Hs). unfold lift. by destruct o. Qed.

Lemma spec_bind {A B} P (m : ST S A) (k : A → ST S B)
      (Q : A → S → Prop) (R : B → S → Prop) E :
    spec P m Q E → (∀ a, spec (Q a) (k a) R E) → spec P (hbind m k) R E.
  Proof.
    intros Hm Hk s Hs. specialize (Hm s Hs). unfold hbind.
    destruct (m s) as [[a|e] s']; [|done]. by apply Hk.
  Qed.

Lemma spec_conseq {A} P P' (m : ST S A) (Q Q' : A → S → Prop) E E' :
    spec P' m Q' E' →
    (∀ s, P s → P' s) → (∀ a s, Q' a s → Q a s) → (∀ e s, E' e s → E e s) →
    spec P m Q E.
  Proof.
    intros Hm HP HQ HE s Hs. specialize (Hm s (HP s Hs)).
    destruct (m s) as [[a|e] s']; auto.
  Qed.

Lemma spec_pre {A} P (m : ST S A) (Q : A → S → Prop) E :
    (∀ s, P s → spec (λ s', s' = s) m Q E) → spec P m Q E.
  Proof. intros Hm s Hs. by apply (Hm s Hs). Qed.

Lemma spec_run {A} P (m : ST S A) (Q : A → S → Prop) E s :
    spec P m Q E → P s →
    match m s with (Ret a, s') => Q a s' | (Abort e, s') => E e s' end.
  Proof. intros Hm. apply Hm. Qed.

Lemma spec_total {A} P (m : ST S A) (Q : A → S → Prop) s :
    spec P m Q never → P s → ∃ a s', m s = (Ret a, s') ∧ Q a s'.
  Proof.
    intros Hm Hs. specialize (Hm s Hs). destruct (m s) as [[a|e] s']; [|done].
    by exists a, s'.
  Qed.

End rules.

Section loops.
Implicit Types (E : abort → heap → Prop).

  (** A plain loop keeps an invariant of the accumulator and the state. *)
Lemma spec_hfor {X T} (I : T → heap → Prop) (body : X → T → H T) xs t E :
    (∀ x t, x ∈ xs → spec (I t) (body x t) I E) →
    spec (I t) (hfor body xs t) I E.
  Proof.
    revert t. induction xs as [|x xs IH]; intros t Hbody.
    - by apply spec_ret.
    - simpl. eapply spec_bind; [apply Hbody; left|].
      intros t'. apply IH. intros; apply Hbody; by right.
  Qed.

  (** A loop over [range a b] with an invariant that knows the index. *)
Lemma spec_hfor_range {T} (I : Z → T → heap → Prop)
      (body : Z → T → H T) a b t E :
    a ≤ b →
    (∀ k t, a ≤ k < b → spec (I k t) (body k t) (I (k + 1)) E) →
    spec (I a t) (hfor body (range a b) t) (I b) E.
  Proof.
    intros Hab Hbody. remember (Z.to_nat (b - a)) as n eqn:Hn.
    revert a t Hab Hn Hbody. induction n as [|n IH]; intros a t Hab Hn Hbody.
    - rewrite range_nil by lia. replace b with a by lia. by apply spec_ret.
    - rewrite range_cons by lia. simpl.
      eapply spec_bind; [apply Hbody; lia|].
      intros t'. apply IH; [lia|lia|]. intros; apply Hbody; lia.
  Qed.

  (** The same for a loop that can be left early: [I] holds while the loop
      runs and at its normal end, [Q] when it is left. *)
Lemma spec_hfor_break_range {T} (I : Z → T → heap → Prop)
      (Q : T → heap → Prop) (body : Z → T → H (bool * T)) a b t E :
    a ≤ b →
    (∀ k t, a ≤ k < b →
       spec (I k t) (body k t)
         (λ '(ok, t') s, if ok then I (k + 1) t' s else Q t' s) E) →
    spec (I a t) (hfor_break body (range a b) t)
      (λ '(ok, t') s, if ok then I b t' s else Q t' s) E.
  Proof.
    intros Hab Hbody. remember (Z.to_nat (b - a)) as n eqn:Hn.
    revert a t Hab Hn Hbody. induction n as [|n IH]; intros a t Hab Hn Hbody.
    - rewrite range_nil by lia. replace b with a by lia. by apply spec_ret.
    - rewrite range_cons by lia. simpl.
      eapply spec_bind; [apply Hbody; lia|].
      intros [[] t']; [|by apply spec_ret].
      apply IH; [lia|lia|]. intros; apply Hbody; lia.
  Qed.

  (** A comprehension that does not change the state. *)
Lemma spec_hmap {X Y} (P : heap → Prop) (f : X → H Y) (R : X → Y → Prop) xs E :
    (∀ x, x ∈ xs → spec P (f x) (λ y s, R x y ∧ P s) E) →
    spec P (hmap f xs) (λ ys s, Forall2 R xs ys ∧ P s) E.
  Proof.
    induction xs as [|x xs IH]; intros Hf.
    - by apply spec_ret.
    - simpl. eapply spec_bind; [apply Hf; left|].
      intros y. simpl. apply spec_pre. intros s [HR HP].
      eapply spec_bind.
      { eapply spec_conseq; [apply IH; intros; apply Hf; by right| | |].
        - by intros ? ->.
        - intros ys s'. apply id.
        - intros e s'. apply id. }
      intros ys. apply spec_ret. intros s' [HRs HP']. split; [|done].
      by constructor.
  Qed.
End loops.

Lemma spec_zoom {S T A} (get : T → S) (set : S → T → T)
    (P : S → Prop) (m : ST S A) (Q : A → S → Prop) (E : abort → S → Prop)
    (P' : T → Prop) (Q' : A → T → Prop) (E' : abort → T → Prop) :
  spec P m Q E →
  (∀ t, P' t → P (get t) ∧
     (∀ a s, Q a s → Q' a (set s t)) ∧ (∀ e s, E e s → E' e (set s t))) →
  spec P' (zoom get set m) Q' E'.
Proof.
  intros Hm Hlens t Ht. destruct (Hlens t Ht) as (HP & HQ & HE).
  specialize (Hm (get t) HP). unfold zoom.
  destruct (m (get t)) as [[a|e] s']; auto.
Qed.

Lemma spec_exact {S A} (P : S → Prop) (m : ST S A) (Q : A → S → Prop) E :
  (∀ s, P s → ∃ a s', m s = (Ret a, s') ∧ Q a s') → spec P m Q E.
Proof. intros Hm s Hs. by destruct (Hm s Hs) as (a & s' & -> & HQ). Qed.

(** * Grids in the heap *)

Lemma rows_lookup h g (r : nat) l row :
  g !! r = Some l → h !! l = Some row → rows h g !! r = Some row.
Proof. intros Hg Hh. unfold rows. by rewrite list_lookup_fmap, Hg; simpl; rewrite Hh. Qed.

Lemma length_rows h g : length (rows h g) = length g.
Proof. unfold rows. by rewrite length_fmap. Qed.

Section grid_ok.
Context {h : heap} {g : grid} {H W : nat}.
Hypothesis Hok : grid_ok h g H W.

Lemma grid_row (r : nat) :
    (r < H)%nat →
    ∃ l row, g !! r = Some l ∧ h !! l = Some row ∧ rows h g !! r = Some row ∧
             length row = W ∧ Forall cell_ok row.
  Proof.
    intros Hr. destruct Hok as [Hlen _ _ Hrows].
    destruct (lookup_lt_is_Some_2 g r) as [l Hl]; [lia|].
    destruct (Hrows l) as (row & Hrow & HW & Hcells).
    { by eapply list_elem_of_lookup_2. }
    exists l, row. split_and!; try done. by eapply rows_lookup.
  Qed.

Lemma grid_cell (r c : nat) :
    (r < H)%nat → (c < W)%nat → ∃ v, cell h g r c = Some v ∧ cell_ok v.
  Proof.
    intros Hr Hc. destruct (grid_row r Hr) as (l & row & _ & _ & Hrow & HW & Hcells).
    destruct (lookup_lt_is_Some_2 row c) as [v Hv]; [lia|].
    exists v. unfold cell, cell_of. rewrite Hrow. simpl. split; [done|].
    by eapply Forall_lookup_1.
  Qed.

Lemma grid_rows_shape :
    length (rows h g) = H ∧
    Forall (λ row, length row = W ∧ Forall cell_ok row) (rows h g).
  Proof.
    destruct Hok as [Hlen _ _ Hrows]. split; [by rewrite length_rows|].
    unfold rows. apply Forall_fmap, Forall_forall. intros l Hl.
    destruct (Hrows l Hl) as (row & Hrow & ? & ?). simpl. by rewrite Hrow.
  Qed.

Lemma grid_width_ok : grid_width g h = (Ret (Z.of_nat W), h).
  Proof.
    destruct (grid_row 0) as (l & row & Hl & Hrow & _ & HW & _).
    { by destruct Hok. }
    unfold grid_width, hbind, lift, deref.
    change 0 with (Z.of_nat 0). rewrite (getitem_Ret g 0 l Hl), Hrow. unfold hret, len. by rewrite HW.
  Qed.

Lemma get_cell_ok (r c : nat) v :
    cell h g r c = Some v →
    get_cell g (Z.of_nat r) (Z.of_nat c) h = (Ret v, h).
  Proof.
    intros Hv. unfold cell, cell_of in Hv.
    destruct (rows h g !! r) as [row|] eqn:Hrow; [simpl in Hv|done].
    assert (Hr : (r < H)%nat).
    { apply lookup_lt_Some in Hrow. rewrite length_rows in Hrow. by destruct Hok as [<-]. }
    destruct (grid_row r Hr) as (l & row' & Hl & Hrow' & Hrow'' & _).
    assert (row' = row) as -> by congruence.
    unfold get_cell, hbind, lift, deref.
    rewrite (getitem_Ret g r l Hl), Hrow'. by rewrite (getitem_Ret row c v Hv).
  Qed.

Lemma deref_rows : hmap deref g h = (Ret (rows h g), h).
  Proof.
    destruct Hok as [_ _ _ Hrows]. clear Hok.
    induction g as [|l g' IH]; [done|].
    simpl. unfold hbind at 1. unfold deref at 1.
    destruct (Hrows l) as (row & Hrow & _); [left|]. rewrite Hrow.
    unfold hbind. rewrite IH by (intros; apply Hrows; by right). done.
  Qed.

Lemma column_ok (c : nat) :
    (c < W)%nat →
    ∃ col, column g (Z.of_nat H) (Z.of_nat c) h = (Ret col, h) ∧
      length col = H ∧ Forall cell_ok col ∧
      ∀ r : nat, col !! r = cell h g r c.
  Proof.
    intros Hc.
    assert (Hmap : spec (λ s, s = h)
      (hmap (λ r, get_cell g r (Z.of_nat c)) (range 0 (Z.of_nat H)))
      (λ col s, Forall2 (λ r v, cell_ok v ∧ cell h g (Z.to_nat r) c = Some v)
                  (range 0 (Z.of_nat H)) col ∧ s = h) never).
    { apply spec_hmap. intros r Hr. apply elem_of_range in Hr.
      apply spec_exact. intros s ->.
      destruct (grid_cell (Z.to_nat r) c) as (v & Hv & Hcv); [lia|done|].
      exists v, h. split; [|done].
      rewrite <- (Z2Nat.id r) at 1 by lia. by apply get_cell_ok. }
    destruct (spec_total _ _ _ h Hmap eq_refl) as (col & h' & Heq & HR & ->).
    exists col. unfold column. split; [done|].
    apply Forall2_range in HR as [Hlen HR]. split_and!; [done| |].
    - apply Forall_lookup. intros r v Hv. by apply HR in Hv as [? _].
    - intros r. destruct (col !! r) as [v|] eqn:Hv.
      + apply HR in Hv as [_ Hv]. by rewrite Nat2Z.id in Hv.
      + apply lookup_ge_None in Hv. unfold cell, cell_of.
        rewrite (lookup_ge_None_2 (rows h g)); [done|].
        rewrite length_rows. destruct Hok as [-> _ _ _]. lia.
  Qed.
End grid_ok.

(** ** Writing a cell *)

Lemma rows_store h g (r : nat) l row' :
  NoDup g → g !! r = Some l → (l < length h)%nat →
  rows (<[l:=row']> h) g = <[r:=row']> (rows h g).
Proof.
  intros Hnd Hl Hlt. apply list_eq. intros i. unfold rows.
  rewrite list_lookup_fmap.
  destruct (decide (i = r)) as [->|Hne].
  - rewrite Hl. simpl. rewrite list_lookup_insert_eq by done. simpl.
    rewrite list_lookup_insert_eq; [done|]. rewrite length_fmap.
    by eapply lookup_lt_Some.
  - rewrite list_lookup_insert_ne by done. rewrite list_lookup_fmap.
    destruct (g !! i) as [l'|] eqn:Hl'; [|done]. simpl.
    rewrite list_lookup_insert_ne; [done|]. intros ->.
    apply Hne. by eapply NoDup_lookup.
Qed.

Lemma set_cell_ok h g H W (r c : nat) v y :
  grid_ok h g H W → cell h g r c = Some y → cell_ok v →
  ∃ row h', rows h g !! r = Some row ∧
    set_cell g (Z.of_nat r) (Z.of_nat c) v h = (Ret (), h') ∧
    grid_ok h' g H W ∧
    rows h' g = <[r:=<[c:=v]> row]> (rows h g) ∧
    (∀ l, l ∉ g → h' !! l = h !! l) ∧ length h' = length h.
Proof.
  intros Hok Hy Hv. unfold cell, cell_of in Hy.
  destruct (rows h g !! r) as [row|] eqn:Hrow; [simpl in Hy|done].
  assert (Hr : (r < H)%nat).
  { apply lookup_lt_Some in Hrow. rewrite length_rows in Hrow. by destruct Hok as [<-]. }
  destruct (grid_row Hok r Hr) as (l & row' & Hl & Hrow' & Hrow'' & HW & Hcells).
  assert (row' = row) as -> by congruence.
  exists row, (<[l:=<[c:=v]> row]> h). split; [done|].
  assert (Hc : (c < length row)%nat) by (by eapply lookup_lt_Some).
  assert (Hlt : (l < length h)%nat) by (by eapply lookup_lt_Some).
  split_and!.
  - unfold set_cell, hbind, lift, deref, store.
    rewrite (getitem_Ret g r l Hl), Hrow'. by rewrite setitem_Ret.
  - destruct Hok as [Hlen Hpos Hnd Hrows]. split; try done.
    intros l' Hl'. destruct (decide (l' = l)) as [->|Hne].
    + exists (<[c:=v]> row). rewrite list_lookup_insert_eq by done.
      split_and!; [done|by rewrite length_insert|].
      apply Forall_insert; [done|done].
    + rewrite list_lookup_insert_ne by done. by apply Hrows.
  - apply rows_store; [by destruct Hok|done|done].
  - intros l' Hl'. apply list_lookup_insert_ne. intros ->.
    apply Hl'. by eapply list_elem_of_lookup_2.
  - by rewrite length_insert.
Qed.

Lemma cell_insert (G : list (list Z)) (r c : nat) row v (r' c' : nat) :
  G !! r = Some row → (c < length row)%nat →
  cell_of (<[r:=<[c:=v]> row]> G) r' c'
  = if decide (r' = r ∧ c' = c) then Some v else cell_of G r' c'.
Proof.
  intros Hrow Hc. unfold cell_of. destruct (decide (r' = r)) as [->|Hr].
  - rewrite list_lookup_insert_eq by (by eapply lookup_lt_Some). simpl.
    destruct (decide (c' = c)) as [->|Hc'].
    + rewrite decide_True by done. by rewrite list_lookup_insert_eq.
    + rewrite decide_False by naive_solver.
      rewrite list_lookup_insert_ne by done. by rewrite Hrow.
  - rewrite list_lookup_insert_ne by done. by rewrite decide_False by naive_solver.
Qed.

(** ** Counting unknown cells *)

Lemma unk_row_insert row (c : nat) v :
  row !! c = Some UNKNOWN → v ≠ UNKNOWN →
  (unk_row (<[c:=v]> row) + 1 = unk_row row)%nat.
Proof.
  revert c. induction row as [|x row IH]; intros c Hc Hv; [done|].
  destruct c as [|c]; simpl in *.
  - injection Hc as ->. unfold unk_row.
    rewrite (filter_cons_True _ UNKNOWN) by done.
    rewrite (filter_cons_False _ v) by done. simpl. lia.
  - specialize (IH c Hc Hv). unfold unk_row in *.
    destruct (decide (x = UNKNOWN)).
    + rewrite !filter_cons_True by done. simpl. lia.
    + by rewrite !filter_cons_False by done.
Qed.

Lemma unknowns_insert (G : list (list Z)) (r : nat) row row' :
  G !! r = Some row →
  (unknowns (<[r:=row']> G) + unk_row row = unknowns G + unk_row row')%nat.
Proof.
  revert r. induction G as [|x G IH]; intros r Hr; [done|].
  destruct r as [|r]; simpl in *.
  - injection Hr as ->. unfold unknowns. simpl. lia.
  - specialize (IH r Hr). unfold unknowns in *. simpl. lia.
Qed.

Lemma unk_row_le row : (unk_row row ≤ length row)%nat.
Proof. unfold unk_row. apply length_filter. Qed.

Lemma unknowns_le (G : list (list Z)) (H W : nat) :
  length G = H → Forall (λ row, length row = W) G → (unknowns G ≤ H * W)%nat.
Proof.
  intros <- HW. induction HW as [|row G Hrow HG IH]; [done|].
  unfold unknowns in *. simpl. pose proof (unk_row_le row). lia.
Qed.

Lemma unk_row_zero row : unk_row row = 0%nat ↔ UNKNOWN ∉ row.
Proof.
  unfold unk_row. induction row as [|x row IH].
  { split; [intros _; apply not_elem_of_nil|done]. }
  rewrite not_elem_of_cons. destruct (decide (x = UNKNOWN)) as [->|Hx].
  - rewrite filter_cons_True by done. simpl. naive_solver.
  - rewrite filter_cons_False by done. naive_solver.
Qed.

Lemma unknowns_zero (G : list (list Z)) :
  unknowns G = 0%nat ↔ Forall (λ row, UNKNOWN ∉ row) G.
Proof.
  unfold unknowns. induction G as [|row G IH]; [done|].
  simpl. rewrite Forall_cons, <- IH, <- unk_row_zero. lia.
Qed.

(** ** Refinement of grids *)

Lemma refines_refl G : refines G G.
Proof.
  unfold refines. apply Forall2_same_length_lookup_2; [done|].
  intros i x y Hx Hy. assert (x = y) as -> by congruence.
  apply Forall2_same_length_lookup_2; [done|]. intros; congruence.
Qed.

Lemma refines_trans G1 G2 G3 : refines G1 G2 → refines G2 G3 → refines G1 G3.
Proof.
  unfold refines. apply Forall2_trans. intros r1 r2 r3.
  apply Forall2_trans. intros x y z Hxy Hyz Hx.
  rewrite <- (Hxy Hx). apply Hyz. by rewrite (Hxy Hx).
Qed.

Lemma refines_insert (G : list (list Z)) (r c : nat) row y v :
  G !! r = Some row → row !! c = Some y → (y ≠ UNKNOWN → v = y) →
  refines G (<[r:=<[c:=v]> row]> G).
Proof.
  intros Hrow Hy Hv. unfold refines.
  apply Forall2_same_length_lookup_2; [by rewrite length_insert|].
  intros i x x' Hx Hx'. destruct (decide (i = r)) as [->|Hne].
  - rewrite list_lookup_insert_eq in Hx' by (by eapply lookup_lt_Some).
    assert (x = row) as -> by congruence. injection Hx' as <-.
    apply Forall2_same_length_lookup_2; [by rewrite length_insert|].
    intros j z z' Hz Hz'. destruct (decide (j = c)) as [->|Hne'].
    + rewrite list_lookup_insert_eq in Hz' by (by eapply lookup_lt_Some).
      assert (z = y) as -> by congruence. injection Hz' as <-. done.
    + rewrite list_lookup_insert_ne in Hz' by done. congruence.
  - rewrite list_lookup_insert_ne in Hx' by done.
    assert (x = x') as -> by congruence.
    apply Forall2_same_length_lookup_2; [done|]. intros; congruence.
Qed.

Lemma refines_cell G G' (r c : nat) v :
  refines G G' → cell_of G r c = Some v → v ≠ UNKNOWN →
  cell_of G' r c = Some v.
Proof.
  intros Href Hv Hne. unfold cell_of in *. destruct (G !! r) as [row|] eqn:Hrow; [simpl in Hv|done].
  destruct (Forall2_lookup_l _ _ _ _ _ Href Hrow) as (row' & Hrow' & Hrr).
  rewrite Hrow'. simpl.
  destruct (Forall2_lookup_l _ _ _ _ _ Hrr Hv) as (v' & Hv' & Hvv).
  rewrite Hv'. f_equal. by apply Hvv.
Qed.

Lemma refines_unknowns G G' : refines G G' → (unknowns G' ≤ unknowns G)%nat.
Proof.
  unfold refines, unknowns. induction 1 as [|row row' G G' Hrow HG IH]; [done|].
  simpl. assert (unk_row row' ≤ unk_row row)%nat; [|lia].
  clear -Hrow. unfold unk_row. induction Hrow as [|x y row row' Hxy Hrow IH]; [done|].
  destruct (decide (y = UNKNOWN)) as [->|Hy].
  - rewrite (filter_cons_True _ UNKNOWN) by done.
    destruct (decide (x = UNKNOWN)) as [->|Hx].
    + rewrite filter_cons_True by done. simpl. lia.
    + by specialize (Hxy Hx).
  - rewrite (filter_cons_False _ y) by done.
    destruct (decide (x = UNKNOWN)) as [->|Hx].
    + rewrite filter_cons_True by done. simpl. lia.
    + by rewrite filter_cons_False by done.
Qed.

(** * One sweep over a well-formed grid *)

Lemma inter_compat (ls : list Z) (cands : list (list Z)) (inter : list Z)
    (k : nat) x y :
  cands ≠ [] →
  (∀ c, c ∈ cands → fits ls 0 c) →
  (∀ (i : nat) x, inter !! i = Some x →
     x = UNKNOWN ∨ ∀ c, c ∈ cands → c !! i = Some x) →
  inter !! k = Some x → ls !! k = Some y → cell_ok y → x ≠ UNKNOWN →
  cell_ok x ∧ (y ≠ UNKNOWN → y = x).
Proof.
  intros Hne Hfits Hinter Hx Hy Hcy Hxu.
  destruct cands as [|c0 cands']; [done|].
  destruct (Hinter k x Hx) as [?|Hall]; [done|].
  specialize (Hall c0 (list_elem_of_here _ _)).
  pose proof (Hfits c0 (list_elem_of_here _ _) k x Hall) as Hf. simpl in Hf.
  unfold cell_ok in *. destruct Hf as [[-> Hn]|[-> Hn]].
  - split; [auto|]. intros Hyu. destruct Hcy as [-> | [-> | ->]]; try done.
  - split; [auto|]. intros Hyu. destruct Hcy as [-> | [-> | ->]]; try done.
Qed.

Section sweep.
Context {S : Type} (note : S → S) (wt : S → nat).
Hypothesis Hwt : ∀ s, (wt (note s) ≤ wt s + 1)%nat.
Variables (g : grid) (H W : nat).

Lemma advance_refl h : grid_ok h g H W → advance g H W h h.
  Proof. intros. split; auto. apply refines_refl. Qed.

Lemma advance_trans h1 h2 h3 :
    advance g H W h1 h2 → advance g H W h2 h3 → advance g H W h1 h3.
  Proof.
    intros [Hok1 Href1 Hfr1 Hl1] [Hok2 Href2 Hfr2 Hl2]. split.
    - done.
    - by eapply refines_trans.
    - intros l Hl. rewrite Hfr2, Hfr1; done.
    - congruence.
  Qed.

Lemma moved_refl acc h : grid_ok h g H W → moved wt g H W acc h acc h.
  Proof. intros. split; [by apply advance_refl|done]. Qed.

Lemma moved_trans a1 h1 a2 h2 a3 h3 :
    moved wt g H W a1 h1 a2 h2 → moved wt g H W a2 h2 a3 h3 →
    moved wt g H W a1 h1 a3 h3.
  Proof.
    intros [Ha1 Hc1] [Ha2 Hc2]. split; [by eapply advance_trans|lia].
  Qed.

Lemma apply_cell_ok (inter : list Z) (k r c : nat) acc h x y :
    grid_ok h g H W → inter !! k = Some x → cell h g r c = Some y →
    (x ≠ UNKNOWN → cell_ok x ∧ (y ≠ UNKNOWN → y = x)) →
    ∃ acc' h',
      apply_cell note g inter (Z.of_nat k) (Z.of_nat r) (Z.of_nat c) acc h
      = (Ret acc', h') ∧
      moved wt g H W acc h acc' h' ∧
      ∀ r' c' : nat, cell h' g r' c'
        = if decide (r' = r ∧ c' = c ∧ x ≠ UNKNOWN) then Some x
          else cell h g r' c'.
  Proof.
    intros Hok Hx Hy Hcompat. unfold apply_cell, hbind at 1, lift.
    rewrite (getitem_Ret _ _ x Hx).
    destruct (decide (x ≠ UNKNOWN)) as [Hxu|Hxu].
    - destruct (Hcompat Hxu) as [Hcx Hyx].
      unfold hbind at 1. rewrite (get_cell_ok Hok r c y Hy).
      destruct (decide (y ≠ x)) as [Hne|Heq].
      + assert (y = UNKNOWN) as ->.
        { destruct (decide (y = UNKNOWN)); [done|]. by destruct Hne; apply Hyx. }
        destruct (set_cell_ok h g H W r c x UNKNOWN Hok Hy Hcx)
          as (row & h' & Hrow & Hset & Hok' & Hrows & Hframe & Hlen).
        unfold hbind. rewrite Hset. exists (note acc), h'. split; [done|].
        unfold cell, cell_of in Hy. rewrite Hrow in Hy. simpl in Hy.
        split; [split|].
        * split; [done| |done|done]. rewrite Hrows.
          eapply refines_insert; [done|done|done].
        * rewrite Hrows.
          pose proof (unknowns_insert (rows h g) r row (<[c:=x]> row) Hrow) as Hu.
          pose proof (unk_row_insert row c x Hy Hxu). specialize (Hwt acc). lia.
        * intros r' c'. unfold cell. rewrite Hrows.
          rewrite (cell_insert _ r c row x r' c' Hrow) by (by eapply lookup_lt_Some).
          destruct (decide (r' = r ∧ c' = c)) as [[-> ->]|Hn].
          -- by rewrite decide_True.
          -- by rewrite decide_False by naive_solver.
      + apply dec_stable in Heq as ->. exists acc, h. split; [done|].
        split; [by apply moved_refl|]. intros r' c'.
        destruct (decide (r' = r ∧ c' = c ∧ x ≠ UNKNOWN)) as [(-> & -> & _)|]; done.
    - exists acc, h. split; [done|]. split; [by apply moved_refl|].
      intros r' c'. by rewrite decide_False by naive_solver.
  Qed.

  (** The inner loop of a reduction, over the cells [(pr k, pc k)] of one
      line. *)
Lemma line_loop_ok (inter : list Z) (n : nat) (fr fc : Z → Z) (pr pc : nat → nat) acc h :
    grid_ok h g H W → length inter = n →
    (∀ k : nat, fr (Z.of_nat k) = Z.of_nat (pr k) ∧ fc (Z.of_nat k) = Z.of_nat (pc k)) →
    (∀ k : nat, (k < n)%nat → (pr k < H)%nat ∧ (pc k < W)%nat) →
    (∀ k k' : nat, pr k = pr k' → pc k = pc k' → k = k') →
    (∀ (k : nat) x y, inter !! k = Some x → cell h g (pr k) (pc k) = Some y →
       x ≠ UNKNOWN → cell_ok x ∧ (y ≠ UNKNOWN → y = x)) →
    ∃ acc' h',
      hfor (λ k, apply_cell note g inter k (fr k) (fc k)) (range 0 (Z.of_nat n)) acc h
      = (Ret acc', h') ∧ moved wt g H W acc h acc' h'.
  Proof.
    intros Hok Hlen Hf Hbound Hinj Hcompat.
    set (I := λ (acc' : S) (h' : heap),
      moved wt g H W acc h acc' h' ∧
      ∀ (k : nat) x y, inter !! k = Some x → cell h' g (pr k) (pc k) = Some y →
        x ≠ UNKNOWN → cell_ok x ∧ (y ≠ UNKNOWN → y = x)).
    assert (Hloop : spec (I acc)
      (hfor (λ k, apply_cell note g inter k (fr k) (fc k)) (range 0 (Z.of_nat n)) acc)
      I never).
    { apply spec_hfor. intros k t Hk. apply elem_of_range in Hk.
      destruct (Z_of_nat_complete k) as [k' ->]; [lia|].
      apply spec_exact. intros s [Hmv Hcmp].
      destruct (Hbound k') as [Hr Hc]; [lia|].
      destruct (lookup_lt_is_Some_2 inter k') as [x Hx]; [lia|].
      pose proof (adv_ok _ _ _ _ _ (proj1 Hmv)) as Hoks.
      destruct (grid_cell Hoks (pr k') (pc k') Hr Hc) as (y & Hy & Hcy).
      destruct (Hf k') as [-> ->].
      destruct (apply_cell_ok inter k' (pr k') (pc k') t s x y Hoks Hx Hy)
        as (t' & s' & Heq & Hmv' & Hcells).
      { by apply (Hcmp k'). }
      exists t', s'. split; [done|]. split; [by eapply moved_trans|].
      intros j xj yj Hxj Hyj Hxju. rewrite Hcells in Hyj.
      destruct (decide (pr j = pr k' ∧ pc j = pc k' ∧ x ≠ UNKNOWN))
        as [(Hpr & Hpc & Hxu)|_].
      - assert (j = k') as -> by (by apply Hinj).
        assert (xj = x) as -> by congruence. injection Hyj as <-.
        split; [|done]. by eapply (Hcmp k').
      - by eapply (Hcmp j). }
    destruct (spec_total _ _ _ h Hloop) as (acc' & h' & Heq & Hmv & _).
    { split; [by apply moved_refl|done]. }
    by exists acc', h'.
  Qed.

Lemma reduce_row_ok row_clues (r : nat) acc h :
    grid_ok h g H W → clues_ok H row_clues → (r < H)%nat →
    ∃ ok acc' h',
      reduce_row note g row_clues (Z.of_nat W) (Z.of_nat r) acc h
      = (Ret (ok, acc'), h') ∧ moved wt g H W acc h acc' h'.
  Proof.
    intros Hok [Hclen Hcpos] Hr.
    destruct (grid_row Hok r Hr) as (l & row & Hl & Hrow & Hrows & HW & Hcells).
    destruct (lookup_lt_is_Some_2 row_clues r) as [blocks Hblocks]; [lia|].
    assert (Hbpos : Forall (λ b, 0 < b) blocks) by (by eapply Forall_lookup_1).
    destruct (line_candidates_sound (Z.of_nat W) blocks row) as (cands & Hcands & Hsound);
      [unfold len; lia|done|].
    unfold reduce_row, hbind at 1, lift. rewrite (getitem_Ret _ _ _ Hl).
    unfold hbind at 1, deref. rewrite Hrow.
    unfold hbind at 1. rewrite (getitem_Ret _ _ _ Hblocks).
    unfold hbind at 1. rewrite Hcands.
    destruct cands as [|c0 cands'] eqn:Hcs.
    { exists false, acc, h. split; [done|]. by apply moved_refl. }
    rewrite <- Hcs in *. assert (Hne : cands ≠ []) by (by rewrite Hcs).
    destruct (intersect_spec W cands Hne) as (inter & Hinter & Hilen & Hiprop).
    { apply Forall_forall. intros c Hc. destruct (Hsound c Hc) as [-> _]. done. }
    unfold hbind at 1. rewrite Hinter.
    destruct (line_loop_ok inter W (λ _, Z.of_nat r) (λ k, k) (λ _, r) (λ k, k) acc h)
      as (acc' & h' & Hloop & Hmv); try done; try (intros k Hk; simpl; lia).
    { intros k x y Hx Hy Hxu. unfold cell, cell_of in Hy. rewrite Hrows in Hy. simpl in Hy.
      eapply (inter_compat row cands inter k x y); try done.
      - intros c Hc. by destruct (Hsound c Hc) as (_ & _ & ?).
      - by eapply Forall_lookup_1. }
    unfold hbind. rewrite Hloop. by exists true, acc', h'.
  Qed.

Lemma reduce_col_ok col_clues (c : nat) acc h :
    grid_ok h g H W → clues_ok W col_clues → (c < W)%nat →
    ∃ ok acc' h',
      reduce_col note g col_clues (Z.of_nat H) (Z.of_nat c) acc h
      = (Ret (ok, acc'), h') ∧ moved wt g H W acc h acc' h'.
  Proof.
    intros Hok [Hclen Hcpos] Hc.
    destruct (column_ok Hok c Hc) as (col & Hcol & Hlen & Hcells & Hlookup).
    destruct (lookup_lt_is_Some_2 col_clues c) as [blocks Hblocks]; [lia|].
    assert (Hbpos : Forall (λ b, 0 < b) blocks) by (by eapply Forall_lookup_1).
    destruct (line_candidates_sound (Z.of_nat H) blocks col) as (cands & Hcands & Hsound);
      [unfold len; lia|done|].
    unfold reduce_col, hbind at 1. rewrite Hcol.
    unfold hbind at 1, lift. rewrite (getitem_Ret _ _ _ Hblocks).
    unfold hbind at 1. rewrite Hcands.
    destruct cands as [|c0 cands'] eqn:Hcs.
    { exists false, acc, h. split; [done|]. by apply moved_refl. }
    rewrite <- Hcs in *. assert (Hne : cands ≠ []) by (by rewrite Hcs).
    destruct (intersect_spec H cands Hne) as (inter & Hinter & Hilen & Hiprop).
    { apply Forall_forall. intros c' Hc'. destruct (Hsound c' Hc') as [-> _]. done. }
    unfold hbind at 1. rewrite Hinter.
    destruct (line_loop_ok inter H (λ k, k) (λ _, Z.of_nat c) (λ k, k) (λ _, c) acc h)
      as (acc' & h' & Hloop & Hmv); try done; try (intros k Hk; simpl; lia).
    { intros k x y Hx Hy Hxu. rewrite <- Hlookup in Hy.
      eapply (inter_compat col cands inter k x y); try done.
      - intros c' Hc'. by destruct (Hsound c' Hc') as (_ & _ & ?).
      - by eapply Forall_lookup_1. }
    unfold hbind. rewrite Hloop. by exists true, acc', h'.
  Qed.

Lemma sweep_ok row_clues col_clues acc h :
    grid_ok h g H W → clues_ok H row_clues → clues_ok W col_clues →
    ∃ ok acc' h',
      sweep note g row_clues col_clues (Z.of_nat H) (Z.of_nat W) acc h
      = (Ret (ok, acc'), h') ∧ moved wt g H W acc h acc' h'.
  Proof.
    intros Hok Hrc Hcc.
    assert (Hrows : spec (moved wt g H W acc h acc)
      (hfor_break (reduce_row note g row_clues (Z.of_nat W)) (range 0 (Z.of_nat H)) acc)
      (λ '(ok, t) s, moved wt g H W acc h t s) never).
    { eapply spec_conseq.
      - apply (spec_hfor_break_range (λ _ t s, moved wt g H W acc h t s)
                 (λ t s, moved wt g H W acc h t s)); [lia|].
        intros k t Hk. destruct (Z_of_nat_complete k) as [k' ->]; [lia|].
        apply spec_exact. intros s Hmv.
        destruct (reduce_row_ok row_clues k' t s) as (ok & t' & s' & Heq & Hmv');
          [by destruct Hmv as [[] _]|done|lia|].
        exists (ok, t'), s'. split; [done|].
        destruct ok; by eapply moved_trans.
      - done.
      - intros [[] t] s; done.
      - done. }
    destruct (spec_total _ _ _ h Hrows) as ([ok1 acc1] & h1 & Heq1 & Hmv1);
      [by apply moved_refl|].
    unfold sweep, hbind. rewrite Heq1. destruct ok1.
    2: { by exists false, acc1, h1. }
    assert (Hcols : spec (moved wt g H W acc h acc1)
      (hfor_break (reduce_col note g col_clues (Z.of_nat H)) (range 0 (Z.of_nat W)) acc1)
      (λ '(ok, t) s, moved wt g H W acc h t s) never).
    { eapply spec_conseq.
      - apply (spec_hfor_break_range (λ _ t s, moved wt g H W acc h t s)
                 (λ t s, moved wt g H W acc h t s)); [lia|].
        intros k t Hk. destruct (Z_of_nat_complete k) as [k' ->]; [lia|].
        apply spec_exact. intros s Hmv.
        destruct (reduce_col_ok col_clues k' t s) as (ok & t' & s' & Heq & Hmv');
          [by destruct Hmv as [[] _]|done|lia|].
        exists (ok, t'), s'. split; [done|].
        destruct ok; by eapply moved_trans.
      - done.
      - intros [[] t] s; done.
      - done. }
    destruct (spec_total _ _ _ h1 Hcols) as ([ok2 acc2] & h2 & Heq2 & Hmv2); [done|].
    rewrite Heq2. by exists ok2, acc2, h2.
  Qed.
End sweep.

(** * Invariants that need no well-formedness *)

Lemma getitem_elem {A} (l : list A) i x : getitem l i = Ret x → x ∈ l.
Proof.
  unfold getitem. destruct (py_index (length l) i) as [k|]; [simpl|done].
  destruct (l !! k) as [y|] eqn:Hy; [|done]. intros [= ->].
  by eapply list_elem_of_lookup_2.
Qed.

Lemma setitem_length {A} (l : list A) i v l' :
  setitem l i v = Ret l' → length l' = length l.
Proof.
  unfold setitem. destruct (py_index (length l) i); [|done].
  intros [= <-]. by rewrite length_insert.
Qed.

Section stable.
Variable J : heap → Prop.

Lemma stable_ret {A} (a : A) : stable J (hret a).
  Proof. by apply spec_ret. Qed.

Lemma stable_lift {A} (o : outcome A) : stable J (lift o).
  Proof. apply spec_lift. intros s Hs. by destruct o. Qed.

Lemma stable_bind {A B} (m : H A) (k : A → H B) :
    stable J m → (∀ a, stable J (k a)) → stable J (hbind m k).
  Proof. intros Hm Hk. eapply spec_bind; [apply Hm|apply Hk]. Qed.

Lemma stable_deref l : stable J (deref l).
  Proof. intros s Hs. unfold deref. by destruct (s !! l). Qed.

Lemma stable_hfor {X T} (body : X → T → H T) xs t :
    (∀ x t, stable J (body x t)) → stable J (hfor body xs t).
  Proof.
    intros Hbody. revert t. induction xs as [|x xs IH]; intros t.
    - apply stable_ret.
    - simpl. apply stable_bind; [apply Hbody|]. intros t'. apply IH.
  Qed.

Lemma stable_hfor_break {X T} (body : X → T → H (bool * T)) xs t :
    (∀ x t, stable J (body x t)) → stable J (hfor_break body xs t).
  Proof.
    intros Hbody. revert t. induction xs as [|x xs IH]; intros t.
    - apply stable_ret.
    - simpl. apply stable_bind; [apply Hbody|]. intros [[] t'].
      + apply IH.
      + apply stable_ret.
  Qed.

Lemma stable_hmap {X Y} (f : X → H Y) xs :
    (∀ x, stable J (f x)) → stable J (hmap f xs).
  Proof.
    intros Hf. induction xs as [|x xs IH].
    - apply stable_ret.
    - simpl. apply stable_bind; [apply Hf|]. intros y.
      apply stable_bind; [apply IH|]. intros ys. apply stable_ret.
  Qed.

Lemma stable_get_cell g r c : stable J (get_cell g r c).
  Proof.
    unfold get_cell. apply stable_bind; [apply stable_lift|]. intros l.
    apply stable_bind; [apply stable_deref|]. intros row. apply stable_lift.
  Qed.

Lemma stable_column g height c : stable J (column g height c).
  Proof. apply stable_hmap. intros r. apply stable_get_cell. Qed.

Lemma stable_grid_width g : stable J (grid_width g).
  Proof.
    unfold grid_width. apply stable_bind; [apply stable_lift|]. intros l.
    apply stable_bind; [apply stable_deref|]. intros row. apply stable_ret.
  Qed.

Lemma stable_count_fixed g : stable J (_count_fixed g).
  Proof.
    unfold _count_fixed. apply stable_bind.
    - apply stable_hmap. intros l. apply stable_deref.
    - intros rs. apply stable_ret.
  Qed.

Lemma stable_is_solved g : stable J (_is_solved g).
  Proof.
    unfold _is_solved. apply stable_bind.
    - apply stable_hmap. intros l. apply stable_deref.
    - intros rs. apply stable_ret.
  Qed.

Lemma stable_best_branch_line g rc cc : stable J (_best_branch_line g rc cc).
  Proof.
    unfold _best_branch_line. apply stable_bind; [apply stable_grid_width|].
    intros width. apply stable_bind.
    { apply stable_hfor. intros r b. unfold branch_row.
      apply stable_bind; [apply stable_lift|]. intros l.
      apply stable_bind; [apply stable_deref|]. intros row.
      destruct (decide (UNKNOWN ∉ row)); [apply stable_ret|].
      apply stable_bind; [apply stable_lift|]. intros blocks.
      apply stable_bind; [apply stable_lift|]. intros cands. apply stable_ret. }
    intros b1. apply stable_bind.
    { apply stable_hfor. intros c b. unfold branch_col.
      apply stable_bind; [apply stable_column|]. intros ls.
      destruct (decide (UNKNOWN ∉ ls)); [apply stable_ret|].
      apply stable_bind; [apply stable_lift|]. intros blocks.
      apply stable_bind; [apply stable_lift|]. intros cands. apply stable_ret. }
    intros b2. apply stable_ret.
  Qed.

  (** Writers: [J] must survive the replacement of a row of [g] by a row of
      the same length. *)
Variable g : grid.
Hypothesis Hstore : ∀ h l row row',
    l ∈ g → J h → h !! l = Some row → length row' = length row →
    J (<[l:=row']> h).

Lemma stable_set_cell r c v : stable J (set_cell g r c v).
  Proof.
    intros s Hs. unfold set_cell, hbind, lift, deref, store.
    destruct (getitem g r) as [l|] eqn:Hl; [|done].
    destruct (s !! l) as [row|] eqn:Hrow; [|done].
    destruct (setitem row c v) as [row'|] eqn:Hrow'; [|done].
    eapply Hstore; [by eapply getitem_elem|done|done|by eapply setitem_length].
  Qed.

Lemma stable_apply_cell {S} (note : S → S) inter k r c acc :
    stable J (apply_cell note g inter k r c acc).
  Proof.
    unfold apply_cell. apply stable_bind; [apply stable_lift|]. intros x.
    destruct (decide (x ≠ UNKNOWN)); [|apply stable_ret].
    apply stable_bind; [apply stable_get_cell|]. intros y.
    destruct (decide (y ≠ x)); [|apply stable_ret].
    apply stable_bind; [apply stable_set_cell|]. intros _. apply stable_ret.
  Qed.

Lemma stable_reduce_row {S} (note : S → S) rc width r acc :
    stable J (reduce_row note g rc width r acc).
  Proof.
    unfold reduce_row. apply stable_bind; [apply stable_lift|]. intros l.
    apply stable_bind; [apply stable_deref|]. intros row.
    apply stable_bind; [apply stable_lift|]. intros blocks.
    apply stable_bind; [apply stable_lift|]. intros [|c0 cands]; [apply stable_ret|].
    apply stable_bind; [apply stable_lift|]. intros inter.
    apply stable_bind; [|intros; apply stable_ret].
    apply stable_hfor. intros. apply stable_apply_cell.
  Qed.

Lemma stable_reduce_col {S} (note : S → S) cc height c acc :
    stable J (reduce_col note g cc height c acc).
  Proof.
    unfold reduce_col. apply stable_bind; [apply stable_column|]. intros ls.
    apply stable_bind; [apply stable_lift|]. intros blocks.
    apply stable_bind; [apply stable_lift|]. intros [|c0 cands]; [apply stable_ret|].
    apply stable_bind; [apply stable_lift|]. intros inter.
    apply stable_bind; [|intros; apply stable_ret].
    apply stable_hfor. intros. apply stable_apply_cell.
  Qed.

Lemma stable_sweep {S} (note : S → S) rc cc height width acc :
    stable J (sweep note g rc cc height width acc).
  Proof.
    unfold sweep. apply stable_bind.
    - apply stable_hfor_break. intros. apply stable_reduce_row.
    - intros [[] acc1]; [|apply stable_ret].
      apply stable_hfor_break. intros. apply stable_reduce_col.
  Qed.

Lemma stable_apply_row width index cand : stable J (apply_row width g index cand).
  Proof.
    unfold apply_row. apply stable_hfor. intros c _.
    apply stable_bind; [apply stable_lift|]. intros x. apply stable_set_cell.
  Qed.

Lemma stable_apply_col index cand : stable J (apply_col g index cand).
  Proof.
    unfold apply_col. apply stable_hfor. intros c _.
    apply stable_bind; [apply stable_lift|]. intros x. apply stable_set_cell.
  Qed.
End stable.

(** A computation that only reads leaves the heap as it is. *)
Lemma stable_reads {A} (m : H A) h :
  (∀ J, stable J m) → (m h).2 = h.
Proof.
  intros Hm. specialize (Hm (λ s, s = h) h eq_refl).
  by destruct (m h) as [[a|e] s].
Qed.

(** * A sweep that notes no change has changed nothing *)

Section quiet.
Context {S : Type} (note : S → S) (K : S → Prop).
Hypothesis HK : ∀ s, ¬ K (note s).
Variables (g : grid) (acc0 : S) (h0 : heap).

Local Abbreviation I := (quiet_inv K acc0 h0).

Lemma reads_quiet {A} (m : H A) t :
    (∀ J, stable J m) → spec (I t) m (λ _, I t) anything.
  Proof.
    intros Hm. eapply spec_conseq; [apply (Hm (I t))|done|done|done].
  Qed.

Lemma apply_cell_quiet inter k r c t :
    spec (I t) (apply_cell note g inter k r c t) I anything.
  Proof.
    unfold apply_cell. eapply spec_bind.
    { apply reads_quiet. intros. apply stable_lift. }
    intros x. destruct (decide (x ≠ UNKNOWN)); [|by apply spec_ret].
    eapply spec_bind.
    { apply reads_quiet. intros. apply stable_get_cell. }
    intros y. destruct (decide (y ≠ x)); [|by apply spec_ret].
    eapply (spec_bind _ _ _ (λ _ _, True)).
    - intros s _. by destruct (set_cell g r c x s) as [[]].
    - intros _. apply spec_ret. intros s _ HKn. by apply HK in HKn.
  Qed.

Lemma reduce_row_quiet rc width r t :
    spec (I t) (reduce_row note g rc width r t) (λ '(_, t'), I t') anything.
  Proof.
    unfold reduce_row. eapply spec_bind.
    { apply reads_quiet. intros. apply stable_lift. } intros l.
    eapply spec_bind.
    { apply reads_quiet. intros. apply stable_deref. } intros row.
    eapply spec_bind.
    { apply reads_quiet. intros. apply stable_lift. } intros blocks.
    eapply spec_bind.
    { apply reads_quiet. intros. apply stable_lift. }
    intros [|c0 cands]; [by apply spec_ret|].
    eapply spec_bind.
    { apply reads_quiet. intros. apply stable_lift. } intros inter.
    eapply spec_bind.
    { apply spec_hfor. intros. apply apply_cell_quiet. }
    intros t'. by apply spec_ret.
  Qed.

Lemma reduce_col_quiet cc height c t :
    spec (I t) (reduce_col note g cc height c t) (λ '(_, t'), I t') anything.
  Proof.
    unfold reduce_col. eapply spec_bind.
    { apply reads_quiet. intros. apply stable_column. } intros ls.
    eapply spec_bind.
    { apply reads_quiet. intros. apply stable_lift. } intros blocks.
    eapply spec_bind.
    { apply reads_quiet. intros. apply stable_lift. }
    intros [|c0 cands]; [by apply spec_ret|].
    eapply spec_bind.
    { apply reads_quiet. intros. apply stable_lift. } intros inter.
    eapply spec_bind.
    { apply spec_hfor. intros. apply apply_cell_quiet. }
    intros t'. by apply spec_ret.
  Qed.

Lemma hfor_break_quiet {X} (body : X → S → H (bool * S)) xs t :
    (∀ x t, spec (I t) (body x t) (λ '(_, t'), I t') anything) →
    spec (I t) (hfor_break body xs t) (λ '(_, t'), I t') anything.
  Proof.
    intros Hbody. revert t. induction xs as [|x xs IH]; intros t.
    - by apply spec_ret.
    - simpl. eapply spec_bind; [apply Hbody|].
      intros [[] t']; [apply IH|by apply spec_ret].
  Qed.

Lemma sweep_quiet_spec rc cc height width t :
    spec (I t) (sweep note g rc cc height width t) (λ '(_, t'), I t') anything.
  Proof.
    unfold sweep. eapply spec_bind.
    { apply hfor_break_quiet. intros. apply reduce_row_quiet. }
    intros [[] t']; [|by apply spec_ret].
    apply hfor_break_quiet. intros. apply reduce_col_quiet.
  Qed.
End quiet.

Lemma sweep_quiet {S} (note : S → S) (K : S → Prop) g rc cc height width
    acc h ok acc' h' :
  (∀ s, ¬ K (note s)) →
  sweep note g rc cc height width acc h = (Ret (ok, acc'), h') →
  K acc' → h' = h ∧ acc' = acc.
Proof.
  intros HK Heq HKa.
  pose proof (sweep_quiet_spec note K HK g acc h rc cc height width acc h) as Hs.
  rewrite Heq in Hs. by apply Hs.
Qed.

(** * The propagation loop *)

Lemma same_shape_store h0 h l (row row' : list Z) :
  same_shape h0 h → h !! l = Some row → length row' = length row →
  same_shape h0 (<[l:=row']> h).
Proof.
  unfold same_shape. intros <- Hrow Hlen. rewrite list_fmap_insert.
  apply list_insert_id. rewrite list_lookup_fmap, Hrow. simpl. by rewrite Hlen.
Qed.

Lemma grid_width_shape g h0 h :
  same_shape h0 h → (grid_width g h).1 = (grid_width g h0).1.
Proof.
  intros Hs. unfold grid_width, hbind, lift, deref, hret.
  destruct (getitem g 0) as [l|]; [|done].
  assert (Hl : length <$> (h !! l) = length <$> (h0 !! l)).
  { by rewrite <- !list_lookup_fmap, Hs. }
  destruct (h !! l), (h0 !! l); simpl in *; try done.
  injection Hl as Hl. unfold len. by rewrite Hl.
Qed.

Lemma grid_width_reads g h : (grid_width g h).2 = h.
Proof. apply stable_reads. intros. apply stable_grid_width. Qed.

Lemma count_fixed_reads g h : (_count_fixed g h).2 = h.
Proof. apply stable_reads. intros. apply stable_count_fixed. Qed.

Lemma sweep_shape {S} (note : S → S) g rc cc height width acc h :
  same_shape h (sweep note g rc cc height width acc h).2.
Proof.
  pose proof (stable_sweep (same_shape h) g) as Hst.
  specialize (Hst (λ h' l row row' _, same_shape_store h h' l row row')).
  specialize (Hst S note rc cc height width acc h eq_refl).
  by destruct (sweep _ _ _ _ _ _ _ _) as [[|] ?].
Qed.

Section pass.
Variables (g : grid) (rc cc : list (list Z)).
Variables (stop : option (nat → bool)) (cb : bool) (height width : Z).

Lemma pass_cases st w :
    ∃ o w', propagate_pass g rc cc stop cb height width st w = (o, w') ∧
      if flagged stop w then o = Abort Cancelled ∧ w_heap w' = w_heap w
      else
        match sweep (λ _, true) g rc cc height width false (w_heap w) with
        | (Abort e, h') => o = Abort e ∧ w_heap w' = h'
        | (Ret (false, _), h') => (∃ st', o = Ret (Contradiction st')) ∧ w_heap w' = h'
        | (Ret (true, changed), h') =>
            match (_count_fixed g h').1 with
            | Abort e => o = Abort e
            | Ret n => ∃ st', o = Ret (Swept changed st')
            end ∧ w_heap w' = h'
        end.
  Proof.
    unfold propagate_pass, flagged, hbind, _check_cancel.
    assert (Hrest : ∀ w0 : world,
      ∃ o w',
        (let (y, s') := on_heap (sweep (λ _, true) g rc cc height width false) w0 in
         match y with
         | Ret a =>
             (let '(ok, changed) := a in
              if ok then
                λ s : world,
                  let (y0, s'0) := on_heap (_count_fixed g) s in
                  match y0 with
                  | Ret a0 =>
                      let (y1, s'1) :=
                        report cb "propagate"
                          (Stats (iterations st + 1) (nodes st) (max_depth st) a0) s'0 in
                      match y1 with
                      | Ret _ =>
                          hret (Swept changed
                            (Stats (iterations st + 1) (nodes st) (max_depth st) a0)) s'1
                      | Abort e => (Abort e, s'1)
                      end
                  | Abort e => (Abort e, s'0)
                  end
              else
                hret (Contradiction
                  (Stats (iterations st + 1) (nodes st) (max_depth st) (fixed_cells st))))
               s'
         | Abort e => (Abort e, s')
         end) = (o, w') ∧
        match sweep (λ _, true) g rc cc height width false (w_heap w0) with
        | (Abort e, h') => o = Abort e ∧ w_heap w' = h'
        | (Ret (false, _), h') => (∃ st', o = Ret (Contradiction st')) ∧ w_heap w' = h'
        | (Ret (true, changed), h') =>
            match (_count_fixed g h').1 with
            | Abort e => o = Abort e
            | Ret n => ∃ st', o = Ret (Swept changed st')
            end ∧ w_heap w' = h'
        end).
    { intros w0. unfold on_heap at 1. unfold zoom.
      destruct (sweep _ _ _ _ _ _ _ _) as [[[[] changed]|e] h'] eqn:Hsw.
      - pose proof (count_fixed_reads g h') as Hr.
        unfold on_heap, zoom. cbn [w_heap w_polls w_progress].
        destruct (_count_fixed g h') as [[n|e] h''] eqn:Hcf; simpl in Hr; subst h''.
        + unfold report, hret. destruct cb; eexists _, _; (split; [done|]);
            cbn [fst w_heap]; eauto.
        + eexists _, _. split; [done|]. cbn [fst w_heap]. eauto.
      - unfold hret. eexists _, _. split; [done|]. cbn [w_heap]. eauto.
      - eexists _, _. split; [done|]. cbn [w_heap]. eauto. }
    destruct stop as [is_set|].
    - destruct (is_set (w_polls w)); [by eexists _, _|].
      destruct (Hrest (World (w_heap w) (Datatypes.S (w_polls w)) (w_progress w)))
        as (o & w' & Heq & Hm).
      exists o, w'. split; [exact Heq|exact Hm].
    - destruct (Hrest w) as (o & w' & Heq & Hm).
      exists o, w'. split; [exact Heq|exact Hm].
  Qed.

Lemma loop_unfold fuel st w :
    propagate_loop (Datatypes.S fuel) g rc cc stop cb height width st w
    = match propagate_pass g rc cc stop cb height width st w with
      | (Ret (Contradiction st'), w') => (Ret (false, st'), w')
      | (Ret (Swept changed st'), w') =>
          if changed
          then propagate_loop fuel g rc cc stop cb height width st' w'
          else (Ret (true, st'), w')
      | (Abort e, w') => (Abort e, w')
      end.
  Proof.
    cbn [propagate_loop]. unfold hbind.
    destruct (propagate_pass _ _ _ _ _ _ _ _ _) as [[[st'|[] st']|e] w']; done.
  Qed.

Lemma pass_shape st w :
    same_shape (w_heap w) (w_heap (propagate_pass g rc cc stop cb height width st w).2).
  Proof.
    destruct (pass_cases st w) as (o & w' & -> & Hc). simpl.
    destruct (flagged stop w).
    { destruct Hc as [_ ->]. done. }
    pose proof (sweep_shape (λ _, true) g rc cc height width false (w_heap w)) as Hs.
    destruct (sweep _ _ _ _ _ _ _ _) as [[[[] changed]|e] h']; simpl in Hs;
      destruct Hc as [_ ->]; done.
  Qed.

Lemma loop_shape fuel st w :
    same_shape (w_heap w)
      (w_heap (propagate_loop fuel g rc cc stop cb height width st w).2).
  Proof.
    revert st w. induction fuel as [|fuel IH]; intros st w; [done|].
    rewrite loop_unfold. pose proof (pass_shape st w) as Hp.
    destruct (propagate_pass _ _ _ _ _ _ _ _ _) as [[[st'|[] st']|e] w']; try done.
    simpl in Hp. specialize (IH st' w'). unfold same_shape in *. congruence.
  Qed.

  (** A successful propagation ends on a sweep that changed nothing. *)
Lemma loop_true_final fuel st w st' w' :
    propagate_loop fuel g rc cc stop cb height width st w = (Ret (true, st'), w') →
    sweep (λ _, true) g rc cc height width false (w_heap w')
      = (Ret (true, false), w_heap w') ∧
    ∃ n, _count_fixed g (w_heap w') = (Ret n, w_heap w').
  Proof.
    revert st w. induction fuel as [|fuel IH]; intros st w; [done|].
    rewrite loop_unfold.
    destruct (pass_cases st w) as (o & w1 & Hpass & Hc). rewrite Hpass.
    destruct (flagged stop w); [by destruct Hc as [-> _]|].
    destruct (sweep _ _ _ _ _ _ _ (w_heap w)) as [[[[] changed]|e] h'] eqn:Hsw.
    - destruct Hc as [Hc Hh].
      pose proof (count_fixed_reads g h') as Hr.
      destruct (_count_fixed g h') as [[n|e] h''] eqn:Hcf; simpl in *; subst.
      + destruct Hc as [st1 ->]. destruct changed; [by apply IH|].
        intros [= <- <-].
        destruct (sweep_quiet (λ _, true) (λ b, b = false) g rc cc height width
                    false (w_heap w) true false (w_heap w1)) as [Hq _]; try done.
        rewrite Hq in *. eauto.
      + done.
    - by destruct Hc as [[st1 ->] _].
    - by destruct Hc as [-> _].
  Qed.

  (** From a state in which a sweep changes nothing, the loop stops after one
      turn, unless it is cancelled first. *)
Lemma loop_rerun fuel st w n :
    sweep (λ _, true) g rc cc height width false (w_heap w)
      = (Ret (true, false), w_heap w) →
    _count_fixed g (w_heap w) = (Ret n, w_heap w) →
    ∃ o w', propagate_loop (Datatypes.S fuel) g rc cc stop cb height width st w = (o, w') ∧
      w_heap w' = w_heap w ∧
      if flagged stop w then o = Abort Cancelled else ∃ st', o = Ret (true, st').
  Proof.
    intros Hsw Hcf. rewrite loop_unfold.
    destruct (pass_cases st w) as (o & w1 & Hpass & Hc). rewrite Hpass.
    destruct (flagged stop w).
    { destruct Hc as [-> Hh]. by eexists _, _. }
    rewrite Hsw, Hcf in Hc. simpl in Hc. destruct Hc as [[st1 ->] Hh].
    eexists _, _. split; [done|]. eauto.
  Qed.

End pass.





(** * Propagation on a well-formed grid *)

Lemma world_eta w : World (w_heap w) (w_polls w) (w_progress w) = w.
Proof. by destruct w. Qed.

Lemma on_heap_reads {A} (m : H A) w :
  (m (w_heap w)).2 = w_heap w → on_heap m w = ((m (w_heap w)).1, w).
Proof.
  intros Hr. unfold on_heap, zoom. destruct (m (w_heap w)) as [o h'].
  simpl in *. subst h'. by rewrite world_eta.
Qed.

Lemma count_fixed_ok h g H W :
  grid_ok h g H W → ∃ n, _count_fixed g h = (Ret n, h).
Proof.
  intros Hok. unfold _count_fixed, hbind. rewrite (deref_rows Hok). by eexists.
Qed.

Lemma load_ok (rs : list (list Z)) (W : nat) :
  rs ≠ [] → Forall (λ row, length row = W ∧ Forall cell_ok row) rs →
  grid_ok (load rs).1 (load rs).2 (length rs) W.
Proof.
  intros Hne Hrows. unfold load. simpl. split.
  - by rewrite length_seq.
  - destruct rs; [done|simpl; lia].
  - apply NoDup_seq.
  - intros l Hl. apply elem_of_seq in Hl.
    destruct (lookup_lt_is_Some_2 rs l) as [row Hrow]; [lia|].
    exists row. split; [done|]. by eapply (Forall_lookup_1 _ _ _ _ Hrows).
Qed.

Lemma rows_load rs : rows (load rs).1 (load rs).2 = rs.
Proof.
  unfold load, rows. simpl. apply list_eq. intros i.
  rewrite list_lookup_fmap. destruct (rs !! i) as [row|] eqn:Hrow.
  - rewrite lookup_seq_lt by (by eapply lookup_lt_Some). simpl. by rewrite Hrow.
  - rewrite lookup_seq_ge; [done|]. by apply lookup_ge_None.
Qed.

Section propagate_ok.
Variables (g : grid) (H W : nat) (rc cc : list (list Z)).
Variables (stop : option (nat → bool)) (cb : bool).
Hypothesis Hrc : clues_ok H rc.
Hypothesis Hcc : clues_ok W cc.

Lemma pass_ok st w :
    grid_ok (w_heap w) g H W →
    ∃ o w',
      propagate_pass g rc cc stop cb (Z.of_nat H) (Z.of_nat W) st w = (o, w') ∧
      advance g H W (w_heap w) (w_heap w') ∧
      match o with
      | Abort e => e = Cancelled
      | Ret (Contradiction _) => True
      | Ret (Swept changed _) =>
          changed = true →
          (unknowns (rows (w_heap w') g) < unknowns (rows (w_heap w) g))%nat
      end.
  Proof.
    intros Hok.
    destruct (pass_cases g rc cc stop cb (Z.of_nat H) (Z.of_nat W) st w)
      as (o & w' & Hpass & Hc).
    exists o, w'. split; [done|].
    destruct (flagged stop w).
    { destruct Hc as [-> ->]. split; [by apply advance_refl|done]. }
    assert (Hwt : ∀ s : bool, (change_weight true ≤ change_weight s + 1)%nat)
      by (intros []; simpl; lia).
    destruct (sweep_ok (λ _, true) change_weight Hwt
                g H W rc cc false (w_heap w) Hok Hrc Hcc)
      as (ok & changed & h' & Hsw & Hadv & Hcount).
    rewrite Hsw in Hc. destruct ok.
    - destruct Hc as [Hc ->].
      destruct (count_fixed_ok h' g H W (adv_ok _ _ _ _ _ Hadv)) as [n Hn].
      rewrite Hn in Hc. simpl in Hc. destruct Hc as [st' ->].
      split; [done|]. intros ->. simpl in Hcount. lia.
    - destruct Hc as [[st' ->] ->]. done.
  Qed.

Lemma loop_ok fuel st w :
    grid_ok (w_heap w) g H W →
    ∃ o w',
      propagate_loop fuel g rc cc stop cb (Z.of_nat H) (Z.of_nat W) st w = (o, w') ∧
      advance g H W (w_heap w) (w_heap w') ∧
      match o with
      | Ret _ => True
      | Abort e =>
          e = Cancelled ∨
          (e = OutOfFuel ∧ (fuel ≤ unknowns (rows (w_heap w) g))%nat)
      end.
  Proof.
    revert st w. induction fuel as [|fuel IH]; intros st w Hok.
    { eexists _, _. split; [done|]. split; [by apply advance_refl|].
      right. split; [done|lia]. }
    rewrite loop_unfold.
    destruct (pass_ok st w Hok) as (o & w1 & -> & Hadv & Ho).
    destruct o as [[st'|[] st']|e].
    - eexists _, _. done.
    - destruct (IH st' w1 (adv_ok _ _ _ _ _ Hadv)) as (o2 & w2 & -> & Hadv2 & Ho2).
      eexists _, _. split; [done|]. split; [by eapply advance_trans|].
      destruct o2 as [|e]; [done|]. destruct Ho2 as [->|[-> Hle]]; [by left|].
      right. split; [done|]. specialize (Ho eq_refl). lia.
    - eexists _, _. done.
    - eexists _, _. split; [done|]. split; [done|]. by left.
  Qed.

Lemma propagate_ok fuel w :
    grid_ok (w_heap w) g H W →
    ∃ o w',
      propagate fuel g rc cc stop cb w = (o, w') ∧
      advance g H W (w_heap w) (w_heap w') ∧
      match o with
      | Ret _ => True
      | Abort e =>
          e = Cancelled ∨
          (e = OutOfFuel ∧ (fuel ≤ unknowns (rows (w_heap w) g))%nat)
      end.
  Proof.
    intros Hok. unfold propagate, hbind.
    rewrite on_heap_reads by apply grid_width_reads.
    rewrite (grid_width_ok Hok). simpl.
    replace (len g) with (Z.of_nat H) by (unfold len; by destruct Hok as [->]).
    by apply loop_ok.
  Qed.
End propagate_ok.

(** * Claims about propagation *)

(** C3. Monotonicity.  On a well-formed grid with well-formed clues, a
    propagation pass, however it ends, leaves every determined cell with the
    value it had; so does a whole run to the fixpoint.  The grid stays
    well formed, so this holds from pass to pass. *)
Theorem propagation_monotone (h : heap) (g : grid) (H W : nat)
    (rc cc : list (list Z)) (stop : option (nat → bool)) (cb : bool)
    (st : SolveStats) (fuel polls : nat) (log : list (string * SolveStats)) :
  grid_ok h g H W → clues_ok H rc → clues_ok W cc →
  let w := World h polls log in
  let after_pass :=
    w_heap (propagate_pass g rc cc stop cb (Z.of_nat H) (Z.of_nat W) st w).2 in
  let after_run := w_heap (propagate fuel g rc cc stop cb w).2 in
  (grid_ok after_pass g H W ∧
   ∀ r c v, cell h g r c = Some v → v ≠ UNKNOWN → cell after_pass g r c = Some v) ∧
  (grid_ok after_run g H W ∧
   ∀ r c v, cell h g r c = Some v → v ≠ UNKNOWN → cell after_run g r c = Some v).
Proof.
  intros Hok Hrc Hcc w after_pass after_run. split.
  - destruct (pass_ok g H W rc cc stop cb Hrc Hcc st w Hok) as (o & w' & Heq & Hadv & _).
    subst after_pass. rewrite Heq. simpl. split; [by destruct Hadv|].
    intros r c v Hv Hne. unfold cell. eapply refines_cell; [|exact Hv|done].
    by destruct Hadv.
  - destruct (propagate_ok g H W rc cc stop cb Hrc Hcc fuel w Hok)
      as (o & w' & Heq & Hadv & _).
    subst after_run. rewrite Heq. simpl. split; [by destruct Hadv|].
    intros r c v Hv Hne. unfold cell. eapply refines_cell; [|exact Hv|done].
    by destruct Hadv.
Qed.

Lemma propagation_monotone_witness :
  let '(h, g) := load [[-1; -1; -1]; [-1; 0; -1]] in
  let rc := [[3]; [1]] in
  let cc := [[1]; [1]; [2]] in
  let after_run := w_heap (propagate 5 g rc cc None false (World h 0 [])).2 in
  grid_ok after_run g 2 3 ∧
  ∀ r c v, cell h g r c = Some v → v ≠ UNKNOWN → cell after_run g r c = Some v.
Proof.
  refine (proj2 (propagation_monotone _ _ 2 3 _ _ None false (Stats 0 0 0 0) 5 0 []
                   _ _ _)).
  - apply (load_ok [[-1; -1; -1]; [-1; 0; -1]] 3); [done|].
    repeat constructor; by vm_compute; auto.
  - split; [done|]. repeat constructor.
  - split; [done|]. repeat constructor.
Defined.

(** C4, as the code has it.  When a run to the fixpoint succeeds, a second
    run on the same grid and clues changes no cell, and it succeeds too
    unless the cancellation flag is found set at its first poll. *)
Theorem propagate_idempotent (fuel fuel2 : nat) (g : grid)
    (rc cc : list (list Z)) (stop : option (nat → bool)) (cb : bool)
    (w w1 : world) (st : SolveStats) :
  propagate fuel g rc cc stop cb w = (Ret (true, st), w1) →
  (0 < fuel2)%nat →
  ∃ o w2,
    propagate fuel2 g rc cc stop cb w1 = (o, w2) ∧
    w_heap w2 = w_heap w1 ∧
    if flagged stop w1 then o = Abort Cancelled else ∃ st2, o = Ret (true, st2).
Proof.
  unfold propagate, hbind. intros Hrun Hfuel.
  rewrite on_heap_reads in Hrun by apply grid_width_reads.
  rewrite on_heap_reads by apply grid_width_reads.
  destruct (grid_width g (w_heap w)).1 as [width|] eqn:Hwidth; [|done].
  pose proof (loop_shape g rc cc stop cb (len g) width fuel (Stats 0 0 0 0) w) as Hshape.
  rewrite Hrun in Hshape. simpl in Hshape.
  rewrite (grid_width_shape g _ _ Hshape), Hwidth.
  apply loop_true_final in Hrun as [Hsw [n Hn]].
  destruct fuel2 as [|fuel2]; [lia|].
  by eapply loop_rerun.
Qed.

Lemma propagate_idempotent_witness :
  let '(h, g) := load [[-1; -1]; [-1; -1]] in
  ∃ o w2,
    propagate 3 g [[2]; []] [[1]; [1]] None false
      (World [[1; 1]; [0; 0]] 0 []) = (o, w2) ∧
    w_heap w2 = [[1; 1]; [0; 0]] ∧ ∃ st2, o = Ret (true, st2).
Proof.
  refine (propagate_idempotent 5 3 [0; 1]%nat [[2]; []] [[1]; [1]] None false
            (World [[-1; -1]; [-1; -1]] 0 [])
            (World [[1; 1]; [0; 0]] 0 []) (Stats 2 0 0 4) _ _).
  - vm_compute. reflexivity.
  - lia.
Defined.

(** C4 as stated fails after a failed first run: the second run determines
    one more cell of the grid. *)
Lemma propagate_twice_changes_cell :
  let '(h, g) := load [[-1; -1; -1]; [-1; -1; -1]] in
  let rc := [[2]; []] in
  let cc := [[1]; [1]; [2]] in
  let '(o1, w1) := propagate 5 g rc cc None false (World h 0 []) in
  let '(o2, w2) := propagate 5 g rc cc None false w1 in
  (∃ st1, o1 = Ret (false, st1)) ∧ (∃ st2, o2 = Ret (false, st2)) ∧
  cell (w_heap w1) g 0 2 = Some UNKNOWN ∧
  cell (w_heap w2) g 0 2 = Some EMPTY.
Proof. vm_compute. eauto 10. Qed.

(** * Claims about the puzzle record *)

(** C5 as stated fails: a puzzle whose row clue needs five cells in a line
    of three is constructed and loaded without complaint, and it is the
    engine that meets it, as a contradiction. *)
Lemma unfit_clue_reaches_engine :
  let p := Model.MkPuzzle 3 1 [[5]] [[]; []; []] [[-1; -1; -1]] in
  3 < sum [5] + len [5] - 1 ∧
  Model.__post_init__ (Model.MkPuzzle 3 1 [[5]] [[]; []; []] []) = Model.Valid p ∧
  Model.load_json (Model.Json (Some 3) (Some 1) (Some [[5]])
                     (Some [[]; []; []]) None) = Model.Valid p ∧
  let '(h, g) := load (Model.grid p) in
  ∃ st, propagate 5 g (Model.row_clues p) (Model.col_clues p) None false
          (World h 0 []) = (Ret (false, st), World h 0 []).
Proof. vm_compute. split_and!; eauto. Qed.

Lemma unfit_clue_no_candidates (L : Z) (blocks ls : list Z) :
  len ls = L → Forall (λ b, 0 < b) blocks → L < sum blocks + len blocks - 1 →
  _line_candidates L blocks ls = Ret [].
Proof.
  intros HL Hpos Hfit. rewrite (line_candidates_fills L ls HL blocks Hpos).
  destruct blocks as [|b rest].
  - unfold len in *. simpl in *. lia.
  - cbn [fills]. rewrite range_nil; [done|].
    assert (len (b :: rest) = 1 + len rest) by (unfold len; simpl; lia).
    simpl in Hfit. lia.
Qed.

(** * The branch selector *)

Lemma line_cands_ok (L : nat) blocks state :
  length state = L → Forall (λ b, 0 < b) blocks →
  _line_candidates (Z.of_nat L) blocks state
    = Ret (line_cands (Z.of_nat L) blocks state) ∧
  ∀ c, c ∈ line_cands (Z.of_nat L) blocks state →
    length c = L ∧ fits state 0 c.
Proof.
  intros HL Hpos.
  destruct (line_candidates_sound (Z.of_nat L) blocks state) as (cands & Heq & Hs);
    [unfold len; lia|done|].
  unfold line_cands. rewrite Heq. split; [done|].
  intros c Hc. destruct (Hs c Hc) as (Hlen & _ & Hfits). split; [lia|done].
Qed.

Section selector.
Context {h : heap} {g : grid} {H W : nat}.
Hypothesis Hok : grid_ok h g H W.

Lemma column_col_of (c : nat) :
    (c < W)%nat →
    column g (Z.of_nat H) (Z.of_nat c) h = (Ret (col_of (rows h g) c), h).
  Proof.
    intros Hc. destruct (column_ok Hok c Hc) as (col & Heq & Hlen & _ & Hcol).
    rewrite Heq. do 2 f_equal. apply list_eq. intros r. rewrite Hcol.
    unfold cell, cell_of, col_of. rewrite list_lookup_fmap.
    destruct (rows h g !! r) as [row|] eqn:Hrow; [simpl|done].
    destruct (grid_rows_shape Hok) as [_ Hshape].
    pose proof (Forall_lookup_1 _ _ _ _ Hshape Hrow) as [HW _].
    destruct (lookup_lt_is_Some_2 row c) as [v Hv]; [lia|]. by rewrite Hv.
  Qed.

Lemma col_of_shape (c : nat) :
    (c < W)%nat →
    length (col_of (rows h g) c) = H ∧ Forall cell_ok (col_of (rows h g) c).
  Proof.
    intros Hc. destruct (column_ok Hok c Hc) as (col & Heq & Hlen & Hcells & _).
    rewrite column_col_of in Heq by done. by injection Heq as <-.
  Qed.

Lemma branch_row_ok rc (r : nat) b :
    clues_ok H rc → (r < H)%nat →
    branch_row g rc (Z.of_nat W) (Z.of_nat r) b h
    = (Ret (choose (branch_line "row" r W rc (default [] (rows h g !! r))) b), h).
  Proof.
    intros [Hlen Hpos] Hr.
    destruct (grid_row Hok r Hr) as (l & row & Hl & Hrow & Hrows & HW & Hcells).
    rewrite Hrows. simpl.
    unfold branch_row, hbind, lift, deref. rewrite (getitem_Ret _ _ _ Hl), Hrow.
    unfold branch_line.
    destruct (decide (UNKNOWN ∉ row)) as [Hu|Hu].
    - by rewrite decide_False.
    - apply dec_stable in Hu. rewrite decide_True by done.
      destruct (lookup_lt_is_Some_2 rc r) as [blocks Hblocks]; [lia|].
      rewrite (getitem_Ret _ _ _ Hblocks), Hblocks. simpl.
      destruct (line_cands_ok W blocks row HW) as [-> _]; [|done].
      by eapply Forall_lookup_1.
  Qed.

Lemma branch_col_ok cc (c : nat) b :
    clues_ok W cc → (c < W)%nat →
    branch_col g cc (Z.of_nat H) (Z.of_nat c) b h
    = (Ret (choose (branch_line "col" c H cc (col_of (rows h g) c)) b), h).
  Proof.
    intros [Hlen Hpos] Hc.
    unfold branch_col, hbind, lift. rewrite column_col_of by done.
    unfold branch_line.
    destruct (decide (UNKNOWN ∉ col_of (rows h g) c)) as [Hu|Hu].
    - by rewrite decide_False.
    - apply dec_stable in Hu. rewrite decide_True by done.
      destruct (lookup_lt_is_Some_2 cc c) as [blocks Hblocks]; [lia|].
      rewrite (getitem_Ret _ _ _ Hblocks), Hblocks. simpl.
      destruct (line_cands_ok H blocks (col_of (rows h g) c)) as [-> _]; [| |done].
      + by apply col_of_shape.
      + by eapply Forall_lookup_1.
  Qed.

Lemma hfor_choose (f : nat → list (string * Z * list (list Z)))
      (body : Z → best → ST heap best) (n a : nat) b :
    (∀ (k : nat) b, (a ≤ k < a + n)%nat →
       body (Z.of_nat k) b h = (Ret (choose (f k) b), h)) →
    hfor body (range (Z.of_nat a) (Z.of_nat (a + n))) b h
    = (Ret (choose (k ← seq a n; f k) b), h).
  Proof.
    revert a b. induction n as [|n IH]; intros a b Hbody.
    - rewrite range_nil by lia. done.
    - rewrite range_cons by lia. simpl. unfold hbind at 1.
      rewrite Hbody by lia.
      replace (Z.of_nat a + 1) with (Z.of_nat (Datatypes.S a)) by lia.
      replace (a + Datatypes.S n)%nat with (Datatypes.S a + n)%nat by lia.
      rewrite IH by (intros; apply Hbody; lia).
      unfold choose. by rewrite foldl_app.
  Qed.

Lemma best_branch_line_choose rc cc :
    clues_ok H rc → clues_ok W cc →
    let b := choose (branch_lines (rows h g) H W rc cc) (Best EmptyString (-1) [] (10 ^ 9)) in
    _best_branch_line g rc cc h
    = (Ret (best_type b, best_index b, best_candidates b), h).
  Proof.
    intros Hrc Hcc b. unfold _best_branch_line, hbind.
    rewrite (grid_width_ok Hok).
    replace (len g) with (Z.of_nat H) by (unfold len; by destruct Hok as [->]).
    rewrite (hfor_choose (λ r, branch_line "row" r W rc (default [] (rows h g !! r)))
               _ H 0) by (intros; apply branch_row_ok; [done|lia]).
    rewrite (hfor_choose (λ c, branch_line "col" c H cc (col_of (rows h g) c))
               _ W 0) by (intros; apply branch_col_ok; [done|lia]).
    unfold hret. subst b. unfold branch_lines, choose. by rewrite foldl_app.
  Qed.
End selector.

(** What the fold returns: either no line had more than one candidate and
    fewer than the initial bound, or the first line of least size among
    those. *)
Lemma choose_spec lines b0 :
  let b := choose lines b0 in
  (b = b0 ∧ ∀ e, e ∈ lines → ¬ (1 < len e.2 < best_count b0)) ∨
  (∃ (k : nat) ty idx cs,
     lines !! k = Some (ty, idx, cs) ∧ b = Best ty idx cs (len cs) ∧
     1 < len cs < best_count b0 ∧
     (∀ (j : nat) e, lines !! j = Some e → 1 < len e.2 → len cs ≤ len e.2) ∧
     (∀ (j : nat) e, (j < k)%nat → lines !! j = Some e → 1 < len e.2 →
        len cs < len e.2)).
Proof.
  induction lines as [|[[ty idx] cs] lines IH] using rev_ind.
  { left. split; [done|]. by intros e ?%elem_of_nil. }
  cbn zeta in *. unfold choose in *. rewrite foldl_app. cbn [foldl].
  set (bp := foldl _ b0 lines) in *.
  unfold consider. destruct IH as [[Hb Hnone]|(k & ty' & idx' & cs' & Hk & Hb & Hrange & Hmin & Hfirst)].
  - rewrite Hb. destruct (decide (len cs > 1 ∧ len cs < best_count b0)) as [Hin|Hout].
    + right. exists (length lines), ty, idx, cs. split; [|split; [|split; [|split]]].
      * by rewrite lookup_app_r, Nat.sub_diag by lia.
      * done.
      * lia.
      * intros j e Hj He. apply lookup_app_Some in Hj as [Hj|[_ Hj]].
        -- apply list_elem_of_lookup_2 in Hj. specialize (Hnone e Hj). lia.
        -- apply list_lookup_singleton_Some in Hj as [_ <-]. simpl. lia.
      * intros j e Hlt Hj He. rewrite lookup_app_l in Hj by done.
        apply list_elem_of_lookup_2 in Hj. specialize (Hnone e Hj). lia.
    + left. split; [done|]. intros e [He| ->%list_elem_of_singleton]%elem_of_app.
      * by apply Hnone.
      * simpl. lia.
  - rewrite Hb. cbn [best_count].
    destruct (decide (len cs > 1 ∧ len cs < len cs')) as [Hin|Hout].
    + right. exists (length lines), ty, idx, cs. split; [|split; [|split; [|split]]].
      * by rewrite lookup_app_r, Nat.sub_diag by lia.
      * done.
      * lia.
      * intros j e Hj He. apply lookup_app_Some in Hj as [Hj|[_ Hj]].
        -- specialize (Hmin j e Hj He). lia.
        -- apply list_lookup_singleton_Some in Hj as [_ <-]. simpl. lia.
      * intros j e Hlt Hj He. rewrite lookup_app_l in Hj by done.
        specialize (Hmin j e Hj He). lia.
    + right. exists k, ty', idx', cs'. split; [|split; [|split; [|split]]].
      * rewrite lookup_app_l; [done|]. by eapply lookup_lt_Some.
      * done.
      * done.
      * intros j e Hj He. apply lookup_app_Some in Hj as [Hj|[_ Hj]].
        -- by eapply Hmin.
        -- apply list_lookup_singleton_Some in Hj as [_ <-]. simpl in *. lia.
      * intros j e Hlt Hj He. apply lookup_app_Some in Hj as [Hj|[Hge Hj]].
        -- by eapply Hfirst.
        -- apply lookup_lt_Some in Hk. lia.
Qed.

(** * Counting the fillings of an all-unknown line *)

Lemma clear_unknowns v ls a b :
  Forall (λ x, x = UNKNOWN) ls → v ≠ UNKNOWN → clear v ls a b = true.
Proof.
  intros Hls Hv. apply clear_spec. intros i _ Hi.
  apply (Forall_lookup_1 _ _ _ _ Hls) in Hi. congruence.
Qed.

Lemma len_join {A} (ls : list (list A)) : len (mjoin ls) = sum (len <$> ls).
Proof.
  induction ls as [|l ls IH]; [done|].
  simpl. rewrite len_app, IH. done.
Qed.

Lemma len_fmap {A B} (f : A → B) l : len (f <$> l) = len l.
Proof. unfold len. by rewrite length_fmap. Qed.

Lemma lookup_range a b (k : nat) :
  Z.of_nat k < b - a → range a b !! k = Some (a + Z.of_nat k).
Proof. intros. unfold range. by apply lookup_seqZ_lt. Qed.

Lemma count_fills L ls bs :
  Forall (λ x, x = UNKNOWN) ls → Forall (λ b, 0 < b) bs →
  ∀ pos, 0 ≤ pos ≤ L →
    len (fills L ls bs pos) = default 0 (count_table L bs !! Z.to_nat pos).
Proof.
  intros Hls. induction 1 as [|b rest Hb Hrest IH]; intros pos Hpos.
  - simpl. rewrite clear_unknowns by done.
    rewrite lookup_replicate_2 by lia. done.
  - cbn [fills count_table]. rewrite len_join, <- list_fmap_compose.
    rewrite list_lookup_fmap, lookup_range by lia. simpl.
    replace (0 + Z.of_nat (Z.to_nat pos)) with pos by lia.
    f_equal. apply list_fmap_ext. intros i start Hstart.
    apply list_elem_of_lookup_2, elem_of_range in Hstart. simpl.
    pose proof (sum_nonneg _ Hrest). pose proof (len_nonneg rest).
    unfold fills_at. rewrite !clear_unknowns by done. simpl.
    destruct rest as [|r rest'].
    + rewrite len_fmap, Z.add_0_r. apply IH. simpl in *. lia.
    + rewrite ?clear_unknowns by done. rewrite len_fmap. apply IH.
      assert (0 < r) by (by inversion Hrest).
      assert (0 ≤ sum rest') by (apply sum_nonneg; by inversion Hrest).
      assert (len (r :: rest') = 1 + len rest') by (unfold len; simpl; lia).
      pose proof (len_nonneg rest'). simpl in *. lia.
Qed.

Lemma choose_none lines b0 :
  (∀ e, e ∈ lines → ¬ (1 < len e.2 < best_count b0)) → choose lines b0 = b0.
Proof.
  intros Hnone.
  destruct (choose_spec lines b0) as [[Hb _]|(k & ty & idx & cs & Hk & _ & Hr & _)];
    [done|].
  apply list_elem_of_lookup_2 in Hk. by destruct (Hnone _ Hk).
Qed.

(** * What the selector returns *)

(** On a well-formed grid the selector leaves the heap alone and returns
    the first line, in the order rows then columns by ascending index, of
    least candidate-set size among the lines that still contain an
    [UNKNOWN] cell and have more than one candidate, when that size is
    below the bound [10 ^ 9] the scan starts from; it returns the empty
    selection when no line has more than one and fewer than [10 ^ 9]
    candidates. *)
Theorem branch_selector_first_minimum (h : heap) (g : grid) (H W : nat)
    (rc cc : list (list Z)) :
  grid_ok h g H W → clues_ok H rc → clues_ok W cc →
  ∃ ty idx cs,
    _best_branch_line g rc cc h = (Ret (ty, idx, cs), h) ∧
    let lines := branch_lines (rows h g) H W rc cc in
    ((ty, idx, cs) = (EmptyString, -1, []) ∧
     ∀ e, e ∈ lines → ¬ (1 < len e.2 < 10 ^ 9)) ∨
    (∃ k : nat,
       lines !! k = Some (ty, idx, cs) ∧ 1 < len cs < 10 ^ 9 ∧
       (∀ (j : nat) e, lines !! j = Some e → 1 < len e.2 → len cs ≤ len e.2) ∧
       (∀ (j : nat) e, (j < k)%nat → lines !! j = Some e → 1 < len e.2 →
          len cs < len e.2)).
Proof.
  intros Hok Hrc Hcc.
  pose proof (best_branch_line_choose Hok rc cc Hrc Hcc) as Heq. cbn zeta in Heq.
  eexists _, _, _. split; [exact Heq|]. cbn zeta.
  destruct (choose_spec (branch_lines (rows h g) H W rc cc) (Best EmptyString (-1) [] (10 ^ 9)))
    as [[-> Hnone]|(k & ty & idx & cs & Hk & -> & Hr & Hmin & Hfirst)].
  - left. split; [done|]. exact Hnone.
  - right. exists k. simpl. split_and!; try done; apply Hr.
Qed.

Lemma branch_selector_first_minimum_witness :
  let '(h, g) := load [[-1; -1; -1]; [-1; -1; -1]] in
  let rc := [[1]; [2]] in
  let cc := [[1]; [1]; [1]] in
  ∃ ty idx cs,
    _best_branch_line g rc cc h = (Ret (ty, idx, cs), h) ∧
    let lines := branch_lines (rows h g) 2 3 rc cc in
    ((ty, idx, cs) = (EmptyString, -1, []) ∧
     ∀ e, e ∈ lines → ¬ (1 < len e.2 < 10 ^ 9)) ∨
    (∃ k : nat,
       lines !! k = Some (ty, idx, cs) ∧ 1 < len cs < 10 ^ 9 ∧
       (∀ (j : nat) e, lines !! j = Some e → 1 < len e.2 → len cs ≤ len e.2) ∧
       (∀ (j : nat) e, (j < k)%nat → lines !! j = Some e → 1 < len e.2 →
          len cs < len e.2)).
Proof.
  refine (branch_selector_first_minimum _ _ 2 3 [[1]; [2]] [[1]; [1]; [1]] _ _ _).
  - apply (load_ok [[-1; -1; -1]; [-1; -1; -1]] 3); [done|].
    repeat constructor; by vm_compute; auto.
  - split; [done|]. repeat constructor.
  - split; [done|]. repeat constructor.
Defined.

Example branch_selector_ties :
  let '(h, g) := load [[-1; -1; -1]; [-1; -1; -1]] in
  _best_branch_line g [[1]; [2]] [[1]; [1]; [1]] h
  = (Ret ("row"%string, 1, [[1; 1; 0]; [0; 1; 1]]), h).
Proof. reflexivity. Qed.

(** * What the search touches *)

Lemma touches_refl g h : touches_only g h h.
Proof. by split. Qed.

Lemma touches_store g h h' l (row : list Z) :
  touches_only g h h' → l ∈ g ∨ (length h ≤ l)%nat →
  touches_only g h (<[l:=row]> h').
Proof.
  intros [Hlen Hkeep] Hl. split; [by rewrite length_insert|].
  intros l' Hl' Hg. rewrite list_lookup_insert_ne; [by apply Hkeep|].
  intros ->. destruct Hl; [done|lia].
Qed.

Lemma touches_alloc g h h' (row : list Z) :
  touches_only g h h' → touches_only g h (h' ++ [row]).
Proof.
  intros [Hlen Hkeep]. split; [rewrite length_app; lia|].
  intros l Hl Hg. rewrite lookup_app_l by lia. by apply Hkeep.
Qed.

Section lifting.
Implicit Types (Φ : heap → search → Prop).

Lemma spec_on_heap {A} Φ (m : H A) (Q : A → heap → search → Prop)
      (E : abort → heap → search → Prop) :
    (∀ ss, spec (λ h, Φ h ss) m (λ a h, Q a h ss) (λ e h, E e h ss)) →
    spec (on_state Φ) (on_world (on_heap m))
      (λ a, on_state (Q a)) (λ e, on_state (E e)).
  Proof.
    intros Hm [ss w] HP. specialize (Hm ss (w_heap w) HP).
    unfold on_world, on_heap, zoom, on_state in *. simpl in *.
    destruct (m (w_heap w)) as [[a|e] h']; done.
  Qed.

Lemma spec_check_cancel Φ stop :
    spec (on_state Φ) (on_world (_check_cancel stop))
      (λ _, on_state Φ) (λ e s, e = Cancelled ∧ on_state Φ s).
  Proof.
    intros [ss w] HP. unfold on_world, zoom, _check_cancel, on_state in *.
    simpl in *. destruct stop as [is_set|]; [|done].
    by destruct (is_set (w_polls w)).
  Qed.

Lemma spec_on_search Φ (f : search → search) E :
    spec (on_state (λ h ss, Φ h (f ss))) (on_search f) (λ _, on_state Φ) E.
  Proof. by intros [ss w] HP. Qed.

Lemma spec_get_search Φ E :
    spec (on_state Φ) get_search
      (λ ss s, s.1 = ss ∧ on_state Φ s) E.
  Proof. by intros [ss w] HP. Qed.
End lifting.

(** Propagation keeps an invariant of the heap that survives writes into
    rows of the grid. *)
Section propagate_stable.
Variables (J : heap → Prop) (g : grid).
Hypothesis Hstore : ∀ h l row row',
    l ∈ g → J h → h !! l = Some row → length row' = length row →
    J (<[l:=row']> h).

Lemma pass_stable rc cc stop cb height width st w :
    J (w_heap w) →
    J (w_heap (propagate_pass g rc cc stop cb height width st w).2).
  Proof.
    intros HJ.
    destruct (pass_cases g rc cc stop cb height width st w) as (o & w' & -> & Hc).
    simpl. destruct (flagged stop w); [by destruct Hc as [_ ->]|].
    pose proof (stable_sweep J g Hstore (λ _, true) rc cc height width false
                  (w_heap w) HJ) as Hs.
    destruct (sweep _ _ _ _ _ _ _ _) as [[[[] changed]|e] h'];
      destruct Hc as [_ ->]; done.
  Qed.

Lemma loop_stable rc cc stop cb height width fuel st w :
    J (w_heap w) →
    J (w_heap (propagate_loop fuel g rc cc stop cb height width st w).2).
  Proof.
    revert st w. induction fuel as [|fuel IH]; intros st w HJ; [done|].
    rewrite loop_unfold.
    pose proof (pass_stable rc cc stop cb height width st w HJ) as Hp.
    destruct (propagate_pass _ _ _ _ _ _ _ _ _) as [[[st'|[] st']|e] w']; try done.
    by apply IH.
  Qed.

Lemma propagate_stable rc cc stop cb fuel w :
    J (w_heap w) → J (w_heap (propagate fuel g rc cc stop cb w).2).
  Proof.
    intros HJ. unfold propagate, hbind.
    rewrite on_heap_reads by apply grid_width_reads.
    destruct (grid_width g (w_heap w)).1; [|done]. by apply loop_stable.
  Qed.
End propagate_stable.

Section keeps.
Variables (X : grid) (h0 : heap).

Local Abbreviation Φ := (touches_only X h0).
Local Abbreviation allowed := (allowed X h0).

Lemma keeps_store g h l (row row' : list Z) :
    allowed g → l ∈ g → Φ h → h !! l = Some row → length row' = length row →
    Φ (<[l:=row']> h).
  Proof.
    intros Hg Hl HΦ _ _. apply touches_store; [done|].
    by apply (proj1 (Forall_forall _ _) Hg).
  Qed.

Lemma copy_grid_keeps g :
    spec Φ (copy_grid g)
      (λ g' h, Φ h ∧ Forall (λ l, (length h0 ≤ l)%nat) g') (λ _, Φ).
  Proof.
    unfold copy_grid. induction g as [|l g IH].
    - by apply spec_ret.
    - simpl. eapply (spec_bind _ _ _ (λ l' h, Φ h ∧ (length h0 ≤ l')%nat)).
      + eapply spec_bind; [apply (stable_deref Φ)|].
        intros row h HΦ. unfold alloc. split; [by apply touches_alloc|].
        by destruct HΦ.
      + intros l'. apply spec_pre. intros h [HΦ Hl'].
        eapply spec_bind.
        * eapply spec_conseq; [apply IH|by intros ? ->|intros ? ?; apply id|done].
        * intros g'. apply spec_ret. intros h' [HΦ' Hg']. split; [done|].
          by constructor.
  Qed.

Lemma branch_grid_keeps width cur lt idx cand :
    spec Φ (branch_grid width cur lt idx cand)
      (λ g' h, Φ h ∧ allowed g') (λ _, Φ).
  Proof.
    unfold branch_grid. eapply spec_bind; [apply copy_grid_keeps|].
    intros new. apply spec_pre. intros h [HΦ Hnew].
    assert (Hall : allowed new).
    { eapply Forall_impl; [done|]. intros l ?. by right. }
    eapply spec_bind.
    - eapply spec_conseq.
      + destruct (decide (lt = "row")).
        * apply (stable_apply_row Φ new
                   (λ h l row row', keeps_store new h l row row' Hall)).
        * apply (stable_apply_col Φ new
                   (λ h l row row', keeps_store new h l row row' Hall)).
      + intros s Hs. by rewrite Hs.
      + intros ? ?. apply id.
      + done.
    - intros []. by apply spec_ret.
  Qed.
End keeps.

Section search_keeps.
Variables (X : grid) (h0 : heap).
Variables (rc cc : list (list Z)) (stop : option (nat → bool)) (cb : bool).
Variables (max_solutions width : Z).

Local Abbreviation Φ := (kept X h0).
Local Abbreviation allowed := (allowed X h0).

Lemma reads_keep {A} (m : H A) :
    (∀ J, stable J m) → spec Φ (on_world (on_heap m)) (λ _, Φ) (λ _, Φ).
  Proof.
    intros Hm. apply (spec_on_heap (λ h _, touches_only X h0 h) m
                        (λ _ h _, touches_only X h0 h) (λ _ h _, touches_only X h0 h)).
    intros ss. apply Hm.
  Qed.

Lemma propagate_keeps fuel cur :
    allowed cur →
    spec Φ (on_world (propagate fuel cur rc cc stop cb)) (λ _, Φ) (λ _, Φ).
  Proof.
    intros Hcur [ss w] HΦ. unfold on_world, zoom. simpl.
    pose proof (propagate_stable (touches_only X h0) cur
                  (λ h l row row', keeps_store X h0 cur h l row row' Hcur)
                  rc cc stop cb fuel w HΦ) as Hp.
    by destruct (propagate _ _ _ _ _ _ _) as [[|] w'].
  Qed.

Lemma dfs_branches_keeps rec cur lt idx cands :
    (∀ new, allowed new → spec Φ (rec new) (λ _, Φ) (λ _, Φ)) →
    spec Φ (dfs_branches rec max_solutions width cur lt idx cands)
      (λ _, Φ) (λ _, Φ).
  Proof.
    intros Hrec. induction cands as [|cand cands IH].
    - by apply spec_ret.
    - simpl. eapply spec_bind.
      { apply (spec_get_search (λ h _, touches_only X h0 h)). }
      intros ss. destruct (decide (len (solutions ss) >= max_solutions)).
      { apply spec_ret. by intros s [_ ?]. }
      eapply (spec_bind _ _ _ (λ new s, Φ s ∧ allowed new)).
      + eapply spec_conseq.
        * apply (spec_on_heap (λ h _, touches_only X h0 h)
                   (branch_grid width cur lt idx cand)
                   (λ new h _, touches_only X h0 h ∧ allowed new)
                   (λ _ h _, touches_only X h0 h)).
          intros _. apply branch_grid_keeps.
        * by intros s [_ ?].
        * done.
        * done.
      + intros new. apply spec_pre. intros s [HΦ Hnew].
        eapply spec_bind.
        * eapply spec_conseq; [apply (Hrec new Hnew)| | |]; try done.
          by intros ? ->.
        * intros []. apply IH.
  Qed.

Lemma dfs_keeps fuel cur depth :
    allowed cur →
    spec Φ (dfs fuel rc cc stop cb max_solutions width cur depth)
      (λ _, Φ) (λ _, Φ).
  Proof.
    revert cur depth. induction fuel as [|fuel IH]; intros cur depth Hcur.
    { by apply spec_lift. }
    cbn [dfs]. eapply spec_bind.
    { eapply spec_conseq;
        [apply (spec_check_cancel (λ h _, touches_only X h0 h))|done|done|].
      by intros e s [_ ?]. }
    intros []. eapply spec_bind.
    { apply (spec_on_search (λ h _, touches_only X h0 h)). }
    intros []. eapply spec_bind; [by apply propagate_keeps|].
    intros [ok pstats]. eapply spec_bind.
    { apply reads_keep. intros. apply stable_count_fixed. }
    intros n. eapply spec_bind.
    { apply (spec_on_search (λ h _, touches_only X h0 h)). }
    intros []. destruct ok; cbn [negb]; [|by apply spec_ret].
    eapply spec_bind.
    { apply reads_keep. intros. apply stable_is_solved. }
    intros [].
    - eapply spec_bind.
      + apply (spec_on_heap (λ h _, touches_only X h0 h) (copy_grid cur)
                 (λ _ h _, touches_only X h0 h) (λ _ h _, touches_only X h0 h)).
        intros _. eapply spec_conseq; [apply copy_grid_keeps|done| |done].
        by intros ? ? [? _].
      + intros copy. apply (spec_on_search (λ h _, touches_only X h0 h)).
    - eapply spec_bind.
      { apply reads_keep. intros. apply stable_best_branch_line. }
      intros [[lt idx] [|c0 cands]]; [by apply spec_ret|].
      apply dfs_branches_keeps. intros new Hnew. by apply IH.
  Qed.
End search_keeps.

(** The heap a solve leaves: every row that existed before is as it was. *)
Lemma solve_keeps fuel g rc cc stop cb max_solutions w :
  touches_only [] (w_heap w)
    (w_heap (solve_nonogram fuel g rc cc stop cb max_solutions w).2).
Proof.
  unfold solve_nonogram. unfold hbind at 1.
  rewrite on_heap_reads by apply grid_width_reads.
  destruct (grid_width g (w_heap w)).1 as [width|]; [|apply touches_refl].
  unfold search_run.
  set (body := hbind (on_world (on_heap (copy_grid g))) _).
  assert (Hbody : spec (on_state (λ h _, touches_only [] (w_heap w) h)) body
            (λ _, on_state (λ h _, touches_only [] (w_heap w) h))
            (λ _, on_state (λ h _, touches_only [] (w_heap w) h))).
  { subst body. eapply (spec_bind _ _ _
      (λ start s, on_state (λ h _, touches_only [] (w_heap w) h) s ∧
                  Forall (λ l, l ∈ [] ∨ (length (w_heap w) ≤ l)%nat) start)).
    - eapply spec_conseq.
      + apply (spec_on_heap (λ h _, touches_only [] (w_heap w) h) (copy_grid g)
                 (λ start h _, touches_only [] (w_heap w) h ∧
                    Forall (λ l, (length (w_heap w) ≤ l)%nat) start)
                 (λ _ h _, touches_only [] (w_heap w) h)).
        intros _. apply copy_grid_keeps.
      + done.
      + intros start s [? Hfresh]. split; [done|].
        eapply Forall_impl; [done|]. intros l ?. by right.
      + done.
    - intros start. apply spec_pre. intros s [HΦ Hstart].
      eapply spec_conseq; [by apply dfs_keeps| | |]; try done.
      by intros ? ->. }
  specialize (Hbody (Search [] (Stats 0 0 0 0), w) (touches_refl _ _)).
  destruct (body _) as [[[]|e] [ss w']]; unfold on_state in Hbody; simpl in Hbody.
  - destruct (solutions ss); [done|]. by destruct (decide _).
  - by destruct e.
Qed.

(** * Claims about the search *)

(** C9. A solve never writes into a row that existed when it was called,
    whatever the grid, the clues, the cancellation flag, the callback and
    the cap, and however it ends: the heap it leaves starts with the heap it
    was given, so every cell of the caller's grid holds the value it held. *)
Theorem solve_leaves_caller_grid (fuel : nat) (g : grid)
    (rc cc : list (list Z)) (stop : option (nat → bool)) (cb : bool)
    (max_solutions : Z) (w : world) :
  let h := w_heap w in
  let h' := w_heap (solve_nonogram fuel g rc cc stop cb max_solutions w).2 in
  take (length h) h' = h ∧
  ∀ r c v, cell h g r c = Some v → cell h' g r c = Some v.
Proof.
  intros h h'.
  destruct (solve_keeps fuel g rc cc stop cb max_solutions w) as [Hlen Hkeep].
  fold h h' in Hlen, Hkeep.
  assert (Hsame : ∀ l row, h !! l = Some row → h' !! l = Some row).
  { intros l row Hl. rewrite Hkeep; [done|by eapply lookup_lt_Some|].
    apply not_elem_of_nil. }
  split.
  - apply list_eq. intros l. destruct (decide (l < length h)%nat) as [Hl|Hl].
    + rewrite lookup_take_lt by done. apply Hkeep; [done|apply not_elem_of_nil].
    + rewrite lookup_take_ge by lia. symmetry. apply lookup_ge_None. lia.
  - intros r c v. unfold cell, cell_of, rows. rewrite !list_lookup_fmap.
    destruct (g !! r) as [l|]; [simpl|done].
    destruct (h !! l) as [row|] eqn:Hrow; [|done].
    by rewrite (Hsame l row Hrow).
Qed.

Lemma solve_leaves_caller_grid_witness :
  let '(h, g) := load [[-1; -1]; [-1; 0]] in
  let h' := w_heap (solve_nonogram 10 g [[1]; [1]] [[1]; [1]] None false 2
                      (World h 0 [])).2 in
  cell h' g 1 1 = Some 0.
Proof.
  refine (proj2 (solve_leaves_caller_grid 10 [0; 1]%nat [[1]; [1]] [[1]; [1]]
                   None false 2 (World [[-1; -1]; [-1; 0]] 0 [])) 1%nat 1%nat 0 _).
  reflexivity.
Defined.

(** C6. Whenever [solve_nonogram] returns, its result is classified by how
    the search ended and how many solutions it had recorded: cancelled with
    no grid; unsolved with no grid when none was recorded; solved with that
    one grid when exactly one was; multiple with the first two grids when
    two or more were.  And in the loop over the candidates of the branch
    line, once the number of recorded solutions has reached the cap the
    loop returns at once, trying no further candidate. *)
Theorem solve_result_classified (fuel : nat) (g : grid)
    (rc cc : list (list Z)) (stop : option (nat → bool)) (cb : bool)
    (max_solutions : Z) (w w' : world) (res : SolveResult) :
  solve_nonogram fuel g rc cc stop cb max_solutions w = (Ret res, w') →
  (∃ width o ss,
     search_run fuel g rc cc stop cb max_solutions width w = (o, (ss, w')) ∧
     result_stats res = stats ss ∧
     ((o = Abort Cancelled ∧ status res = "cancelled" ∧ result_solutions res = []) ∨
      (o = Ret () ∧ solutions ss = [] ∧
         status res = "unsolved" ∧ result_solutions res = []) ∨
      (o = Ret () ∧ length (solutions ss) = 1%nat ∧
         status res = "solved" ∧ result_solutions res = solutions ss) ∨
      (o = Ret () ∧ (2 ≤ length (solutions ss))%nat ∧
         status res = "multiple" ∧
         result_solutions res = take 2 (solutions ss) ∧
         length (result_solutions res) = 2%nat))) ∧
  (∀ rec width cur line_type index cands (s : search * world),
     len (solutions s.1) >= max_solutions →
     dfs_branches rec max_solutions width cur line_type index cands s
     = (Ret (), s)).
Proof.
  intros Hsolve. split.
  - unfold solve_nonogram in Hsolve. unfold hbind at 1 in Hsolve.
    rewrite on_heap_reads in Hsolve by apply grid_width_reads.
    destruct (grid_width g (w_heap w)).1 as [width|]; [|done].
    exists width.
    destruct (search_run _ _ _ _ _ _ _ _ _) as [[[]|e] [ss w1]] eqn:Hrun.
    + exists (Ret ()), ss. destruct (solutions ss) as [|s1 [|s2 sols]] eqn:Hsols.
      * injection Hsolve as <- <-. split_and!; try done. right; left. done.
      * rewrite decide_False in Hsolve by (unfold len; simpl; lia).
        injection Hsolve as <- <-. split_and!; try done.
        right; right; left. done.
      * rewrite decide_True in Hsolve by (unfold len; simpl; lia).
        injection Hsolve as <- <-. split_and!; try done.
        right; right; right. simpl. split_and!; try done. lia.
    + destruct e; try done. injection Hsolve as <- <-.
      exists (Abort Cancelled), ss. split_and!; try done. left. done.
  - intros rec width cur lt idx cands [ss w0] Hcap. destruct cands as [|cand cands].
    + done.
    + simpl in *. unfold hbind, get_search. simpl. by rewrite decide_True.
Qed.

Lemma solve_result_classified_witness :
  ∃ width o ss,
    search_run 10 [0; 1]%nat [[1]; [1]] [[1]; [1]] None false 2 width
      (World [[-1; -1]; [-1; -1]] 0 [])
    = (o, (ss, World [[-1; -1]; [-1; -1]; [-1; -1]; [-1; -1]; [1; 0]; [0; 1];
                       [1; 0]; [0; 1]; [0; 1]; [1; 0]; [0; 1]; [1; 0]] 0 [])) ∧
    Stats 5 3 1 4 = stats ss ∧
    ((o = Abort Cancelled ∧ "multiple"%string = "cancelled"%string ∧
        [[6; 7]; [10; 11]]%nat = []) ∨
     (o = Ret () ∧ solutions ss = [] ∧
        "multiple"%string = "unsolved"%string ∧ [[6; 7]; [10; 11]]%nat = []) ∨
     (o = Ret () ∧ length (solutions ss) = 1%nat ∧
        "multiple"%string = "solved"%string ∧ [[6; 7]; [10; 11]]%nat = solutions ss) ∨
     (o = Ret () ∧ (2 ≤ length (solutions ss))%nat ∧
        "multiple"%string = "multiple"%string ∧
        [[6; 7]; [10; 11]]%nat = take 2 (solutions ss) ∧
        length [[6; 7]; [10; 11]]%nat = 2%nat)).
Proof.
  refine (proj1 (solve_result_classified 10 [0; 1]%nat [[1]; [1]] [[1]; [1]]
            None false 2 (World [[-1; -1]; [-1; -1]] 0 []) _
            (Result "multiple" [[6; 7]; [10; 11]]%nat (Stats 5 3 1 4)
               "Multiple solutions found") _)).
  vm_compute. reflexivity.
Defined.

(** * Copies and whole-line writes on a well-formed grid *)

Lemma rows_app h more g :
  Forall (λ l, (l < length h)%nat) g → rows (h ++ more) g = rows h g.
Proof.
  intros Hg. unfold rows. apply list_fmap_ext. intros i l Hl.
  rewrite lookup_app_l; [done|]. by eapply (Forall_lookup_1 _ _ _ _ Hg).
Qed.

Lemma copy_grid_exact g h :
  Forall (λ l, (l < length h)%nat) g →
  copy_grid g h = (Ret (seq (length h) (length g)), h ++ rows h g).
Proof.
  unfold copy_grid. revert h. induction g as [|l g IH]; intros h Hg.
  - simpl. unfold hret. by rewrite app_nil_r.
  - apply Forall_cons in Hg as [Hl Hg].
    destruct (lookup_lt_is_Some_2 h l Hl) as [row Hrow].
    cbn [hmap]. unfold hbind at 1. unfold hbind at 1. unfold deref at 1.
    rewrite Hrow. unfold alloc at 1. unfold hbind at 1.
    rewrite IH.
    2: { eapply Forall_impl; [done|]. intros l' ?. rewrite length_app. simpl in *. lia. }
    unfold hret. rewrite rows_app by done. rewrite length_app. simpl.
    rewrite Hrow. simpl. rewrite <- app_assoc. simpl.
    by replace (length h + 1)%nat with (Datatypes.S (length h)) by lia.
Qed.

Lemma grid_ok_locs h g H W :
  grid_ok h g H W → Forall (λ l, (l < length h)%nat) g.
Proof.
  intros [_ _ _ Hrows]. apply Forall_forall. intros l Hl.
  destruct (Hrows l Hl) as (row & Hrow & _). by eapply lookup_lt_Some.
Qed.

Lemma copy_grid_ok h g H W :
  grid_ok h g H W →
  ∃ g' h', copy_grid g h = (Ret g', h') ∧
    grid_ok h' g' H W ∧ rows h' g' = rows h g.
Proof.
  intros Hok. pose proof (grid_ok_locs _ _ _ _ Hok) as Hlocs.
  destruct (grid_rows_shape Hok) as [HH Hshape].
  exists (seq (length h) (length g)), (h ++ rows h g).
  split; [by apply copy_grid_exact|].
  assert (Hrows : rows (h ++ rows h g) (seq (length h) (length g)) = rows h g).
  { unfold rows at 1. apply list_eq. intros i. rewrite list_lookup_fmap.
    destruct (decide (i < length g)%nat) as [Hi|Hi].
    - rewrite lookup_seq_lt by done. simpl.
      rewrite lookup_app_r by lia.
      replace (length h + i - length h)%nat with i by lia.
      destruct (lookup_lt_is_Some_2 (rows h g) i) as [row Hrow];
        [by rewrite length_rows|].
      by rewrite Hrow.
    - rewrite lookup_seq_ge by lia. symmetry. apply lookup_ge_None.
      rewrite length_rows. lia. }
  split; [|done]. destruct Hok as [Hlen Hpos Hnd Hr]. split.
  - by rewrite length_seq.
  - done.
  - apply NoDup_seq.
  - intros l Hl. apply elem_of_seq in Hl.
    rewrite lookup_app_r by lia.
    destruct (lookup_lt_is_Some_2 (rows h g) (l - length h)) as [row Hrow];
      [rewrite length_rows; lia|].
    exists row. split; [done|]. by apply (Forall_lookup_1 _ _ _ _ Hshape Hrow).
Qed.

Lemma is_solved_ok h g H W :
  grid_ok h g H W →
  _is_solved g h = (Ret (bool_decide (unknowns (rows h g) = 0%nat)), h).
Proof.
  intros Hok. unfold _is_solved, hbind. rewrite (deref_rows Hok). unfold hret.
  do 2 f_equal. apply bool_decide_ext. by rewrite unknowns_zero.
Qed.

Section write_line.
Variables (g : grid) (H W : nat).

Lemma write_line_ok (cand : list Z) (n : nat) (fr fc : Z → Z)
      (pr pc : nat → nat) h :
    grid_ok h g H W → length cand = n → Forall cell_ok cand →
    (∀ k : nat, fr (Z.of_nat k) = Z.of_nat (pr k) ∧ fc (Z.of_nat k) = Z.of_nat (pc k)) →
    (∀ k : nat, (k < n)%nat → (pr k < H)%nat ∧ (pc k < W)%nat) →
    (∀ k k' : nat, pr k = pr k' → pc k = pc k' → k = k') →
    ∃ h',
      hfor (λ k _, let! x := lift (getitem cand k) in set_cell g (fr k) (fc k) x)
        (range 0 (Z.of_nat n)) () h = (Ret (), h') ∧
      grid_ok h' g H W ∧
      (∀ (k : nat) x, cand !! k = Some x → cell h' g (pr k) (pc k) = Some x) ∧
      (∀ r c : nat, (∀ k : nat, (k < n)%nat → ¬ (pr k = r ∧ pc k = c)) →
         cell h' g r c = cell h g r c).
  Proof.
    intros Hok Hlen Hcells Hf Hbound Hinj.
    set (I := λ (j : Z) (_ : unit) (h' : heap),
      grid_ok h' g H W ∧
      (∀ (k : nat) x, Z.of_nat k < j → cand !! k = Some x →
         cell h' g (pr k) (pc k) = Some x) ∧
      (∀ r c : nat, (∀ k : nat, Z.of_nat k < j → ¬ (pr k = r ∧ pc k = c)) →
         cell h' g r c = cell h g r c)).
    assert (Hloop : spec (I 0 ())
      (hfor (λ k _, let! x := lift (getitem cand k) in set_cell g (fr k) (fc k) x)
         (range 0 (Z.of_nat n)) ())
      (I (Z.of_nat n)) never).
    { apply spec_hfor_range; [lia|]. intros j [] Hj.
      destruct (Z_of_nat_complete j) as [k ->]; [lia|].
      apply spec_exact. intros s (Hoks & Hset & Hrest).
      destruct (Hbound k) as [Hr Hc]; [lia|].
      destruct (lookup_lt_is_Some_2 cand k) as [x Hx]; [lia|].
      destruct (grid_cell Hoks (pr k) (pc k) Hr Hc) as (y & Hy & _).
      destruct (Hf k) as [-> ->].
      destruct (set_cell_ok s g H W (pr k) (pc k) x y Hoks Hy)
        as (row & s' & Hrow & Heq & Hoks' & Hrows' & _ & _).
      { by eapply Forall_lookup_1. }
      exists (), s'. split.
      { unfold hbind, lift. by rewrite (getitem_Ret _ _ _ Hx). }
      assert (Hcell' : ∀ r c : nat, cell s' g r c
                = if decide (r = pr k ∧ c = pc k) then Some x else cell s g r c).
      { intros r c. unfold cell. rewrite Hrows'. apply cell_insert; [done|].
        unfold cell, cell_of in Hy. rewrite Hrow in Hy. by eapply lookup_lt_Some. }
      split; [done|]. split.
      - intros k' x' Hk' Hx'. rewrite Hcell'.
        destruct (decide (pr k' = pr k ∧ pc k' = pc k)) as [[Hpr Hpc]|Hne].
        + assert (k' = k) as -> by (by apply Hinj). congruence.
        + apply Hset; [|done]. destruct (decide (k' = k)) as [->|]; [|lia].
          by destruct Hne.
      - intros r c Hout. rewrite Hcell'. rewrite decide_False.
        + apply Hrest. intros k' Hk'. apply Hout. lia.
        + intros [-> ->]. apply (Hout k); [lia|done]. }
    destruct (spec_total _ _ _ h Hloop) as ([] & h' & Heq & Hok' & Hset & Hrest).
    { split; [done|]. split; [intros; lia|done]. }
    exists h'. split; [done|]. split; [done|]. split.
    - intros k x Hx. apply Hset; [|done]. apply lookup_lt_Some in Hx. lia.
    - intros r c Hout. apply Hrest. intros k Hk. apply Hout. lia.
  Qed.
End write_line.

(** * Refinement from cells, and strict progress *)

Lemma refines_cells h g h' g' H W :
  grid_ok h g H W → grid_ok h' g' H W →
  (∀ r c v, cell h g r c = Some v → v ≠ UNKNOWN → cell h' g' r c = Some v) →
  refines (rows h g) (rows h' g').
Proof.
  intros Hok Hok' Hcells.
  destruct (grid_rows_shape Hok) as [HH Hshape].
  destruct (grid_rows_shape Hok') as [HH' Hshape'].
  apply Forall2_same_length_lookup_2; [lia|].
  intros r row row' Hrow Hrow'.
  destruct (Forall_lookup_1 _ _ _ _ Hshape Hrow) as [HW _].
  destruct (Forall_lookup_1 _ _ _ _ Hshape' Hrow') as [HW' _].
  apply Forall2_same_length_lookup_2; [lia|].
  intros c x y Hx Hy Hne.
  specialize (Hcells r c x). unfold cell, cell_of in Hcells.
  rewrite Hrow, Hrow' in Hcells. simpl in Hcells.
  specialize (Hcells Hx Hne). congruence.
Qed.

Lemma unk_row_refines (row row' : list Z) :
  Forall2 (λ x y, x ≠ UNKNOWN → y = x) row row' →
  (unk_row row' ≤ unk_row row)%nat ∧
  ∀ (c : nat) v, row !! c = Some UNKNOWN → row' !! c = Some v → v ≠ UNKNOWN →
    (unk_row row' < unk_row row)%nat.
Proof.
  unfold unk_row. induction 1 as [|x y row row' Hxy Hrow [IHle IHlt]]; [done|].
  assert (Hstep : (length (filter (λ v, v = UNKNOWN) (y :: row'))
                   ≤ length (filter (λ v, v = UNKNOWN) (x :: row)))%nat).
  { destruct (decide (y = UNKNOWN)) as [->|Hy].
    - rewrite (filter_cons_True _ UNKNOWN) by done.
      destruct (decide (x = UNKNOWN)) as [->|Hx].
      + rewrite filter_cons_True by done. simpl. lia.
      + by specialize (Hxy Hx).
    - rewrite (filter_cons_False _ y) by done.
      destruct (decide (x = UNKNOWN)) as [->|Hx].
      + rewrite filter_cons_True by done. simpl. lia.
      + by rewrite filter_cons_False by done. }
  split; [done|]. intros [|c] v Hc Hv Hne; simpl in *.
  - injection Hc as ->. injection Hv as ->.
    rewrite (filter_cons_True _ UNKNOWN) by done.
    rewrite (filter_cons_False _ v) by done. simpl. lia.
  - specialize (IHlt c v Hc Hv Hne).
    destruct (decide (y = UNKNOWN)) as [->|Hy].
    + rewrite (filter_cons_True _ UNKNOWN) by done.
      destruct (decide (x = UNKNOWN)) as [->|Hx].
      * rewrite filter_cons_True by done. simpl. lia.
      * by specialize (Hxy Hx).
    + rewrite (filter_cons_False _ y) by done.
      destruct (decide (x = UNKNOWN)) as [->|Hx].
      * rewrite filter_cons_True by done. simpl. lia.
      * by rewrite filter_cons_False by done.
Qed.

Lemma refines_strict G G' (r c : nat) v :
  refines G G' → cell_of G r c = Some UNKNOWN → cell_of G' r c = Some v →
  v ≠ UNKNOWN → (unknowns G' < unknowns G)%nat.
Proof.
  unfold refines, unknowns, cell_of. intros Href. revert r.
  induction Href as [|row row' G G' Hrow HG IH]; intros r Hc Hv Hne; [done|].
  destruct (unk_row_refines row row' Hrow) as [Hle Hlt].
  pose proof (refines_unknowns G G' HG) as HleG. unfold unknowns in HleG.
  destruct r as [|r]; simpl in *.
  - specialize (Hlt c v Hc Hv Hne). lia.
  - specialize (IH r Hc Hv Hne). lia.
Qed.

(** * A branch determines at least one more cell *)

Lemma branch_lines_elem G H W rc cc e :
  e ∈ branch_lines G H W rc cc →
  (∃ r : nat, (r < H)%nat ∧ UNKNOWN ∈ default [] (G !! r) ∧
     e = ("row"%string, Z.of_nat r,
          line_cands (Z.of_nat W) (default [] (rc !! r)) (default [] (G !! r)))) ∨
  (∃ c : nat, (c < W)%nat ∧ UNKNOWN ∈ col_of G c ∧
     e = ("col"%string, Z.of_nat c,
          line_cands (Z.of_nat H) (default [] (cc !! c)) (col_of G c))).
Proof.
  unfold branch_lines. intros [He|He]%elem_of_app;
    apply list_elem_of_bind in He as (k & He & Hk);
    apply elem_of_seq in Hk; unfold branch_line in He;
    destruct (decide (UNKNOWN ∈ _)) as [Hu|_]; try (by apply elem_of_nil in He);
    apply list_elem_of_singleton in He as ->.
  - left. exists k. split; [lia|done].
  - right. exists k. split; [lia|done].
Qed.

Lemma line_write_progress h cur H W new h1 h2 (ls cand : list Z) (n : nat)
    (pr pc : nat → nat) :
  grid_ok h cur H W → grid_ok h2 new H W → rows h1 new = rows h cur →
  (∀ (k : nat) x, cand !! k = Some x → cell h2 new (pr k) (pc k) = Some x) →
  (∀ r c : nat, (∀ k : nat, (k < n)%nat → ¬ (pr k = r ∧ pc k = c)) →
     cell h2 new r c = cell h1 new r c) →
  length ls = n → length cand = n → fits ls 0 cand → Forall cell_ok ls →
  (∀ k : nat, (k < n)%nat → cell h cur (pr k) (pc k) = ls !! k) →
  UNKNOWN ∈ ls →
  (unknowns (rows h2 new) < unknowns (rows h cur))%nat.
Proof.
  intros Hok Hok2 Hrows Hset Hrest Hls Hcand Hfits Hcells Hline Hunk.
  assert (Hsame : ∀ r c, cell h1 new r c = cell h cur r c).
  { intros r c. unfold cell. by rewrite Hrows. }
  apply list_elem_of_lookup in Hunk as [k0 Hk0].
  assert (Hk0n : (k0 < n)%nat) by (apply lookup_lt_Some in Hk0; lia).
  destruct (lookup_lt_is_Some_2 cand k0) as [x0 Hx0]; [lia|].
  eapply (refines_strict _ _ (pr k0) (pc k0) x0).
  - eapply refines_cells; [done|done|]. intros r c v Hv Hne.
    destruct (decide (Exists (λ k, pr k = r ∧ pc k = c) (seq 0 n))) as [Hex|Hnex].
    + apply Exists_exists in Hex as (k & Hk & <- & <-). apply elem_of_seq in Hk.
      rewrite Hline in Hv by lia.
      destruct (lookup_lt_is_Some_2 cand k) as [x Hx]; [lia|].
      rewrite (Hset k x Hx). f_equal.
      pose proof (Forall_lookup_1 _ _ _ _ Hcells Hv) as Hcv.
      pose proof (Hfits k x Hx) as Hf. simpl in Hf. rewrite Hv in Hf.
      unfold cell_ok in Hcv.
      destruct Hf as [[-> Hn]|[-> Hn]], Hcv as [-> | [-> | ->]]; done.
    + rewrite Hrest, Hsame; [done|]. intros k Hk Heq. apply Hnex.
      apply Exists_exists. exists k. split; [|done]. apply elem_of_seq. lia.
  - specialize (Hline k0 Hk0n). unfold cell in Hline. by rewrite Hline.
  - apply (Hset k0 x0 Hx0).
  - pose proof (Hfits k0 x0 Hx0) as Hf. by destruct Hf as [[-> _]|[-> _]].
Qed.

Section branch.
Context {h : heap} {cur : grid} {H W : nat}.
Variables (rc cc : list (list Z)).
Hypothesis Hok : grid_ok h cur H W.
Hypothesis Hrc : clues_ok H rc.
Hypothesis Hcc : clues_ok W cc.

Lemma branch_grid_ok e cand :
    e ∈ branch_lines (rows h cur) H W rc cc → cand ∈ e.2 →
    ∃ new h',
      branch_grid (Z.of_nat W) cur e.1.1 e.1.2 cand h = (Ret new, h') ∧
      grid_ok h' new H W ∧
      (unknowns (rows h' new) < unknowns (rows h cur))%nat.
  Proof.
    intros He Hcand.
    destruct (copy_grid_ok h cur H W Hok) as (new & h1 & Hcopy & Hok1 & Hrows1).
    destruct (grid_rows_shape Hok) as [HH Hshape].
    unfold branch_grid, hbind. rewrite Hcopy.
    apply branch_lines_elem in He
      as [(r & Hr & Hunk & ->)|(c & Hc & Hunk & ->)]; cbn [fst snd] in *.
    - destruct (lookup_lt_is_Some_2 (rows h cur) r) as [row Hrow]; [lia|].
      rewrite Hrow in *. cbn [default] in *.
      destruct (Forall_lookup_1 _ _ _ _ Hshape Hrow) as [HW Hrowok].
      destruct Hrc as [Hrclen Hrcpos].
      destruct (lookup_lt_is_Some_2 rc r) as [blocks Hblocks]; [lia|].
      rewrite Hblocks in Hcand. cbn [default] in Hcand.
      destruct (line_cands_ok W blocks row HW) as [_ Hsound];
        [by eapply Forall_lookup_1|].
      destruct (Hsound cand Hcand) as [Hclen Hfits].
      rewrite decide_True by done. unfold apply_row.
      destruct (write_line_ok new H W cand W (λ _, Z.of_nat r) (λ k, k)
                  (λ _, r) (λ k, k) h1) as (h2 & Heq & Hok2 & Hset & Hrest);
        try done; try (intros; simpl; lia).
      { eapply Forall_impl; [by eapply fits_cells|].
        intros v [->| ->]; unfold cell_ok; auto. }
      rewrite Heq. exists new, h2. split; [done|]. split; [done|].
      eapply (line_write_progress h cur H W new h1 h2 row cand W (λ _, r) (λ k, k));
        try done.
      intros k Hk. unfold cell, cell_of. by rewrite Hrow.
    - destruct (col_of_shape Hok c Hc) as [Hclen Hcolok].
      destruct Hcc as [Hcclen Hccpos].
      destruct (lookup_lt_is_Some_2 cc c) as [blocks Hblocks]; [lia|].
      rewrite Hblocks in Hcand. cbn [default] in Hcand.
      destruct (line_cands_ok H blocks (col_of (rows h cur) c) Hclen) as [_ Hsound];
        [by eapply Forall_lookup_1|].
      destruct (Hsound cand Hcand) as [Hcandlen Hfits].
      rewrite decide_False by done. unfold apply_col.
      replace (len new) with (Z.of_nat H) by (unfold len; by destruct Hok1 as [->]).
      destruct (write_line_ok new H W cand H (λ k, k) (λ _, Z.of_nat c)
                  (λ k, k) (λ _, c) h1) as (h2 & Heq & Hok2 & Hset & Hrest);
        try done; try (intros; simpl; lia).
      { eapply Forall_impl; [by eapply fits_cells|].
        intros v [->| ->]; unfold cell_ok; auto. }
      rewrite Heq. exists new, h2. split; [done|]. split; [done|].
      eapply (line_write_progress h cur H W new h1 h2 (col_of (rows h cur) c)
                cand H (λ k, k) (λ _, c)); try done.
      intros k Hk. destruct (column_ok Hok c Hc) as (col & Hcol & _ & _ & Hlookup).
      rewrite (column_col_of Hok c Hc) in Hcol. injection Hcol as <-.
      by rewrite Hlookup.
  Qed.
End branch.

(** * The search terminates *)

Lemma spec_conj {S A} (P1 P2 : S → Prop) (m : ST S A)
    (Q1 Q2 : A → S → Prop) (E1 E2 : abort → S → Prop) :
  spec P1 m Q1 E1 → spec P2 m Q2 E2 →
  spec (λ s, P1 s ∧ P2 s) m (λ a s, Q1 a s ∧ Q2 a s) (λ e s, E1 e s ∧ E2 e s).
Proof.
  intros H1 H2 s [HP1 HP2]. specialize (H1 s HP1). specialize (H2 s HP2).
  by destruct (m s) as [[a|e] s'].
Qed.

Lemma spec_reads_exact {A} (Φ : heap → search → Prop) (m : H A)
    (R : A → heap → Prop) E :
  (∀ h ss, Φ h ss → ∃ a, m h = (Ret a, h) ∧ R a h) →
  spec (on_state Φ) (on_world (on_heap m))
    (λ a, on_state (λ h ss, Φ h ss ∧ R a h)) E.
Proof.
  intros Hm [ss w] HΦ. unfold on_state in *. simpl in *.
  destruct (Hm _ _ HΦ) as (a & Heq & HR).
  unfold on_world, on_heap, zoom. simpl. rewrite Heq. simpl. done.
Qed.

Lemma grid_ok_keeps h h' g H W :
  grid_ok h g H W → touches_only [] h h' →
  grid_ok h' g H W ∧ rows h' g = rows h g.
Proof.
  intros Hok [Hlen Hkeep]. pose proof (grid_ok_locs _ _ _ _ Hok) as Hlocs.
  assert (Hsame : ∀ l, l ∈ g → h' !! l = h !! l).
  { intros l Hl. apply Hkeep; [|apply not_elem_of_nil].
    by apply (proj1 (Forall_forall _ _) Hlocs). }
  split.
  - destruct Hok as [? ? ? Hrows]. split; try done.
    intros l Hl. rewrite Hsame by done. by apply Hrows.
  - unfold rows. apply list_fmap_ext. intros i l Hl.
    rewrite Hsame; [done|]. by eapply list_elem_of_lookup_2.
Qed.

Section dfs_ok.
Variables (H W : nat) (rc cc : list (list Z)).
Variables (stop : option (nat → bool)) (cb : bool) (max_solutions D : Z).
Hypothesis Hrc : clues_ok H rc.
Hypothesis Hcc : clues_ok W cc.

Local Abbreviation Good := (Good H W D).
Local Abbreviation Done := (Done D).
Local Abbreviation Stopped := (Stopped D).

Lemma Good_Done cur u s : Good cur u s → Done s.
  Proof. by intros (_ & _ & ?). Qed.

Lemma propagate_good fuel cur u :
    (u < fuel)%nat →
    spec (Good cur u) (on_world (propagate fuel cur rc cc stop cb))
      (λ _, Good cur u) Stopped.
  Proof.
    intros Hfuel [ss w] (Hok & Hu & Hd). unfold on_world, zoom. simpl in *.
    destruct (propagate_ok cur H W rc cc stop cb Hrc Hcc fuel w Hok)
      as (o & w' & -> & Hadv & Ho).
    pose proof (refines_unknowns _ _ (adv_refines _ _ _ _ _ Hadv)) as Hle.
    destruct o as [a|e].
    - split_and!; [by destruct Hadv| simpl; lia | done].
    - destruct Ho as [->|[-> Hlow]]; [done|]. lia.
  Qed.

Section branches.
Variables (fuel : nat) (depth : Z) (cur : grid) (G1 : list (list Z)).
Variable e : string * Z * list (list Z).
Hypothesis He : e ∈ branch_lines G1 H W rc cc.
Hypothesis Hfuel : (unknowns G1 ≤ fuel)%nat.
Hypothesis Hdepth : 0 ≤ depth ∧ depth + Z.of_nat (unknowns G1) ≤ D.
Hypothesis IH : ∀ new d u,
      (u < fuel)%nat → 0 ≤ d → d + Z.of_nat u ≤ D →
      spec (Good new u)
        (dfs fuel rc cc stop cb max_solutions (Z.of_nat W) new d)
        (λ _, Done) Stopped.

Local Abbreviation Here := (Here H W D cur G1).

Lemma dfs_branches_ok cands :
      Forall (λ c, c ∈ e.2) cands →
      spec Here
        (dfs_branches
           (λ new, dfs fuel rc cc stop cb max_solutions (Z.of_nat W) new (depth + 1))
           max_solutions (Z.of_nat W) cur e.1.1 e.1.2 cands)
        (λ _, Done) Stopped.
    Proof.
      induction 1 as [|cand cands Hcand Hcands IHc].
      { apply spec_ret. by intros s (_ & _ & ?). }
      cbn [dfs_branches]. intros [ss w] (Hok & Hrows & Hd).
      unfold on_state in *. cbn [fst snd] in *. cbn [fst snd] in Hok, Hrows, Hd.
      unfold hbind at 1, get_search. cbn [fst snd].
      destruct (decide (len (solutions ss) >= max_solutions)); [done|].
      rewrite <- Hrows in He.
      destruct (branch_grid_ok rc cc Hok Hrc Hcc e cand He Hcand)
        as (new & h2 & Hbranch & Hok2 & Hless).
      pose proof (branch_grid_keeps [] (w_heap w) (Z.of_nat W) cur e.1.1 e.1.2 cand
                    (w_heap w) (touches_refl _ _)) as Hkeep.
      rewrite Hbranch in Hkeep. destruct Hkeep as [Hkeep Hfresh].
      destruct (grid_ok_keeps _ _ _ _ _ Hok Hkeep) as [Hokc Hrowsc].
      unfold hbind at 1. unfold on_world at 1, on_heap at 1, zoom.
      cbn [fst snd w_heap w_polls w_progress]. rewrite Hbranch.
      set (s2 := (ss, World h2 (w_polls w) (w_progress w))).
      rewrite Hrows in Hless.
      pose proof (spec_conj _ _ _ _ _ _ _
        (IH new (depth + 1) (unknowns G1 - 1)%nat ltac:(lia) ltac:(lia) ltac:(lia))
        (dfs_keeps [] (w_heap w) rc cc stop cb max_solutions (Z.of_nat W) fuel new
           (depth + 1) Hfresh) s2) as Hrec.
      unfold hbind.
      destruct (dfs fuel rc cc stop cb max_solutions (Z.of_nat W) new (depth + 1) s2)
        as [[[]|e'] [ss3 w3]] eqn:Hdfs.
      - destruct Hrec as [Hdone Hkeep3].
        { split; [|exact Hkeep]. split; [done|]. split; [simpl; lia|done]. }
        apply IHc. unfold Here, on_state. cbn [fst snd].
        unfold kept, on_state in Hkeep3. cbn [fst snd] in Hkeep3.
        destruct (grid_ok_keeps _ _ _ _ _ Hok Hkeep3) as [Hok3 Hrows3].
        split; [done|]. split; [congruence|done].
      - destruct Hrec as [Hstop _]; [|done].
        split; [|exact Hkeep]. split; [done|]. split; [simpl; lia|done].
    Qed.
End branches.

Lemma dfs_ok fuel :
    ∀ cur depth u,
      (u < fuel)%nat → 0 ≤ depth → depth + Z.of_nat u ≤ D →
      spec (Good cur u)
        (dfs fuel rc cc stop cb max_solutions (Z.of_nat W) cur depth)
        (λ _, Done) Stopped.
  Proof.
    induction fuel as [|fuel IH]; intros cur depth u Hfuel Hdepth HD; [lia|].
    cbn [dfs]. eapply spec_bind.
    { eapply spec_conseq; [apply (spec_check_cancel
        (λ h ss, grid_ok h cur H W ∧ (unknowns (rows h cur) ≤ u)%nat ∧
                 max_depth (stats ss) ≤ D))|done|done|].
      intros e0 s [-> Hs]. split; [done|]. by eapply Good_Done. }
    intros []. eapply spec_bind.
    { eapply spec_conseq; [apply (spec_on_search
        (λ h ss, grid_ok h cur H W ∧ (unknowns (rows h cur) ≤ u)%nat ∧
                 max_depth (stats ss) ≤ D))| |done|done].
      intros [ss w] (Hok & Hu & Hd). unfold on_state in *.
      cbn [fst snd stats max_depth] in *.
      split; [done|]. split; [done|]. lia. }
    intros []. eapply spec_bind; [apply propagate_good; lia|].
    intros [ok pstats]. eapply spec_bind.
    { apply (spec_reads_exact _ _ (λ _ _, True)). intros h ss (Hok & _).
      destruct (count_fixed_ok h cur H W Hok) as [n Hn]. by exists n. }
    intros n. eapply spec_bind.
    { eapply spec_conseq; [apply (spec_on_search
        (λ h ss, grid_ok h cur H W ∧ (unknowns (rows h cur) ≤ u)%nat ∧
                 max_depth (stats ss) ≤ D))| |done|done].
      by intros [ss w] [(Hok & Hu & Hd) _]. }
    intros []. destruct ok; cbn [negb].
    2: { apply spec_ret. intros s. apply Good_Done. }
    eapply spec_bind.
    { apply (spec_reads_exact _ _
               (λ b h, b = bool_decide (unknowns (rows h cur) = 0%nat))).
      intros h ss (Hok & _). eexists. split; [by eapply is_solved_ok|done]. }
    intros [].
    - (* solved: record a copy *)
      eapply spec_bind.
      + eapply spec_conseq.
        * apply (spec_on_heap
            (λ h ss, grid_ok h cur H W ∧ max_depth (stats ss) ≤ D)
            (copy_grid cur)
            (λ _ _ ss, max_depth (stats ss) ≤ D) (λ _ _ _, False)).
          intros ss. apply spec_exact. intros h [Hok Hd].
          destruct (copy_grid_ok h cur H W Hok) as (g' & h' & Heq & _).
          by exists g', h'.
        * by intros [ss w] [(Hok & Hu & Hd) _].
        * intros a s Hs. exact Hs.
        * by intros e0 s ?.
      + intros copy. eapply spec_conseq;
          [apply (spec_on_search (λ _ ss, max_depth (stats ss) ≤ D))|done|done|done].
    - (* not solved: branch *)
      eapply spec_bind.
      { apply (spec_reads_exact _ _
          (λ a h, let b := choose (branch_lines (rows h cur) H W rc cc)
                             (Best EmptyString (-1) [] (10 ^ 9)) in
                  a = (best_type b, best_index b, best_candidates b))).
        intros h ss [(Hok & _) _]. eexists. split; [|done].
        by apply best_branch_line_choose. }
      intros [[lt idx] cands]. apply spec_pre.
      intros [ss w] [[(Hok & Hu & Hd) Hsolved] Hbest]. cbn [fst snd] in *.
      cbn zeta in Hbest.
      destruct (choose_spec (branch_lines (rows (w_heap w) cur) H W rc cc)
                  (Best EmptyString (-1) [] (10 ^ 9)))
        as [[Hb _]|(k & ty & idx' & cs & Hk & Hb & _)];
        rewrite Hb in Hbest; injection Hbest as -> -> ->.
      { by apply spec_ret; intros ? ->. }
      destruct cs as [|c0 cs]; [by apply spec_ret; intros ? ->|].
      apply list_elem_of_lookup_2 in Hk.
      eapply spec_conseq.
      + apply (dfs_branches_ok fuel depth cur (rows (w_heap w) cur)
                 (ty, idx', c0 :: cs) Hk); [lia|lia|exact IH|].
        by apply Forall_forall.
      + intros s ->. done.
      + done.
      + done.
  Qed.
End dfs_ok.

Lemma search_run_ok (H W : nat) rc cc stop cb max_solutions fuel g w :
  clues_ok H rc → clues_ok W cc → grid_ok (w_heap w) g H W →
  (H * W < fuel)%nat →
  ∃ o ss w',
    search_run fuel g rc cc stop cb max_solutions (Z.of_nat W) w = (o, (ss, w')) ∧
    (o = Ret () ∨ o = Abort Cancelled) ∧
    max_depth (stats ss) ≤ Z.of_nat (H * W).
Proof.
  intros Hrc Hcc Hok Hfuel. unfold search_run, hbind.
  destruct (copy_grid_ok _ g H W Hok) as (start & h1 & Hcopy & Hok1 & Hrows1).
  unfold on_world at 1, on_heap at 1, zoom. cbn [fst snd]. rewrite Hcopy.
  cbn [fst snd].
  set (s1 := (Search [] (Stats 0 0 0 0), World h1 (w_polls w) (w_progress w))).
  destruct (grid_rows_shape Hok1) as [HH Hshape].
  assert (Hu : (unknowns (rows h1 start) ≤ H * W)%nat).
  { apply unknowns_le; [done|]. eapply Forall_impl; [done|]. by intros ? [? _]. }
  pose proof (dfs_ok H W rc cc stop cb max_solutions (Z.of_nat (H * W)) Hrc Hcc
                fuel start 0 (H * W)%nat Hfuel ltac:(lia) ltac:(lia) s1) as Hdfs.
  destruct (dfs fuel rc cc stop cb max_solutions (Z.of_nat W) start 0 s1)
    as [[[]|e] [ss w']].
  - exists (Ret ()), ss, w'. split; [done|]. split; [by left|].
    apply Hdfs. split; [done|]. split; [done|]. simpl. lia.
  - destruct Hdfs as [-> Hd].
    { split; [done|]. split; [done|]. simpl. lia. }
    exists (Abort Cancelled), ss, w'. split; [done|]. split; [by right|done].
Qed.

(** C7. On a well-formed grid with well-formed clues: every grid the search
    branches to, made from a candidate of the line the selector chose, has
    strictly fewer unknown cells than the grid it was made from; and with a
    step bound above the number of cells the solve returns a result, never
    running out of steps, with a recorded maximum depth of at most the
    number of cells. *)
Theorem search_terminates (h : heap) (g : grid) (H W : nat)
    (rc cc : list (list Z)) (stop : option (nat → bool)) (cb : bool)
    (max_solutions : Z) (fuel polls : nat) (log : list (string * SolveStats)) :
  grid_ok h g H W → clues_ok H rc → clues_ok W cc →
  (∀ line_type index cands cand,
     _best_branch_line g rc cc h = (Ret (line_type, index, cands), h) →
     cand ∈ cands →
     ∃ new h',
       branch_grid (Z.of_nat W) g line_type index cand h = (Ret new, h') ∧
       grid_ok h' new H W ∧
       (unknowns (rows h' new) < unknowns (rows h g))%nat) ∧
  ((H * W < fuel)%nat →
   ∃ res w',
     solve_nonogram fuel g rc cc stop cb max_solutions (World h polls log)
       = (Ret res, w') ∧
     max_depth (result_stats res) ≤ Z.of_nat (H * W)).
Proof.
  intros Hok Hrc Hcc. split.
  - intros lt idx cands cand Hbest Hcand.
    rewrite (best_branch_line_choose Hok rc cc Hrc Hcc) in Hbest.
    cbn zeta in Hbest.
    destruct (choose_spec (branch_lines (rows h g) H W rc cc)
                (Best EmptyString (-1) [] (10 ^ 9)))
      as [[Hb _]|(k & ty & idx' & cs & Hk & Hb & _)];
      rewrite Hb in Hbest; injection Hbest as <- <- <-.
    { by apply elem_of_nil in Hcand. }
    apply list_elem_of_lookup_2 in Hk.
    apply (branch_grid_ok rc cc Hok Hrc Hcc (ty, idx', cs) cand Hk Hcand).
  - intros Hfuel. unfold solve_nonogram. unfold hbind at 1.
    rewrite on_heap_reads by apply grid_width_reads. cbn [w_heap].
    rewrite (grid_width_ok Hok). cbn [fst].
    destruct (search_run_ok H W rc cc stop cb max_solutions fuel g
                (World h polls log) Hrc Hcc Hok Hfuel)
      as (o & ss & w' & -> & [-> | ->] & Hd).
    + destruct (solutions ss) as [|s1 sols]; [by eexists _, _|].
      destruct (decide _); by eexists _, _.
    + by eexists _, _.
Qed.

Lemma search_terminates_witness :
  let '(h, g) := load [[-1; -1]; [-1; -1]] in
  ∃ res w',
    solve_nonogram 5 g [[1]; [1]] [[1]; [1]] None false 2 (World h 0 [])
      = (Ret res, w') ∧
    max_depth (result_stats res) ≤ Z.of_nat (2 * 2).
Proof.
  refine (proj2 (search_terminates _ _ 2 2 [[1]; [1]] [[1]; [1]] None false 2 5 0 []
                   _ _ _) _).
  - apply (load_ok [[-1; -1]; [-1; -1]] 2); [done|].
    repeat constructor; by vm_compute; auto.
  - split; [done|]. repeat constructor.
  - split; [done|]. repeat constructor.
  - lia.
Defined.

(** * The generator misses nothing and repeats nothing *)

(** A line read from the middle of a run of [c] cells. *)
Lemma runs_from_split c s b rest :
  0 < c → runs_from c s = b :: rest →
  ∃ (m : nat) s', s = replicate m FILLED ++ s' ∧ b = c + Z.of_nat m ∧
    runs s' = rest ∧ (s' = [] ∨ ∃ x s'', s' = x :: s'' ∧ x ≠ FILLED).
Proof.
  revert c. induction s as [|x s IH]; intros c Hc Hr.
  - cbn [runs_from] in Hr. rewrite decide_True in Hr by done.
    injection Hr as <- <-. exists 0%nat, []. split_and!; [done|lia|done|by left].
  - cbn [runs_from] in Hr. destruct (decide (x = FILLED)) as [->|Hx].
    + apply IH in Hr as (m & s' & -> & -> & Hs' & Hsep); [|lia].
      exists (S m), s'. split_and!; [done|lia|done|done].
    + rewrite decide_True in Hr by done. injection Hr as <- <-.
      exists 0%nat, (x :: s). split_and!; [done|lia| |right; eauto].
      unfold runs. cbn [runs_from]. rewrite decide_False by done.
      by rewrite decide_False by lia.
Qed.

(** A line over [EMPTY] and [FILLED] whose first run has [b] cells. *)
Lemma runs_split s b rest :
  Forall (λ v, v = EMPTY ∨ v = FILLED) s → runs s = b :: rest →
  ∃ (k : nat) s', s = replicate k EMPTY ++ replicate (Z.to_nat b) FILLED ++ s' ∧
    0 < b ∧ runs s' = rest ∧ (s' = [] ∨ ∃ s'', s' = EMPTY :: s'').
Proof.
  unfold runs. induction 1 as [|x s Hx Hs IH]; intros Hr.
  - cbn [runs_from] in Hr. by rewrite decide_False in Hr by lia.
  - cbn [runs_from] in Hr. destruct (decide (x = FILLED)) as [->|Hne].
    + apply runs_from_split in Hr as (m & s' & -> & -> & Hs' & Hsep); [|lia].
      exists 0%nat, s'. split_and!; [|lia|done|].
      * cbn [replicate app]. replace (Z.to_nat (0 + 1 + Z.of_nat m)) with (S m) by lia.
        done.
      * destruct Hsep as [->|(x & s'' & -> & Hxne)]; [by left|right].
        apply Forall_app in Hs as [_ Hs]. apply Forall_cons in Hs as [[->| ->] _];
          [eauto|done].
    + rewrite decide_False in Hr by lia.
      destruct Hx as [->|?]; [|done].
      apply IH in Hr as (k & s' & -> & Hb & Hs' & Hsep).
      exists (S k), s'. by split_and!.
Qed.

(** A line without a run has no [FILLED] cell. *)
Lemma runs_nil s :
  Forall (λ v, v = EMPTY ∨ v = FILLED) s → runs s = [] →
  s = replicate (length s) EMPTY.
Proof.
  unfold runs. induction 1 as [|x s Hx Hs IH]; intros Hr; [done|].
  cbn [runs_from] in Hr. destruct (decide (x = FILLED)) as [->|Hne].
  - exfalso. clear IH Hx. assert (Hc : 0 < 0 + 1) by lia.
    revert Hc Hr. generalize (0 + 1). clear Hs.
    induction s as [|y s IH]; intros c Hc Hr; cbn [runs_from] in Hr.
    + by rewrite decide_True in Hr.
    + destruct (decide (y = FILLED)).
      * apply IH in Hr; [done|lia].
      * by rewrite decide_True in Hr.
  - rewrite decide_False in Hr by lia. destruct Hx as [->|?]; [|done].
    cbn [length replicate]. f_equal. by apply IH.
Qed.

(** The runs of a line and the separators between them take no more room
    than the line has, with one cell to spare. *)
Lemma runs_from_room c s :
  0 ≤ c →
  sum (runs_from c s) + len (runs_from c s) ≤ c + len s + 1.
Proof.
  revert c. induction s as [|x s IH]; intros c Hc; cbn [runs_from].
  - destruct (decide (0 < c)); unfold len; simpl; lia.
  - assert (Hl : len (x :: s) = len s + 1) by (unfold len; simpl; lia).
    destruct (decide (x = FILLED)).
    + specialize (IH (c + 1)). lia.
    + destruct (decide (0 < c)).
      * specialize (IH 0). unfold len in *. simpl in *. lia.
      * specialize (IH 0). lia.
Qed.

Lemma fits_app_inv ls off s1 s2 :
  fits ls off (s1 ++ s2) → fits ls off s1 ∧ fits ls (off + length s1) s2.
Proof.
  intros Hf. split; intros i x Hi.
  - apply (Hf i x). by apply lookup_app_l_Some.
  - specialize (Hf (length s1 + i)%nat x).
    rewrite lookup_app_r in Hf by lia.
    replace (length s1 + i - length s1)%nat with i in Hf by lia.
    replace (off + length s1 + i)%nat with (off + (length s1 + i))%nat by lia.
    by apply Hf.
Qed.

Lemma fits_empties_inv ls a b :
  0 ≤ a → fits ls (Z.to_nat a) (replicate (Z.to_nat (b - a)) EMPTY) →
  clear FILLED ls a b = true.
Proof.
  intros Ha Hf. apply clear_spec. intros i Hi.
  destruct (Hf (Z.to_nat (i - a)) EMPTY) as [[_ Hne]|[? _]]; [|  |done].
  - apply lookup_replicate. split; [done|lia].
  - by replace (Z.to_nat a + Z.to_nat (i - a))%nat with (Z.to_nat i) in Hne by lia.
Qed.

Lemma fits_filled_inv ls a b :
  0 ≤ a → fits ls (Z.to_nat a) (replicate (Z.to_nat (b - a)) FILLED) →
  clear EMPTY ls a b = true.
Proof.
  intros Ha Hf. apply clear_spec. intros i Hi.
  destruct (Hf (Z.to_nat (i - a)) FILLED) as [[? _]|[_ Hne]]; [|done|].
  - apply lookup_replicate. split; [done|lia].
  - by replace (Z.to_nat a + Z.to_nat (i - a))%nat with (Z.to_nat i) in Hne by lia.
Qed.

Section fills_complete.
Variables (L : Z) (ls : list Z).

  (** Every filling of the cells from [pos] on that has the blocks as its
      runs and fits the line state is enumerated. *)
Lemma fills_complete bs :
    Forall (λ b, 0 < b) bs →
    ∀ pos s, 0 ≤ pos ≤ L → length s = Z.to_nat (L - pos) → runs s = bs →
      fits ls (Z.to_nat pos) s → s ∈ fills L ls bs pos.
  Proof.
    induction 1 as [|b rest Hb Hrest IH]; intros pos s Hpos Hlen Hruns Hfits.
    - cbn [fills]. pose proof (fits_cells _ _ _ Hfits) as Hcells.
      rewrite (runs_nil s Hcells Hruns) in Hfits |- *. rewrite Hlen in Hfits |- *.
      rewrite (fits_empties_inv ls pos L) by (done || lia).
      apply list_elem_of_singleton. done.
    - pose proof (fits_cells _ _ _ Hfits) as Hcells.
      destruct (runs_split s b rest Hcells Hruns) as (k & s' & -> & _ & Hs' & Hsep).
      rewrite !length_app, !length_replicate in Hlen.
      apply fits_app_inv in Hfits as [Hf1 Hf2]. rewrite length_replicate in Hf2.
      apply fits_app_inv in Hf2 as [Hf2 Hf3]. rewrite length_replicate in Hf3.
      set (start := pos + Z.of_nat k).
      assert (Hk : k = Z.to_nat (start - pos)) by (unfold start; lia).
      assert (Hc1 : clear FILLED ls pos start = true).
      { apply fits_empties_inv; [lia|]. by rewrite <- Hk. }
      assert (Hc2 : clear EMPTY ls start (start + b) = true).
      { apply fits_filled_inv; [unfold start; lia|].
        replace (Z.to_nat start) with (Z.to_nat pos + k)%nat by (unfold start; lia).
        by replace (start + b - start) with b by lia. }
      pose proof (runs_from_room 0 s' ltac:(lia)) as Hroom.
      fold (runs s') in Hroom. rewrite Hs' in Hroom.
      pose proof (sum_nonneg _ Hrest) as Hsum. pose proof (len_nonneg rest) as Hlr.
      assert (Hls' : len s' = L - (start + b)) by (unfold len, start; lia).
      cbn [fills]. apply list_elem_of_join.
      exists (fills_at L ls b rest (fills L ls rest) pos start).
      assert (Hmax : start ≤ L - (b + (sum rest + len rest))).
      { destruct Hsep as [->|(s'' & ->)].
        - unfold runs in Hs'. cbn [runs_from] in Hs'.
          rewrite decide_False in Hs' by lia. subst rest.
          unfold len in *. simpl in *. lia.
        - destruct rest as [|r rest'].
          + unfold len in *. simpl in *. lia.
          + unfold runs in Hs'. cbn [runs_from] in Hs'.
            rewrite decide_False in Hs' by done.
            rewrite decide_False in Hs' by lia.
            pose proof (runs_from_room 0 s'' ltac:(lia)) as Hroom'.
            rewrite Hs' in Hroom'. unfold len in *. simpl in *. lia. }
      split; [|apply list_elem_of_fmap; exists start; split; [done|];
               apply elem_of_range; unfold start; lia].
      unfold fills_at. rewrite Hc1, Hc2. cbn [andb].
      destruct rest as [|r rest'].
      + apply list_elem_of_fmap. exists s'. split; [by rewrite <- Hk|].
        apply IH; [unfold start; lia|unfold len in Hls'; lia|done|].
        by replace (Z.to_nat (start + b)) with (Z.to_nat pos + k + Z.to_nat b)%nat
          by (unfold start; lia).
      + destruct Hsep as [->|(s'' & ->)]; [done|].
        assert (Hf4 : fits ls (Z.to_nat (start + b)) (EMPTY :: s'')).
        { by replace (Z.to_nat (start + b)) with (Z.to_nat pos + k + Z.to_nat b)%nat
            by (unfold start; lia). }
        apply (fits_app_inv _ _ [EMPTY] s'') in Hf4 as [Hf4 Hf5].
        assert (Hc3 : clear FILLED ls (start + b) (start + b + 1) = true).
        { apply fits_empties_inv; [unfold start; lia|].
          by replace (start + b + 1 - (start + b)) with 1 by lia. }
        rewrite Hc3. apply list_elem_of_fmap. exists s''. split; [by rewrite <- Hk|].
        unfold len in Hls'. cbn [length] in Hls', Hf5.
        apply IH; [unfold start in *; lia|lia| |].
        * unfold runs in Hs' |- *. cbn [runs_from] in Hs'.
          rewrite decide_False in Hs' by done. by rewrite decide_False in Hs' by lia.
        * by replace (Z.to_nat (start + b + 1))
            with (Z.to_nat (start + b) + 1)%nat by (unfold start; lia).
  Qed.
End fills_complete.

(** A line agreeing with the decided cells of the line state fits it. *)
Lemma consistent_fits ls c :
  length c = length ls → Forall (λ v, v = EMPTY ∨ v = FILLED) c →
  consistent ls c → fits ls 0 c.
Proof.
  intros Hlen Hcells Hcons i x Hx. cbn [Nat.add].
  rewrite Forall_lookup in Hcells. destruct (Hcons i) as [HF HE].
  destruct (Hcells i x Hx) as [-> | ->].
  - left. split; [done|]. intros Hls. apply HF in Hls. rewrite Hx in Hls. done.
  - right. split; [done|]. intros Hls. apply HE in Hls. rewrite Hx in Hls. done.
Qed.

(** The candidates of a line, as a set. *)
Lemma line_cands_elem (L : nat) blocks state c :
  length state = L → Forall (λ b, 0 < b) blocks →
  c ∈ line_cands (Z.of_nat L) blocks state ↔
  length c = L ∧ runs c = blocks ∧ fits state 0 c.
Proof.
  intros HL Hpos. unfold line_cands.
  rewrite line_candidates_fills by (done || (unfold len; lia)). split.
  - intros Hc. apply fills_sound in Hc as (Hlen & Hruns & Hfits); [|done|lia].
    split_and!; [lia|done|done].
  - intros (Hlen & Hruns & Hfits). apply fills_complete; [done|lia|lia|done|done].
Qed.

(** ** No filling is enumerated twice *)

Lemma NoDup_join_fmap {X Y} (f : X → list Y) (key : Y → X) xs :
  NoDup xs → (∀ x, x ∈ xs → NoDup (f x)) →
  (∀ x y, x ∈ xs → y ∈ f x → key y = x) →
  NoDup (mjoin (f <$> xs)).
Proof.
  intros Hxs Hf Hkey.
  induction Hxs as [|x xs Hx Hxs IH]; [constructor|].
  cbn [fmap list_fmap mjoin list_join]. apply NoDup_app. split_and!.
  - apply Hf. left.
  - intros y Hy Hy'. apply list_elem_of_join in Hy' as (l & Hl & Hl').
    apply list_elem_of_fmap in Hl' as (x' & -> & Hx').
    assert (key y = x) by (apply Hkey; [left|done]).
    assert (key y = x') by (apply Hkey; [by right|done]).
    congruence.
  - apply IH; [intros; apply Hf; by right|intros; apply Hkey; [by right|done]].
Qed.

Lemma list_find_filled (k : nat) b t :
  0 < b →
  list_find (λ v, v = FILLED)
    (replicate k EMPTY ++ replicate (Z.to_nat b) FILLED ++ t)
  = Some (k, FILLED).
Proof.
  intros Hb. apply list_find_Some. split_and!.
  - rewrite lookup_app_r by (rewrite length_replicate; lia).
    rewrite length_replicate, Nat.sub_diag.
    destruct (Z.to_nat b) as [|m] eqn:Hm; [lia|done].
  - done.
  - intros j y Hj Hlt. rewrite lookup_app_l in Hj by (rewrite length_replicate; lia).
    apply lookup_replicate in Hj as [-> _]. done.
Qed.

Section fills_distinct.
Variables (L : Z) (ls : list Z).

Lemma fills_NoDup bs :
    Forall (λ b, 0 < b) bs → ∀ pos, NoDup (fills L ls bs pos).
  Proof.
    induction 1 as [|b rest Hb Hrest IH]; intros pos.
    - cbn [fills]. destruct (clear FILLED ls pos L); [|constructor].
      apply NoDup_singleton.
    - cbn [fills].
      apply (NoDup_join_fmap _
        (λ y, pos + Z.of_nat (default 0%nat (fst <$> list_find (λ v, v = FILLED) y)))).
      + apply NoDup_seqZ.
      + intros start _. unfold fills_at.
        destruct (clear FILLED ls pos start && clear EMPTY ls start (start + b));
          [|constructor].
        destruct rest as [|r rest'].
        * apply NoDup_fmap_2_strong; [|apply IH].
          intros s1 s2 _ _ Heq. by do 2 apply app_inv_head in Heq.
        * destruct (clear FILLED ls (start + b) (start + b + 1)); [|constructor].
          apply NoDup_fmap_2_strong; [|apply IH].
          intros s1 s2 _ _ Heq. do 2 apply app_inv_head in Heq. by injection Heq.
      + intros start y Hstart Hy. apply elem_of_range in Hstart.
        unfold fills_at in Hy.
        destruct (clear FILLED ls pos start && clear EMPTY ls start (start + b));
          [|by apply elem_of_nil in Hy].
        destruct rest as [|r rest'].
        * apply list_elem_of_fmap in Hy as (s & -> & _).
          rewrite list_find_filled by done. simpl. lia.
        * destruct (clear FILLED ls (start + b) (start + b + 1));
            [|by apply elem_of_nil in Hy].
          apply list_elem_of_fmap in Hy as (s & -> & _).
          rewrite list_find_filled by done. simpl. lia.
  Qed.
End fills_distinct.

Lemma line_cands_NoDup (L : Z) blocks state :
  Forall (λ b, 0 < b) blocks → len state = L →
  NoDup (line_cands L blocks state).
Proof.
  intros Hpos HL. unfold line_cands.
  rewrite line_candidates_fills by done. by apply fills_NoDup.
Qed.

(** * The reducer, exactly *)

Lemma intersect_exact (n : nat) cands :
  cands ≠ [] → Forall (λ c, length c = n) cands →
  ∃ inter, _intersect_candidates cands = Ret inter ∧ length inter = n ∧
    ∀ (i : nat) x, inter !! i = Some x →
      (∀ c, c ∈ cands → c !! i = Some x) ∨
      (x = UNKNOWN ∧ ∃ c c', c ∈ cands ∧ c' ∈ cands ∧ c !! i ≠ c' !! i).
Proof.
  intros Hne Hlen. destruct cands as [|c0 rest]; [done|].
  apply Forall_cons in Hlen as [Hc0 Hrest]. unfold _intersect_candidates.
  edestruct (map_each_spec
    (λ i, let? v := getitem c0 i in
          let? same := all_same rest i v in
          Ret (if same then v else UNKNOWN))
    (λ i x, (∀ c, c ∈ c0 :: rest → c !! Z.to_nat i = Some x) ∨
            (x = UNKNOWN ∧ ∃ c c', c ∈ c0 :: rest ∧ c' ∈ c0 :: rest ∧
                                   c !! Z.to_nat i ≠ c' !! Z.to_nat i))
    (range 0 (len c0))) as (inter & Hinter & HP).
  { intros i Hi. apply elem_of_range in Hi.
    destruct (Z_of_nat_complete i) as [k ->]; [lia|].
    destruct (lookup_lt_is_Some_2 c0 k) as [v Hv].
    { unfold len in Hi. lia. }
    rewrite (getitem_Ret _ _ v) by done. cbn [obind].
    rewrite all_same_spec.
    - cbn [obind]. eexists; split; [done|]. rewrite Nat2Z.id.
      case_bool_decide as Hall.
      + left. intros c [->|Hc]%elem_of_cons; [done|].
        rewrite Forall_forall in Hall. by apply Hall.
      + right. split; [done|]. apply not_Forall_Exists in Hall; [|apply _].
        apply Exists_exists in Hall as (c & Hc & Hcv).
        exists c0, c. split_and!; [left|by right|]. by rewrite Hv.
    - eapply Forall_impl; [done|]. intros c Hc. simpl in Hc.
      unfold len in Hi. lia. }
  exists inter. split; [done|]. unfold len in HP.
  apply Forall2_range in HP as [Hl HP]. split; [lia|].
  intros i x Hx. specialize (HP i x Hx). by rewrite Nat2Z.id in HP.
Qed.

(** * Properties of the generator and of the reducer *)

(** X1. The generator misses no filling: for a line state of length [L] and
    positive blocks, every line of [L] cells over [EMPTY] and [FILLED]
    whose runs of [FILLED] cells are the blocks, in order, and which agrees
    with the decided cells of the line state is one of the candidates
    returned. *)
Theorem candidates_complete (L : Z) (blocks line_state c : list Z) :
  len line_state = L → Forall (λ b, 0 < b) blocks →
  length c = length line_state → Forall (λ v, v = EMPTY ∨ v = FILLED) c →
  runs c = blocks → consistent line_state c →
  ∃ cands, _line_candidates L blocks line_state = Ret cands ∧ c ∈ cands.
Proof.
  intros HL Hpos Hlen Hcells Hruns Hcons.
  exists (fills L line_state blocks 0). split.
  - by apply line_candidates_fills.
  - apply fills_complete; [done|unfold len in HL; lia|unfold len in HL; lia|done|].
    by apply consistent_fits.
Qed.

Lemma candidates_complete_witness :
  ∃ cands, _line_candidates 5 [2; 1] [-1; 1; -1; -1; 0] = Ret cands ∧
           [1; 1; 0; 1; 0] ∈ cands.
Proof.
  refine (candidates_complete 5 [2; 1] [-1; 1; -1; -1; 0] [1; 1; 0; 1; 0]
            _ _ _ _ _ _).
  - reflexivity.
  - repeat constructor.
  - reflexivity.
  - repeat constructor; (by left) || (by right).
  - reflexivity.
  - intros [|[|[|[|[|i]]]]]; split; intros Hi; try discriminate Hi; reflexivity.
Defined.

(** X2. The generator returns no filling twice: the candidates of a line
    are pairwise distinct, so their number is the number of ways to fill
    the line. *)
Theorem candidates_distinct (L : Z) (blocks line_state : list Z) :
  len line_state = L → Forall (λ b, 0 < b) blocks →
  ∃ cands, _line_candidates L blocks line_state = Ret cands ∧ NoDup cands.
Proof.
  intros HL Hpos. exists (fills L line_state blocks 0). split.
  - by apply line_candidates_fills.
  - by apply fills_NoDup.
Qed.

Lemma candidates_distinct_witness :
  ∃ cands, _line_candidates 5 [1; 1] [-1; -1; -1; -1; -1] = Ret cands ∧
           NoDup cands.
Proof.
  refine (candidates_distinct 5 [1; 1] [-1; -1; -1; -1; -1] _ _).
  - reflexivity.
  - repeat constructor.
Defined.

(** X3. The reducer of a non-empty set of candidates of equal length [n]
    returns a line of [n] cells; a cell holds the value all candidates
    share at that position, and [UNKNOWN] exactly where two candidates
    differ.  For no candidate at all it returns the empty list. *)
Theorem intersection_exact (n : nat) (cands : list (list Z)) :
  Forall (λ c, length c = n) cands →
  match cands with
  | [] => _intersect_candidates cands = Ret []
  | _ :: _ =>
      ∃ inter, _intersect_candidates cands = Ret inter ∧ length inter = n ∧
        ∀ (i : nat) x, inter !! i = Some x →
          (∀ c, c ∈ cands → c !! i = Some x) ∨
          (x = UNKNOWN ∧ ∃ c c', c ∈ cands ∧ c' ∈ cands ∧ c !! i ≠ c' !! i)
  end.
Proof.
  intros Hlen. destruct cands as [|c0 rest]; [done|].
  by apply intersect_exact.
Qed.

Lemma intersection_exact_witness :
  ∃ inter, _intersect_candidates [[1; 1; 0]; [0; 1; 1]] = Ret inter ∧
    length inter = 3%nat ∧
    ∀ (i : nat) x, inter !! i = Some x →
      (∀ c, c ∈ [[1; 1; 0]; [0; 1; 1]] → c !! i = Some x) ∨
      (x = UNKNOWN ∧ ∃ c c', c ∈ [[1; 1; 0]; [0; 1; 1]] ∧
                              c' ∈ [[1; 1; 0]; [0; 1; 1]] ∧ c !! i ≠ c' !! i).
Proof.
  refine (intersection_exact 3 [[1; 1; 0]; [0; 1; 1]] _).
  repeat constructor.
Defined.

(** * The puzzle record *)

Section model.
  Import Model.

  (** The shape [_validate] asks for. *)
Lemma validate_rows_spec (w : Z) (g : list (list Z)) :
    (fix rows (g : list (list Z)) : checked unit :=
       match g with
       | [] => Valid ()
       | row :: g' =>
           if decide (len row ≠ w) then ValueError "grid width mismatch"
           else if bool_decide
                     (Forall (λ v, v = UNKNOWN ∨ v = EMPTY ∨ v = FILLED) row)
           then rows g'
           else ValueError "grid contains invalid value"
       end) g = Valid () ↔
    Forall (λ row, len row = w ∧ Forall cell_ok row) g.
  Proof.
    induction g as [|row g IH].
    - split; [constructor|done].
    - rewrite Forall_cons. destruct (decide (len row ≠ w)) as [Hne|Heq].
      { split; [done|]. by intros [[? _] _]. }
      apply dec_stable in Heq. case_bool_decide as Hcells.
      + rewrite IH. unfold cell_ok. naive_solver.
      + split; [done|]. intros [[_ ?] _]. done.
  Qed.

Lemma validate_spec (p : Puzzle) :
    _validate p = Valid () ↔
    len (row_clues p) = height p ∧ len (col_clues p) = width p ∧
    len (grid p) = height p ∧
    Forall (λ row, len row = width p ∧ Forall cell_ok row) (grid p).
  Proof.
    unfold _validate.
    destruct (decide (len (row_clues p) ≠ height p)); [naive_solver|].
    destruct (decide (len (col_clues p) ≠ width p)); [naive_solver|].
    destruct (decide (len (grid p) ≠ height p)); [naive_solver|].
    rewrite validate_rows_spec. split; [|naive_solver].
    intros ?. split_and!; try done; by apply dec_stable.
  Qed.

Lemma validate_cases (p : Puzzle) :
    _validate p = Valid () ∨ ∃ msg, _validate p = ValueError msg.
  Proof. destruct (_validate p) as [[]|msg]; eauto. Qed.

  (** What a constructed puzzle looks like. *)
Lemma post_init_spec (p p' : Puzzle) :
    __post_init__ p = Valid p' →
    0 < width p' ∧ 0 < height p' ∧ _validate p' = Valid () ∧
    width p' = width p ∧ height p' = height p ∧
    row_clues p' = (match row_clues p with
                    | [] => replicate (Z.to_nat (height p)) []
                    | _ => row_clues p
                    end) ∧
    col_clues p' = (match col_clues p with
                    | [] => replicate (Z.to_nat (width p)) []
                    | _ => col_clues p
                    end) ∧
    grid p' = (match grid p with
               | [] => replicate (Z.to_nat (height p))
                         (replicate (Z.to_nat (width p)) UNKNOWN)
               | _ => grid p
               end).
  Proof.
    unfold __post_init__.
    destruct (decide (width p ≤ 0 ∨ height p ≤ 0)) as [|Hpos]; [done|].
    match goal with |- context [_validate ?q] => set (p0 := q) end.
    destruct (_validate p0) as [[]|msg] eqn:Hv; [|done].
    intros [= <-]. split_and!; try done; cbn; lia.
  Qed.

Lemma nonempty_of_len {A} (l : list A) n :
    len l = n → 0 < n → match l with [] => False | _ => True end.
  Proof. destruct l; [unfold len; simpl; lia|done]. Qed.

Lemma post_init_fixed (p : Puzzle) :
    0 < width p → 0 < height p → _validate p = Valid () →
    __post_init__ p = Valid p.
  Proof.
    intros Hw Hh Hv. pose proof Hv as Hv'.
    apply validate_spec in Hv' as (Hrc & Hcc & Hg & _).
    unfold __post_init__. rewrite decide_False by lia.
    destruct p as [w h rc cc g]. cbn in *.
    destruct rc as [|r0 rc]; [unfold len in Hrc; simpl in Hrc; lia|].
    destruct cc as [|c0 cc]; [unfold len in Hcc; simpl in Hcc; lia|].
    destruct g as [|g0 g]; [unfold len in Hg; simpl in Hg; lia|].
    by rewrite Hv.
  Qed.

Lemma normalize_spec (clues : list (list Z)) :
    _normalize_clues clues =
    if bool_decide (Forall (Forall (λ n, ¬ n ≤ 0)) clues) then Valid clues
    else ValueError "clue values must be positive integers".
  Proof.
    induction clues as [|ln clues IH]; [done|].
    cbn [_normalize_clues]. rewrite IH.
    destruct (decide (Forall (λ n, ¬ n ≤ 0) ln)) as [Hln|Hln];
      destruct (decide (Forall (Forall (λ n, ¬ n ≤ 0)) clues)) as [Hrest|Hrest].
    - rewrite !bool_decide_eq_true_2 by (done || by constructor). done.
    - rewrite (bool_decide_eq_true_2 _ Hln), (bool_decide_eq_false_2 _ Hrest).
      rewrite bool_decide_eq_false_2; [done|]. by intros [_ ?]%Forall_cons.
    - rewrite (bool_decide_eq_false_2 _ Hln).
      rewrite bool_decide_eq_false_2; [done|]. by intros [? _]%Forall_cons.
    - rewrite (bool_decide_eq_false_2 _ Hln).
      rewrite bool_decide_eq_false_2; [done|]. by intros [? _]%Forall_cons.
  Qed.

Lemma blank_valid (w h : Z) :
    0 < w → 0 < h →
    _validate (MkPuzzle w h (replicate (Z.to_nat h) []) (replicate (Z.to_nat w) [])
                 (replicate (Z.to_nat h) (replicate (Z.to_nat w) UNKNOWN)))
    = Valid ().
  Proof.
    intros Hw Hh. apply validate_spec. cbn.
    rewrite !len_replicate. split_and!; try lia.
    apply Forall_replicate. rewrite len_replicate. split; [lia|].
    apply Forall_replicate. by left.
  Qed.

  (** A validated grid, loaded for the engine. *)
Lemma validated_grid_ok (p : Puzzle) :
    0 < width p → 0 < height p → _validate p = Valid () →
    grid_ok (load (grid p)).1 (load (grid p)).2
      (Z.to_nat (height p)) (Z.to_nat (width p)) ∧
    length (row_clues p) = Z.to_nat (height p) ∧
    length (col_clues p) = Z.to_nat (width p).
  Proof.
    intros Hw Hh (Hrc & Hcc & Hg & Hrows)%validate_spec. unfold len in *.
    split_and!; [|lia|lia].
    replace (Z.to_nat (height p)) with (length (grid p)) by lia.
    apply load_ok.
    - destruct (grid p); [simpl in Hg; lia|done].
    - eapply Forall_impl; [done|]. intros row [Hl ?]. cbn in *. split; [lia|done].
  Qed.
End model.

(** * Properties of the puzzle record *)

(** X4. Every puzzle the constructor returns has positive sizes, one clue
    per row and per column, and a grid of [height] rows of [width] cells
    each holding one of the three cell values. *)
Theorem constructed_puzzle_shape (p p' : Model.Puzzle) :
  Model.__post_init__ p = Model.Valid p' →
  0 < Model.width p' ∧ 0 < Model.height p' ∧
  len (Model.row_clues p') = Model.height p' ∧
  len (Model.col_clues p') = Model.width p' ∧
  len (Model.grid p') = Model.height p' ∧
  Forall (λ row, len row = Model.width p' ∧ Forall cell_ok row) (Model.grid p').
Proof.
  intros (Hw & Hh & Hv & _)%post_init_spec.
  apply validate_spec in Hv as (? & ? & ? & ?). done.
Qed.

Lemma constructed_puzzle_shape_witness :
  let p' := Model.MkPuzzle 3 2 [[1]; [2]] [[]; []; []]
              [[-1; -1; -1]; [-1; -1; -1]] in
  0 < Model.width p' ∧ 0 < Model.height p' ∧
  len (Model.row_clues p') = Model.height p' ∧
  len (Model.col_clues p') = Model.width p' ∧
  len (Model.grid p') = Model.height p' ∧
  Forall (λ row, len row = Model.width p' ∧ Forall cell_ok row) (Model.grid p').
Proof.
  refine (constructed_puzzle_shape (Model.MkPuzzle 3 2 [[1]; [2]] [] []) _ _).
  reflexivity.
Defined.

(** X5. Building a puzzle again from the fields of a constructed puzzle
    changes nothing: the constructor accepts them and fills in no default. *)
Theorem constructor_idempotent (p p' : Model.Puzzle) :
  Model.__post_init__ p = Model.Valid p' →
  Model.__post_init__ p' = Model.Valid p'.
Proof.
  intros (Hw & Hh & Hv & _)%post_init_spec. by apply post_init_fixed.
Qed.

Lemma constructor_idempotent_witness :
  let p' := Model.MkPuzzle 3 2 [[1]; [2]] [[]; []; []]
              [[-1; -1; -1]; [-1; -1; -1]] in
  Model.__post_init__ p' = Model.Valid p'.
Proof.
  refine (constructor_idempotent (Model.MkPuzzle 3 2 [[1]; [2]] [] []) _ _).
  reflexivity.
Defined.

(** X6. Given sizes only, the constructor raises exactly when a size is not
    positive, and otherwise returns the blank puzzle: an empty clue for
    every line and a grid of [UNKNOWN] cells. *)
Theorem blank_puzzle (w h : Z) :
  Model.__post_init__ (Model.MkPuzzle w h [] [] []) =
  if decide (w ≤ 0 ∨ h ≤ 0)
  then Model.ValueError "width and height must be positive"
  else Model.Valid
         (Model.MkPuzzle w h (replicate (Z.to_nat h) []) (replicate (Z.to_nat w) [])
            (replicate (Z.to_nat h) (replicate (Z.to_nat w) UNKNOWN))).
Proof.
  unfold Model.__post_init__. cbn [Model.width Model.height Model.row_clues
    Model.col_clues Model.grid].
  destruct (decide (w ≤ 0 ∨ h ≤ 0)); [done|].
  rewrite blank_valid by lia. done.
Qed.

Lemma positive_clues_equiv (l : list (list Z)) :
  Forall (Forall (λ n, ¬ n ≤ 0)) l ↔ Forall (Forall (λ b, 0 < b)) l.
Proof.
  split; intros HF; (eapply Forall_impl; [exact HF|]); intros ln Hln;
    (eapply Forall_impl; [exact Hln|]); intros; cbn in *; lia.
Qed.

(** X7. [_normalize_clues] never changes the clues: it returns its argument
    when every clue value is positive, and raises otherwise. *)
Theorem normalize_clues_identity (clues : list (list Z)) :
  Model._normalize_clues clues =
  if bool_decide (Forall (Forall (λ n, 0 < n)) clues) then Model.Valid clues
  else Model.ValueError "clue values must be positive integers".
Proof.
  rewrite normalize_spec. apply (f_equal (λ b : bool, if b then _ else _)).
  apply bool_decide_ext. apply positive_clues_equiv.
Qed.

Lemma parse_clues_spec (rc cc : list (list Z)) :
  Gui._parse_clues rc cc = true ↔
  Forall (Forall (λ b, 0 < b)) rc ∧ Forall (Forall (λ b, 0 < b)) cc.
Proof.
  unfold Gui._parse_clues. rewrite andb_true_iff, !bool_decide_eq_true.
  by rewrite !positive_clues_equiv.
Qed.

(** X8. Saving a constructed puzzle and loading the file again gives the
    same puzzle when the application's clue check passes, that is when
    every clue value is positive; otherwise the load raises, although the
    constructor had accepted the puzzle. *)
Theorem save_load_round_trip (p p' : Model.Puzzle) :
  Model.__post_init__ p = Model.Valid p' →
  Model.load_json (Model.to_dict p') =
  if Gui._parse_clues (Model.row_clues p') (Model.col_clues p')
  then Model.Valid p'
  else Model.ValueError "clue values must be positive integers".
Proof.
  intros Hp. pose proof (Hfixed := post_init_fixed p').
  apply post_init_spec in Hp as (Hw & Hh & Hv & _).
  specialize (Hfixed Hw Hh Hv).
  pose proof Hv as (_ & _ & Hg & _)%validate_spec.
  unfold Model.load_json, Model.to_dict, Gui._parse_clues.
  cbn [Model.j_width Model.j_height Model.j_row_clues Model.j_col_clues
       Model.j_grid default from_option]. unfold id.
  rewrite !normalize_spec.
  destruct (bool_decide (Forall (Forall (λ n, ¬ n ≤ 0)) (Model.row_clues p')));
    [|done].
  destruct (bool_decide (Forall (Forall (λ n, ¬ n ≤ 0)) (Model.col_clues p')));
    [|done].
  cbn [andb]. destruct p' as [w h rc cc g]. cbn in *.
  destruct g as [|g0 g]; [unfold len in Hg; simpl in Hg; lia|done].
Qed.

Lemma save_load_round_trip_witness :
  let p' := Model.MkPuzzle 3 2 [[1]; [2]] [[]; []; []]
              [[-1; -1; -1]; [-1; -1; -1]] in
  Model.load_json (Model.to_dict p') =
  if Gui._parse_clues (Model.row_clues p') (Model.col_clues p')
  then Model.Valid p'
  else Model.ValueError "clue values must be positive integers".
Proof.
  refine (save_load_round_trip (Model.MkPuzzle 3 2 [[1]; [2]] [] []) _ _).
  reflexivity.
Defined.

(** X9. Decoded data in which the keys present hold values of the types
    [to_dict] writes (integers for the sizes, lists of lists of integers
    for the clues and the grid) never loads without a width or without a
    height: the size defaults to 0, and the load raises [ValueError], from
    the clue check when a clue value is not positive and from the
    constructor's size check otherwise.  Data with positive sizes and no
    other key loads as the blank puzzle. *)
Theorem load_json_missing_keys (d : Model.json_data) (w h : Z) :
  (Model.j_width d = None ∨ Model.j_height d = None →
   Model.load_json d =
   if Gui._parse_clues (default [] (Model.j_row_clues d))
        (default [] (Model.j_col_clues d))
   then Model.ValueError "width and height must be positive"
   else Model.ValueError "clue values must be positive integers") ∧
  (0 < w → 0 < h →
   Model.load_json (Model.Json (Some w) (Some h) None None None) =
   Model.Valid
     (Model.MkPuzzle w h (replicate (Z.to_nat h) []) (replicate (Z.to_nat w) [])
        (replicate (Z.to_nat h) (replicate (Z.to_nat w) UNKNOWN)))).
Proof.
  split.
  - intros Hmiss. unfold Model.load_json, Gui._parse_clues.
    rewrite !normalize_spec.
    destruct (bool_decide (Forall (Forall (λ n, ¬ n ≤ 0))
                (default [] (Model.j_row_clues d)))); [|done].
    destruct (bool_decide (Forall (Forall (λ n, ¬ n ≤ 0))
                (default [] (Model.j_col_clues d)))); [|done].
    cbn [andb]. unfold Model.__post_init__. cbn [Model.width Model.height].
    rewrite decide_True; [done|].
    destruct Hmiss as [-> | ->]; cbn; lia.
  - intros Hw Hh. unfold Model.load_json. cbn.
    unfold Model.__post_init__. cbn [Model.width Model.height Model.row_clues
      Model.col_clues Model.grid].
    rewrite decide_False by lia.
    destruct (Z.to_nat h) as [|n] eqn:Hn; [lia|]. rewrite <- Hn.
    replace (match replicate (Z.to_nat h) (replicate (Z.to_nat w) UNKNOWN) with
             | [] => replicate (Z.to_nat h) (replicate (Z.to_nat w) UNKNOWN)
             | _ :: _ => replicate (Z.to_nat h) (replicate (Z.to_nat w) UNKNOWN)
             end)
      with (replicate (Z.to_nat h) (replicate (Z.to_nat w) UNKNOWN))
      by (by destruct (replicate _ _)).
    rewrite blank_valid by lia. done.
Qed.

Lemma load_json_missing_keys_witness :
  Model.load_json (Model.Json None (Some 2) (Some [[1]; [1]]) None None)
  = Model.ValueError "width and height must be positive" ∧
  Model.load_json (Model.Json (Some 3) (Some 2) None None None) =
  Model.Valid
    (Model.MkPuzzle 3 2 (replicate (Z.to_nat 2) []) (replicate (Z.to_nat 3) [])
       (replicate (Z.to_nat 2) (replicate (Z.to_nat 3) UNKNOWN))).
Proof.
  split.
  - refine (proj1 (load_json_missing_keys
                     (Model.Json None (Some 2) (Some [[1]; [1]]) None None) 0 0) _).
    left. reflexivity.
  - refine (proj2 (load_json_missing_keys
                     (Model.Json None None None None None) 3 2) _ _); lia.
Defined.

(** X10. The engine's indexing stays in range on every constructed puzzle
    whose clue values are positive: the sizes, the number of clues and the
    shape of the grid the constructor enforces are those [solve_nonogram]
    indexes by, so it raises no [IndexError].  In this model, which has a
    step bound in place of the interpreter's recursion limit, the solve
    then returns a result once the bound is above the number of cells; in
    the interpreter a clue of about a thousand blocks ends in
    [RecursionError] instead, [place] recursing once per block. *)
Theorem constructed_puzzle_solves (p p' : Model.Puzzle) (fuel : nat)
    (stop : option (nat → bool)) (cb : bool) (max_solutions : Z)
    (polls : nat) (log : list (string * SolveStats)) :
  Model.__post_init__ p = Model.Valid p' →
  Gui._parse_clues (Model.row_clues p') (Model.col_clues p') = true →
  (Z.to_nat (Model.height p') * Z.to_nat (Model.width p') < fuel)%nat →
  ∃ res w',
    solve_nonogram fuel (load (Model.grid p')).2
      (Model.row_clues p') (Model.col_clues p') stop cb max_solutions
      (World (load (Model.grid p')).1 polls log) = (Ret res, w').
Proof.
  intros (Hw & Hh & Hv & _)%post_init_spec [Hrc Hcc]%parse_clues_spec Hfuel.
  destruct (validated_grid_ok p' Hw Hh Hv) as (Hok & Hlr & Hlc).
  unfold solve_nonogram. unfold hbind at 1.
  rewrite on_heap_reads by apply grid_width_reads. cbn [w_heap].
  rewrite (grid_width_ok Hok). cbn [fst].
  destruct (search_run_ok _ _ (Model.row_clues p') (Model.col_clues p') stop cb
              max_solutions fuel _ (World (load (Model.grid p')).1 polls log)
              (conj Hlr Hrc) (conj Hlc Hcc) Hok Hfuel)
    as (o & ss & w' & -> & [-> | ->] & Hd).
  - destruct (solutions ss) as [|s1 sols]; [by eexists _, _|].
    destruct (decide _); by eexists _, _.
  - by eexists _, _.
Qed.

Lemma constructed_puzzle_solves_witness :
  let p' := Model.MkPuzzle 2 2 [[1]; [1]] [[1]; [1]] [[-1; -1]; [-1; -1]] in
  ∃ res w',
    solve_nonogram 5 (load (Model.grid p')).2
      (Model.row_clues p') (Model.col_clues p') None false 2
      (World (load (Model.grid p')).1 0 []) = (Ret res, w').
Proof.
  refine (constructed_puzzle_solves
            (Model.MkPuzzle 2 2 [[1]; [1]] [[1]; [1]] []) _ 5 None false 2 0 []
            _ _ _).
  - reflexivity.
  - reflexivity.
  - vm_compute. lia.
Defined.

(** * Solutions and the grids they contain *)

Lemma refines_antisym G G' : refines G G' → refines G' G → G' = G.
Proof.
  unfold refines. intros H1 H2. revert H2.
  induction H1 as [|row row' G G' Hrow HG IH]; intros H2; [done|].
  apply Forall2_cons in H2 as [Hrow' HG']. f_equal; [|by apply IH].
  clear -Hrow Hrow'. revert Hrow'.
  induction Hrow as [|x y row row' Hxy Hrow IH]; intros Hrow'; [done|].
  apply Forall2_cons in Hrow' as [Hyx Hrow']. f_equal; [|by apply IH].
  destruct (decide (x = UNKNOWN)) as [->|Hx]; [|by apply Hxy].
  destruct (decide (y = UNKNOWN)) as [->|Hy]; [done|]. symmetry. by apply Hyx.
Qed.

Lemma refines_same_unknowns G G' :
  refines G G' → unknowns G' = unknowns G → G' = G.
Proof.
  intros Href Hu. apply refines_antisym; [done|].
  pose proof (Forall2_length _ _ _ Href) as Hlen.
  apply Forall2_same_length_lookup_2; [done|].
  intros r row' row Hrow' Hrow.
  pose proof (Forall2_lookup_lr _ _ _ _ _ _ Href Hrow Hrow') as Hrr.
  pose proof (Forall2_length _ _ _ Hrr) as Hlen'.
  apply Forall2_same_length_lookup_2; [done|].
  intros c y x Hy Hx Hne.
  destruct (decide (x = UNKNOWN)) as [->|Hxu].
  - exfalso. assert (unknowns G' < unknowns G)%nat; [|lia].
    apply (refines_strict G G' r c y); [done| | |done];
      unfold cell_of; [by rewrite Hrow|by rewrite Hrow'].
  - symmetry. by apply (Forall2_lookup_lr _ _ _ _ _ _ Hrr Hx Hy).
Qed.

Lemma refines_insert_left G S (r c : nat) row x :
  refines G S → G !! r = Some row → cell_of S r c = Some x →
  refines (<[r:=<[c:=x]> row]> G) S.
Proof.
  intros Href Hrow Hx.
  pose proof (Forall2_length _ _ _ Href) as Hlen.
  apply Forall2_same_length_lookup_2; [by rewrite length_insert|].
  intros r' row1 srow Hrow1 Hsrow.
  destruct (decide (r' = r)) as [->|Hne].
  - rewrite list_lookup_insert_eq in Hrow1 by (by eapply lookup_lt_Some).
    injection Hrow1 as <-.
    pose proof (Forall2_lookup_lr _ _ _ _ _ _ Href Hrow Hsrow) as Hrr.
    pose proof (Forall2_length _ _ _ Hrr) as Hlen'.
    apply Forall2_same_length_lookup_2; [by rewrite length_insert|].
    intros c' y z Hy Hz Hyu. unfold cell_of in Hx. rewrite Hsrow in Hx. simpl in Hx.
    destruct (decide (c' = c)) as [->|Hnc].
    + rewrite list_lookup_insert_eq in Hy by (rewrite Hlen'; by eapply lookup_lt_Some).
      congruence.
    + rewrite list_lookup_insert_ne in Hy by done.
      by apply (Forall2_lookup_lr _ _ _ _ _ _ Hrr Hy Hz).
  - rewrite list_lookup_insert_ne in Hrow1 by done.
    by apply (Forall2_lookup_lr _ _ _ _ _ _ Href Hrow1 Hsrow).
Qed.

Lemma keeps_solutions_refl rc cc G : keeps_solutions rc cc G G.
Proof. by intros S _ ?. Qed.

Lemma keeps_solutions_trans rc cc G1 G2 G3 :
  keeps_solutions rc cc G1 G2 → keeps_solutions rc cc G2 G3 →
  keeps_solutions rc cc G1 G3.
Proof. intros H1 H2 S HS Href. apply H2; [done|]. by apply H1. Qed.

(** A line of a solution fits the state of that line in any grid the
    solution contains. *)
Lemma refined_line_fits (ls s : list Z) :
  Forall2 (λ x y, x ≠ UNKNOWN → y = x) ls s →
  Forall (λ v, v = EMPTY ∨ v = FILLED) s →
  length s = length ls ∧ fits ls 0 s.
Proof.
  intros Href Hcells. split; [symmetry; by eapply Forall2_length|].
  intros i x Hx. cbn [Nat.add].
  destruct (Forall2_lookup_r _ _ _ _ _ Href Hx) as (y & Hy & Hyx).
  rewrite Hy. rewrite Forall_lookup in Hcells.
  destruct (Hcells i x Hx) as [-> | ->]; [left|right]; (split; [done|]);
    intros [= ->]; by specialize (Hyx ltac:(done)).
Qed.

Lemma refined_line_cand (L : nat) blocks (ls s : list Z) :
  Forall2 (λ x y, x ≠ UNKNOWN → y = x) ls s →
  Forall (λ v, v = EMPTY ∨ v = FILLED) s →
  length ls = L → Forall (λ b, 0 < b) blocks → runs s = blocks →
  s ∈ line_cands (Z.of_nat L) blocks ls.
Proof.
  intros Href Hcells HL Hpos Hruns.
  destruct (refined_line_fits ls s Href Hcells) as [Hlen Hfits].
  apply line_cands_elem; [done|done|]. split_and!; [lia|done|done].
Qed.

Lemma col_of_lookup (G : list (list Z)) (c r : nat) row :
  G !! r = Some row → col_of G c !! r = Some (default UNKNOWN (row !! c)).
Proof. intros Hrow. unfold col_of. by rewrite list_lookup_fmap, Hrow. Qed.

Lemma col_of_cell (G : list (list Z)) (c r : nat) x :
  cell_of G r c = Some x → col_of G c !! r = Some x.
Proof.
  unfold cell_of. destruct (G !! r) as [row|] eqn:Hrow; [|done]. simpl.
  intros Hx. rewrite (col_of_lookup G c r row Hrow). by rewrite Hx.
Qed.

Lemma length_col_of (G : list (list Z)) c : length (col_of G c) = length G.
Proof. unfold col_of. by rewrite length_fmap. Qed.

Lemma refines_col G S (c : nat) :
  refines G S → Forall2 (λ x y, x ≠ UNKNOWN → y = x) (col_of G c) (col_of S c).
Proof.
  unfold refines, col_of. induction 1 as [|row srow G S Hrow HG IH]; [constructor|].
  rewrite !fmap_cons. constructor; [|exact IH].
  destruct (row !! c) as [x|] eqn:Hx; [|by cbn; intros []].
  destruct (Forall2_lookup_l _ _ _ _ _ Hrow Hx) as (y & -> & Hxy). done.
Qed.

Section solutions.
Variables (rc cc : list (list Z)) (H W : nat).
Hypothesis Hrc : clues_ok H rc.
Hypothesis Hcc : clues_ok W cc.

Lemma solves_shape S :
    solves rc cc S →
    length S = H ∧
    Forall (λ row, length row = W ∧ Forall (λ v, v = EMPTY ∨ v = FILLED) row) S.
  Proof.
    intros (Hrows & _ & Hcells). destruct Hrc as [HlenR _], Hcc as [HlenC _].
    split; [apply Forall2_length in Hrows; lia|]. by rewrite <- HlenC.
  Qed.

Lemma solves_col_cells S (c : nat) :
    solves rc cc S → (c < W)%nat →
    Forall (λ v, v = EMPTY ∨ v = FILLED) (col_of S c).
  Proof.
    intros [_ Hshape]%solves_shape Hc. unfold col_of.
    apply Forall_fmap. eapply Forall_impl; [done|].
    intros row [Hlen Hcells].
    destruct (lookup_lt_is_Some_2 row c) as [x Hx]; [lia|].
    unfold compose. rewrite Hx.
    exact (Forall_lookup_1 _ _ _ _ Hcells Hx).
  Qed.

  (** The row of a solution is a candidate of that row in every grid the
      solution contains. *)
Lemma solution_row_cand G S (r : nat) row blocks :
    solves rc cc S → refines G S → G !! r = Some row → length row = W →
    rc !! r = Some blocks →
    ∃ srow, S !! r = Some srow ∧ srow ∈ line_cands (Z.of_nat W) blocks row.
  Proof.
    intros HS Href Hrow HW Hblocks.
    destruct (Forall2_lookup_l _ _ _ _ _ Href Hrow) as (srow & Hsrow & Hrr).
    exists srow. split; [done|].
    destruct (solves_shape S HS) as [_ Hshape].
    destruct (Forall_lookup_1 _ _ _ _ Hshape Hsrow) as [_ Hcells].
    destruct HS as (Hruns & _ & _).
    apply refined_line_cand; [done|done|done| |].
    - destruct Hrc as [_ Hpos]. by eapply Forall_lookup_1.
    - by apply (Forall2_lookup_lr _ _ _ _ _ _ Hruns Hsrow Hblocks).
  Qed.

Lemma solution_col_cand G S (c : nat) blocks :
    solves rc cc S → refines G S → length G = H → (c < W)%nat →
    cc !! c = Some blocks →
    col_of S c ∈ line_cands (Z.of_nat H) blocks (col_of G c).
  Proof.
    intros HS Href HH Hc Hblocks.
    apply refined_line_cand.
    - by apply refines_col.
    - by apply solves_col_cells.
    - by rewrite length_col_of.
    - destruct Hcc as [_ Hpos]. by eapply Forall_lookup_1.
    - destruct HS as (_ & Hcols & _). by apply Hcols.
  Qed.
End solutions.

(** * One sweep, exactly *)

Section reduce.
Context {S : Type} (note : S → S) (wz : S → Z) (d : Z).
Hypothesis Hwz : ∀ s, wz (note s) = wz s + d.
Variables (g : grid) (H W : nat) (rc cc : list (list Z)).
Hypothesis Hrc : clues_ok H rc.
Hypothesis Hcc : clues_ok W cc.

Local Abbreviation red := (reduced wz d rc cc g H W).

Lemma reduced_refl acc h : grid_ok h g H W → red acc h acc h.
  Proof.
    intros. split; [by apply advance_refl|]. split; [apply keeps_solutions_refl|done].
  Qed.

Lemma reduced_trans a1 h1 a2 h2 a3 h3 :
    red a1 h1 a2 h2 → red a2 h2 a3 h3 → red a1 h1 a3 h3.
  Proof.
    intros (Ha1 & Hk1 & Hc1) (Ha2 & Hk2 & Hc2). split; [by eapply advance_trans|].
    split; [by eapply keeps_solutions_trans|lia].
  Qed.

Lemma apply_cell_exact (inter : list Z) (k r c : nat) acc h x y :
    grid_ok h g H W → inter !! k = Some x → cell h g r c = Some y →
    (x ≠ UNKNOWN → cell_ok x ∧ (y ≠ UNKNOWN → y = x)) →
    (x ≠ UNKNOWN → ∀ T, solves rc cc T → refines (rows h g) T →
       cell_of T r c = Some x) →
    ∃ acc' h',
      apply_cell note g inter (Z.of_nat k) (Z.of_nat r) (Z.of_nat c) acc h
      = (Ret acc', h') ∧
      red acc h acc' h' ∧
      ∀ r' c' : nat, cell h' g r' c'
        = if decide (r' = r ∧ c' = c ∧ x ≠ UNKNOWN) then Some x
          else cell h g r' c'.
  Proof.
    intros Hok Hx Hy Hcompat Hsol. unfold apply_cell, hbind at 1, lift.
    rewrite (getitem_Ret _ _ x Hx).
    destruct (decide (x ≠ UNKNOWN)) as [Hxu|Hxu].
    - destruct (Hcompat Hxu) as [Hcx Hyx].
      unfold hbind at 1. rewrite (get_cell_ok Hok r c y Hy).
      destruct (decide (y ≠ x)) as [Hne|Heq].
      + assert (y = UNKNOWN) as ->.
        { destruct (decide (y = UNKNOWN)); [done|]. by destruct Hne; apply Hyx. }
        destruct (set_cell_ok h g H W r c x UNKNOWN Hok Hy Hcx)
          as (row & h' & Hrow & Hset & Hok' & Hrows & Hframe & Hlen).
        unfold hbind. rewrite Hset. exists (note acc), h'. split; [done|].
        unfold cell, cell_of in Hy. rewrite Hrow in Hy. simpl in Hy.
        split; [split; [|split]|].
        * split; [done| |done|done]. rewrite Hrows.
          eapply refines_insert; [done|done|done].
        * intros T HT Href. rewrite Hrows.
          apply refines_insert_left; [done|done|]. by apply Hsol.
        * rewrite Hrows.
          pose proof (unknowns_insert (rows h g) r row (<[c:=x]> row) Hrow) as Hu.
          pose proof (unk_row_insert row c x Hy Hxu). rewrite Hwz.
          assert (Z.of_nat (unknowns (rows h g))
                  = Z.of_nat (unknowns (<[r:=<[c:=x]> row]> (rows h g))) + 1) as -> by lia.
          lia.
        * intros r' c'. unfold cell. rewrite Hrows.
          rewrite (cell_insert _ r c row x r' c' Hrow) by (by eapply lookup_lt_Some).
          destruct (decide (r' = r ∧ c' = c)) as [[-> ->]|Hn].
          -- by rewrite decide_True.
          -- by rewrite decide_False by naive_solver.
      + apply dec_stable in Heq as ->. exists acc, h. split; [done|].
        split; [by apply reduced_refl|]. intros r' c'.
        destruct (decide (r' = r ∧ c' = c ∧ x ≠ UNKNOWN)) as [(-> & -> & _)|]; done.
    - exists acc, h. split; [done|]. split; [by apply reduced_refl|].
      intros r' c'. by rewrite decide_False by naive_solver.
  Qed.

  (** The inner loop of a reduction, over the cells [(pr k, pc k)] of one
      line: afterwards every cell the intersection determines holds its
      value. *)
Lemma line_loop_exact (inter : list Z) (n : nat) (fr fc : Z → Z)
      (pr pc : nat → nat) acc h :
    grid_ok h g H W → length inter = n →
    (∀ k : nat, fr (Z.of_nat k) = Z.of_nat (pr k) ∧ fc (Z.of_nat k) = Z.of_nat (pc k)) →
    (∀ k : nat, (k < n)%nat → (pr k < H)%nat ∧ (pc k < W)%nat) →
    (∀ k k' : nat, pr k = pr k' → pc k = pc k' → k = k') →
    (∀ (k : nat) x y, inter !! k = Some x → cell h g (pr k) (pc k) = Some y →
       x ≠ UNKNOWN → cell_ok x ∧ (y ≠ UNKNOWN → y = x)) →
    (∀ (k : nat) x, inter !! k = Some x → x ≠ UNKNOWN →
       ∀ T, solves rc cc T → refines (rows h g) T →
         cell_of T (pr k) (pc k) = Some x) →
    ∃ acc' h',
      hfor (λ k, apply_cell note g inter k (fr k) (fc k)) (range 0 (Z.of_nat n)) acc h
      = (Ret acc', h') ∧ red acc h acc' h' ∧
      ∀ (k : nat) x, inter !! k = Some x → x ≠ UNKNOWN →
        cell h' g (pr k) (pc k) = Some x.
  Proof.
    intros Hok Hlen Hf Hbound Hinj Hcompat Hsol.
    set (I := λ (j : Z) (acc' : S) (h' : heap),
      red acc h acc' h' ∧
      (∀ (k : nat) x y, inter !! k = Some x → cell h' g (pr k) (pc k) = Some y →
        x ≠ UNKNOWN → cell_ok x ∧ (y ≠ UNKNOWN → y = x)) ∧
      (∀ (k : nat) x, Z.of_nat k < j → inter !! k = Some x → x ≠ UNKNOWN →
        cell h' g (pr k) (pc k) = Some x)).
    assert (Hloop : spec (I 0 acc)
      (hfor (λ k, apply_cell note g inter k (fr k) (fc k)) (range 0 (Z.of_nat n)) acc)
      (I (Z.of_nat n)) never).
    { apply (spec_hfor_range I); [lia|]. intros k t Hk.
      destruct (Z_of_nat_complete k) as [k' ->]; [lia|].
      apply spec_exact. intros s (Hmv & Hcmp & Hdone).
      destruct (Hbound k') as [Hr Hc]; [lia|].
      destruct (lookup_lt_is_Some_2 inter k') as [x Hx]; [lia|].
      pose proof (adv_ok _ _ _ _ _ (proj1 Hmv)) as Hoks.
      destruct (grid_cell Hoks (pr k') (pc k') Hr Hc) as (y & Hy & Hcy).
      destruct (Hf k') as [-> ->].
      destruct (apply_cell_exact inter k' (pr k') (pc k') t s x y Hoks Hx Hy)
        as (t' & s' & Heq & Hmv' & Hcells).
      { by apply (Hcmp k'). }
      { intros Hxu T HT Href. apply (Hsol k' x Hx Hxu T HT).
        eapply refines_trans; [|done]. apply (adv_refines _ _ _ _ _ (proj1 Hmv)). }
      exists t', s'. split; [done|]. split; [by eapply reduced_trans|]. split.
      - intros j xj yj Hxj Hyj Hxju. rewrite Hcells in Hyj.
        destruct (decide (pr j = pr k' ∧ pc j = pc k' ∧ x ≠ UNKNOWN))
          as [(Hpr & Hpc & Hxu)|_].
        + assert (j = k') as -> by (by apply Hinj).
          assert (xj = x) as -> by congruence. injection Hyj as <-.
          split; [|done]. by eapply (Hcmp k').
        + by eapply (Hcmp j).
      - intros j xj Hj Hxj Hxju. rewrite Hcells.
        destruct (decide (pr j = pr k' ∧ pc j = pc k' ∧ x ≠ UNKNOWN))
          as [(Hpr & Hpc & Hxu)|Hn].
        + assert (j = k') as -> by (by apply Hinj). congruence.
        + destruct (decide (j = k')) as [->|Hjk].
          * assert (xj = x) as -> by congruence. destruct Hn. done.
          * apply Hdone; [lia|done|done]. }
    destruct (spec_total _ _ _ h Hloop) as (acc' & h' & Heq & Hmv & _ & Hdone).
    { split; [by apply reduced_refl|]. split; [done|]. intros; lia. }
    exists acc', h'. split; [done|]. split; [done|].
    intros k x Hx Hxu. apply Hdone; [|done|done].
    apply lookup_lt_Some in Hx. lia.
  Qed.

  (** What the intersection of the candidates of a line holds. *)
Lemma line_inter (L : nat) blocks ls :
    length ls = L → Forall (λ b, 0 < b) blocks → Forall cell_ok ls →
    line_cands (Z.of_nat L) blocks ls ≠ [] →
    ∃ inter,
      _intersect_candidates (line_cands (Z.of_nat L) blocks ls) = Ret inter ∧
      length inter = L ∧
      (∀ (k : nat) x y, inter !! k = Some x → ls !! k = Some y →
         x ≠ UNKNOWN → cell_ok x ∧ (y ≠ UNKNOWN → y = x)) ∧
      (∀ (k : nat) x s, inter !! k = Some x → x ≠ UNKNOWN →
         s ∈ line_cands (Z.of_nat L) blocks ls → s !! k = Some x) ∧
      (∀ (k : nat) x,
         (∀ s, s ∈ line_cands (Z.of_nat L) blocks ls → s !! k = Some x) →
         inter !! k = Some x ∧ x ≠ UNKNOWN).
  Proof.
    intros HL Hpos Hcells Hne.
    set (cs := line_cands (Z.of_nat L) blocks ls) in *.
    assert (Hcs : ∀ s, s ∈ cs → length s = L ∧ fits ls 0 s).
    { intros s Hs. apply line_cands_elem in Hs as (? & _ & ?); done. }
    destruct (intersect_exact L cs Hne) as (inter & Hinter & Hilen & Hiprop).
    { apply Forall_forall. intros s Hs. by destruct (Hcs s Hs). }
    exists inter. split; [done|]. split; [done|]. split_and!.
    - intros k x y Hx Hy Hxu.
      eapply (inter_compat ls cs inter k x y); try done.
      + intros s Hs. by destruct (Hcs s Hs).
      + intros i xi Hxi. destruct (Hiprop i xi Hxi) as [?|[? _]]; auto.
      + by eapply Forall_lookup_1.
    - intros k x s Hx Hxu Hs. destruct (Hiprop k x Hx) as [Hall|[? _]]; [|done].
      by apply Hall.
    - intros k x Hall.
      assert (∃ s0, s0 ∈ cs) as [s0 Hs0].
      { clear -Hne. destruct cs as [|s0 cs']; [done|]. exists s0. left. }
      pose proof (Hall s0 Hs0) as Hk.
      destruct (Hcs s0 Hs0) as [Hl0 Hfit0].
      destruct (lookup_lt_is_Some_2 inter k) as [x' Hx'].
      { rewrite Hilen, <- Hl0. by eapply lookup_lt_Some. }
      assert (Hxu : x ≠ UNKNOWN).
      { destruct (Hfit0 k x Hk) as [[-> _]|[-> _]]; done. }
      destruct (Hiprop k x' Hx') as [Hall'|(_ & s1 & s2 & Hs1 & Hs2 & Hdiff)].
      + specialize (Hall' s0 Hs0). split; [congruence|done].
      + rewrite (Hall s1 Hs1), (Hall s2 Hs2) in Hdiff. done.
  Qed.

Lemma reduce_row_unfold (r : nat) l row blocks cs acc h :
    g !! r = Some l → h !! l = Some row → rc !! r = Some blocks →
    _line_candidates (Z.of_nat W) blocks row = Ret cs →
    reduce_row note g rc (Z.of_nat W) (Z.of_nat r) acc h
    = match cs with
      | [] => (Ret (false, acc), h)
      | _ :: _ =>
          (let! inter := lift (_intersect_candidates cs) in
           let! acc' := hfor (λ c, apply_cell note g inter c (Z.of_nat r) c)
                          (range 0 (Z.of_nat W)) acc in
           hret (true, acc')) h
      end.
  Proof.
    intros Hl Hrow Hblocks Hcands.
    unfold reduce_row, hbind at 1, lift. rewrite (getitem_Ret _ _ _ Hl).
    unfold hbind at 1, deref. rewrite Hrow.
    unfold hbind at 1. rewrite (getitem_Ret _ _ _ Hblocks).
    unfold hbind at 1. rewrite Hcands. by destruct cs.
  Qed.

Lemma reduce_col_unfold (c : nat) col blocks cs acc h :
    column g (Z.of_nat H) (Z.of_nat c) h = (Ret col, h) →
    cc !! c = Some blocks →
    _line_candidates (Z.of_nat H) blocks col = Ret cs →
    reduce_col note g cc (Z.of_nat H) (Z.of_nat c) acc h
    = match cs with
      | [] => (Ret (false, acc), h)
      | _ :: _ =>
          (let! inter := lift (_intersect_candidates cs) in
           let! acc' := hfor (λ r, apply_cell note g inter r r (Z.of_nat c))
                          (range 0 (Z.of_nat H)) acc in
           hret (true, acc')) h
      end.
  Proof.
    intros Hcol Hblocks Hcands.
    unfold reduce_col, hbind at 1. rewrite Hcol.
    unfold hbind at 1, lift. rewrite (getitem_Ret _ _ _ Hblocks).
    unfold hbind at 1. rewrite Hcands. by destruct cs.
  Qed.

Lemma reduce_row_exact (r : nat) acc h :
    grid_ok h g H W → (r < H)%nat →
    ∃ row blocks, rows h g !! r = Some row ∧ rc !! r = Some blocks ∧
      ((line_cands (Z.of_nat W) blocks row = [] ∧
        reduce_row note g rc (Z.of_nat W) (Z.of_nat r) acc h = (Ret (false, acc), h)) ∨
       (line_cands (Z.of_nat W) blocks row ≠ [] ∧
        ∃ acc' h',
          reduce_row note g rc (Z.of_nat W) (Z.of_nat r) acc h
          = (Ret (true, acc'), h') ∧ red acc h acc' h' ∧
          ∀ (c : nat) x,
            (∀ s, s ∈ line_cands (Z.of_nat W) blocks row → s !! c = Some x) →
            cell h' g r c = Some x)).
  Proof.
    intros Hok Hr. destruct Hrc as [Hclen Hcpos].
    destruct (grid_row Hok r Hr) as (l & row & Hl & Hrow & Hrows & HW & Hcells).
    destruct (lookup_lt_is_Some_2 rc r) as [blocks Hblocks]; [lia|].
    assert (Hbpos : Forall (λ b, 0 < b) blocks) by (by eapply Forall_lookup_1).
    exists row, blocks. split; [done|]. split; [done|].
    destruct (line_cands_ok W blocks row HW Hbpos) as [Hcands _].
    rewrite !(reduce_row_unfold r l row blocks _ acc h Hl Hrow Hblocks Hcands).
    destruct (line_cands (Z.of_nat W) blocks row) as [|c0 cands'] eqn:Hcs.
    { by left. }
    right. split; [done|]. rewrite <- Hcs in *.
    assert (Hne : line_cands (Z.of_nat W) blocks row ≠ []) by (by rewrite Hcs).
    destruct (line_inter W blocks row HW Hbpos Hcells Hne)
      as (inter & Hinter & Hilen & Hcompat & Hagree & Hall).
    unfold hbind at 1, lift. rewrite Hinter.
    destruct (line_loop_exact inter W (λ _, Z.of_nat r) (λ k, k) (λ _, r) (λ k, k) acc h)
      as (acc' & h' & Hloop & Hmv & Hset); try done; try (intros k Hk; simpl; lia).
    { intros k x y Hx Hy Hxu. unfold cell, cell_of in Hy. rewrite Hrows in Hy.
      simpl in Hy. by eapply Hcompat. }
    { intros k x Hx Hxu T HT Href.
      destruct (solution_row_cand rc cc H W (conj Hclen Hcpos) Hcc (rows h g) T r row
                  blocks HT Href Hrows HW Hblocks) as (srow & Hsrow & Hin).
      unfold cell_of. rewrite Hsrow. simpl. by eapply Hagree. }
    unfold hbind. rewrite Hloop. exists acc', h'. split; [done|].
    split; [done|]. intros c x Hx. destruct (Hall c x Hx) as [Hi Hxu].
    by apply (Hset c x).
  Qed.

Lemma reduce_col_exact (c : nat) acc h :
    grid_ok h g H W → (c < W)%nat →
    ∃ blocks, cc !! c = Some blocks ∧
      let col := col_of (rows h g) c in
      ((line_cands (Z.of_nat H) blocks col = [] ∧
        reduce_col note g cc (Z.of_nat H) (Z.of_nat c) acc h = (Ret (false, acc), h)) ∨
       (line_cands (Z.of_nat H) blocks col ≠ [] ∧
        ∃ acc' h',
          reduce_col note g cc (Z.of_nat H) (Z.of_nat c) acc h
          = (Ret (true, acc'), h') ∧ red acc h acc' h' ∧
          ∀ (r : nat) x,
            (∀ s, s ∈ line_cands (Z.of_nat H) blocks col → s !! r = Some x) →
            cell h' g r c = Some x)).
  Proof.
    intros Hok Hc. destruct Hcc as [Hclen Hcpos].
    pose proof (column_col_of Hok c Hc) as Hcol.
    destruct (col_of_shape Hok c Hc) as [Hlen Hcells].
    destruct (column_ok Hok c Hc) as (col' & Hcol' & _ & _ & Hlookup).
    rewrite Hcol in Hcol'. injection Hcol' as <-.
    destruct (lookup_lt_is_Some_2 cc c) as [blocks Hblocks]; [lia|].
    assert (Hbpos : Forall (λ b, 0 < b) blocks) by (by eapply Forall_lookup_1).
    exists blocks. split; [done|]. cbn zeta.
    set (col := col_of (rows h g) c) in *.
    destruct (line_cands_ok H blocks col Hlen Hbpos) as [Hcands _].
    rewrite !(reduce_col_unfold c col blocks _ acc h Hcol Hblocks Hcands).
    destruct (line_cands (Z.of_nat H) blocks col) as [|c0 cands'] eqn:Hcs.
    { by left. }
    right. split; [done|]. rewrite <- Hcs in *.
    assert (Hne : line_cands (Z.of_nat H) blocks col ≠ []) by (by rewrite Hcs).
    destruct (line_inter H blocks col Hlen Hbpos Hcells Hne)
      as (inter & Hinter & Hilen & Hcompat & Hagree & Hall).
    unfold hbind at 1, lift. rewrite Hinter.
    destruct (line_loop_exact inter H (λ k, k) (λ _, Z.of_nat c) (λ k, k) (λ _, c) acc h)
      as (acc' & h' & Hloop & Hmv & Hset); try done; try (intros k Hk; simpl; lia).
    { intros k x y Hx Hy Hxu. rewrite <- Hlookup in Hy. by eapply Hcompat. }
    { intros k x Hx Hxu T HT Href.
      pose proof (solution_col_cand rc cc H W Hrc (conj Hclen Hcpos) (rows h g) T c
                    blocks HT Href) as Hin.
      destruct (grid_rows_shape Hok) as [HH _].
      specialize (Hin HH Hc Hblocks). fold col in Hin.
      pose proof (Hagree k x _ Hx Hxu Hin) as Hk.
      unfold col_of in Hk. rewrite list_lookup_fmap in Hk.
      unfold cell_of. destruct (T !! k) as [srow|] eqn:Hsrow; [|done].
      simpl in Hk |- *. injection Hk as Hk.
      destruct (solves_shape rc cc H W Hrc (conj Hclen Hcpos) T HT) as [_ Hshape].
      destruct (Forall_lookup_1 _ _ _ _ Hshape Hsrow) as [HlenS _].
      destruct (lookup_lt_is_Some_2 srow c) as [z Hz]; [lia|].
      rewrite Hz in Hk |- *. simpl in Hk. by rewrite Hk. }
    unfold hbind. rewrite Hloop. exists acc', h'. split; [done|].
    split; [done|]. intros r x Hx. destruct (Hall r x Hx) as [Hi Hxu].
    by apply (Hset r x).
  Qed.

  (** Between two heaps with the same rows of [g], a reduction met the
      same lines. *)
Lemma reduced_back acc h t s t' s' :
    red acc h t s → red t s t' s' → rows s' g = rows h g → rows s g = rows h g.
  Proof.
    intros (Ha1 & _) (Ha2 & _) Heq.
    pose proof (adv_refines _ _ _ _ _ Ha1) as H1.
    pose proof (adv_refines _ _ _ _ _ Ha2) as H2.
    rewrite Heq in H2. by apply refines_antisym.
  Qed.

  (** One sweep: no solution is lost, a line without a candidate means no
      solution, and a sweep that leaves the grid as it was found it
      settled. *)
Lemma sweep_exact acc h :
    grid_ok h g H W →
    ∃ ok acc' h',
      sweep note g rc cc (Z.of_nat H) (Z.of_nat W) acc h = (Ret (ok, acc'), h') ∧
      red acc h acc' h' ∧
      (ok = false → ∀ T, solves rc cc T → ¬ refines (rows h g) T) ∧
      (ok = true → rows h' g = rows h g → settled rc cc H W (rows h g)).
  Proof.
    intros Hok.
    set (IR := λ (k : Z) (t : S) (s : heap),
      red acc h t s ∧
      (rows s g = rows h g →
       ∀ (r : nat) row blocks, Z.of_nat r < k → rows h g !! r = Some row →
         rc !! r = Some blocks → line_settled W blocks row)).
    set (Q := λ (t : S) (s : heap),
      red acc h t s ∧ ∀ T, solves rc cc T → ¬ refines (rows h g) T).
    assert (Hrows : spec (IR 0 acc)
      (hfor_break (reduce_row note g rc (Z.of_nat W)) (range 0 (Z.of_nat H)) acc)
      (λ '(ok, t) s, if ok then IR (Z.of_nat H) t s else Q t s) never).
    { apply (spec_hfor_break_range IR Q); [lia|].
      intros k t Hk. destruct (Z_of_nat_complete k) as [k' ->]; [lia|].
      apply spec_exact. intros s [Hmv Hpre].
      pose proof (adv_ok _ _ _ _ _ (proj1 Hmv)) as Hoks.
      destruct (reduce_row_exact k' t s Hoks) as (row & blocks & Hrow & Hblocks & Hcase);
        [lia|].
      destruct Hcase as [[Hnil Heq]|(Hne & t' & s' & Heq & Hmv' & Hset)].
      - exists (false, t), s. split; [done|]. split; [done|].
        intros T HT Href. destruct Hmv as (_ & Hkeep & _).
        apply Hkeep in Href; [|done].
        destruct (grid_row Hoks k' ltac:(lia)) as (_ & row' & _ & _ & Hrow' & HW & _).
        assert (row' = row) as -> by congruence.
        destruct (solution_row_cand rc cc H W Hrc Hcc (rows s g) T k' row blocks
                    HT Href Hrow HW Hblocks) as (srow & _ & Hin).
        rewrite Hnil in Hin. by apply elem_of_nil in Hin.
      - exists (true, t'), s'. split; [done|].
        split; [by eapply reduced_trans|].
        intros Hsame r row0 blocks0 Hlt Hrow0 Hblocks0.
        pose proof (reduced_back _ _ _ _ _ _ Hmv Hmv' Hsame) as Hsame0.
        destruct (decide (r = k')) as [->|Hnk].
        + rewrite Hsame0 in Hrow. assert (row0 = row) as -> by congruence.
          assert (blocks0 = blocks) as -> by congruence.
          split; [done|]. intros c x Hall. specialize (Hset c x Hall).
          unfold cell, cell_of in Hset. rewrite Hsame, Hrow0 in Hset. done.
        + apply (Hpre Hsame0 r); [lia|done|done]. }
    destruct (spec_total _ _ _ h Hrows) as ([ok1 acc1] & h1 & Heq1 & Hpost1).
    { split; [by apply reduced_refl|]. intros; lia. }
    unfold sweep, hbind. rewrite Heq1. destruct ok1.
    2: { destruct Hpost1 as [Hmv1 Hno]. exists false, acc1, h1. by split_and!. }
    destruct Hpost1 as [Hmv1 Hpre1].
    set (IC := λ (k : Z) (t : S) (s : heap),
      red acc h t s ∧
      (rows s g = rows h g →
       (∀ (r : nat) row blocks, rows h g !! r = Some row →
          rc !! r = Some blocks → line_settled W blocks row) ∧
       ∀ (c : nat) blocks, Z.of_nat c < k → cc !! c = Some blocks →
         line_settled H blocks (col_of (rows h g) c))).
    assert (Hcols : spec (IC 0 acc1)
      (hfor_break (reduce_col note g cc (Z.of_nat H)) (range 0 (Z.of_nat W)) acc1)
      (λ '(ok, t) s, if ok then IC (Z.of_nat W) t s else Q t s) never).
    { apply (spec_hfor_break_range IC Q); [lia|].
      intros k t Hk. destruct (Z_of_nat_complete k) as [k' ->]; [lia|].
      apply spec_exact. intros s [Hmv Hpre].
      pose proof (adv_ok _ _ _ _ _ (proj1 Hmv)) as Hoks.
      destruct (reduce_col_exact k' t s Hoks) as (blocks & Hblocks & Hcase); [lia|].
      cbn zeta in Hcase.
      destruct Hcase as [[Hnil Heq]|(Hne & t' & s' & Heq & Hmv' & Hset)].
      - exists (false, t), s. split; [done|]. split; [done|].
        intros T HT Href. destruct Hmv as (_ & Hkeep & _).
        apply Hkeep in Href; [|done].
        destruct (grid_rows_shape Hoks) as [HH _].
        pose proof (solution_col_cand rc cc H W Hrc Hcc (rows s g) T k' blocks
                      HT Href HH ltac:(lia) Hblocks) as Hin.
        rewrite Hnil in Hin. by apply elem_of_nil in Hin.
      - exists (true, t'), s'. split; [done|].
        split; [by eapply reduced_trans|].
        intros Hsame.
        pose proof (reduced_back _ _ _ _ _ _ Hmv Hmv' Hsame) as Hsame0.
        destruct (Hpre Hsame0) as [HpreR HpreC]. split; [done|].
        intros c blocks0 Hlt Hblocks0.
        destruct (decide (c = k')) as [->|Hnk].
        + rewrite Hsame0 in Hne, Hset.
          assert (blocks0 = blocks) as -> by congruence.
          split; [done|]. intros r x Hall. specialize (Hset r x Hall).
          unfold cell in Hset. rewrite Hsame in Hset. by apply col_of_cell.
        + apply (HpreC c); [lia|done]. }
    destruct (spec_total _ _ _ h1 Hcols) as ([ok2 acc2] & h2 & Heq2 & Hpost2).
    { split; [done|]. intros Hsame1. split; [|intros; lia].
      intros r row blocks Hrow Hblocks. apply (Hpre1 Hsame1 r); [|done|done].
      apply lookup_lt_Some in Hrow. rewrite length_rows in Hrow.
      destruct Hok as [Hlen _ _ _]. lia. }
    rewrite Heq2. exists ok2, acc2, h2. split; [done|]. destruct ok2.
    - destruct Hpost2 as [Hmv2 Hpre2]. split; [done|]. split; [done|].
      intros _ Hsame. destruct (Hpre2 Hsame) as [HR HC]. split; [done|].
      intros c blocks Hc Hblocks. apply (HC c); [lia|done].
    - destruct Hpost2 as [Hmv2 Hno]. by split_and!.
  Qed.
End reduce.

(** * A sweep does not depend on what it counts *)

Lemma same_run_bind {A1 A2 B1 B2} (R : A1 → A2 → Prop) (Q : B1 → B2 → Prop)
    (m1 : H A1) (m2 : H A2) (k1 : A1 → H B1) (k2 : A2 → H B2) h1 h2 :
  same_run R (m1 h1) (m2 h2) →
  (∀ a1 a2 h, R a1 a2 → same_run Q (k1 a1 h) (k2 a2 h)) →
  same_run Q (hbind m1 k1 h1) (hbind m2 k2 h2).
Proof.
  unfold same_run, hbind. intros [Hh Hr] Hk.
  destruct (m1 h1) as [[a1|e1] h1'], (m2 h2) as [[a2|e2] h2']; simpl in *;
    try done; subst.
  by apply Hk.
Qed.

Lemma same_run_eq {A} (m : H A) h : same_run eq (m h) (m h).
Proof. unfold same_run. split; [done|]. by destruct (m h) as [[?|?] ?]. Qed.

Lemma same_run_ret {A B} (R : A → B → Prop) a b h :
  R a b → same_run R (hret a h) (hret b h).
Proof. by split. Qed.

Section same_sweep.
Context {S1 S2 : Type} (n1 : S1 → S1) (n2 : S2 → S2) (R : S1 → S2 → Prop).
Hypothesis Hnote : ∀ a b, R a b → R (n1 a) (n2 b).
Variables (g : grid) (rc cc : list (list Z)).

Lemma apply_cell_same inter k r c a b h :
    R a b →
    same_run R (apply_cell n1 g inter k r c a h) (apply_cell n2 g inter k r c b h).
  Proof.
    intros HR. unfold apply_cell.
    eapply same_run_bind; [apply same_run_eq|]. intros x ? h1 <-.
    destruct (decide (x ≠ UNKNOWN)); [|by apply same_run_ret].
    eapply same_run_bind; [apply same_run_eq|]. intros y ? h2 <-.
    destruct (decide (y ≠ x)); [|by apply same_run_ret].
    eapply same_run_bind; [apply same_run_eq|]. intros [] ? h3 _.
    apply same_run_ret. by apply Hnote.
  Qed.

Lemma hfor_same {X} (b1 : X → S1 → H S1) (b2 : X → S2 → H S2) xs a b h :
    (∀ x a b h, R a b → same_run R (b1 x a h) (b2 x b h)) →
    R a b → same_run R (hfor b1 xs a h) (hfor b2 xs b h).
  Proof.
    intros Hbody. revert a b h. induction xs as [|x xs IH]; intros a b h HR.
    - by apply same_run_ret.
    - cbn [hfor]. eapply same_run_bind; [by apply Hbody|].
      intros a' b' h' HR'. by apply IH.
  Qed.

Lemma reduce_row_same width r a b h :
    R a b →
    same_run (same_step R) (reduce_row n1 g rc width r a h) (reduce_row n2 g rc width r b h).
  Proof.
    intros HR. unfold reduce_row.
    eapply same_run_bind; [apply same_run_eq|]. intros l ? h1 <-.
    eapply same_run_bind; [apply same_run_eq|]. intros ls ? h2 <-.
    eapply same_run_bind; [apply same_run_eq|]. intros blocks ? h3 <-.
    eapply same_run_bind; [apply same_run_eq|]. intros cands ? h4 <-.
    destruct cands; [by apply same_run_ret|].
    eapply same_run_bind; [apply same_run_eq|]. intros inter ? h5 <-.
    eapply same_run_bind.
    - apply hfor_same; [|done]. intros. by apply apply_cell_same.
    - intros a' b' h6 HR'. by apply same_run_ret.
  Qed.

Lemma reduce_col_same height c a b h :
    R a b →
    same_run (same_step R) (reduce_col n1 g cc height c a h) (reduce_col n2 g cc height c b h).
  Proof.
    intros HR. unfold reduce_col.
    eapply same_run_bind; [apply same_run_eq|]. intros ls ? h2 <-.
    eapply same_run_bind; [apply same_run_eq|]. intros blocks ? h3 <-.
    eapply same_run_bind; [apply same_run_eq|]. intros cands ? h4 <-.
    destruct cands; [by apply same_run_ret|].
    eapply same_run_bind; [apply same_run_eq|]. intros inter ? h5 <-.
    eapply same_run_bind.
    - apply hfor_same; [|done]. intros. by apply apply_cell_same.
    - intros a' b' h6 HR'. by apply same_run_ret.
  Qed.

Lemma hfor_break_same {X} (b1 : X → S1 → H (bool * S1))
      (b2 : X → S2 → H (bool * S2)) xs a b h :
    (∀ x a b h, R a b → same_run (same_step R) (b1 x a h) (b2 x b h)) →
    R a b → same_run (same_step R) (hfor_break b1 xs a h) (hfor_break b2 xs b h).
  Proof.
    intros Hbody. revert a b h. induction xs as [|x xs IH]; intros a b h HR.
    - by apply same_run_ret.
    - cbn [hfor_break]. eapply same_run_bind; [by apply Hbody|].
      intros [ok1 a'] [ok2 b'] h' [Hok HR']. cbn in Hok, HR'. subst ok2.
      destruct ok1; [by apply IH|by apply same_run_ret].
  Qed.

Lemma sweep_same height width a b h :
    R a b →
    same_run (same_step R) (sweep n1 g rc cc height width a h)
      (sweep n2 g rc cc height width b h).
  Proof.
    intros HR. unfold sweep. eapply same_run_bind.
    - apply hfor_break_same; [|done]. intros. by apply reduce_row_same.
    - intros [ok1 a'] [ok2 b'] h' [Hok HR']. cbn in Hok, HR'. subst ok2.
      destruct ok1; [|by apply same_run_ret].
      apply hfor_break_same; [|done]. intros. by apply reduce_col_same.
  Qed.
End same_sweep.

(** * [propagate_once] and [propagate], exactly *)

(** A reduction that leaves the rows of the grid as they were leaves the
    heap as it was. *)
Lemma advance_same_rows g H W h h' :
  advance g H W h h' → rows h' g = rows h g → h' = h.
Proof.
  intros [Hok' Href Hframe Hlen] Hrows.
  assert (Hok : ∀ l, l ∈ g → ∃ row, h' !! l = Some row)
    by (intros l Hl; destruct (ok_rows _ _ _ _ Hok' l Hl) as (row & ? & _); eauto).
  apply list_eq. intros l.
  destruct (decide (l ∈ g)) as [Hl|Hl]; [|by apply Hframe].
  destruct (Hok l Hl) as (row' & Hrow').
  apply list_elem_of_lookup_1 in Hl as [r Hr].
  assert (Hr' : rows h' g !! r = Some row') by (by eapply rows_lookup).
  rewrite Hrows in Hr'. unfold rows in Hr'. rewrite list_lookup_fmap, Hr in Hr'.
  simpl in Hr'. injection Hr' as Hd.
  destruct (h !! l) as [row|] eqn:Hrow; [simpl in Hd; congruence|].
  apply lookup_ge_None in Hrow. apply lookup_lt_Some in Hrow'. lia.
Qed.

Section once.
Variables (g : grid) (H W : nat) (rc cc : list (list Z)).
Hypothesis Hrc : clues_ok H rc.
Hypothesis Hcc : clues_ok W cc.

Lemma propagate_once_sweep h :
    grid_ok h g H W →
    propagate_once g rc cc h
    = sweep Z.succ g rc cc (Z.of_nat H) (Z.of_nat W) 0 h.
  Proof.
    intros Hok. pose proof (grid_width_ok Hok) as Hw.
    unfold grid_width, hbind, lift, deref, hret in Hw.
    unfold propagate_once, hbind, lift, deref.
    destruct (getitem g 0) as [l0|e]; [|done].
    destruct (h !! l0) as [row0|]; [|done]. injection Hw as ->.
    by replace (len g) with (Z.of_nat H) by (unfold len; by destruct Hok as [->]).
  Qed.

  (** [propagate_once] counts the cells it determines. *)
Lemma propagate_once_exact h :
    grid_ok h g H W →
    ∃ ok n h',
      propagate_once g rc cc h = (Ret (ok, n), h') ∧
      advance g H W h h' ∧
      keeps_solutions rc cc (rows h g) (rows h' g) ∧
      n = Z.of_nat (unknowns (rows h g)) - Z.of_nat (unknowns (rows h' g)) ∧
      (ok = false → ∀ T, solves rc cc T → ¬ refines (rows h g) T) ∧
      (n = 0 → h' = h ∧ (ok = true → settled rc cc H W (rows h g))).
  Proof.
    intros Hok. rewrite (propagate_once_sweep h Hok).
    assert (Hs : ∀ s : Z, (λ n : Z, n) (Z.succ s) = (λ n : Z, n) s + 1)
      by (intros; cbn beta; lia).
    destruct (sweep_exact Z.succ (λ n : Z, n) 1 Hs g H W rc cc Hrc Hcc 0 h Hok)
      as (ok & n & h' & Heq & (Hadv & Hkeep & Hcount) & Hno & Hset).
    cbn beta in Hcount.
    exists ok, n, h'. split; [done|]. split; [done|]. split; [done|].
    split; [lia|]. split; [done|].
    intros ->.
    assert (Hrows : rows h' g = rows h g).
    { apply refines_same_unknowns; [apply (adv_refines _ _ _ _ _ Hadv)|lia]. }
    split; [by eapply advance_same_rows|]. intros Htrue. by apply Hset.
  Qed.
End once.

Section loop_exact.
Variables (g : grid) (H W : nat) (rc cc : list (list Z)).
Variables (stop : option (nat → bool)) (cb : bool).
Hypothesis Hrc : clues_ok H rc.
Hypothesis Hcc : clues_ok W cc.

Lemma sweep_flag_exact h :
    grid_ok h g H W →
    ∃ ok changed h',
      sweep (λ _, true) g rc cc (Z.of_nat H) (Z.of_nat W) false h
      = (Ret (ok, changed), h') ∧
      advance g H W h h' ∧
      keeps_solutions rc cc (rows h g) (rows h' g) ∧
      (ok = false → ∀ T, solves rc cc T → ¬ refines (rows h g) T) ∧
      (ok = true → rows h' g = rows h g → settled rc cc H W (rows h g)).
  Proof.
    intros Hok.
    assert (Hs : ∀ s : bool, (λ _ : bool, 0) ((λ _ : bool, true) s)
                             = (λ _ : bool, 0) s + 0) by done.
    destruct (sweep_exact (λ _ : bool, true) (λ _ : bool, 0) 0 Hs
                g H W rc cc Hrc Hcc false h Hok)
      as (ok & b & h' & Heq & (Hadv & Hkeep & _) & Hno & Hset).
    exists ok, b, h'. by split_and!.
  Qed.

Lemma loop_exact fuel st w :
    grid_ok (w_heap w) g H W →
    ∃ o w',
      propagate_loop fuel g rc cc stop cb (Z.of_nat H) (Z.of_nat W) st w = (o, w') ∧
      advance g H W (w_heap w) (w_heap w') ∧
      keeps_solutions rc cc (rows (w_heap w) g) (rows (w_heap w') g) ∧
      (∀ st', o = Ret (false, st') →
         ∀ T, solves rc cc T → ¬ refines (rows (w_heap w) g) T) ∧
      (∀ st', o = Ret (true, st') → settled rc cc H W (rows (w_heap w') g)).
  Proof.
    revert st w. induction fuel as [|fuel IH]; intros st w Hok.
    { eexists _, _. split; [done|]. split_and!; try done.
      - by apply advance_refl.
      - apply keeps_solutions_refl. }
    rewrite loop_unfold.
    destruct (pass_cases g rc cc stop cb (Z.of_nat H) (Z.of_nat W) st w)
      as (o & w1 & Hpass & Hc). rewrite Hpass.
    destruct (flagged stop w).
    { destruct Hc as [-> Hh]. eexists _, _. split; [done|]. rewrite Hh.
      split_and!; try done; [by apply advance_refl|apply keeps_solutions_refl]. }
    destruct (sweep_flag_exact (w_heap w) Hok)
      as (ok & changed & h' & Hsw & Hadv & Hkeep & Hno & Hset).
    rewrite Hsw in Hc. destruct ok.
    - destruct Hc as [Hc Hh]. subst h'.
      pose proof (adv_ok _ _ _ _ _ Hadv) as Hok1.
      destruct (count_fixed_ok _ _ _ _ Hok1) as [n Hn]. rewrite Hn in Hc.
      cbn [fst] in Hc. destruct Hc as [st1 ->]. destruct changed.
      + destruct (IH st1 w1 Hok1) as (o2 & w2 & Heq2 & Hadv2 & Hkeep2 & Hno2 & Hset2).
        exists o2, w2. split; [done|]. split_and!.
        * by eapply advance_trans.
        * by eapply keeps_solutions_trans.
        * intros st' -> T HT Href. apply (Hno2 st' eq_refl T HT). by apply Hkeep.
        * done.
      + eexists _, _. split; [done|]. split_and!; try done.
        intros st' _.
        destruct (sweep_quiet (λ _, true) (λ b, b = false) g rc cc
                    (Z.of_nat H) (Z.of_nat W)
                    false (w_heap w) true false (w_heap w1)) as [Hq _]; try done.
        rewrite Hq. apply Hset; [done|by rewrite Hq].
    - destruct Hc as [[st1 ->] Hh]. subst h'.
      eexists _, _. split; [done|]. split_and!; try done.
      intros st' _. by apply Hno.
  Qed.

Lemma propagate_exact fuel w :
    grid_ok (w_heap w) g H W →
    ∃ o w',
      propagate fuel g rc cc stop cb w = (o, w') ∧
      advance g H W (w_heap w) (w_heap w') ∧
      keeps_solutions rc cc (rows (w_heap w) g) (rows (w_heap w') g) ∧
      (∀ st', o = Ret (false, st') →
         ∀ T, solves rc cc T → ¬ refines (rows (w_heap w) g) T) ∧
      (∀ st', o = Ret (true, st') → settled rc cc H W (rows (w_heap w') g)).
  Proof.
    intros Hok. unfold propagate, hbind.
    rewrite on_heap_reads by apply grid_width_reads.
    rewrite (grid_width_ok Hok). simpl.
    replace (len g) with (Z.of_nat H) by (unfold len; by destruct Hok as [->]).
    by apply loop_exact.
  Qed.
End loop_exact.

(** A settled line that still has an [UNKNOWN] cell has two candidates at
    least. *)
Lemma settled_two_cands (L : nat) blocks ls :
  length ls = L → Forall (λ b, 0 < b) blocks →
  line_settled L blocks ls → UNKNOWN ∈ ls →
  1 < len (line_cands (Z.of_nat L) blocks ls).
Proof.
  intros HL Hpos [Hne Hset] Hunk.
  destruct (line_cands (Z.of_nat L) blocks ls) as [|c0 [|c1 cs]] eqn:Hcs;
    [done| |unfold len; simpl; lia].
  exfalso. assert (Hc0 : c0 ∈ line_cands (Z.of_nat L) blocks ls)
    by (rewrite Hcs; left).
  apply line_cands_elem in Hc0 as (Hlen & _ & Hfits); [|done|done].
  apply list_elem_of_lookup_1 in Hunk as [k Hk].
  destruct (lookup_lt_is_Some_2 c0 k) as [x Hx].
  { rewrite Hlen, <- HL. by eapply lookup_lt_Some. }
  assert (ls !! k = Some x) as Hk'.
  { apply Hset. intros s Hs. apply list_elem_of_singleton in Hs as ->. done. }
  assert (x = UNKNOWN) as -> by congruence.
  destruct (Hfits k UNKNOWN Hx) as [[? _]|[? _]]; done.
Qed.

(** * Properties of propagation *)

(** X11. On a well-formed grid with well-formed clues [propagate_once]
    returns, and the count it returns is the number of cells it determined:
    the number of [UNKNOWN] cells before less the number after, whether it
    reports a contradiction or not.  A count of 0 means the grid was not
    touched. *)
Theorem propagate_once_counts (h : heap) (g : grid) (H W : nat)
    (rc cc : list (list Z)) :
  grid_ok h g H W → clues_ok H rc → clues_ok W cc →
  ∃ ok n h',
    propagate_once g rc cc h = (Ret (ok, n), h') ∧
    n = Z.of_nat (unknowns (rows h g)) - Z.of_nat (unknowns (rows h' g)) ∧
    (n = 0 → h' = h).
Proof.
  intros Hok Hrc Hcc.
  destruct (propagate_once_exact g H W rc cc Hrc Hcc h Hok)
    as (ok & n & h' & Heq & _ & _ & Hn & _ & Hz).
  exists ok, n, h'. split; [done|]. split; [done|]. intros Hn0. by apply Hz.
Qed.

Lemma propagate_once_counts_witness :
  let '(h, g) := load [[-1; -1; -1]; [-1; 0; -1]] in
  ∃ ok n h',
    propagate_once g [[3]; [1]] [[1]; [1]; [2]] h = (Ret (ok, n), h') ∧
    n = Z.of_nat (unknowns (rows h g)) - Z.of_nat (unknowns (rows h' g)) ∧
    (n = 0 → h' = h).
Proof.
  refine (propagate_once_counts _ _ 2 3 [[3]; [1]] [[1]; [1]; [2]] _ _ _).
  - apply (load_ok [[-1; -1; -1]; [-1; 0; -1]] 3); [done|].
    repeat constructor; by vm_compute; auto.
  - split; [done|]. repeat constructor.
  - split; [done|]. repeat constructor.
Defined.

(** X12. A grid on which [propagate] has returned [True] is a fixpoint of
    [propagate_once]: a step on it returns [(True, 0)] and leaves it as it
    is. *)
Theorem step_after_propagate (h : heap) (g : grid) (H W : nat)
    (rc cc : list (list Z)) (stop : option (nat → bool)) (cb : bool)
    (fuel polls : nat) (log : list (string * SolveStats))
    (st : SolveStats) (w' : world) :
  grid_ok h g H W → clues_ok H rc → clues_ok W cc →
  propagate fuel g rc cc stop cb (World h polls log) = (Ret (true, st), w') →
  propagate_once g rc cc (w_heap w') = (Ret (true, 0), w_heap w').
Proof.
  intros Hok Hrc Hcc Hrun.
  destruct (propagate_exact g H W rc cc stop cb Hrc Hcc fuel (World h polls log) Hok)
    as (o & w1 & Heq & Hadv & _). rewrite Hrun in Heq. injection Heq as <- <-.
  pose proof (adv_ok _ _ _ _ _ Hadv) as Hok'.
  unfold propagate, hbind in Hrun.
  rewrite on_heap_reads in Hrun by apply grid_width_reads.
  cbn [w_heap] in Hrun. rewrite (grid_width_ok Hok) in Hrun. cbn [fst] in Hrun.
  apply loop_true_final in Hrun as [Hsw _].
  replace (len g) with (Z.of_nat H) in Hsw by (unfold len; by destruct Hok as [->]).
  pose proof (sweep_same (λ _ : bool, true) Z.succ (λ _ _, True) ltac:(done)
                g rc cc (Z.of_nat H) (Z.of_nat W) false 0 (w_heap w') I) as Hsame.
  rewrite Hsw in Hsame.
  destruct (propagate_once_exact g H W rc cc Hrc Hcc (w_heap w') Hok')
    as (ok & n & h' & Heq & _ & _ & Hn & _).
  rewrite (propagate_once_sweep g H W rc cc (w_heap w') Hok') in Heq |- *.
  rewrite Heq in Hsame |- *. destruct Hsame as [Hh [Hok1 _]].
  cbn in Hh, Hok1. subst h' ok. do 2 f_equal. f_equal. lia.
Qed.

Lemma step_after_propagate_witness :
  let '(h, g) := load [[-1; -1; -1]; [-1; 0; -1]] in
  propagate_once g [[3]; [1]] [[1]; [1]; [2]] [[1; 1; 1]; [0; 0; 1]]
  = (Ret (true, 0), [[1; 1; 1]; [0; 0; 1]]).
Proof.
  refine (step_after_propagate _ _ 2 3 [[3]; [1]] [[1]; [1]; [2]] None false 5 0 []
            (Stats 2 0 0 6) (World [[1; 1; 1]; [0; 0; 1]] 0 []) _ _ _ _).
  - apply (load_ok [[-1; -1; -1]; [-1; 0; -1]] 3); [done|].
    repeat constructor; by vm_compute; auto.
  - split; [done|]. repeat constructor.
  - split; [done|]. repeat constructor.
  - vm_compute. reflexivity.
Defined.

(** X13. Where a step changes nothing, a propagation ends at once: if
    [propagate_once] returns [(True, 0)] on a well-formed grid, then
    [propagate] leaves that grid as it is and, unless it is cancelled at
    its first poll, returns [True]. *)
Theorem propagate_after_idle_step (h h' : heap) (g : grid) (H W : nat)
    (rc cc : list (list Z)) (stop : option (nat → bool)) (cb : bool)
    (fuel polls : nat) (log : list (string * SolveStats)) :
  grid_ok h g H W → clues_ok H rc → clues_ok W cc →
  propagate_once g rc cc h = (Ret (true, 0), h') →
  ∃ o w',
    propagate (Datatypes.S fuel) g rc cc stop cb (World h polls log) = (o, w') ∧
    w_heap w' = h ∧
    if flagged stop (World h polls log) then o = Abort Cancelled
    else ∃ st, o = Ret (true, st).
Proof.
  intros Hok Hrc Hcc Hstep.
  destruct (propagate_once_exact g H W rc cc Hrc Hcc h Hok)
    as (ok & n & h1 & Heq & _ & _ & _ & _ & Hz).
  rewrite Hstep in Heq. injection Heq as <- <- <-.
  destruct (Hz eq_refl) as [-> _].
  rewrite (propagate_once_sweep g H W rc cc h Hok) in Hstep.
  pose proof (sweep_same (λ _ : bool, true) Z.succ
                (λ (a : bool) (b : Z), 0 ≤ b ∧ (a = true → 0 < b))
                ltac:(intros a b [? ?]; split; intros; lia)
                g rc cc (Z.of_nat H) (Z.of_nat W) false 0 h
                ltac:(split; [lia|done])) as Hsame.
  rewrite Hstep in Hsame.
  destruct (sweep (λ _ : bool, true) g rc cc (Z.of_nat H) (Z.of_nat W) false h)
    as [[[ok changed]|e] h2] eqn:Hsw; destruct Hsame as [Hh Hres];
    cbn in Hh, Hres; [|done]. subst h2.
  destruct Hres as [Hok1 [_ Hch]]. cbn in Hok1, Hch. subst ok.
  assert (changed = false) as ->.
  { destruct changed; [|done]. specialize (Hch eq_refl). lia. }
  destruct (count_fixed_ok _ _ _ _ Hok) as [m Hm].
  unfold propagate, hbind.
  rewrite on_heap_reads by apply grid_width_reads.
  cbn [w_heap]. rewrite (grid_width_ok Hok). cbn [fst].
  replace (len g) with (Z.of_nat H) by (unfold len; by destruct Hok as [->]).
  apply (loop_rerun g rc cc stop cb (Z.of_nat H) (Z.of_nat W) fuel (Stats 0 0 0 0)
           (World h polls log) m); done.
Qed.

Lemma propagate_after_idle_step_witness :
  ∃ o w',
    propagate 1 [0; 1]%nat [[3]; [1]] [[1]; [1]; [2]] None false
      (World [[1; 1; 1]; [0; 0; 1]] 0 []) = (o, w') ∧
    w_heap w' = [[1; 1; 1]; [0; 0; 1]] ∧
    ∃ st, o = Ret (true, st).
Proof.
  refine (propagate_after_idle_step [[1; 1; 1]; [0; 0; 1]] [[1; 1; 1]; [0; 0; 1]]
            [0; 1]%nat 2 3 [[3]; [1]] [[1]; [1]; [2]] None false 0 0 [] _ _ _ _).
  - apply (load_ok [[1; 1; 1]; [0; 0; 1]] 3); [done|].
    repeat constructor; by vm_compute; auto.
  - split; [done|]. repeat constructor.
  - split; [done|]. repeat constructor.
  - vm_compute. reflexivity.
Defined.

(** X14. Propagation loses no solution.  If a full grid solves the puzzle
    and contains the given grid, then it still contains the grid
    [propagate] leaves, however the run ends, and the run does not report
    a contradiction; the same holds of [propagate_once]. *)
Theorem propagate_keeps_solutions (h : heap) (g : grid) (H W : nat)
    (rc cc : list (list Z)) (stop : option (nat → bool)) (cb : bool)
    (fuel polls : nat) (log : list (string * SolveStats)) (T : list (list Z)) :
  grid_ok h g H W → clues_ok H rc → clues_ok W cc →
  solves rc cc T → refines (rows h g) T →
  (∃ o w',
     propagate fuel g rc cc stop cb (World h polls log) = (o, w') ∧
     refines (rows (w_heap w') g) T ∧ ∀ st, o ≠ Ret (false, st)) ∧
  (∃ n h',
     propagate_once g rc cc h = (Ret (true, n), h') ∧ refines (rows h' g) T).
Proof.
  intros Hok Hrc Hcc HT Href. split.
  - destruct (propagate_exact g H W rc cc stop cb Hrc Hcc fuel (World h polls log) Hok)
      as (o & w' & Heq & _ & Hkeep & Hno & _).
    exists o, w'. split; [done|]. split; [by apply Hkeep|].
    intros st ->. by apply (Hno st eq_refl T).
  - destruct (propagate_once_exact g H W rc cc Hrc Hcc h Hok)
      as (ok & n & h' & Heq & _ & Hkeep & _ & Hno & _).
    destruct ok; [|by destruct (Hno eq_refl T)].
    exists n, h'. split; [done|]. by apply Hkeep.
Qed.

Lemma propagate_keeps_solutions_witness :
  let '(h, g) := load [[-1; -1; -1]; [-1; 0; -1]] in
  let T := [[1; 1; 1]; [0; 0; 1]] in
  (∃ o w',
     propagate 5 g [[3]; [1]] [[1]; [1]; [2]] None false (World h 0 []) = (o, w') ∧
     refines (rows (w_heap w') g) T ∧ ∀ st, o ≠ Ret (false, st)) ∧
  (∃ n h',
     propagate_once g [[3]; [1]] [[1]; [1]; [2]] h = (Ret (true, n), h') ∧
     refines (rows h' g) T).
Proof.
  refine (propagate_keeps_solutions _ _ 2 3 [[3]; [1]] [[1]; [1]; [2]] None false
            5 0 [] [[1; 1; 1]; [0; 0; 1]] _ _ _ _ _).
  - apply (load_ok [[-1; -1; -1]; [-1; 0; -1]] 3); [done|].
    repeat constructor; by vm_compute; auto.
  - split; [done|]. repeat constructor.
  - split; [done|]. repeat constructor.
  - split; [|split].
    + repeat constructor.
    + intros [|[|[|c]]] clue Hc; try discriminate Hc; injection Hc as <-; reflexivity.
    + repeat constructor; (by left) || (by right).
  - repeat constructor; intros Hne; try reflexivity; by destruct Hne.
Defined.

(** X15. A contradiction is real: when [propagate], or [propagate_once],
    reports one on a well-formed grid, no full grid solves the puzzle and
    contains the given grid. *)
Theorem contradiction_means_no_solution (h : heap) (g : grid) (H W : nat)
    (rc cc : list (list Z)) (stop : option (nat → bool)) (cb : bool)
    (fuel polls : nat) (log : list (string * SolveStats)) :
  grid_ok h g H W → clues_ok H rc → clues_ok W cc →
  (∀ st w',
     propagate fuel g rc cc stop cb (World h polls log) = (Ret (false, st), w') →
     ∀ T, solves rc cc T → ¬ refines (rows h g) T) ∧
  (∀ n h',
     propagate_once g rc cc h = (Ret (false, n), h') →
     ∀ T, solves rc cc T → ¬ refines (rows h g) T).
Proof.
  intros Hok Hrc Hcc. split.
  - intros st w' Hrun.
    destruct (propagate_exact g H W rc cc stop cb Hrc Hcc fuel (World h polls log) Hok)
      as (o & w1 & Heq & _ & _ & Hno & _).
    rewrite Hrun in Heq. injection Heq as <- <-. by apply (Hno st).
  - intros n h' Hrun.
    destruct (propagate_once_exact g H W rc cc Hrc Hcc h Hok)
      as (ok & n1 & h1 & Heq & _ & _ & _ & Hno & _).
    rewrite Hrun in Heq. injection Heq as <- <- <-. by apply Hno.
Qed.

Lemma contradiction_means_no_solution_witness :
  let '(h, g) := load [[-1; -1; -1]; [-1; -1; -1]] in
  ∀ n h',
    propagate_once g [[2]; []] [[1]; [1]; [2]] h = (Ret (false, n), h') →
    ∀ T, solves [[2]; []] [[1]; [1]; [2]] T → ¬ refines (rows h g) T.
Proof.
  refine (proj2 (contradiction_means_no_solution _ _ 2 3 [[2]; []] [[1]; [1]; [2]]
                   None false 5 0 [] _ _ _)).
  - apply (load_ok [[-1; -1; -1]; [-1; -1; -1]] 3); [done|].
    repeat constructor; by vm_compute; auto.
  - split; [done|]. repeat constructor.
  - split; [done|]. repeat constructor.
Defined.

(** X16. After a successful propagation the grid is settled: every row and
    every column has a candidate, every cell on which all candidates of its
    row, or of its column, agree is determined, and so every line that
    still has an [UNKNOWN] cell has two candidates at least. *)
Theorem propagate_settles (h : heap) (g : grid) (H W : nat)
    (rc cc : list (list Z)) (stop : option (nat → bool)) (cb : bool)
    (fuel polls : nat) (log : list (string * SolveStats))
    (st : SolveStats) (w' : world) :
  grid_ok h g H W → clues_ok H rc → clues_ok W cc →
  propagate fuel g rc cc stop cb (World h polls log) = (Ret (true, st), w') →
  settled rc cc H W (rows (w_heap w') g) ∧
  ∀ e, e ∈ branch_lines (rows (w_heap w') g) H W rc cc → 1 < len e.2.
Proof.
  intros Hok Hrc Hcc Hrun.
  destruct (propagate_exact g H W rc cc stop cb Hrc Hcc fuel (World h polls log) Hok)
    as (o & w1 & Heq & Hadv & _ & _ & Hset).
  rewrite Hrun in Heq. injection Heq as <- <-.
  specialize (Hset st eq_refl). split; [done|].
  pose proof (adv_ok _ _ _ _ _ Hadv) as Hok'.
  destruct (grid_rows_shape Hok') as [HH Hshape].
  destruct Hset as [HsetR HsetC].
  intros e [(r & Hr & Hunk & ->)|(c & Hc & Hunk & ->)]%branch_lines_elem; cbn [snd].
  - destruct (lookup_lt_is_Some_2 (rows (w_heap w') g) r) as [row Hrow]; [lia|].
    destruct Hrc as [Hlen Hpos].
    destruct (lookup_lt_is_Some_2 rc r) as [blocks Hblocks]; [lia|].
    rewrite Hrow in Hunk. rewrite Hrow, Hblocks.
    cbn [default from_option] in Hunk |- *. unfold id in Hunk |- *.
    destruct (Forall_lookup_1 _ _ _ _ Hshape Hrow) as [HW _].
    apply settled_two_cands; [done| |by eapply HsetR|done].
    by eapply Forall_lookup_1.
  - destruct Hcc as [Hlen Hpos].
    destruct (lookup_lt_is_Some_2 cc c) as [blocks Hblocks]; [lia|].
    rewrite Hblocks. cbn [default from_option]. unfold id.
    apply settled_two_cands; [by rewrite length_col_of| |by eapply HsetC|done].
    by eapply Forall_lookup_1.
Qed.

Lemma propagate_settles_witness :
  let '(h, g) := load [[-1; -1]; [-1; -1]] in
  settled [[1]; [1]] [[1]; [1]] 2 2 (rows [[-1; -1]; [-1; -1]] g) ∧
  ∀ e, e ∈ branch_lines (rows [[-1; -1]; [-1; -1]] g) 2 2 [[1]; [1]] [[1]; [1]] →
       1 < len e.2.
Proof.
  refine (propagate_settles _ _ 2 2 [[1]; [1]] [[1]; [1]] None false 5 0 []
            (Stats 1 0 0 0) (World [[-1; -1]; [-1; -1]] 0 []) _ _ _ _).
  - apply (load_ok [[-1; -1]; [-1; -1]] 2); [done|].
    repeat constructor; by vm_compute; auto.
  - split; [done|]. repeat constructor.
  - split; [done|]. repeat constructor.
  - vm_compute. reflexivity.
Defined.

(** * How many candidates a line can have *)

Lemma lines_bound (n : nat) (l : list (list Z)) :
  NoDup l →
  Forall (λ c, length c = n ∧ Forall (λ v, v = EMPTY ∨ v = FILLED) c) l →
  (length l ≤ 2 ^ n)%nat.
Proof.
  revert l. induction n as [|n IH]; intros l Hnd Hl.
  - destruct l as [|c0 [|c1 l]]; [simpl; lia|simpl; lia|].
    exfalso. apply NoDup_cons in Hnd as [Hnin _]. apply Hnin.
    apply Forall_cons in Hl as [[H0 _] Hl]. apply Forall_cons in Hl as [[H1 _] _].
    destruct c0, c1; try done. left.
  - set (P := λ c : list Z, head c = Some EMPTY).
    assert (Hsplit : length l = (length (filter P l) + length (filter (λ c, ¬ P c) l))%nat).
    { rewrite <- length_app. apply Permutation_length. symmetry.
      apply filter_app_complement. }
    assert (Htail : ∀ (Q : list Z → Prop) `{!∀ c, Decision (Q c)} (x : Z),
      (∀ c, c ∈ l → Q c → head c = Some x) →
      (length (filter Q l) ≤ 2 ^ n)%nat).
    { intros Q ? x HQ. rewrite <- (length_fmap tail). apply IH.
      - apply NoDup_fmap_2_strong; [|by apply NoDup_filter].
        intros c1 c2 [HQ1 Hc1]%list_elem_of_filter [HQ2 Hc2]%list_elem_of_filter Ht.
        pose proof (HQ c1 Hc1 HQ1) as Hh1. pose proof (HQ c2 Hc2 HQ2) as Hh2.
        destruct c1, c2; simpl in *; congruence.
      - apply Forall_fmap, Forall_forall. intros c [HQc Hc]%list_elem_of_filter.
        rewrite Forall_forall in Hl. destruct (Hl c Hc) as [Hlen Hcells].
        pose proof (HQ c Hc HQc) as Hh. destruct c as [|y c]; [done|].
        cbn in *. split; [lia|]. by apply Forall_cons in Hcells as [_ ?]. }
    pose proof (Htail P _ EMPTY ltac:(by intros)) as H0.
    pose proof (Htail (λ c, ¬ P c) _ FILLED) as H1.
    rewrite Hsplit, Nat.pow_succ_r'. 
    assert (length (filter (λ c, ¬ P c) l) ≤ 2 ^ n)%nat; [|lia].
    apply H1. intros c Hc HnP. rewrite Forall_forall in Hl.
    destruct (Hl c Hc) as [Hlen Hcells]. destruct c as [|y c]; [done|].
    apply Forall_cons in Hcells as [[->| ->] _]; [|done]. by destruct HnP.
Qed.

Lemma line_cands_bound (L : nat) blocks state :
  length state = L → Forall (λ b, 0 < b) blocks →
  len (line_cands (Z.of_nat L) blocks state) ≤ 2 ^ Z.of_nat L.
Proof.
  intros HL Hpos. unfold len.
  assert (length (line_cands (Z.of_nat L) blocks state) ≤ 2 ^ L)%nat as Hle.
  { apply lines_bound.
    - apply line_cands_NoDup; [done|unfold len; lia].
    - apply Forall_forall. intros c Hc.
      apply line_cands_elem in Hc as (Hlen & _ & Hfits); [|done|done].
      split; [done|]. by eapply fits_cells. }
  apply Nat2Z.inj_le in Hle. rewrite Nat2Z.inj_pow in Hle. exact Hle.
Qed.

Lemma small_lines_of_size rc cc (H W : nat) :
  clues_ok H rc → clues_ok W cc → (H ≤ 29)%nat → (W ≤ 29)%nat →
  small_lines rc cc H W.
Proof.
  intros [HlenR HposR] [HlenC HposC] HH HW G e HG Hshape He.
  assert (Hpow : ∀ L : nat, (L ≤ 29)%nat → 2 ^ Z.of_nat L < 10 ^ 9).
  { intros L HL. apply Z.le_lt_trans with (2 ^ 29); [|by vm_compute].
    apply Z.pow_le_mono_r; lia. }
  apply branch_lines_elem in He as [(r & Hr & _ & ->)|(c & Hc & _ & ->)]; cbn [snd].
  - destruct (lookup_lt_is_Some_2 G r) as [row Hrow]; [lia|].
    destruct (lookup_lt_is_Some_2 rc r) as [blocks Hblocks]; [lia|].
    rewrite Hrow, Hblocks. cbn [default from_option]. unfold id.
    apply Z.le_lt_trans with (2 ^ Z.of_nat W); [|by apply Hpow].
    apply line_cands_bound; [exact (Forall_lookup_1 _ _ _ _ Hshape Hrow)|].
    exact (Forall_lookup_1 _ _ _ _ HposR Hblocks).
  - destruct (lookup_lt_is_Some_2 cc c) as [blocks Hblocks]; [lia|].
    rewrite Hblocks. cbn [default from_option]. unfold id.
    apply Z.le_lt_trans with (2 ^ Z.of_nat H); [|by apply Hpow].
    apply line_cands_bound; [by rewrite length_col_of|].
    exact (Forall_lookup_1 _ _ _ _ HposC Hblocks).
Qed.

(** * Full grids *)

Lemma full_refines_eq G S :
  unknowns G = 0%nat → refines G S → S = G.
Proof.
  intros Hfull Href. apply unknowns_zero in Hfull. revert Hfull.
  induction Href as [|row srow G S Hrow HG IH]; intros Hfull; [done|].
  apply Forall_cons in Hfull as [Hr Hfull]. f_equal; [|by apply IH].
  clear -Hrow Hr. induction Hrow as [|x y row srow Hxy Hrow IH]; [done|].
  apply not_elem_of_cons in Hr as [Hx Hr]. f_equal; [|by apply IH].
  apply Hxy. congruence.
Qed.

(** A fully determined line that has a candidate is that candidate. *)
Lemma full_line_runs (L : nat) blocks ls :
  length ls = L → Forall (λ b, 0 < b) blocks → Forall cell_ok ls →
  UNKNOWN ∉ ls → line_cands (Z.of_nat L) blocks ls ≠ [] →
  runs ls = blocks ∧ Forall (λ v, v = EMPTY ∨ v = FILLED) ls.
Proof.
  intros HL Hpos Hcells Hfull Hne.
  destruct (line_cands (Z.of_nat L) blocks ls) as [|c cs] eqn:Hcs; [done|].
  assert (Hc : c ∈ line_cands (Z.of_nat L) blocks ls) by (rewrite Hcs; left).
  apply line_cands_elem in Hc as (Hlen & Hruns & Hfits); [|done|done].
  assert (c = ls) as ->.
  { apply list_eq_same_length with L; [done|done|].
    intros i x y Hi Hx Hy. pose proof (Forall_lookup_1 _ _ _ _ Hcells Hy) as Hcy.
    assert (y ≠ UNKNOWN).
    { intros ->. apply Hfull. by eapply list_elem_of_lookup_2. }
    destruct (Hfits i x Hx) as [[-> Hn]|[-> Hn]]; cbn [Nat.add] in Hn;
      rewrite Hy in Hn; destruct Hcy as [->|[->| ->]]; done. }
  split; [done|]. by eapply fits_cells.
Qed.

Lemma col_of_full (G : list (list Z)) (W c : nat) :
  Forall (λ row, length row = W) G → (c < W)%nat →
  Forall (λ row, UNKNOWN ∉ row) G → UNKNOWN ∉ col_of G c.
Proof.
  intros Hshape Hc Hfull Hin. unfold col_of in Hin.
  apply list_elem_of_fmap in Hin as (row & Hx & Hrow).
  rewrite Forall_forall in Hshape, Hfull.
  destruct (lookup_lt_is_Some_2 row c) as [x Hxc]; [rewrite (Hshape row Hrow); lia|].
  rewrite Hxc in Hx. cbn in Hx. subst x.
  apply (Hfull row Hrow). by eapply list_elem_of_lookup_2.
Qed.

Lemma settled_full_solves rc cc (H W : nat) G :
  clues_ok H rc → clues_ok W cc →
  length G = H → Forall (λ row, length row = W ∧ Forall cell_ok row) G →
  settled rc cc H W G → unknowns G = 0%nat → solves rc cc G.
Proof.
  intros [HlenR HposR] [HlenC HposC] HG Hshape [HsetR HsetC] Hfull.
  apply unknowns_zero in Hfull.
  assert (Hrows : ∀ (r : nat) row blocks, G !! r = Some row → rc !! r = Some blocks →
            runs row = blocks ∧ Forall (λ v, v = EMPTY ∨ v = FILLED) row).
  { intros r row blocks Hrow Hblocks.
    destruct (Forall_lookup_1 _ _ _ _ Hshape Hrow) as [HW Hcells].
    apply (full_line_runs W); try done.
    - exact (Forall_lookup_1 _ _ _ _ HposR Hblocks).
    - exact (Forall_lookup_1 _ _ _ _ Hfull Hrow).
    - by destruct (HsetR r row blocks Hrow Hblocks). }
  split; [|split].
  - apply Forall2_same_length_lookup_2; [lia|].
    intros r row blocks Hrow Hblocks. by destruct (Hrows r row blocks Hrow Hblocks).
  - intros c blocks Hblocks.
    assert (Hc : (c < W)%nat) by (apply lookup_lt_Some in Hblocks; lia).
    apply (full_line_runs H); try done.
    + by rewrite length_col_of.
    + exact (Forall_lookup_1 _ _ _ _ HposC Hblocks).
    + unfold col_of. apply Forall_fmap. eapply Forall_impl; [exact Hshape|].
      intros row [HW Hcells]. unfold compose.
      destruct (lookup_lt_is_Some_2 row c) as [x Hx]; [lia|]. rewrite Hx.
      exact (Forall_lookup_1 _ _ _ _ Hcells Hx).
    + apply (col_of_full G W); [|done|done].
      eapply Forall_impl; [exact Hshape|]. by intros ? [? _].
    + by destruct (HsetC c blocks Hc Hblocks).
  - apply Forall_lookup. intros r row Hrow.
    destruct (Forall_lookup_1 _ _ _ _ Hshape Hrow) as [HW _].
    destruct (lookup_lt_is_Some_2 rc r) as [blocks Hblocks].
    { apply lookup_lt_Some in Hrow. lia. }
    split; [lia|]. by destruct (Hrows r row blocks Hrow Hblocks).
Qed.

(** * The grid of a branch *)

Lemma refines_cells_iff (G S : list (list Z)) (H W : nat) :
  length G = H → Forall (λ row, length row = W) G →
  length S = H → Forall (λ row, length row = W) S →
  refines G S ↔
  ∀ (r c : nat) v, cell_of G r c = Some v → v ≠ UNKNOWN → cell_of S r c = Some v.
Proof.
  intros HG HGs HS HSs. split.
  - intros Href r c v. by apply refines_cell.
  - intros Hcells. apply Forall2_same_length_lookup_2; [lia|].
    intros r row srow Hrow Hsrow.
    pose proof (Forall_lookup_1 _ _ _ _ HGs Hrow) as HW.
    pose proof (Forall_lookup_1 _ _ _ _ HSs Hsrow) as HW'. cbn in HW, HW'.
    apply Forall2_same_length_lookup_2; [lia|].
    intros c x y Hx Hy Hne.
    specialize (Hcells r c x). unfold cell_of in Hcells.
    rewrite Hrow, Hsrow in Hcells. simpl in Hcells.
    specialize (Hcells Hx Hne). congruence.
Qed.

(** Writing a candidate over a line of a grid: the solutions containing
    the new grid are those containing the old one that have the candidate
    on that line. *)
Lemma line_write_refines (G1 G2 S : list (list Z)) (H W n : nat)
    (pr pc : nat → nat) (ls cand lineS : list Z) :
  length G1 = H → Forall (λ row, length row = W) G1 →
  length G2 = H → Forall (λ row, length row = W) G2 →
  length S = H → Forall (λ row, length row = W) S →
  (∀ (k : nat) x, cand !! k = Some x → cell_of G2 (pr k) (pc k) = Some x) →
  (∀ r c : nat, (∀ k : nat, (k < n)%nat → ¬ (pr k = r ∧ pc k = c)) →
     cell_of G2 r c = cell_of G1 r c) →
  (∀ k : nat, (k < n)%nat → cell_of G1 (pr k) (pc k) = ls !! k) →
  length ls = n → length cand = n → fits ls 0 cand → Forall cell_ok ls →
  length lineS = n →
  (∀ k : nat, (k < n)%nat → lineS !! k = cell_of S (pr k) (pc k)) →
  refines G2 S ↔ refines G1 S ∧ lineS = cand.
Proof.
  intros HG1 HG1s HG2 HG2s HS HSs Hset Hrest Hline Hls Hcand Hfits Hcells
    HlS HlineS.
  rewrite (refines_cells_iff G2 S H W), (refines_cells_iff G1 S H W) by done.
  assert (Hon : ∀ r c, Decision (Exists (λ k, pr k = r ∧ pc k = c) (seq 0 n)))
    by (intros; apply _).
  assert (Hcandv : ∀ (k : nat) x, cand !! k = Some x → x ≠ UNKNOWN).
  { intros k x Hx. by destruct (Hfits k x Hx) as [[-> _]|[-> _]]. }
  split.
  - intros H2. split.
    + intros r c v Hv Hne.
      destruct (Hon r c) as [Hex|Hnex].
      * apply Exists_exists in Hex as (k & Hk & <- & <-). apply elem_of_seq in Hk.
        rewrite Hline in Hv by lia.
        destruct (lookup_lt_is_Some_2 cand k) as [x Hx]; [lia|].
        assert (x = v) as ->.
        { pose proof (Forall_lookup_1 _ _ _ _ Hcells Hv) as Hcv.
          pose proof (Hfits k x Hx) as Hf. simpl in Hf. rewrite Hv in Hf.
          unfold cell_ok in Hcv.
          destruct Hf as [[-> Hn]|[-> Hn]], Hcv as [-> | [-> | ->]]; done. }
        apply H2; [by apply Hset|done].
      * apply H2; [|done]. rewrite Hrest; [done|].
        intros k Hk Heq. apply Hnex. apply Exists_exists. exists k.
        split; [apply elem_of_seq; lia|done].
    + apply list_eq_same_length with n; [done|done|].
      intros i x y Hi Hx Hy. rewrite HlineS in Hx by done.
      pose proof (H2 _ _ _ (Hset i y Hy) (Hcandv i y Hy)). congruence.
  - intros [H1 ->] r c v Hv Hne.
    destruct (Hon r c) as [Hex|Hnex].
    + apply Exists_exists in Hex as (k & Hk & <- & <-). apply elem_of_seq in Hk.
      destruct (lookup_lt_is_Some_2 cand k) as [x Hx]; [lia|].
      rewrite (Hset k x Hx) in Hv. injection Hv as <-.
      rewrite <- HlineS by lia. done.
    + apply H1; [|done]. rewrite <- Hrest; [done|].
      intros k Hk Heq. apply Hnex. apply Exists_exists. exists k.
      split; [apply elem_of_seq; lia|done].
Qed.

Section line_at.
Variables (rc cc : list (list Z)) (H W : nat).
Hypothesis Hrc : clues_ok H rc.
Hypothesis Hcc : clues_ok W cc.

Lemma line_at_row S (r : nat) :
    solves rc cc S → (r < H)%nat →
    length (line_at "row" (Z.of_nat r) S) = W ∧
    ∀ k : nat, line_at "row" (Z.of_nat r) S !! k = cell_of S r k.
  Proof.
    intros [HS Hshape]%(solves_shape rc cc H W Hrc Hcc) Hr.
    unfold line_at. rewrite decide_True by done. rewrite Nat2Z.id.
    destruct (lookup_lt_is_Some_2 S r) as [srow Hsrow]; [lia|].
    unfold cell_of. rewrite Hsrow. cbn.
    split; [|done]. by destruct (Forall_lookup_1 _ _ _ _ Hshape Hsrow).
  Qed.

Lemma line_at_col S (c : nat) :
    solves rc cc S → (c < W)%nat →
    length (line_at "col" (Z.of_nat c) S) = H ∧
    ∀ k : nat, (k < H)%nat → line_at "col" (Z.of_nat c) S !! k = cell_of S k c.
  Proof.
    intros [HS Hshape]%(solves_shape rc cc H W Hrc Hcc) Hc.
    unfold line_at. rewrite decide_False by done. rewrite Nat2Z.id.
    split; [by rewrite length_col_of|]. intros k Hk.
    destruct (lookup_lt_is_Some_2 S k) as [srow Hsrow]; [lia|].
    rewrite (col_of_lookup S c k srow Hsrow). unfold cell_of. rewrite Hsrow. cbn.
    destruct (Forall_lookup_1 _ _ _ _ Hshape Hsrow) as [HW _].
    destruct (lookup_lt_is_Some_2 srow c) as [z Hz]; [lia|]. by rewrite Hz.
  Qed.

  (** The line of a solution is one of the candidates of that line in any
      grid the solution contains. *)
Lemma solution_line_cand G S e :
    length G = H → Forall (λ row, length row = W) G →
    solves rc cc S → refines G S → e ∈ branch_lines G H W rc cc →
    line_at e.1.1 e.1.2 S ∈ e.2.
  Proof.
    intros HG Hshape HS Href He.
    apply branch_lines_elem in He as [(r & Hr & _ & ->)|(c & Hc & _ & ->)];
      cbn [fst snd].
    - destruct (lookup_lt_is_Some_2 G r) as [row Hrow]; [lia|].
      destruct Hrc as [HlenR HposR].
      destruct (lookup_lt_is_Some_2 rc r) as [blocks Hblocks]; [lia|].
      rewrite Hrow, Hblocks. cbn [default from_option]. unfold id.
      destruct (solution_row_cand rc cc H W (conj HlenR HposR) Hcc G S r row blocks
                  HS Href Hrow (Forall_lookup_1 _ _ _ _ Hshape Hrow) Hblocks)
        as (srow & Hsrow & Hin).
      unfold line_at. rewrite decide_True by done. rewrite Nat2Z.id, Hsrow. done.
    - destruct Hcc as [HlenC HposC].
      destruct (lookup_lt_is_Some_2 cc c) as [blocks Hblocks]; [lia|].
      rewrite Hblocks. cbn [default from_option]. unfold id.
      unfold line_at. rewrite decide_False by done. rewrite Nat2Z.id.
      by apply (solution_col_cand rc cc H W Hrc (conj HlenC HposC)).
  Qed.
End line_at.

Section branch_exact.
Context {h : heap} {cur : grid} {H W : nat}.
Variables (rc cc : list (list Z)).
Hypothesis Hok : grid_ok h cur H W.
Hypothesis Hrc : clues_ok H rc.
Hypothesis Hcc : clues_ok W cc.

Lemma rows_shape_of h0 g0 :
    grid_ok h0 g0 H W →
    length (rows h0 g0) = H ∧ Forall (λ row, length row = W) (rows h0 g0).
  Proof.
    intros Hok0. destruct (grid_rows_shape Hok0) as [HH Hshape]. split; [done|].
    eapply Forall_impl; [exact Hshape|]. by intros ? [? _].
  Qed.

Lemma branch_grid_exact e cand :
    e ∈ branch_lines (rows h cur) H W rc cc → cand ∈ e.2 →
    ∃ new h',
      branch_grid (Z.of_nat W) cur e.1.1 e.1.2 cand h = (Ret new, h') ∧
      grid_ok h' new H W ∧
      ∀ S, solves rc cc S →
        (refines (rows h' new) S ↔
         refines (rows h cur) S ∧ line_at e.1.1 e.1.2 S = cand).
  Proof.
    intros He Hcand.
    destruct (copy_grid_ok h cur H W Hok) as (new & h1 & Hcopy & Hok1 & Hrows1).
    destruct (grid_rows_shape Hok) as [HH Hshape].
    destruct (rows_shape_of h cur Hok) as [_ HshapeW].
    unfold branch_grid, hbind. rewrite Hcopy.
    apply branch_lines_elem in He
      as [(r & Hr & Hunk & ->)|(c & Hc & Hunk & ->)]; cbn [fst snd] in *.
    - destruct (lookup_lt_is_Some_2 (rows h cur) r) as [row Hrow]; [lia|].
      rewrite Hrow in *. cbn [default] in *.
      destruct (Forall_lookup_1 _ _ _ _ Hshape Hrow) as [HW Hrowok].
      destruct Hrc as [Hrclen Hrcpos].
      destruct (lookup_lt_is_Some_2 rc r) as [blocks Hblocks]; [lia|].
      rewrite Hblocks in Hcand. cbn [default] in Hcand.
      destruct (line_cands_ok W blocks row HW) as [_ Hsound];
        [by eapply Forall_lookup_1|].
      destruct (Hsound cand Hcand) as [Hclen Hfits].
      rewrite decide_True by done. unfold apply_row.
      destruct (write_line_ok new H W cand W (λ _, Z.of_nat r) (λ k, k)
                  (λ _, r) (λ k, k) h1) as (h2 & Heq & Hok2 & Hset & Hrest);
        try done; try (intros; simpl; lia).
      { eapply Forall_impl; [by eapply fits_cells|].
        intros v [->| ->]; unfold cell_ok; auto. }
      rewrite Heq. exists new, h2. split; [done|]. split; [done|].
      intros S HS.
      destruct (solves_shape rc cc H W (conj Hrclen Hrcpos) Hcc S HS) as [HSlen HSshape].
      destruct (rows_shape_of h2 new Hok2) as [HG2 HG2s].
      destruct (line_at_row rc cc H W (conj Hrclen Hrcpos) Hcc S r HS Hr)
        as [HlS HlineS].
      apply (line_write_refines (rows h cur) (rows h2 new) S H W W (λ _, r) (λ k, k)
               row cand); try done.
      + eapply Forall_impl; [exact HSshape|]. by intros ? [? _].
      + intros r' c' Hout. fold (cell h2 new r' c'). rewrite (Hrest r' c' Hout).
        unfold cell. by rewrite Hrows1.
      + intros k Hk. unfold cell_of. by rewrite Hrow.
    - destruct (col_of_shape Hok c Hc) as [Hclen Hcolok].
      destruct Hcc as [Hcclen Hccpos].
      destruct (lookup_lt_is_Some_2 cc c) as [blocks Hblocks]; [lia|].
      rewrite Hblocks in Hcand. cbn [default] in Hcand.
      destruct (line_cands_ok H blocks (col_of (rows h cur) c) Hclen) as [_ Hsound];
        [by eapply Forall_lookup_1|].
      destruct (Hsound cand Hcand) as [Hcandlen Hfits].
      rewrite decide_False by done. unfold apply_col.
      replace (len new) with (Z.of_nat H) by (unfold len; by destruct Hok1 as [->]).
      destruct (write_line_ok new H W cand H (λ k, k) (λ _, Z.of_nat c)
                  (λ k, k) (λ _, c) h1) as (h2 & Heq & Hok2 & Hset & Hrest);
        try done; try (intros; simpl; lia).
      { eapply Forall_impl; [by eapply fits_cells|].
        intros v [->| ->]; unfold cell_ok; auto. }
      rewrite Heq. exists new, h2. split; [done|]. split; [done|].
      intros S HS.
      destruct (solves_shape rc cc H W Hrc (conj Hcclen Hccpos) S HS) as [HSlen HSshape].
      destruct (rows_shape_of h2 new Hok2) as [HG2 HG2s].
      destruct (line_at_col rc cc H W Hrc (conj Hcclen Hccpos) S c HS Hc)
        as [HlS HlineS].
      apply (line_write_refines (rows h cur) (rows h2 new) S H W H (λ k, k) (λ _, c)
               (col_of (rows h cur) c) cand); try done.
      + eapply Forall_impl; [exact HSshape|]. by intros ? [? _].
      + intros r' c' Hout. fold (cell h2 new r' c'). rewrite (Hrest r' c' Hout).
        unfold cell. by rewrite Hrows1.
      + intros k Hk. destruct (column_ok Hok c Hc) as (col & Hcol & _ & _ & Hlookup).
        rewrite (column_col_of Hok c Hc) in Hcol. injection Hcol as <-.
        by rewrite Hlookup.
  Qed.
End branch_exact.

(** * What the search finds *)

Lemma rows_same h h' (sol : grid) :
  (∀ l, l ∈ sol → h' !! l = h !! l) → rows h' sol = rows h sol.
Proof.
  intros Hsame. unfold rows. apply list_fmap_ext. intros i l Hl.
  rewrite Hsame; [done|]. by eapply list_elem_of_lookup_2.
Qed.

Lemma found_frame h h' ss :
  apart [] h ss → touches_only [] h h' →
  found h' ss = found h ss ∧ apart [] h' ss.
Proof.
  intros Hap [Hlen Hkeep]. unfold found, apart in *. split.
  - apply list_fmap_ext. intros i sol Hsol. apply rows_same. intros l Hl.
    pose proof (Forall_lookup_1 _ _ _ _ Hap Hsol) as Hs.
    rewrite Forall_forall in Hs. destruct (Hs l Hl) as [Hlt _].
    apply Hkeep; [done|apply not_elem_of_nil].
  - eapply Forall_impl; [exact Hap|]. intros sol Hs.
    eapply Forall_impl; [exact Hs|]. intros l [Hlt ?]. split; [lia|done].
Qed.

Lemma found_advance cur H W h h' ss :
  apart cur h ss → advance cur H W h h' →
  found h' ss = found h ss ∧ apart cur h' ss.
Proof.
  intros Hap [_ _ Hframe Hlen]. unfold found, apart in *. split.
  - apply list_fmap_ext. intros i sol Hsol. apply rows_same. intros l Hl.
    pose proof (Forall_lookup_1 _ _ _ _ Hap Hsol) as Hs.
    rewrite Forall_forall in Hs. destruct (Hs l Hl) as [_ Hnin].
    by apply Hframe.
  - eapply Forall_impl; [exact Hap|]. intros sol Hs.
    eapply Forall_impl; [exact Hs|]. intros l [Hlt ?]. split; [lia|done].
Qed.

Lemma apart_nil cur h ss : apart cur h ss → apart [] h ss.
Proof.
  unfold apart. intros Hap. eapply Forall_impl; [exact Hap|]. intros sol Hs.
  eapply Forall_impl; [exact Hs|]. intros l [? _]. split; [done|apply not_elem_of_nil].
Qed.

Lemma apart_fresh new h0 h ss :
  apart [] h0 ss → (length h0 ≤ length h)%nat →
  Forall (λ l, l ∈ [] ∨ (length h0 ≤ l)%nat) new → apart new h ss.
Proof.
  unfold apart. intros Hap Hlen Hnew. eapply Forall_impl; [exact Hap|]. intros sol Hs.
  eapply Forall_impl; [exact Hs|]. intros l [Hlt _]. split; [lia|].
  intros Hin. rewrite Forall_forall in Hnew.
  destruct (Hnew l Hin) as [[]%elem_of_nil|?]. lia.
Qed.

Lemma explored_weaken rc cc H W max_solutions G G1 old all :
  refines G G1 → keeps_solutions rc cc G G1 →
  explored rc cc H W max_solutions G1 old all →
  explored rc cc H W max_solutions G old all.
Proof.
  intros Href Hkeep (new & Hall & Hsound & Hnd & Hcnt & Hcomp).
  exists new. split; [done|]. split.
  { eapply Forall_impl; [exact Hsound|]. intros S [HS HS1]. split; [done|].
    by eapply refines_trans. }
  split; [done|]. split; [done|]. intros Hsmall.
  destruct (Hcomp Hsmall) as [?|Hc]; [by left|right].
  intros S HS HG. apply Hc; [done|]. by apply Hkeep.
Qed.

(** A grid with an [UNKNOWN] cell has a line to branch on. *)
Lemma branch_lines_nonempty G (H W : nat) rc cc :
  length G = H → unknowns G ≠ 0%nat →
  ∃ e, e ∈ branch_lines G H W rc cc.
Proof.
  intros HG Hunk. rewrite unknowns_zero in Hunk.
  apply not_Forall_Exists in Hunk; [|apply _].
  apply Exists_exists in Hunk as (row & Hrow & Hin).
  apply list_elem_of_lookup_1 in Hrow as [r Hr].
  assert (UNKNOWN ∈ row) as Hin'.
  { destruct (decide (UNKNOWN ∈ row)); [done|by destruct Hin]. }
  eexists. unfold branch_lines. apply elem_of_app. left.
  apply list_elem_of_bind. exists r. split.
  - unfold branch_line. rewrite Hr. cbn [default from_option]. unfold id.
    rewrite decide_True by done. left.
  - apply elem_of_seq. apply lookup_lt_Some in Hr. lia.
Qed.

(** In a settled grid every line to branch on has two candidates at least. *)
Lemma settled_lines_two rc cc (H W : nat) G e :
  clues_ok H rc → clues_ok W cc →
  length G = H → Forall (λ row, length row = W) G →
  settled rc cc H W G → e ∈ branch_lines G H W rc cc → 1 < len e.2.
Proof.
  intros [HlenR HposR] [HlenC HposC] HG Hshape [HsetR HsetC].
  intros [(r & Hr & Hunk & ->)|(c & Hc & Hunk & ->)]%branch_lines_elem; cbn [snd].
  - destruct (lookup_lt_is_Some_2 G r) as [row Hrow]; [lia|].
    destruct (lookup_lt_is_Some_2 rc r) as [blocks Hblocks]; [lia|].
    rewrite Hrow in Hunk. rewrite Hrow, Hblocks.
    cbn [default from_option] in Hunk |- *. unfold id in Hunk |- *.
    apply settled_two_cands; [|exact (Forall_lookup_1 _ _ _ _ HposR Hblocks)
                              |by eapply HsetR|done].
    exact (Forall_lookup_1 _ _ _ _ Hshape Hrow).
  - destruct (lookup_lt_is_Some_2 cc c) as [blocks Hblocks]; [lia|].
    rewrite Hblocks. cbn [default from_option]. unfold id.
    apply settled_two_cands; [by rewrite length_col_of
                             |exact (Forall_lookup_1 _ _ _ _ HposC Hblocks)
                             |by eapply HsetC|done].
Qed.

Section dfs_sound.
Variables (H W : nat) (rc cc : list (list Z)).
Variables (stop : option (nat → bool)) (cb : bool) (max_solutions : Z).
Hypothesis Hrc : clues_ok H rc.
Hypothesis Hcc : clues_ok W cc.

Local Abbreviation searching := (searching H W).
Local Abbreviation propagated := (propagated rc cc H W).
Local Abbreviation searched := (searched rc cc H W max_solutions).
Local Abbreviation branching := (branching rc cc H W max_solutions).

Lemma propagate_searching fuel cur G old :
    spec (searching cur G old) (on_world (propagate fuel cur rc cc stop cb))
      (λ r, propagated r.1 cur G old) anything.
  Proof.
    intros [ss w] (Hok & Hrows & Hfound & Hapart). unfold on_world, zoom.
    cbn [fst snd] in *.
    destruct (propagate_exact cur H W rc cc stop cb Hrc Hcc fuel w Hok)
      as (o & w' & -> & Hadv & Hkeep & Hno & Hset).
    destruct o as [[ok st]|e0]; [|done].
    destruct (found_advance cur H W _ _ ss Hapart Hadv) as [Hf Ha].
    unfold propagated, on_state. cbn [fst snd]. rewrite Hrows in *.
    split_and!.
    - by destruct Hadv.
    - congruence.
    - done.
    - rewrite <- Hrows. by destruct Hadv.
    - done.
    - intros ->. by apply (Hno st).
    - intros ->. by apply (Hset st).
  Qed.

Section branches.
Variables (fuel : nat) (depth : Z) (cur : grid).
Variables (G1 : list (list Z)) (old : list (list (list Z))).
Variable e : string * Z * list (list Z).
Hypothesis He : e ∈ branch_lines G1 H W rc cc.
Hypothesis Hnd : NoDup e.2.
Hypothesis IH : ∀ new d G old',
      spec (searching new G old')
        (dfs fuel rc cc stop cb max_solutions (Z.of_nat W) new d)
        (λ _, searched G old') anything.

Lemma branching_done tried (s : search * world) :
      (len (found (w_heap s.2) s.1) >= max_solutions ∨ e.2 = tried) →
      branching cur G1 old e.1.1 e.1.2 tried s → searched G1 old s.
    Proof.
      destruct s as [ss w]. cbn [fst snd].
      intros Hend (Hok & Hrows & Hapart & new & Hfound & Hall & Hnd' & Hcnt & Hcomp).
      cbn [fst snd] in *. split; [|done]. exists new. split; [done|]. split.
      { eapply Forall_impl; [exact Hall|]. by intros S (? & ? & _). }
      split; [done|]. split; [done|]. intros Hsmall.
      destruct Hend as [?|Htried]; [by left|].
      destruct (Hcomp Hsmall) as [?|Hc]; [by left|right].
      intros S HS Href. apply Hc; [done|done|]. rewrite <- Htried.
      destruct (rows_shape_of (w_heap w) cur Hok) as [HG HGs].
      rewrite Hrows in HG, HGs.
      by apply (solution_line_cand rc cc H W Hrc Hcc G1).
    Qed.

Lemma dfs_branches_sound cands :
      ∀ tried, e.2 = tried ++ cands →
      spec (branching cur G1 old e.1.1 e.1.2 tried)
        (dfs_branches
           (λ new, dfs fuel rc cc stop cb max_solutions (Z.of_nat W) new (depth + 1))
           max_solutions (Z.of_nat W) cur e.1.1 e.1.2 cands)
        (λ _, searched G1 old) anything.
    Proof.
      induction cands as [|cand cands IHc]; intros tried Hsplit.
      { apply spec_ret. intros s. apply branching_done. right.
        by rewrite app_nil_r in Hsplit. }
      cbn [dfs_branches]. intros [ss w] Hinv.
      unfold hbind at 1, get_search. cbn [fst snd].
      destruct (decide (len (solutions ss) >= max_solutions)) as [Hmax|Hmax].
      { apply (branching_done tried (ss, w)); [|done]. left. cbn [fst snd].
        unfold found. by rewrite len_fmap. }
      destruct Hinv as (Hok & Hrows & Hapart & new & Hfound & Hall & Hnd' & Hcnt & Hcomp).
      cbn [fst snd] in Hok, Hrows, Hapart, Hfound, Hcnt, Hcomp.
      assert (Hcand : cand ∈ e.2).
      { rewrite Hsplit. apply elem_of_app. right. left. }
      pose proof He as He'. rewrite <- Hrows in He'.
      destruct (branch_grid_exact rc cc Hok Hrc Hcc e cand He' Hcand)
        as (new_grid & h2 & Hbranch & Hok2 & Hiff).
      pose proof (branch_grid_keeps [] (w_heap w) (Z.of_nat W) cur e.1.1 e.1.2 cand
                    (w_heap w) (touches_refl _ _)) as Hkeep.
      rewrite Hbranch in Hkeep. destruct Hkeep as [Hkeep Hfresh].
      destruct (found_frame _ _ ss Hapart Hkeep) as [Hfound2 Hapart2].
      unfold hbind at 1. unfold on_world at 1, on_heap at 1, zoom.
      cbn [fst snd w_heap w_polls w_progress]. rewrite Hbranch.
      set (s2 := (ss, World h2 (w_polls w) (w_progress w))).
      pose proof (spec_conj _ _ _ _ _ _ _
        (IH new_grid (depth + 1) (rows h2 new_grid) (found (w_heap w) ss))
        (dfs_keeps [] (w_heap w) rc cc stop cb max_solutions (Z.of_nat W) fuel
           new_grid (depth + 1) Hfresh) s2) as Hrec.
      unfold hbind.
      destruct (dfs fuel rc cc stop cb max_solutions (Z.of_nat W) new_grid
                  (depth + 1) s2) as [[[]|e'] [ss3 w3]] eqn:Hdfs; [|done].
      destruct Hrec as [Hpost Hkeep3].
      { split; [|exact Hkeep]. unfold searching, on_state. cbn [fst snd w_heap].
        split; [done|]. split; [done|]. split; [done|].
        eapply apart_fresh; [exact Hapart|by destruct Hkeep|done]. }
      apply (IHc (tried ++ [cand])); [by rewrite <- app_assoc|].
      unfold kept, on_state in Hkeep3. cbn [fst snd] in Hkeep3.
      destruct (grid_ok_keeps _ _ _ _ _ Hok Hkeep3) as [Hok3 Hrows3].
      destruct Hpost as [(new3 & Hfound3 & Hall3 & Hnd3 & Hcnt3 & Hcomp3) Hapart3].
      cbn [fst snd] in Hfound3, Hcnt3, Hcomp3, Hapart3.
      unfold branching, on_state. cbn [fst snd].
      split; [done|]. split; [congruence|]. split; [done|].
      assert (Hnew3 : ∀ S, S ∈ new3 →
                solves rc cc S ∧ refines G1 S ∧ line_at e.1.1 e.1.2 S = cand).
      { intros S HS. rewrite Forall_forall in Hall3.
        destruct (Hall3 S HS) as [Hsol Href]. apply Hiff in Href as [? ?]; [|done].
        rewrite <- Hrows. done. }
      assert (Hfresh_cand : cand ∉ tried).
      { intros Hin. rewrite Hsplit in Hnd. apply NoDup_app in Hnd as (_ & Hdis & _).
        apply (Hdis cand Hin). left. }
      exists (new ++ new3). split; [by rewrite Hfound3, Hfound, app_assoc|].
      split; [|split; [|split]].
      - apply Forall_app. split.
        + eapply Forall_impl; [exact Hall|]. intros S (? & ? & Hin).
          split; [done|]. split; [done|]. apply elem_of_app. by left.
        + apply Forall_forall. intros S HS. destruct (Hnew3 S HS) as (? & ? & ->).
          split; [done|]. split; [done|]. apply elem_of_app. right. left.
      - apply NoDup_app. split; [done|]. split; [|done].
        intros S HS HS3. rewrite Forall_forall in Hall.
        destruct (Hall S HS) as (_ & _ & Hin). destruct (Hnew3 S HS3) as (_ & _ & Heq).
        rewrite Heq in Hin. done.
      - assert (len (found (w_heap w) ss) + 1 ≤ max_solutions).
        { unfold found. rewrite len_fmap. lia. }
        lia.
      - intros Hsmall. destruct (Hcomp3 Hsmall) as [?|Hc3]; [by left|right].
        intros S HS Href Hline. apply elem_of_app.
        apply elem_of_app in Hline as [Hin|Hin%list_elem_of_singleton].
        + left. destruct (Hcomp Hsmall) as [Hge|Hc].
          * unfold found in Hge. rewrite len_fmap in Hge. lia.
          * by apply Hc.
        + right. apply Hc3; [done|]. apply Hiff; [done|]. by rewrite Hrows.
    Qed.
End branches.

Lemma searched_nothing ok cur G old (s : search * world) :
    propagated ok cur G old s →
    (small_lines rc cc H W → ∀ T, solves rc cc T → ¬ refines G T) →
    searched G old s.
  Proof.
    destruct s as [ss w]. intros (Hok & Hfound & Hapart & _) Hno.
    unfold searched, on_state. cbn [fst snd] in *.
    split; [|by eapply apart_nil].
    exists []. rewrite app_nil_r, Hfound. split; [done|]. split; [done|].
    split; [constructor|]. split; [lia|]. intros Hsmall. right.
    intros T HT Href. by destruct (Hno Hsmall T HT).
  Qed.

Lemma dfs_sound fuel :
    ∀ cur depth G old,
      spec (searching cur G old)
        (dfs fuel rc cc stop cb max_solutions (Z.of_nat W) cur depth)
        (λ _, searched G old) anything.
  Proof.
    induction fuel as [|fuel IH]; intros cur depth G old.
    { by apply spec_lift. }
    cbn [dfs]. eapply spec_bind.
    { eapply spec_conseq; [apply (spec_check_cancel
        (λ h ss, grid_ok h cur H W ∧ rows h cur = G ∧
                 found h ss = old ∧ apart cur h ss))|done|done|done]. }
    intros []. eapply spec_bind.
    { eapply spec_conseq; [apply (spec_on_search
        (λ h ss, grid_ok h cur H W ∧ rows h cur = G ∧
                 found h ss = old ∧ apart cur h ss) _ anything)| |done|done].
      by intros [ss w] ?. }
    intros []. eapply spec_bind; [apply propagate_searching|].
    intros [ok pstats]. cbn [fst]. eapply spec_bind.
    { apply (spec_reads_exact _ _ (λ _ _, True)). intros h ss (Hok & _).
      destruct (count_fixed_ok h cur H W Hok) as [n Hn]. by exists n. }
    intros n. eapply spec_bind.
    { eapply spec_conseq; [apply (spec_on_search
        (λ h ss, grid_ok h cur H W ∧ found h ss = old ∧ apart cur h ss ∧
                 refines G (rows h cur) ∧ keeps_solutions rc cc G (rows h cur) ∧
                 (ok = false → ∀ T, solves rc cc T → ¬ refines G T) ∧
                 (ok = true → settled rc cc H W (rows h cur))) _ anything)
        | |done|done].
      by intros [ss w] [? _]. }
    intros []. destruct ok; cbn [negb].
    2: { apply spec_ret. intros s Hs. apply (searched_nothing false cur G old s Hs).
         intros _. destruct s as [ss w]. by destruct Hs as (_ & _ & _ & _ & _ & Hno & _);
           apply Hno. }
    eapply spec_bind.
    { apply (spec_reads_exact _ _
               (λ b h, b = bool_decide (unknowns (rows h cur) = 0%nat))).
      intros h ss (Hok & _). eexists. split; [by eapply is_solved_ok|done]. }
    intros solved. apply spec_pre.
    intros [ss w] [(Hok & Hfound & Hapart & Href & Hkeep & _ & Hset) Hsolved].
    cbn [fst snd] in *. specialize (Hset eq_refl).
    destruct (rows_shape_of (w_heap w) cur Hok) as [HG1 HG1s].
    destruct (grid_rows_shape Hok) as [_ Hshape].
    destruct solved.
    - (* solved: record a copy *)
      symmetry in Hsolved. apply bool_decide_eq_true in Hsolved.
      intros ? ->.
      pose proof (copy_grid_exact cur (w_heap w) (grid_ok_locs _ _ _ _ Hok)) as Hcopy.
      destruct (copy_grid_ok (w_heap w) cur H W Hok) as (g' & h' & Hcopy' & Hok' & Hrows').
      rewrite Hcopy in Hcopy'. injection Hcopy' as <- <-.
      unfold hbind, on_world at 1, on_heap at 1, zoom. cbn [fst snd].
      rewrite Hcopy. cbn [fst snd]. unfold on_search. cbn [fst snd].
      unfold searched, on_state. cbn [fst snd w_heap solutions].
      assert (Hkeep' : touches_only [] (w_heap w) (w_heap w ++ rows (w_heap w) cur)).
      { split; [rewrite length_app; lia|]. intros l Hl _. by apply lookup_app_l. }
      destruct (found_frame _ _ ss (apart_nil _ _ _ Hapart) Hkeep') as [Hf' Ha'].
      split.
      + apply (explored_weaken rc cc H W max_solutions G (rows (w_heap w) cur));
          [done|done|].
        exists [rows (w_heap w) cur]. split.
        { unfold found in *. cbn [solutions]. rewrite fmap_app. cbn [fmap list_fmap].
          rewrite Hf', Hfound, Hrows'. done. }
        split.
        { constructor; [|constructor]. split; [|apply refines_refl].
          apply (settled_full_solves rc cc H W); done. }
        split; [apply NoDup_singleton|]. split.
        { unfold found. cbn [solutions]. rewrite len_fmap, len_app.
          unfold found in Hfound. rewrite <- Hfound, len_fmap.
          unfold len at 2. cbn [length]. lia. }
        intros _. right. intros T HT HrefT.
        apply list_elem_of_singleton. by apply full_refines_eq.
      + unfold apart in *. cbn [solutions]. apply Forall_app. split; [done|].
        constructor; [|constructor]. apply Forall_forall. intros l Hl.
        split; [|apply not_elem_of_nil].
        pose proof (grid_ok_locs _ _ _ _ Hok') as Hlocs.
        rewrite Forall_forall in Hlocs. by apply Hlocs.
    - (* not solved: branch *)
      symmetry in Hsolved. apply bool_decide_eq_false in Hsolved.
      assert (Hmid : propagated true cur G old (ss, w)).
      { unfold propagated, on_state. cbn [fst snd]. by split_and!. }
      eapply spec_bind.
      { eapply spec_conseq.
        - apply (spec_reads_exact (λ h0 ss0, (ss0, h0) = (ss, w_heap w)) _
            (λ a h, let b := choose (branch_lines (rows h cur) H W rc cc)
                               (Best EmptyString (-1) [] (10 ^ 9)) in
                    a = (best_type b, best_index b, best_candidates b))
            anything).
          intros h0 ss0 [= -> ->]. eexists. split; [|done].
          by apply best_branch_line_choose.
        - by intros ? ->.
        - intros a s Hq. exact Hq.
        - done. }
      intros [[lt idx] cands]. apply spec_pre.
      intros [ss0 w0] [Hst Hbest]. cbn [fst snd] in Hst, Hbest.
      injection Hst as -> Hw0. cbn zeta in Hbest. rewrite Hw0 in Hbest.
      destruct (choose_spec (branch_lines (rows (w_heap w) cur) H W rc cc)
                  (Best EmptyString (-1) [] (10 ^ 9)))
        as [[Hb Hnone]|(k & ty & idx' & cs & Hk & Hb & Hlen & _)];
        rewrite Hb in Hbest; injection Hbest as -> -> ->.
      { apply spec_ret. intros ? ->.
        assert (Hmid0 : propagated true cur G old (ss, w0)).
        { unfold propagated, on_state. cbn [fst snd]. rewrite Hw0.
          by split_and!. }
        apply (searched_nothing true cur G old (ss, w0) Hmid0).
        intros Hsmall T HT HrefT.
        destruct (branch_lines_nonempty (rows (w_heap w) cur) H W rc cc HG1 Hsolved)
          as [e He].
        pose proof (settled_lines_two rc cc H W _ e Hrc Hcc HG1 HG1s Hset He) as Htwo.
        pose proof (Hsmall _ e HG1 HG1s He) as Hlt.
        apply (Hnone e He). cbn [best_count]. lia. }
      destruct cs as [|c0 cs]; [unfold len in Hlen; simpl in Hlen; lia|].
      apply list_elem_of_lookup_2 in Hk.
      assert (Hnd : NoDup (ty, idx', c0 :: cs).2).
      { apply branch_lines_elem in Hk
          as [(r & Hr & _ & Heq)|(c & Hc & _ & Heq)];
          injection Heq as _ _ ->; apply line_cands_NoDup.
        - destruct Hrc as [HlenR HposR].
          destruct (rc !! r) as [blocks|] eqn:Hblocks; [|constructor].
          exact (Forall_lookup_1 _ _ _ _ HposR Hblocks).
        - destruct (lookup_lt_is_Some_2 (rows (w_heap w) cur) r) as [row Hrow];
            [lia|]. rewrite Hrow. cbn [default from_option]. unfold id, len.
          by rewrite (Forall_lookup_1 _ _ _ _ HG1s Hrow).
        - destruct Hcc as [HlenC HposC].
          destruct (cc !! c) as [blocks|] eqn:Hblocks; [|constructor].
          exact (Forall_lookup_1 _ _ _ _ HposC Hblocks).
        - unfold len. by rewrite length_col_of, HG1. }
      eapply spec_conseq.
      + exact (dfs_branches_sound fuel depth cur (rows (w_heap w) cur) old
                 (ty, idx', c0 :: cs) Hk Hnd IH (c0 :: cs) [] eq_refl).
      + intros s ->. unfold branching, on_state. cbn [fst snd]. rewrite Hw0.
        split; [done|]. split; [done|]. split; [by eapply apart_nil|].
        exists []. rewrite app_nil_r. split; [done|]. split; [constructor|].
        split; [constructor|]. split; [rewrite Hfound; lia|].
        intros _. right. intros S _ _ Hin. by apply elem_of_nil in Hin.
      + intros [] [ss3 w3] [Hexp Hap3]. split; [|done]. cbn [fst snd] in *.
        by apply (explored_weaken rc cc H W max_solutions G (rows (w_heap w) cur)).
      + done.
  Qed.
End dfs_sound.

Lemma search_run_sound (H W : nat) rc cc stop cb max_solutions fuel g w :
  clues_ok H rc → clues_ok W cc → grid_ok (w_heap w) g H W →
  (H * W < fuel)%nat →
  ∃ o ss w',
    search_run fuel g rc cc stop cb max_solutions (Z.of_nat W) w = (o, (ss, w')) ∧
    (o = Abort Cancelled ∨
     o = Ret () ∧
     explored rc cc H W max_solutions (rows (w_heap w) g) []
       (found (w_heap w') ss)).
Proof.
  intros Hrc Hcc Hok Hfuel.
  destruct (search_run_ok H W rc cc stop cb max_solutions fuel g w Hrc Hcc Hok Hfuel)
    as (o & ss & w' & Hrun & Ho & _).
  exists o, ss, w'. split; [done|]. destruct Ho as [-> | ->]; [right|by left].
  split; [done|]. unfold search_run, hbind in Hrun.
  destruct (copy_grid_ok _ g H W Hok) as (start & h1 & Hcopy & Hok1 & Hrows1).
  unfold on_world at 1, on_heap at 1, zoom in Hrun. cbn [fst snd] in Hrun.
  rewrite Hcopy in Hrun. cbn [fst snd] in Hrun.
  pose proof (dfs_sound H W rc cc stop cb max_solutions Hrc Hcc fuel start 0
                (rows h1 start) []
                (Search [] (Stats 0 0 0 0), World h1 (w_polls w) (w_progress w)))
    as Hdfs.
  rewrite Hrun in Hdfs. rewrite <- Hrows1. apply Hdfs.
  unfold searching, on_state. cbn [fst snd w_heap]. split; [done|]. split; [done|].
  split; [done|]. constructor.
Qed.

Lemma solve_unfold (H W : nat) rc cc stop cb max_solutions fuel g h polls log :
  grid_ok h g H W →
  solve_nonogram fuel g rc cc stop cb max_solutions (World h polls log)
  = match search_run fuel g rc cc stop cb max_solutions (Z.of_nat W)
            (World h polls log) with
    | (Abort Cancelled, (ss, w')) =>
        (Ret (Result "cancelled" [] (stats ss) "Solve cancelled"), w')
    | (Abort e, (ss, w')) => (Abort e, w')
    | (Ret _, (ss, w')) =>
        match solutions ss with
        | [] => (Ret (Result "unsolved" [] (stats ss) "No solution"), w')
        | _ =>
            if decide (len (solutions ss) >= 2)
            then (Ret (Result "multiple" (take 2 (solutions ss)) (stats ss)
                         "Multiple solutions found"), w')
            else (Ret (Result "solved" (solutions ss) (stats ss)
                         "Unique solution"), w')
        end
    end.
Proof.
  intros Hok. unfold solve_nonogram. unfold hbind at 1.
  rewrite on_heap_reads by apply grid_width_reads. cbn [w_heap].
  rewrite (grid_width_ok Hok). cbn [fst]. done.
Qed.

(** * Properties of the search *)

(** X17. Every solution [solve_nonogram] returns is one: with a step bound
    above the number of cells the solve returns a result, and every grid in
    it is a full grid whose rows and columns have the clues as their runs
    and which keeps every determined cell of the given grid; no grid is
    returned twice. *)
Theorem returned_solutions_solve (h : heap) (g : grid) (H W : nat)
    (rc cc : list (list Z)) (stop : option (nat → bool)) (cb : bool)
    (max_solutions : Z) (fuel polls : nat) (log : list (string * SolveStats)) :
  grid_ok h g H W → clues_ok H rc → clues_ok W cc → (H * W < fuel)%nat →
  ∃ res w',
    solve_nonogram fuel g rc cc stop cb max_solutions (World h polls log)
      = (Ret res, w') ∧
    Forall (λ S, solves rc cc S ∧ refines (rows h g) S)
      (rows (w_heap w') <$> result_solutions res) ∧
    NoDup (rows (w_heap w') <$> result_solutions res).
Proof.
  intros Hok Hrc Hcc Hfuel. rewrite (solve_unfold H W) by done.
  destruct (search_run_sound H W rc cc stop cb max_solutions fuel g
              (World h polls log) Hrc Hcc Hok Hfuel)
    as (o & ss & w' & -> & [-> | [-> Hexp]]).
  { eexists _, _. split; [done|]. cbn. split; constructor. }
  destruct Hexp as (new & Hnew & Hsound & Hnd & _). cbn [w_heap app] in Hnew, Hsound.
  unfold found in Hnew. rewrite <- Hnew in Hsound, Hnd.
  destruct (solutions ss) as [|s1 sols] eqn:Hsols.
  { eexists _, _. split; [done|]. cbn. split; constructor. }
  destruct (decide _).
  - eexists _, _. split; [done|]. cbn [result_solutions]. rewrite fmap_take.
    split; [by apply Forall_take|]. eapply sublist_NoDup; [exact Hnd|].
    apply sublist_take.
  - eexists _, _. split; [done|]. done.
Qed.

Lemma returned_solutions_solve_witness :
  let '(h, g) := load [[-1; -1]; [-1; -1]] in
  ∃ res w',
    solve_nonogram 5 g [[1]; [1]] [[1]; [1]] None false 2 (World h 0 [])
      = (Ret res, w') ∧
    Forall (λ S, solves [[1]; [1]] [[1]; [1]] S ∧ refines (rows h g) S)
      (rows (w_heap w') <$> result_solutions res) ∧
    NoDup (rows (w_heap w') <$> result_solutions res).
Proof.
  refine (returned_solutions_solve _ _ 2 2 [[1]; [1]] [[1]; [1]] None false 2 5 0 []
            _ _ _ _).
  - apply (load_ok [[-1; -1]; [-1; -1]] 2); [done|].
    repeat constructor; by vm_compute; auto.
  - split; [done|]. repeat constructor.
  - split; [done|]. repeat constructor.
  - lia.
Defined.

(** X18. The verdicts are right where no line is too long for the selector
    (no line of the grid ever has [10^9] candidates): "unsolved" means
    that no solution contains the given grid, if [max_solutions] is 1 at
    least; "solved" means that the solution returned is the only one, if
    [max_solutions] is 2 at least; "multiple" comes with two different
    solutions. *)
Theorem verdicts_are_right (h : heap) (g : grid) (H W : nat)
    (rc cc : list (list Z)) (stop : option (nat → bool)) (cb : bool)
    (max_solutions : Z) (fuel polls : nat) (log : list (string * SolveStats)) :
  grid_ok h g H W → clues_ok H rc → clues_ok W cc → (H * W < fuel)%nat →
  small_lines rc cc H W →
  ∃ res w',
    solve_nonogram fuel g rc cc stop cb max_solutions (World h polls log)
      = (Ret res, w') ∧
    let sols := rows (w_heap w') <$> result_solutions res in
    (status res = "unsolved" → 1 ≤ max_solutions →
     ∀ S, solves rc cc S → ¬ refines (rows h g) S) ∧
    (status res = "solved" → 2 ≤ max_solutions →
     ∃ S, sols = [S] ∧ solves rc cc S ∧ refines (rows h g) S ∧
          ∀ S', solves rc cc S' → refines (rows h g) S' → S' = S) ∧
    (status res = "multiple" →
     ∃ S1 S2, sols = [S1; S2] ∧ S1 ≠ S2 ∧
              solves rc cc S1 ∧ refines (rows h g) S1 ∧
              solves rc cc S2 ∧ refines (rows h g) S2).
Proof.
  intros Hok Hrc Hcc Hfuel Hsmall. rewrite (solve_unfold H W) by done.
  destruct (search_run_sound H W rc cc stop cb max_solutions fuel g
              (World h polls log) Hrc Hcc Hok Hfuel)
    as (o & ss & w' & -> & [-> | [-> Hexp]]).
  { eexists _, _. split; [done|]. cbn. by split_and!. }
  destruct Hexp as (new & Hnew & Hsound & Hnd & _ & Hcomp).
  cbn [w_heap app] in Hnew, Hsound, Hcomp. specialize (Hcomp Hsmall).
  unfold found in Hnew, Hcomp. rewrite len_fmap in Hcomp.
  destruct (solutions ss) as [|s1 sols] eqn:Hsols.
  { eexists _, _. split; [done|]. cbn zeta. cbn [status result_solutions].
    split; [|by split]. intros _ Hmax S HS Href.
    destruct Hcomp as [Hge|Hc]; [unfold len in Hge; simpl in Hge; lia|].
    specialize (Hc S HS Href). rewrite <- Hnew in Hc. by apply elem_of_nil in Hc. }
  destruct (decide _) as [Htwo|Hone].
  - eexists _, _. split; [done|]. cbn zeta. cbn [status result_solutions].
    split; [done|]. split; [done|]. intros _.
    destruct sols as [|s2 sols]; [unfold len in Htwo; simpl in Htwo; lia|].
    cbn [take fmap list_fmap]. cbn [fmap list_fmap] in Hnew. rewrite <- Hnew in *.
    apply Forall_cons in Hsound as [[? ?] Hsound].
    apply Forall_cons in Hsound as [[? ?] _].
    apply NoDup_cons in Hnd as [Hnin _].
    eexists _, _. split; [done|]. split; [|done].
    intros Heq. apply Hnin. rewrite Heq. left.
  - eexists _, _. split; [done|]. cbn zeta. cbn [status result_solutions].
    split; [done|]. split; [|done]. intros _ Hmax.
    destruct sols as [|s2 sols]; [|unfold len in Hone; simpl in Hone; lia].
    cbn [fmap list_fmap] in Hnew |- *. rewrite <- Hnew in *.
    apply Forall_cons in Hsound as [[? ?] _].
    eexists. split; [done|]. split; [done|]. split; [done|].
    intros S' HS' Href'.
    destruct Hcomp as [Hge|Hc]; [unfold len in Hge; simpl in Hge; lia|].
    specialize (Hc S' HS' Href'). by apply list_elem_of_singleton in Hc.
Qed.

Lemma verdicts_are_right_witness :
  let '(h, g) := load [[-1; -1]; [-1; -1]] in
  ∃ res w',
    solve_nonogram 5 g [[2]; [1]] [[2]; [1]] None false 2 (World h 0 [])
      = (Ret res, w') ∧
    let sols := rows (w_heap w') <$> result_solutions res in
    (status res = "unsolved" → 1 ≤ 2 →
     ∀ S, solves [[2]; [1]] [[2]; [1]] S → ¬ refines (rows h g) S) ∧
    (status res = "solved" → 2 ≤ 2 →
     ∃ S, sols = [S] ∧ solves [[2]; [1]] [[2]; [1]] S ∧ refines (rows h g) S ∧
          ∀ S', solves [[2]; [1]] [[2]; [1]] S' → refines (rows h g) S' → S' = S) ∧
    (status res = "multiple" →
     ∃ S1 S2, sols = [S1; S2] ∧ S1 ≠ S2 ∧
              solves [[2]; [1]] [[2]; [1]] S1 ∧ refines (rows h g) S1 ∧
              solves [[2]; [1]] [[2]; [1]] S2 ∧ refines (rows h g) S2).
Proof.
  refine (verdicts_are_right _ _ 2 2 [[2]; [1]] [[2]; [1]] None false 2 5 0 []
            _ _ _ _ _).
  - apply (load_ok [[-1; -1]; [-1; -1]] 2); [done|].
    repeat constructor; by vm_compute; auto.
  - split; [done|]. repeat constructor.
  - split; [done|]. repeat constructor.
  - lia.
  - apply small_lines_of_size; try lia; (split; [done|]); repeat constructor.
Defined.

(** * Counting cells *)

Lemma filter_split_length {A} (P : A → Prop) `{!∀ x, Decision (P x)} (l : list A) :
  (length (filter P l) + length (filter (λ x, ¬ P x) l) = length l)%nat.
Proof.
  rewrite <- length_app. apply Permutation_length, filter_app_complement.
Qed.

Lemma fixed_and_unknown (G : list (list Z)) (H W : nat) :
  length G = H → Forall (λ row, length row = W) G →
  len (filter (λ v, v ≠ UNKNOWN) (concat G)) + Z.of_nat (unknowns G)
  = Z.of_nat (H * W).
Proof.
  intros <-. unfold len, unknowns. induction 1 as [|row G Hrow HG IH].
  - done.
  - cbn [concat sum_list_with length]. rewrite filter_app, length_app.
    pose proof (filter_split_length (λ v, v = UNKNOWN) row) as Hs.
    unfold unk_row at 1. lia.
Qed.

(** * Further properties of the engine *)

(** X19. A line of [L] cells has at most [2^L] candidates. *)
Theorem candidates_at_most (L : Z) (blocks line_state : list Z) :
  len line_state = L → Forall (λ b, 0 < b) blocks →
  ∃ cands, _line_candidates L blocks line_state = Ret cands ∧
           len cands ≤ 2 ^ L.
Proof.
  intros HL Hpos. unfold len in HL. subst L.
  destruct (line_cands_ok (length line_state) blocks line_state eq_refl Hpos)
    as [Heq _].
  eexists. split; [exact Heq|]. by apply line_cands_bound.
Qed.

Lemma candidates_at_most_witness :
  ∃ cands, _line_candidates 5 [1; 1] [-1; -1; -1; -1; -1] = Ret cands ∧
           len cands ≤ 2 ^ 5.
Proof.
  refine (candidates_at_most 5 [1; 1] [-1; -1; -1; -1; -1] _ _).
  - reflexivity.
  - repeat constructor.
Defined.

(** X20. On a grid of at most 29 rows and 29 columns the bound the selector
    starts from hides no line: [_best_branch_line] returns no candidates
    exactly when no line with an [UNKNOWN] cell has two candidates or
    more. *)
Theorem selector_on_small_grids (h : heap) (g : grid) (H W : nat)
    (rc cc : list (list Z)) :
  grid_ok h g H W → clues_ok H rc → clues_ok W cc →
  (H ≤ 29)%nat → (W ≤ 29)%nat →
  ∃ ty idx cs,
    _best_branch_line g rc cc h = (Ret (ty, idx, cs), h) ∧
    (cs = [] ↔
     ∀ e, e ∈ branch_lines (rows h g) H W rc cc → len e.2 ≤ 1).
Proof.
  intros Hok Hrc Hcc HH HW.
  rewrite (best_branch_line_choose Hok rc cc Hrc Hcc). cbn zeta.
  pose proof (small_lines_of_size rc cc H W Hrc Hcc HH HW) as Hsmall.
  destruct (rows_shape_of h g Hok) as [HG HGs].
  destruct (choose_spec (branch_lines (rows h g) H W rc cc)
              (Best EmptyString (-1) [] (10 ^ 9)))
    as [[-> Hnone]|(k & ty & idx & cs & Hk & -> & Hlen & _)];
    eexists _, _, _; (split; [done|]); cbn [best_candidates].
  - split; [|done]. intros _ e He. specialize (Hnone e He). cbn [best_count] in Hnone.
    pose proof (Hsmall _ e HG HGs He). lia.
  - split.
    + intros ->. unfold len in Hlen. simpl in Hlen. lia.
    + intros Hall. apply list_elem_of_lookup_2 in Hk. specialize (Hall _ Hk).
      cbn [snd] in Hall. lia.
Qed.

Lemma selector_on_small_grids_witness :
  let '(h, g) := load [[-1; -1; -1]; [-1; -1; -1]] in
  ∃ ty idx cs,
    _best_branch_line g [[1]; [2]] [[1]; [1]; [1]] h = (Ret (ty, idx, cs), h) ∧
    (cs = [] ↔
     ∀ e, e ∈ branch_lines (rows h g) 2 3 [[1]; [2]] [[1]; [1]; [1]] →
          len e.2 ≤ 1).
Proof.
  refine (selector_on_small_grids _ _ 2 3 [[1]; [2]] [[1]; [1]; [1]] _ _ _ _ _).
  - apply (load_ok [[-1; -1; -1]; [-1; -1; -1]] 3); [done|].
    repeat constructor; by vm_compute; auto.
  - split; [done|]. repeat constructor.
  - split; [done|]. repeat constructor.
  - lia.
  - lia.
Defined.

(** X21. The search records at most [max(1, max_solutions)] solutions: the
    first node may record one whatever the limit, and no branch is entered
    once [max_solutions] are recorded. *)
Theorem search_records_at_most (h : heap) (g : grid) (H W : nat)
    (rc cc : list (list Z)) (stop : option (nat → bool)) (cb : bool)
    (max_solutions : Z) (fuel polls : nat) (log : list (string * SolveStats)) :
  grid_ok h g H W → clues_ok H rc → clues_ok W cc → (H * W < fuel)%nat →
  ∃ o ss w',
    search_run fuel g rc cc stop cb max_solutions (Z.of_nat W) (World h polls log)
      = (o, (ss, w')) ∧
    (o = Abort Cancelled ∨
     o = Ret () ∧ len (solutions ss) ≤ Z.max 1 max_solutions).
Proof.
  intros Hok Hrc Hcc Hfuel.
  destruct (search_run_sound H W rc cc stop cb max_solutions fuel g
              (World h polls log) Hrc Hcc Hok Hfuel)
    as (o & ss & w' & Hrun & [-> | [-> Hexp]]).
  { exists (Abort Cancelled), ss, w'. split; [done|]. by left. }
  exists (Ret ()), ss, w'. split; [done|]. right. split; [done|].
  destruct Hexp as (new & _ & _ & _ & Hcnt & _).
  unfold found in Hcnt. rewrite len_fmap in Hcnt. unfold len in Hcnt at 2.
  simpl in Hcnt. lia.
Qed.

Lemma search_records_at_most_witness :
  let '(h, g) := load [[-1; -1]; [-1; -1]] in
  ∃ o ss w',
    search_run 5 g [[1]; [1]] [[1]; [1]] None false 1 (Z.of_nat 2) (World h 0 [])
      = (o, (ss, w')) ∧
    (o = Abort Cancelled ∨ o = Ret () ∧ len (solutions ss) ≤ Z.max 1 1).
Proof.
  refine (search_records_at_most _ _ 2 2 [[1]; [1]] [[1]; [1]] None false 1 5 0 []
            _ _ _ _).
  - apply (load_ok [[-1; -1]; [-1; -1]] 2); [done|].
    repeat constructor; by vm_compute; auto.
  - split; [done|]. repeat constructor.
  - split; [done|]. repeat constructor.
  - lia.
Defined.

(** X22. On a well-formed grid of [H] rows and [W] columns [_count_fixed]
    returns the number of cells less the number of [UNKNOWN] cells, and
    [_is_solved] answers [True] exactly when that count is the number of
    cells. *)
Theorem solved_iff_all_fixed (h : heap) (g : grid) (H W : nat) :
  grid_ok h g H W →
  ∃ n,
    _count_fixed g h = (Ret n, h) ∧
    n = Z.of_nat (H * W) - Z.of_nat (unknowns (rows h g)) ∧
    _is_solved g h = (Ret (bool_decide (n = Z.of_nat (H * W))), h).
Proof.
  intros Hok. destruct (rows_shape_of h g Hok) as [HG HGs].
  pose proof (fixed_and_unknown (rows h g) H W HG HGs) as Hsum.
  exists (len (filter (λ v, v ≠ UNKNOWN) (concat (rows h g)))).
  split; [|split; [lia|]].
  - unfold _count_fixed, hbind. by rewrite (deref_rows Hok).
  - rewrite (is_solved_ok h g H W Hok). do 2 f_equal.
    apply bool_decide_ext. lia.
Qed.

Lemma solved_iff_all_fixed_witness :
  let '(h, g) := load [[1; -1; 0]; [-1; -1; 1]] in
  ∃ n,
    _count_fixed g h = (Ret n, h) ∧
    n = Z.of_nat (2 * 3) - Z.of_nat (unknowns (rows h g)) ∧
    _is_solved g h = (Ret (bool_decide (n = Z.of_nat (2 * 3))), h).
Proof.
  refine (solved_iff_all_fixed _ _ 2 3 _).
  apply (load_ok [[1; -1; 0]; [-1; -1; 1]] 3); [done|].
  repeat constructor; by vm_compute; auto.
Defined.

(** X23. The functions that only inspect a grid never write to it, on any
    input and however they end: [_is_solved], [_count_fixed] and
    [_best_branch_line] leave every row as it is, also when they raise. *)
Theorem readers_leave_grid (g : grid) (rc cc : list (list Z)) (h : heap) :
  (_is_solved g h).2 = h ∧ (_count_fixed g h).2 = h ∧
  (_best_branch_line g rc cc h).2 = h.
Proof.
  split_and!; apply stable_reads; intros J.
  - apply stable_is_solved.
  - apply stable_count_fixed.
  - apply stable_best_branch_line.
Qed.

(** X24. An empty grid: [propagate], [propagate_once], [_best_branch_line]
    and [solve_nonogram] raise [IndexError] on it, reading [grid[0]], and
    [solve_nonogram] does so outside its [try] block; [_is_solved] answers
    [True] and [_count_fixed] 0. *)
Theorem empty_grid (fuel : nat) (rc cc : list (list Z))
    (stop : option (nat → bool)) (cb : bool) (max_solutions : Z) (w : world) :
  propagate fuel [] rc cc stop cb w = (Abort IndexError, w) ∧
  propagate_once [] rc cc (w_heap w) = (Abort IndexError, w_heap w) ∧
  _best_branch_line [] rc cc (w_heap w) = (Abort IndexError, w_heap w) ∧
  solve_nonogram fuel [] rc cc stop cb max_solutions w = (Abort IndexError, w) ∧
  _is_solved [] (w_heap w) = (Ret true, w_heap w) ∧
  _count_fixed [] (w_heap w) = (Ret 0, w_heap w).
Proof. destruct w as [h polls log]. by split_and!. Qed.

(** X25. A solve cancelled before it starts: when the flag is set at the
    first poll, [solve_nonogram] on a well-formed grid returns the status
    "cancelled" with no solution and no node visited, having only copied
    the grid; and [propagate] raises [Cancelled] without touching the
    grid. *)
Theorem cancelled_at_once (h : heap) (g : grid) (H W : nat)
    (rc cc : list (list Z)) (is_set : nat → bool) (cb : bool)
    (max_solutions : Z) (fuel polls : nat) (log : list (string * SolveStats)) :
  grid_ok h g H W → is_set polls = true →
  solve_nonogram (S fuel) g rc cc (Some is_set) cb max_solutions (World h polls log)
  = (Ret (Result "cancelled" [] (Stats 0 0 0 0) "Solve cancelled"),
     World (h ++ rows h g) (S polls) log) ∧
  propagate (S fuel) g rc cc (Some is_set) cb (World h polls log)
  = (Abort Cancelled, World h (S polls) log).
Proof.
  intros Hok Hset. split.
  - rewrite (solve_unfold H W) by done. unfold search_run, hbind.
    unfold on_world at 1, on_heap at 1, zoom. cbn [fst snd w_heap].
    rewrite (copy_grid_exact g h (grid_ok_locs _ _ _ _ Hok)).
    cbn [dfs]. unfold hbind, on_world, zoom, _check_cancel.
    cbn [fst snd w_heap w_polls w_progress]. by rewrite Hset.
  - unfold propagate, hbind. rewrite on_heap_reads by apply grid_width_reads.
    cbn [w_heap]. rewrite (grid_width_ok Hok). cbn [fst propagate_loop].
    unfold hbind, propagate_pass, hbind, _check_cancel.
    cbn [w_heap w_polls w_progress]. by rewrite Hset.
Qed.

Lemma cancelled_at_once_witness :
  let '(h, g) := load [[-1; -1]; [-1; -1]] in
  solve_nonogram 1 g [[1]; [1]] [[1]; [1]] (Some (λ _, true)) false 2 (World h 0 [])
  = (Ret (Result "cancelled" [] (Stats 0 0 0 0) "Solve cancelled"),
     World (h ++ rows h g) 1 []) ∧
  propagate 1 g [[1]; [1]] [[1]; [1]] (Some (λ _, true)) false (World h 0 [])
  = (Abort Cancelled, World h 1 []).
Proof.
  refine (cancelled_at_once _ _ 2 2 [[1]; [1]] [[1]; [1]] (λ _, true) false 2 0 0 []
            _ _).
  - apply (load_ok [[-1; -1]; [-1; -1]] 2); [done|].
    repeat constructor; by vm_compute; auto.
  - reflexivity.
Defined.

(** * What a propagation reports *)

Section stats.
Variables (g : grid) (rc cc : list (list Z)).
Variables (stop : option (nat → bool)) (cb : bool) (height width : Z).

Lemma pass_stats st w o w' :
    propagate_pass g rc cc stop cb height width st w = (o, w') →
    w_polls w' = (if stop then Datatypes.S (w_polls w) else w_polls w) ∧
    match o with
    | Abort _ => True
    | Ret (Contradiction st') =>
        st' = Stats (iterations st + 1) (nodes st) (max_depth st) (fixed_cells st) ∧
        w_progress w' = w_progress w
    | Ret (Swept _ st') =>
        iterations st' = iterations st + 1 ∧ nodes st' = nodes st ∧
        max_depth st' = max_depth st ∧
        _count_fixed g (w_heap w') = (Ret (fixed_cells st'), w_heap w') ∧
        w_progress w' = w_progress w ++ (if cb then [("propagate"%string, st')] else [])
    end.
  Proof.
    unfold propagate_pass, hbind, _check_cancel.
    assert (Hrest : ∀ w0 : world,
      (let (y, s') := on_heap (sweep (λ _, true) g rc cc height width false) w0 in
       match y with
       | Ret a =>
           (let '(ok, changed) := a in
            if ok then
              λ s : world,
                let (y0, s'0) := on_heap (_count_fixed g) s in
                match y0 with
                | Ret a0 =>
                    let (y1, s'1) :=
                      report cb "propagate"
                        (Stats (iterations st + 1) (nodes st) (max_depth st) a0) s'0 in
                    match y1 with
                    | Ret _ =>
                        hret (Swept changed
                          (Stats (iterations st + 1) (nodes st) (max_depth st) a0)) s'1
                    | Abort e => (Abort e, s'1)
                    end
                | Abort e => (Abort e, s'0)
                end
            else
              hret (Contradiction
                (Stats (iterations st + 1) (nodes st) (max_depth st) (fixed_cells st))))
             s'
       | Abort e => (Abort e, s')
       end) = (o, w') →
      w_polls w' = w_polls w0 ∧
      match o with
      | Abort _ => True
      | Ret (Contradiction st') =>
          st' = Stats (iterations st + 1) (nodes st) (max_depth st) (fixed_cells st) ∧
          w_progress w' = w_progress w0
      | Ret (Swept _ st') =>
          iterations st' = iterations st + 1 ∧ nodes st' = nodes st ∧
          max_depth st' = max_depth st ∧
          _count_fixed g (w_heap w') = (Ret (fixed_cells st'), w_heap w') ∧
          w_progress w' = w_progress w0 ++ (if cb then [("propagate"%string, st')] else [])
      end).
    { intros w0. unfold on_heap at 1. unfold zoom.
      destruct (sweep _ _ _ _ _ _ _ _) as [[[[] changed]|e] h'] eqn:Hsw.
      - pose proof (count_fixed_reads g h') as Hr.
        unfold on_heap, zoom. cbn [w_heap w_polls w_progress].
        destruct (_count_fixed g h') as [[n|e] h''] eqn:Hcf; simpl in Hr; subst h''.
        + unfold report, hret. destruct cb; intros [= <- <-];
            cbn [w_heap w_polls w_progress iterations nodes max_depth fixed_cells];
            split_and!; try done. by rewrite app_nil_r.
        + by intros [= <- <-].
      - unfold hret. by intros [= <- <-].
      - by intros [= <- <-]. }
    destruct stop as [is_set|].
    - destruct (is_set (w_polls w)).
      + by intros [= <- <-].
      + intros Heq. by apply Hrest in Heq.
    - intros Heq. by apply Hrest in Heq.
  Qed.

Lemma loop_stats fuel st w ok st' w' :
    propagate_loop fuel g rc cc stop cb height width st w = (Ret (ok, st'), w') →
    ∃ k : nat, (0 < k)%nat ∧
      iterations st' = iterations st + Z.of_nat k ∧
      nodes st' = nodes st ∧ max_depth st' = max_depth st ∧
      w_polls w' = (w_polls w + if stop then k else 0)%nat ∧
      ∃ new, w_progress w' = w_progress w ++ new ∧
        length new = (if cb then (if ok then k else k - 1) else 0)%nat ∧
        Forall (λ p, p.1 = "propagate"%string) new ∧
        (ok = true →
         _count_fixed g (w_heap w') = (Ret (fixed_cells st'), w_heap w') ∧
         (cb = true → last new = Some ("propagate"%string, st'))).
  Proof.
    revert st w. induction fuel as [|fuel IH]; intros st w; [done|].
    rewrite loop_unfold.
    destruct (propagate_pass g rc cc stop cb height width st w)
      as [[[st1|changed st1]|e] w1] eqn:Hpass; [| |done];
      apply pass_stats in Hpass as [Hpolls Hpass].
    - destruct Hpass as [-> Hlog]. intros [= <- <- <-].
      exists 1%nat. cbn [iterations nodes max_depth]. split_and!; try done; try lia.
      + rewrite Hpolls. destruct stop; lia.
      + exists []. rewrite app_nil_r. split_and!; try done. by destruct cb.
    - destruct Hpass as (Hit & Hn & Hd & Hcf & Hlog). destruct changed.
      + intros Hrun. apply IH in Hrun
          as (k & Hk & Hit' & Hn' & Hd' & Hpolls' & new & Hlog' & Hlen & Hall & Hlast).
        exists (Datatypes.S k). split_and!; try lia; try congruence.
        * rewrite Hpolls', Hpolls. destruct stop; lia.
        * exists ((if cb then [("propagate"%string, st1)] else []) ++ new).
          split; [by rewrite Hlog', Hlog, app_assoc|]. split_and!.
          -- rewrite length_app, Hlen. destruct cb, ok; simpl; lia.
          -- apply Forall_app. split; [|done]. destruct cb; by repeat constructor.
          -- intros Hok. destruct (Hlast Hok) as [Hcf' Hl]. split; [done|].
             intros Hcb. rewrite last_app, (Hl Hcb). done.
      + intros [= <- <- <-]. exists 1%nat. split_and!; try done; try lia.
        * rewrite Hpolls. destruct stop; lia.
        * eexists. split; [exact Hlog|]. split_and!.
          -- by destruct cb.
          -- destruct cb; by repeat constructor.
          -- intros _. split; [done|]. by intros ->.
  Qed.
End stats.

(** X26. What a propagation reports: when [propagate] returns, its
    [iterations] is the number of passes made, 1 at least, and is the
    number of times the cancellation flag was polled; [nodes] and
    [max_depth] are 0; the progress callback, if there is one, was called
    with the stage "propagate" once for every pass that ended without a
    contradiction, the last time with the statistics returned; and after
    a success [fixed_cells] is what [_count_fixed] gives for the grid. *)
Theorem propagate_reports (fuel : nat) (g : grid) (rc cc : list (list Z))
    (stop : option (nat → bool)) (cb : bool) (w w' : world)
    (ok : bool) (st : SolveStats) :
  propagate fuel g rc cc stop cb w = (Ret (ok, st), w') →
  1 ≤ iterations st ∧ nodes st = 0 ∧ max_depth st = 0 ∧
  Z.of_nat (w_polls w') = Z.of_nat (w_polls w) + (if stop then iterations st else 0) ∧
  ∃ new,
    w_progress w' = w_progress w ++ new ∧
    len new = (if cb then (if ok then iterations st else iterations st - 1) else 0) ∧
    Forall (λ p, p.1 = "propagate"%string) new ∧
    (ok = true →
     _count_fixed g (w_heap w') = (Ret (fixed_cells st), w_heap w') ∧
     (cb = true → last new = Some ("propagate"%string, st))).
Proof.
  unfold propagate, hbind. rewrite on_heap_reads by apply grid_width_reads.
  destruct (grid_width g (w_heap w)).1 as [width|e]; [|done].
  intros Hrun. apply loop_stats in Hrun
    as (k & Hk & Hit & Hn & Hd & Hpolls & new & Hlog & Hlen & Hall & Hlast).
  cbn [iterations nodes max_depth] in Hit, Hn, Hd.
  split_and!; try lia.
  - rewrite Hpolls. destruct stop; lia.
  - exists new. split; [done|]. split; [|done]. unfold len. rewrite Hlen.
    destruct cb, ok; lia.
Qed.

Lemma propagate_reports_witness :
  let '(h, g) := load [[-1; -1; -1]; [-1; 0; -1]] in
  let w' := World [[1; 1; 1]; [0; 0; 1]] 2
              [("propagate"%string, Stats 1 0 0 6); ("propagate"%string, Stats 2 0 0 6)] in
  let st := Stats 2 0 0 6 in
  1 ≤ iterations st ∧ nodes st = 0 ∧ max_depth st = 0 ∧
  Z.of_nat (w_polls w') = Z.of_nat 0 + iterations st ∧
  ∃ new,
    w_progress w' = [] ++ new ∧
    len new = iterations st ∧
    Forall (λ p, p.1 = "propagate"%string) new ∧
    (true = true →
     _count_fixed g (w_heap w') = (Ret (fixed_cells st), w_heap w') ∧
     (true = true → last new = Some ("propagate"%string, st))).
Proof.
  refine (propagate_reports 5 [0; 1]%nat [[3]; [1]] [[1]; [1]; [2]]
            (Some (λ _, false)) true
            (World [[-1; -1; -1]; [-1; 0; -1]] 0 [])
            (World [[1; 1; 1]; [0; 0; 1]] 2
               [("propagate"%string, Stats 1 0 0 6);
                ("propagate"%string, Stats 2 0 0 6)])
            true (Stats 2 0 0 6) _).
  vm_compute. reflexivity.
Defined.

(** * A propagation that fails *)

Section failed.
Variables (g : grid) (H W : nat) (rc cc : list (list Z)).
Hypothesis Hrc : clues_ok H rc.
Hypothesis Hcc : clues_ok W cc.



End failed.

(** * Claims about a failed propagation *)



(** The same grid under [propagate]: the run fails in the first pass and
    leaves the five cells determined. *)
Example failed_propagate_run :
  let '(h, g) := load [[-1; -1; -1]; [-1; -1; -1]] in
  ∃ st, propagate 5 g [[2]; []] [[1]; [1]; [2]] None false (World h 0 [])
        = (Ret (false, st), World [[1; 1; -1]; [0; 0; 0]] 0 []).
Proof. vm_compute. eauto. Qed.

(** * A clue that does not fit its line *)

(** Without a cancellation flag a propagation is never cancelled. *)
Lemma loop_uncancelled g (H W : nat) rc cc cb fuel st w :
  clues_ok H rc → clues_ok W cc → grid_ok (w_heap w) g H W →
  (propagate_loop fuel g rc cc None cb (Z.of_nat H) (Z.of_nat W) st w).1
  ≠ Abort Cancelled.
Proof.
  intros Hrc Hcc. revert st w. induction fuel as [|fuel IH]; intros st w Hok; [done|].
  rewrite loop_unfold.
  destruct (pass_cases g rc cc None cb (Z.of_nat H) (Z.of_nat W) st w)
    as (o & w1 & Hpass & Hc). rewrite Hpass. cbn [flagged] in Hc.
  destruct (sweep_flag_exact g H W rc cc Hrc Hcc (w_heap w) Hok)
    as (ok & changed & h' & Hsw & Hadv & _).
  rewrite Hsw in Hc. destruct ok.
  - destruct Hc as [Hc Hh]. subst h'.
    pose proof (adv_ok _ _ _ _ _ Hadv) as Hok1.
    destruct (count_fixed_ok _ _ _ _ Hok1) as [n Hn]. rewrite Hn in Hc.
    cbn [fst] in Hc. destruct Hc as [st1 ->]. destruct changed; [by apply IH|done].
  - by destruct Hc as [[st1 ->] _].
Qed.

Section unfit.
Variables (g : grid) (H W : nat) (rc cc : list (list Z)).
Hypothesis Hrc : clues_ok H rc.
Hypothesis Hcc : clues_ok W cc.
Hypothesis Hunfit :
    (∃ blocks, blocks ∈ rc ∧ Z.of_nat W < sum blocks + len blocks - 1) ∨
    (∃ blocks, blocks ∈ cc ∧ Z.of_nat H < sum blocks + len blocks - 1).

  (** No grid with a line for the clue is settled. *)
Lemma unfit_not_settled h :
    grid_ok h g H W → ¬ settled rc cc H W (rows h g).
  Proof.
    intros Hok [Hrows Hcols].
    destruct (grid_rows_shape Hok) as [HH Hshape].
    destruct Hrc as [HlenR HposR], Hcc as [HlenC HposC].
    destruct Hunfit as [(blocks & Hin & Hfit)|(blocks & Hin & Hfit)];
      apply list_elem_of_lookup_1 in Hin as [k Hk].
    - destruct (lookup_lt_is_Some_2 (rows h g) k) as [row Hrow].
      { rewrite HH, <- HlenR. by eapply lookup_lt_Some. }
      destruct (Hrows k row blocks Hrow Hk) as [Hne _]. apply Hne.
      pose proof (Forall_lookup_1 _ _ _ _ Hshape Hrow) as [HW _].
      unfold line_cands.
      rewrite (unfit_clue_no_candidates (Z.of_nat W) blocks row); try done.
      + unfold len. lia.
      + exact (Forall_lookup_1 _ _ _ _ HposR Hk).
    - assert (Hc : (k < W)%nat) by (rewrite <- HlenC; by eapply lookup_lt_Some).
      destruct (Hcols k blocks Hc Hk) as [Hne _]. apply Hne.
      destruct (col_of_shape Hok k Hc) as [HlenCol _].
      unfold line_cands.
      rewrite (unfit_clue_no_candidates (Z.of_nat H) blocks (col_of (rows h g) k));
        try done.
      + unfold len. lia.
      + exact (Forall_lookup_1 _ _ _ _ HposC Hk).
  Qed.

  (** Propagation answers [False]. *)
Lemma unfit_propagate cb fuel w :
    grid_ok (w_heap w) g H W → (H * W < fuel)%nat →
    ∃ st w',
      propagate fuel g rc cc None cb w = (Ret (false, st), w') ∧
      grid_ok (w_heap w') g H W.
  Proof.
    intros Hok Hfuel.
    destruct (propagate_exact g H W rc cc None cb Hrc Hcc fuel w Hok)
      as (o & w' & Heq & Hadv & _ & _ & Hset).
    pose proof (adv_ok _ _ _ _ _ Hadv) as Hok'.
    destruct (propagate_ok g H W rc cc None cb Hrc Hcc fuel w Hok)
      as (o2 & w2 & Heq2 & _ & Ho).
    rewrite Heq in Heq2. injection Heq2 as <- <-.
    destruct o as [[[] st]|e].
    - destruct (unfit_not_settled (w_heap w') Hok'). by eapply Hset.
    - by exists st, w'.
    - exfalso. destruct Ho as [->|[-> Hle]].
      + pose proof (loop_uncancelled g H W rc cc cb fuel (Stats 0 0 0 0) w
                      Hrc Hcc Hok) as Hnc.
        unfold propagate, hbind in Heq.
        rewrite on_heap_reads in Heq by apply grid_width_reads.
        rewrite (grid_width_ok Hok) in Heq. cbn [fst] in Heq.
        replace (len g) with (Z.of_nat H) in Heq
          by (unfold len; by destruct Hok as [->]).
        by rewrite Heq in Hnc.
      + destruct (grid_rows_shape Hok) as [HH Hshape].
        assert ((unknowns (rows (w_heap w) g) ≤ H * W)%nat); [|lia].
        apply unknowns_le; [done|]. eapply Forall_impl; [done|]. by intros ? [? _].
  Qed.
End unfit.

(** A node of the search at which propagation answers [False]: the search
    returns from it with the solutions it had. *)
Lemma dfs_contradiction fuel rc cc cb max_solutions width cur depth ss w st w1 n :
  propagate (Datatypes.S fuel) cur rc cc None cb w = (Ret (false, st), w1) →
  _count_fixed cur (w_heap w1) = (Ret n, w_heap w1) →
  ∃ ss',
    dfs (Datatypes.S fuel) rc cc None cb max_solutions width cur depth (ss, w)
    = (Ret (), (ss', w1)) ∧
    solutions ss' = solutions ss.
Proof.
  intros Hp Hc. cbn [dfs].
  unfold hbind, on_world, on_search, on_heap, zoom, _check_cancel.
  cbn [fst snd]. rewrite Hp. cbn [fst snd w_heap]. rewrite Hc.
  cbn [negb]. unfold hret. rewrite world_eta. by eexists.
Qed.

(** * Claims about the puzzle record *)

(** C5, as the code has it.  Construction and loading check the sizes, the
    number of clues, the shape and the values of the grid, and loading the
    sign of the clue values; neither checks that a clue fits its line.  So
    a puzzle with positive clue values one of which needs more cells than
    its line has is constructed and loaded like any other, with the grid
    given or, when none is given, a blank one; and the engine gets it:
    the generator returns no candidate for that line whatever its state,
    [propagate] answers [False], the contradiction, and [solve_nonogram]
    returns the status "unsolved". *)
Theorem unfit_clue_is_a_contradiction (w h : Z) (rc cc gr : list (list Z))
    (fuel : nat) (cb : bool) (max_solutions : Z) (polls : nat)
    (log : list (string * SolveStats)) :
  0 < w → 0 < h → len rc = h → len cc = w →
  Forall (Forall (λ b, 0 < b)) rc → Forall (Forall (λ b, 0 < b)) cc →
  gr = [] ∨ len gr = h ∧ Forall (λ row, len row = w ∧ Forall cell_ok row) gr →
  (∃ blocks, blocks ∈ rc ∧ w < sum blocks + len blocks - 1) ∨
  (∃ blocks, blocks ∈ cc ∧ h < sum blocks + len blocks - 1) →
  (Z.to_nat h * Z.to_nat w < fuel)%nat →
  let p := Model.MkPuzzle w h rc cc
             match gr with
             | [] => replicate (Z.to_nat h) (replicate (Z.to_nat w) UNKNOWN)
             | _ => gr
             end in
  Model.__post_init__ (Model.MkPuzzle w h rc cc gr) = Model.Valid p ∧
  Model.load_json (Model.Json (Some w) (Some h) (Some rc) (Some cc) (Some gr))
  = Model.Valid p ∧
  (∀ blocks ls,
     blocks ∈ rc ∧ len ls = w ∧ w < sum blocks + len blocks - 1 ∨
     blocks ∈ cc ∧ len ls = h ∧ h < sum blocks + len blocks - 1 →
     _line_candidates (len ls) blocks ls = Ret []) ∧
  (∃ st w',
     propagate fuel (load (Model.grid p)).2 rc cc None cb
       (World (load (Model.grid p)).1 polls log) = (Ret (false, st), w')) ∧
  (∃ st w',
     solve_nonogram fuel (load (Model.grid p)).2 rc cc None cb max_solutions
       (World (load (Model.grid p)).1 polls log)
     = (Ret (Result "unsolved" [] st "No solution"), w')).
Proof.
  intros Hw Hh HlenR HlenC HposR HposC Hgr Hunfit Hfuel p.
  assert (Hv : Model._validate p = Model.Valid ()).
  { apply validate_spec. subst p. cbn. split; [done|]. split; [done|].
    destruct Hgr as [->|[Hlen Hshape]].
    - rewrite !len_replicate. split; [lia|].
      apply Forall_replicate. rewrite len_replicate. split; [lia|].
      apply Forall_replicate. by left.
    - destruct gr as [|r0 gr']; [unfold len in Hlen; simpl in Hlen; lia|done]. }
  assert (Hnew : Model.__post_init__ (Model.MkPuzzle w h rc cc gr) = Model.Valid p).
  { unfold Model.__post_init__. cbn [Model.width Model.height Model.row_clues
      Model.col_clues Model.grid].
    rewrite decide_False by lia.
    destruct rc as [|r0 rc']; [unfold len in HlenR; simpl in HlenR; lia|].
    destruct cc as [|c0 cc']; [unfold len in HlenC; simpl in HlenC; lia|].
    fold p. by rewrite Hv. }
  split; [done|]. split.
  { unfold Model.load_json.
    cbn [Model.j_width Model.j_height Model.j_row_clues Model.j_col_clues
         Model.j_grid default from_option]. unfold id.
    rewrite !normalize_spec.
    rewrite !bool_decide_eq_true_2 by (by apply positive_clues_equiv).
    transitivity (Model.__post_init__ p); [subst p; by destruct gr|].
    by apply post_init_fixed. }
  split.
  { intros blocks ls [(Hin & Hlen & Hfit)|(Hin & Hlen & Hfit)];
      (apply unfit_clue_no_candidates; [done| |lia]).
    - by apply (proj1 (Forall_forall _ _) HposR).
    - by apply (proj1 (Forall_forall _ _) HposC). }
  destruct (validated_grid_ok p Hw Hh Hv) as (Hok & HR & HC).
  cbn [Model.width Model.height Model.row_clues Model.col_clues] in Hok, HR, HC.
  set (H := Z.to_nat h) in *. set (W := Z.to_nat w) in *.
  assert (Hrc : clues_ok H rc) by done.
  assert (Hcc : clues_ok W cc) by done.
  assert (Hunfit' :
    (∃ blocks, blocks ∈ rc ∧ Z.of_nat W < sum blocks + len blocks - 1) ∨
    (∃ blocks, blocks ∈ cc ∧ Z.of_nat H < sum blocks + len blocks - 1)).
  { subst H W. rewrite !Z2Nat.id by lia. done. }
  split.
  - destruct (unfit_propagate _ H W rc cc Hrc Hcc Hunfit' cb fuel
                (World (load (Model.grid p)).1 polls log) Hok Hfuel)
      as (st & w' & Heq & _). by exists st, w'.
  - rewrite (solve_unfold H W) by done. unfold search_run, hbind.
    destruct (copy_grid_ok _ _ H W Hok) as (start & h1 & Hcopy & Hok1 & _).
    unfold on_world at 1, on_heap at 1, zoom. cbn [fst snd w_heap w_polls w_progress].
    rewrite Hcopy. cbn [fst snd].
    destruct fuel as [|fuel]; [lia|].
    destruct (unfit_propagate start H W rc cc Hrc Hcc Hunfit' cb (Datatypes.S fuel)
                (World h1 polls log) Hok1 Hfuel) as (st & w1 & Hp & Hok2).
    destruct (count_fixed_ok _ _ _ _ Hok2) as [n Hn].
    destruct (dfs_contradiction fuel rc cc cb max_solutions (Z.of_nat W) start 0
                (Search [] (Stats 0 0 0 0)) _ _ _ n Hp Hn) as (ss' & -> & Hsol).
    cbn [solutions] in Hsol. rewrite Hsol. by eexists _, _.
Qed.

Lemma unfit_clue_is_a_contradiction_witness :
  let p := Model.MkPuzzle 3 1 [[5]] [[]; []; []]
             (replicate (Z.to_nat 1) (replicate (Z.to_nat 3) UNKNOWN)) in
  Model.__post_init__ (Model.MkPuzzle 3 1 [[5]] [[]; []; []] []) = Model.Valid p ∧
  Model.load_json (Model.Json (Some 3) (Some 1) (Some [[5]]) (Some [[]; []; []])
                     (Some []))
  = Model.Valid p ∧
  (∀ blocks ls,
     blocks ∈ [[5]] ∧ len ls = 3 ∧ 3 < sum blocks + len blocks - 1 ∨
     blocks ∈ [[]; []; []] ∧ len ls = 1 ∧ 1 < sum blocks + len blocks - 1 →
     _line_candidates (len ls) blocks ls = Ret []) ∧
  (∃ st w',
     propagate 4 (load (Model.grid p)).2 [[5]] [[]; []; []] None false
       (World (load (Model.grid p)).1 0 []) = (Ret (false, st), w')) ∧
  (∃ st w',
     solve_nonogram 4 (load (Model.grid p)).2 [[5]] [[]; []; []] None false 2
       (World (load (Model.grid p)).1 0 [])
     = (Ret (Result "unsolved" [] st "No solution"), w')).
Proof.
  refine (unfit_clue_is_a_contradiction 3 1 [[5]] [[]; []; []] [] 4 false 2 0 []
            _ _ _ _ _ _ _ _ _).
  - lia.
  - lia.
  - reflexivity.
  - reflexivity.
  - repeat constructor.
  - repeat constructor.
  - by left.
  - left. exists [5]. split; [by left|]. vm_compute. reflexivity.
  - vm_compute. lia.
Defined.

(** * A search that gives up *)

(** A node of the search at which propagation answers [True], the grid is
    not solved and the selector returns no candidate: the search returns
    from it with the solutions it had. *)
Lemma dfs_no_branch fuel rc cc cb max_solutions width cur depth ss w st w1 n
    ty idx :
  propagate (Datatypes.S fuel) cur rc cc None cb w = (Ret (true, st), w1) →
  _count_fixed cur (w_heap w1) = (Ret n, w_heap w1) →
  _is_solved cur (w_heap w1) = (Ret false, w_heap w1) →
  _best_branch_line cur rc cc (w_heap w1) = (Ret (ty, idx, []), w_heap w1) →
  ∃ ss',
    dfs (Datatypes.S fuel) rc cc None cb max_solutions width cur depth (ss, w)
    = (Ret (), (ss', w1)) ∧
    solutions ss' = solutions ss.
Proof.
  intros Hp Hc Hs Hb. cbn [dfs].
  unfold hbind, on_world, on_search, on_heap, zoom, _check_cancel.
  cbn [fst snd]. rewrite Hp. cbn [fst snd w_heap]. rewrite Hc.
  cbn [negb fst snd w_heap w_polls w_progress]. rewrite Hs.
  cbn [fst snd w_heap w_polls w_progress]. rewrite Hb.
  unfold hret. cbn [fst snd]. rewrite world_eta. by eexists.
Qed.

Section stuck.
Variables (g : grid) (H W : nat) (rc cc : list (list Z)).
Hypothesis Hrc : clues_ok H rc.
Hypothesis Hcc : clues_ok W cc.

  (** Where every [UNKNOWN] cell is filled in one solution and empty in
      another, propagation determines nothing. *)
Lemma propagate_idle cb fuel w :
    grid_ok (w_heap w) g H W → (H * W < fuel)%nat →
    (∀ r c, cell_of (rows (w_heap w) g) r c = Some UNKNOWN →
       ∃ S1 S2,
         solves rc cc S1 ∧ refines (rows (w_heap w) g) S1 ∧
         solves rc cc S2 ∧ refines (rows (w_heap w) g) S2 ∧
         cell_of S1 r c ≠ cell_of S2 r c) →
    (∃ S, solves rc cc S ∧ refines (rows (w_heap w) g) S) →
    ∃ st w',
      propagate fuel g rc cc None cb w = (Ret (true, st), w') ∧
      w_heap w' = w_heap w.
  Proof.
    intros Hok Hfuel Hdiff (S0 & HS0 & Href0).
    destruct (propagate_exact g H W rc cc None cb Hrc Hcc fuel w Hok)
      as (o & w' & Heq & Hadv & Hkeep & Hno & _).
    destruct (propagate_ok g H W rc cc None cb Hrc Hcc fuel w Hok)
      as (o2 & w2 & Heq2 & _ & Ho).
    rewrite Heq in Heq2. injection Heq2 as <- <-.
    destruct (grid_rows_shape Hok) as [HH Hshape].
    destruct o as [[[] st]|e].
    - exists st, w'. split; [done|].
      apply (advance_same_rows g H W); [done|].
      pose proof (adv_refines _ _ _ _ _ Hadv) as Href.
      destruct (grid_rows_shape (adv_ok _ _ _ _ _ Hadv)) as [HH' Hshape'].
      apply refines_antisym; [done|].
      apply (refines_cells_iff _ _ H W); try done;
        try (eapply Forall_impl; [done|]; by intros ? [? _]).
      intros r c v Hv Hne.
      assert (Hu : ∃ u, cell_of (rows (w_heap w) g) r c = Some u).
      { unfold cell_of in Hv |- *.
        destruct (rows (w_heap w') g !! r) as [row'|] eqn:Hrow'; [|done].
        destruct (Forall2_lookup_r _ _ _ _ _ Href Hrow') as (row & Hrow & Hrr).
        rewrite Hrow. cbn in Hv |- *.
        destruct (Forall2_lookup_r _ _ _ _ _ Hrr Hv) as (u & Hu & _). eauto. }
      destruct Hu as [u Hu]. destruct (decide (u = UNKNOWN)) as [->|Hnu].
      + exfalso. destruct (Hdiff r c Hu) as (S1 & S2 & H1 & R1 & H2 & R2 & Hd).
        apply Hd.
        rewrite (refines_cell _ _ r c v (Hkeep S1 H1 R1) Hv Hne).
        by rewrite (refines_cell _ _ r c v (Hkeep S2 H2 R2) Hv Hne).
      + pose proof (refines_cell _ _ r c u Href Hu Hnu). congruence.
    - destruct (Hno st eq_refl S0 HS0 Href0).
    - exfalso. destruct Ho as [->|[-> Hle]].
      + pose proof (loop_uncancelled g H W rc cc cb fuel (Stats 0 0 0 0) w
                      Hrc Hcc Hok) as Hnc.
        unfold propagate, hbind in Heq.
        rewrite on_heap_reads in Heq by apply grid_width_reads.
        rewrite (grid_width_ok Hok) in Heq. cbn [fst] in Heq.
        replace (len g) with (Z.of_nat H) in Heq
          by (unfold len; by destruct Hok as [->]).
        by rewrite Heq in Hnc.
      + assert ((unknowns (rows (w_heap w) g) ≤ H * W)%nat); [|lia].
        apply unknowns_le; [done|]. eapply Forall_impl; [done|]. by intros ? [? _].
  Qed.

End stuck.

(** On such a grid, when no line has more than one and fewer than
    [10 ^ 9] candidates, the solve returns "unsolved". *)
Lemma stuck_search g (H W : nat) rc cc h cb max_solutions fuel polls log :
    clues_ok H rc → clues_ok W cc →
    grid_ok h g H W → (H * W < fuel)%nat →
    (∀ r c, cell_of (rows h g) r c = Some UNKNOWN →
       ∃ S1 S2,
         solves rc cc S1 ∧ refines (rows h g) S1 ∧
         solves rc cc S2 ∧ refines (rows h g) S2 ∧
         cell_of S1 r c ≠ cell_of S2 r c) →
    (∃ S, solves rc cc S ∧ refines (rows h g) S) →
    unknowns (rows h g) ≠ 0%nat →
    (∀ e, e ∈ branch_lines (rows h g) H W rc cc → ¬ (1 < len e.2 < 10 ^ 9)) →
    ∃ st w',
      solve_nonogram fuel g rc cc None cb max_solutions (World h polls log)
      = (Ret (Result "unsolved" [] st "No solution"), w').
  Proof.
    intros Hrc Hcc Hok Hfuel Hdiff Hsol Hunk Hnone.
    rewrite (solve_unfold H W) by done. unfold search_run, hbind.
    destruct (copy_grid_ok _ _ H W Hok) as (start & h1 & Hcopy & Hok1 & Hrows).
    unfold on_world at 1, on_heap at 1, zoom. cbn [fst snd w_heap w_polls w_progress].
    rewrite Hcopy. cbn [fst snd].
    destruct fuel as [|fuel]; [lia|].
    destruct (propagate_idle start H W rc cc Hrc Hcc cb (Datatypes.S fuel)
                (World h1 polls log))
      as (st & w1 & Hp & Hh);
      [exact Hok1|exact Hfuel|cbn [w_heap]; by rewrite Hrows
      |cbn [w_heap]; by rewrite Hrows|].
    cbn [w_heap] in Hh.
    assert (Hok2 : grid_ok (w_heap w1) start H W) by (by rewrite Hh).
    destruct (count_fixed_ok _ _ _ _ Hok2) as [n Hn].
    pose proof (is_solved_ok _ _ _ _ Hok2) as Hs.
    rewrite Hh, Hrows, bool_decide_eq_false_2 in Hs by done. rewrite <- Hh in Hs.
    pose proof (best_branch_line_choose Hok2 rc cc Hrc Hcc) as Hb. cbn zeta in Hb.
    rewrite Hh, Hrows, choose_none in Hb by done. rewrite <- Hh in Hb.
    cbn [best_type best_index best_candidates] in Hb.
    destruct (dfs_no_branch fuel rc cc cb max_solutions (Z.of_nat W) start 0
                (Search [] (Stats 0 0 0 0)) _ _ _ n _ _ Hp Hn Hs Hb)
      as (ss' & -> & Hsol').
    cbn [solutions] in Hsol'. rewrite Hsol'. by eexists _, _.
Qed.

(** * A puzzle whose lines are too wide for the selector *)

Lemma bind_singletons {A B} (f : A → list B) (f1 : A → B) (l : list A) :
  (∀ x, x ∈ l → f x = [f1 x]) → l ≫= f = f1 <$> l.
Proof.
  induction l as [|x l IH]; intros Hf; [done|].
  cbn. rewrite Hf by left. rewrite IH; [done|]. intros y Hy. apply Hf. by right.
Qed.

Section blank.
Variable n : nat.
Hypothesis Hn : (0 < n)%nat.

Lemma blank_ok : grid_ok (blank_grid n) (seq 0 n) n n.
  Proof.
    pose proof (load_ok (blank_grid n) n) as Hl. unfold load in Hl. cbn [fst snd] in Hl.
    unfold blank_grid in *. rewrite length_replicate in Hl. apply Hl.
    - destruct n; [lia|done].
    - apply Forall_replicate. rewrite length_replicate. split; [done|].
      apply Forall_replicate. by left.
  Qed.

Lemma blank_rows : rows (blank_grid n) (seq 0 n) = blank_grid n.
  Proof.
    pose proof (rows_load (blank_grid n)) as Hl. unfold load in Hl. cbn [fst snd] in Hl.
    unfold blank_grid in *. by rewrite length_replicate in Hl.
  Qed.

Lemma blank_col (c : nat) :
    col_of (blank_grid n) c = replicate n UNKNOWN ∨ (n ≤ c)%nat.
  Proof.
    destruct (decide (c < n)%nat) as [Hc|Hc]; [left|right; lia].
    unfold col_of. unfold blank_grid. rewrite fmap_replicate.
    by rewrite lookup_replicate_2.
  Qed.

Lemma blank_unknowns : unknowns (blank_grid n) ≠ 0%nat.
  Proof.
    intros Hz. apply unknowns_zero in Hz.
    assert (Hrow : blank_grid n !! 0%nat = Some (replicate n UNKNOWN))
      by (unfold blank_grid; by rewrite lookup_replicate_2).
    apply (Forall_lookup_1 _ _ _ _ Hz Hrow). apply elem_of_replicate. split; [done|lia].
  Qed.

Lemma blank_cell (r c : nat) v :
    cell_of (blank_grid n) r c = Some v → (r < n)%nat ∧ (c < n)%nat.
  Proof.
    unfold cell_of. unfold blank_grid. intros Hv.
    destruct (replicate n (replicate n UNKNOWN) !! r) as [row|] eqn:Hrow; [|done].
    apply lookup_replicate in Hrow as [-> Hr]. cbn in Hv.
    apply lookup_replicate in Hv as [_ Hc]. done.
  Qed.

  (** Every row and every column is a line of the selector, with the
      candidates of a line of [n] unknown cells. *)
Lemma blank_lines (clue : list Z) :
    branch_lines (blank_grid n) n n (replicate n clue) (replicate n clue)
    = ((λ r : nat, ("row"%string, Z.of_nat r,
                    line_cands (Z.of_nat n) clue (replicate n UNKNOWN)))
         <$> seq 0 n) ++
      ((λ c : nat, ("col"%string, Z.of_nat c,
                    line_cands (Z.of_nat n) clue (replicate n UNKNOWN)))
         <$> seq 0 n).
  Proof.
    assert (Hu : UNKNOWN ∈ replicate n UNKNOWN)
      by (apply elem_of_replicate; split; [done|lia]).
    unfold branch_lines. f_equal; apply bind_singletons; intros k Hk;
      apply elem_of_seq in Hk; unfold branch_line.
    - unfold blank_grid. rewrite !lookup_replicate_2 by lia. cbn [default from_option].
      unfold id. by rewrite decide_True.
    - destruct (blank_col k) as [->|?]; [|lia].
      rewrite lookup_replicate_2 by lia. cbn [default from_option].
      unfold id. by rewrite decide_True.
  Qed.
End blank.

Lemma count_sixteen_in_48 :
  len (line_cands (Z.of_nat 48) (replicate 16 1) (replicate 48 UNKNOWN))
  = 1166803110.
Proof.
  change (Z.of_nat 48) with 48. unfold line_cands.
  rewrite (line_candidates_fills 48 (replicate 48 UNKNOWN) eq_refl).
  - rewrite (count_fills 48 (replicate 48 UNKNOWN) (replicate 16 1)).
    + by vm_compute.
    + by apply Forall_replicate.
    + by apply Forall_replicate.
    + lia.
  - by apply Forall_replicate.
Qed.

Lemma diagonals_cell (n k r c : nat) :
  (r < n)%nat → (c < n)%nat →
  cell_of (diagonals n k) r c
  = Some (if decide ((r + c) mod 3 = k)%nat then FILLED else EMPTY).
Proof.
  intros Hr Hc. unfold cell_of, diagonals.
  rewrite list_lookup_fmap, lookup_seq_lt by done. cbn.
  by rewrite list_lookup_fmap, lookup_seq_lt by done.
Qed.

(** The three grids of diagonals solve the puzzle of 48 rows and columns
    with sixteen blocks of one cell in each line. *)
Lemma diagonals_solve (k : nat) :
  (k < 3)%nat →
  solves (replicate 48 (replicate 16 1)) (replicate 48 (replicate 16 1))
    (diagonals 48 k) ∧
  refines (blank_grid 48) (diagonals 48 k).
Proof.
  intros Hk.
  assert (Hcols : Forall (λ c, runs (col_of (diagonals 48 k) c) = replicate 16 1)
                    (seq 0 48)).
  { destruct k as [|[|[|k]]]; [| | |lia]; apply (bool_decide_unpack _); by vm_compute. }
  split; [split; [|split]|].
  - destruct k as [|[|[|k]]]; [| | |lia]; apply (bool_decide_unpack _); by vm_compute.
  - intros c clue [-> Hc]%lookup_replicate.
    apply (Forall_lookup_1 _ _ c c Hcols). by rewrite lookup_seq_lt.
  - destruct k as [|[|[|k]]]; [| | |lia]; apply (bool_decide_unpack _); by vm_compute.
  - unfold refines, blank_grid.
    destruct k as [|[|[|k]]]; [| | |lia]; apply (bool_decide_unpack _); by vm_compute.
Qed.

(** * Claims about the branch selector *)

(** C8.  The selector starts its search for the least candidate count from
    [10 ^ 9] and so never takes a line with that many candidates.  On the
    blank grid of 48 rows and columns with sixteen blocks of one cell in
    every line, which has solutions, each of the 96 lines has an [UNKNOWN]
    cell and 1166803110 candidates, row 0 first among them; propagation
    determines no cell of it, the selector returns the empty selection
    where the claim has it return row 0, and [solve_nonogram] reports
    "unsolved". *)
Theorem wide_lines_end_the_search :
  let clues := replicate 48 (replicate 16 1) in
  let blank := blank_grid 48 in
  let g := seq 0 48 in
  let lines := branch_lines (rows blank g) 48 48 clues clues in
  (solves clues clues (diagonals 48 0) ∧ refines (rows blank g) (diagonals 48 0)) ∧
  (∃ cs, lines !! 0%nat = Some ("row"%string, 0, cs) ∧ len cs = 1166803110) ∧
  (∀ e, e ∈ lines → len e.2 = 1166803110) ∧
  _best_branch_line g clues clues blank = (Ret (EmptyString, -1, []), blank) ∧
  (∃ st w', propagate 2305 g clues clues None false (World blank 0 [])
            = (Ret (true, st), w') ∧ w_heap w' = blank) ∧
  (∃ st w', solve_nonogram 2305 g clues clues None false 2 (World blank 0 [])
            = (Ret (Result "unsolved" [] st "No solution"), w')).
Proof.
  intros clues blank g lines.
  assert (Hn : (0 < 48)%nat) by lia.
  pose proof (blank_ok 48 Hn) as Hok. fold blank g in Hok.
  pose proof (blank_rows 48) as Hrows. fold blank g in Hrows.
  assert (Hrc : clues_ok 48 clues).
  { unfold clues. split; [by rewrite length_replicate|]. apply Forall_replicate.
    by apply Forall_replicate. }
  assert (Hlines : lines =
    ((λ r : nat, ("row"%string, Z.of_nat r,
                  line_cands (Z.of_nat 48) (replicate 16 1)
                    (replicate 48 UNKNOWN)))
       <$> seq 0 48) ++
    ((λ c : nat, ("col"%string, Z.of_nat c,
                  line_cands (Z.of_nat 48) (replicate 16 1)
                    (replicate 48 UNKNOWN)))
       <$> seq 0 48)).
  { subst lines. rewrite Hrows. exact (blank_lines 48 Hn (replicate 16 1)). }
  assert (Hall : ∀ e, e ∈ lines → len e.2 = 1166803110).
  { intros e. rewrite Hlines.
    intros [He|He]%elem_of_app; apply list_elem_of_fmap in He as (k & -> & _);
      exact count_sixteen_in_48. }
  assert (Hdiff : ∀ r c, cell_of (rows blank g) r c = Some UNKNOWN →
    ∃ S1 S2, solves clues clues S1 ∧ refines (rows blank g) S1 ∧
             solves clues clues S2 ∧ refines (rows blank g) S2 ∧
             cell_of S1 r c ≠ cell_of S2 r c).
  { intros r c Hcell. rewrite Hrows in Hcell |- *.
    apply (blank_cell 48) in Hcell as [Hr Hc].
    exists (diagonals 48 ((r + c) mod 3)), (diagonals 48 ((r + c + 1) mod 3)).
    destruct (diagonals_solve ((r + c) mod 3)) as [HS1 HR1];
      [apply Nat.mod_upper_bound; lia|].
    destruct (diagonals_solve ((r + c + 1) mod 3)) as [HS2 HR2];
      [apply Nat.mod_upper_bound; lia|].
    split; [exact HS1|]. split; [exact HR1|]. split; [exact HS2|].
    split; [exact HR2|].
    rewrite (diagonals_cell 48 _ r c Hr Hc), (diagonals_cell 48 _ r c Hr Hc).
    rewrite decide_True by reflexivity.
    rewrite decide_False; [discriminate|].
    pose proof (Nat.div_mod_eq (r + c) 3). pose proof (Nat.div_mod_eq (r + c + 1) 3).
    pose proof (Nat.mod_upper_bound (r + c) 3). pose proof (Nat.mod_upper_bound (r + c + 1) 3).
    generalize dependent ((r + c) mod 3)%nat. generalize dependent ((r + c + 1) mod 3)%nat.
    generalize dependent ((r + c) / 3)%nat. generalize dependent ((r + c + 1) / 3)%nat.
    intros. lia. }
  assert (Hsol : solves clues clues (diagonals 48 0) ∧
                 refines (rows blank g) (diagonals 48 0)).
  { rewrite Hrows. apply diagonals_solve. lia. }
  assert (Hnone : ∀ e, e ∈ lines → ¬ (1 < len e.2 < 10 ^ 9)).
  { intros e He. rewrite (Hall e He). lia. }
  split; [done|]. split.
  { eexists. split; [|exact count_sixteen_in_48]. rewrite Hlines.
    rewrite lookup_app_l by (rewrite length_fmap, length_seq; lia).
    by rewrite list_lookup_fmap, lookup_seq_lt by lia. }
  split; [done|]. split.
  { rewrite (best_branch_line_choose Hok clues clues Hrc Hrc). cbn zeta.
    fold lines. by rewrite choose_none. }
  assert (Hfuel : (48 * 48 < 2305)%nat) by lia.
  split.
  - exact (propagate_idle g 48 48 clues clues Hrc Hrc false 2305 (World blank 0 [])
             Hok Hfuel Hdiff (ex_intro _ (diagonals 48 0) Hsol)).
  - refine (stuck_search g 48 48 clues clues blank false 2 2305 0 [] Hrc Hrc
              Hok Hfuel Hdiff (ex_intro _ (diagonals 48 0) Hsol) _ Hnone).
    rewrite Hrows. exact (blank_unknowns 48 Hn).
Qed.
